(** * The primordial module of CLASS (source/primordial.c)

    A shallow embedding of the primordial-spectrum module: the table lookup
    [primordial_spectrum_at_k], the analytic spectrum, and the inflation
    simulator (potential, derivatives, background evolution, attractor
    search, per-wavenumber mode integration, spectrum assembly).

    Numeric model.  A C [double] is modelled as a real number: [+ - * /],
    [sqrt], [exp], [log], [fabs], [min], [max] are the functions of the
    Standard Library's reals, and [_PI_] is [PI].  Rounding, infinities
    and NaN are outside the model; every concrete input used below avoids
    division by zero and square roots of negative numbers.  A C [int] is an
    integer ([Z] for counters, [nat] for array indices and sizes).

    Control model.  Every function returns the error status of the source
    ([_SUCCESS_] or [_FAILURE_] with the message written by [class_test]);
    [class_call] propagates a failure.  [while] loops without a bound take a
    fuel argument and return [OutOfFuel] when it runs out. *)

From Stdlib Require Import Reals Lra Lia Psatz ZArith.
From stdpp Require Import base decidable list.

Open Scope R_scope.

(** ** Doubles and comparisons *)

#[global] Instance R_inhabited : Inhabited R := populate 0.
#[global] Instance Rle_decision (x y : R) : Decision (x <= y) := Rle_dec x y.
#[global] Instance Rlt_decision (x y : R) : Decision (x < y) := Rlt_dec x y.
#[global] Instance Rge_decision (x y : R) : Decision (x >= y) := Rge_dec x y.
#[global] Instance Rgt_decision (x y : R) : Decision (x > y) := Rgt_dec x y.

(** [_PI_] of common.h. *)
Definition _PI_ : R := PI.

(** ** Error status *)

(** The messages written into [ppm->error_message], one constructor per
    [class_test] of the file, and [msg_external] for a failure reported by
    a routine of another module (integrator, array utilities). *)
Inductive ErrorMsg : Type :=
| msg_k_not_positive            (* "k = %e" *)
| msg_k_out_of_range            (* "k=%e out of range [%e : %e]" *)
| msg_negative_curvature        (* "negative curvature spectrum" *)
| msg_negative_tensor           (* "negative tensor spectrum" *)
| msg_initial_aH                (* "at initial time, a_k_min > a*H*ratio_min" *)
| msg_no_attractor              (* "could not converge after %d iterations: there exists no attractor ..." *)
| msg_epsilon_crossing          (* "Inflaton evolution crosses the border from epsilon<1 to epsilon>1 ..." *)
| msg_potential_negative        (* "This potential becomes negative at phi=%g ..." *)
| msg_potential_slope           (* "All the code is written for the case dV/dphi<0 ..." *)
| msg_external (code : nat).

Inductive outcome (A : Type) : Type :=
| Success (a : A)
| Failure (e : ErrorMsg)
| OutOfFuel.

Arguments Success {A} a.
Arguments Failure {A} e.
Arguments OutOfFuel {A}.

Definition bind {A B : Type} (c : outcome A) (k : A -> outcome B) : outcome B :=
  match c with
  | Success a => k a
  | Failure e => Failure e
  | OutOfFuel => OutOfFuel
  end.

(** [class_call(f, ...)]: run [f], return its failure if it fails. *)
Notation "'class_call' x <- c ; k" := (bind c (fun x => k))
  (at level 10, x pattern, c at level 100, k at level 200, only parsing).

(** [class_test(condition, ..., message)]: fail when [condition] holds. *)
Definition test_condition (condition : bool) (message : ErrorMsg) : outcome unit :=
  if condition then Failure message else Success tt.

Notation "'class_test' ( c , m ) ; k" := (bind (test_condition c m) (fun _ => k))
  (at level 10, c at level 100, m at level 100, k at level 200, only parsing).

(** ** Structures *)

Inductive linear_or_logarithmic : Type := linear | logarithmic.

(** The values of [ppm->primordial_spec_type] named in the source. *)
Inductive primordial_spectrum_type : Type := analytic_Pk | inflation_V.

(** The value of [ppm->potential] named in the source. *)
Inductive potential_shape : Type := polynomial.

(** [struct primordial], restricted to the fields the modelled functions
    read or write.  [lnk_size] is the length of [lnk]. *)
Record primordial : Type := {
  primordial_spec_type : primordial_spectrum_type;
  k_pivot : R;
  lnk : list R;
  ic_size : list nat;
  ic_ic_size : list nat;
  lnpk : list (list R);
  ddlnpk : list (list R);
  is_non_zero : list (list bool);
  amplitude : list (list R);
  tilt : list (list R);
  running : list (list R);
  A_s : R; n_s : R; alpha_s : R;
  r : R; n_t : R; alpha_t : R;
  potential : potential_shape;
  V0 : R; V1 : R; V2 : R; V3 : R; V4 : R;
  phi_pivot : R;
  index_in_a : nat;
  index_in_phi : nat;
  index_in_dphi : nat;
  index_in_ksi_re : nat;
  index_in_ksi_im : nat;
  index_in_dksi_re : nat;
  index_in_dksi_im : nat;
  index_in_ah_re : nat;
  index_in_ah_im : nat;
  index_in_dah_re : nat;
  index_in_dah_im : nat;
  in_bg_size : nat;
  in_size : nat
}.

Definition lnk_size (ppm : primordial) : nat := length (lnk ppm).

(** [struct perturbs], the fields read here. *)
Record perturbs : Type := {
  has_scalars : bool;
  has_tensors : bool;
  index_md_scalars : nat;
  index_md_tensors : nat
}.

(** [struct precision], the fields read here. *)
Record precision : Type := {
  k_per_decade_primordial : R;
  primordial_inflation_ratio_min : R;
  primordial_inflation_ratio_max : R;
  primordial_inflation_pt_stepsize : R;
  primordial_inflation_bg_stepsize : R;
  primordial_inflation_tol_integration : R;
  primordial_inflation_attractor_maxit : Z;
  primordial_inflation_tol_curvature : R;
  smallest_allowed_variation : R
}.

(** Field updates of [struct primordial]. *)
Definition with_indices (ppm : primordial)
    (ia iphi idphi ikr iki idkr idki iar iai idar idai nbg n : nat) : primordial :=
  {| primordial_spec_type := primordial_spec_type ppm; k_pivot := k_pivot ppm;
     lnk := lnk ppm; ic_size := ic_size ppm; ic_ic_size := ic_ic_size ppm;
     lnpk := lnpk ppm; ddlnpk := ddlnpk ppm; is_non_zero := is_non_zero ppm;
     amplitude := amplitude ppm; tilt := tilt ppm; running := running ppm;
     A_s := A_s ppm; n_s := n_s ppm; alpha_s := alpha_s ppm;
     r := r ppm; n_t := n_t ppm; alpha_t := alpha_t ppm;
     potential := potential ppm;
     V0 := V0 ppm; V1 := V1 ppm; V2 := V2 ppm; V3 := V3 ppm; V4 := V4 ppm;
     phi_pivot := phi_pivot ppm;
     index_in_a := ia; index_in_phi := iphi; index_in_dphi := idphi;
     index_in_ksi_re := ikr; index_in_ksi_im := iki;
     index_in_dksi_re := idkr; index_in_dksi_im := idki;
     index_in_ah_re := iar; index_in_ah_im := iai;
     index_in_dah_re := idar; index_in_dah_im := idai;
     in_bg_size := nbg; in_size := n |}.

Definition with_table (ppm : primordial)
    (new_lnpk : list (list R)) (new_is_non_zero : list (list bool)) : primordial :=
  {| primordial_spec_type := primordial_spec_type ppm; k_pivot := k_pivot ppm;
     lnk := lnk ppm; ic_size := ic_size ppm; ic_ic_size := ic_ic_size ppm;
     lnpk := new_lnpk; ddlnpk := ddlnpk ppm; is_non_zero := new_is_non_zero;
     amplitude := amplitude ppm; tilt := tilt ppm; running := running ppm;
     A_s := A_s ppm; n_s := n_s ppm; alpha_s := alpha_s ppm;
     r := r ppm; n_t := n_t ppm; alpha_t := alpha_t ppm;
     potential := potential ppm;
     V0 := V0 ppm; V1 := V1 ppm; V2 := V2 ppm; V3 := V3 ppm; V4 := V4 ppm;
     phi_pivot := phi_pivot ppm;
     index_in_a := index_in_a ppm; index_in_phi := index_in_phi ppm;
     index_in_dphi := index_in_dphi ppm;
     index_in_ksi_re := index_in_ksi_re ppm; index_in_ksi_im := index_in_ksi_im ppm;
     index_in_dksi_re := index_in_dksi_re ppm; index_in_dksi_im := index_in_dksi_im ppm;
     index_in_ah_re := index_in_ah_re ppm; index_in_ah_im := index_in_ah_im ppm;
     index_in_dah_re := index_in_dah_re ppm; index_in_dah_im := index_in_dah_im ppm;
     in_bg_size := in_bg_size ppm; in_size := in_size ppm |}.

Definition with_scalar_parameters (ppm : primordial) (a n al : R) : primordial :=
  {| primordial_spec_type := primordial_spec_type ppm; k_pivot := k_pivot ppm;
     lnk := lnk ppm; ic_size := ic_size ppm; ic_ic_size := ic_ic_size ppm;
     lnpk := lnpk ppm; ddlnpk := ddlnpk ppm; is_non_zero := is_non_zero ppm;
     amplitude := amplitude ppm; tilt := tilt ppm; running := running ppm;
     A_s := a; n_s := n; alpha_s := al;
     r := r ppm; n_t := n_t ppm; alpha_t := alpha_t ppm;
     potential := potential ppm;
     V0 := V0 ppm; V1 := V1 ppm; V2 := V2 ppm; V3 := V3 ppm; V4 := V4 ppm;
     phi_pivot := phi_pivot ppm;
     index_in_a := index_in_a ppm; index_in_phi := index_in_phi ppm;
     index_in_dphi := index_in_dphi ppm;
     index_in_ksi_re := index_in_ksi_re ppm; index_in_ksi_im := index_in_ksi_im ppm;
     index_in_dksi_re := index_in_dksi_re ppm; index_in_dksi_im := index_in_dksi_im ppm;
     index_in_ah_re := index_in_ah_re ppm; index_in_ah_im := index_in_ah_im ppm;
     index_in_dah_re := index_in_dah_re ppm; index_in_dah_im := index_in_dah_im ppm;
     in_bg_size := in_bg_size ppm; in_size := in_size ppm |}.

Definition with_tensor_parameters (ppm : primordial) (ratio n al : R) : primordial :=
  {| primordial_spec_type := primordial_spec_type ppm; k_pivot := k_pivot ppm;
     lnk := lnk ppm; ic_size := ic_size ppm; ic_ic_size := ic_ic_size ppm;
     lnpk := lnpk ppm; ddlnpk := ddlnpk ppm; is_non_zero := is_non_zero ppm;
     amplitude := amplitude ppm; tilt := tilt ppm; running := running ppm;
     A_s := A_s ppm; n_s := n_s ppm; alpha_s := alpha_s ppm;
     r := ratio; n_t := n; alpha_t := al;
     potential := potential ppm;
     V0 := V0 ppm; V1 := V1 ppm; V2 := V2 ppm; V3 := V3 ppm; V4 := V4 ppm;
     phi_pivot := phi_pivot ppm;
     index_in_a := index_in_a ppm; index_in_phi := index_in_phi ppm;
     index_in_dphi := index_in_dphi ppm;
     index_in_ksi_re := index_in_ksi_re ppm; index_in_ksi_im := index_in_ksi_im ppm;
     index_in_dksi_re := index_in_dksi_re ppm; index_in_dksi_im := index_in_dksi_im ppm;
     index_in_ah_re := index_in_ah_re ppm; index_in_ah_im := index_in_ah_im ppm;
     index_in_dah_re := index_in_dah_re ppm; index_in_dah_im := index_in_dah_im ppm;
     in_bg_size := in_bg_size ppm; in_size := in_size ppm |}.

(** ** Potential *)

(** [primordial_inflation_potential]: V, dV/dphi, d2V/dphi2 at [phi]. *)
Definition primordial_inflation_potential (ppm : primordial) (phi : R)
  : outcome (R * R * R) :=
  match potential ppm with
  | polynomial =>
      let V := V0 ppm + (phi - phi_pivot ppm) * V1 ppm
               + (phi - phi_pivot ppm) ^ 2 / 2 * V2 ppm
               + (phi - phi_pivot ppm) ^ 3 / 6 * V3 ppm
               + (phi - phi_pivot ppm) ^ 4 / 24 * V4 ppm in
      let dV := V1 ppm + (phi - phi_pivot ppm) * V2 ppm
                + (phi - phi_pivot ppm) ^ 2 / 2 * V3 ppm
                + (phi - phi_pivot ppm) ^ 3 / 6 * V4 ppm in
      let ddV := V2 ppm + (phi - phi_pivot ppm) * V3 ppm
                 + (phi - phi_pivot ppm) ^ 2 / 2 * V4 ppm in
      Success (V, dV, ddV)
  end.

(** [primordial_inflation_indices]. *)
Definition primordial_inflation_indices (ppm : primordial) : outcome primordial :=
  let index_in := 0%nat in
  let ia := index_in in let index_in := S index_in in
  let iphi := index_in in let index_in := S index_in in
  let idphi := index_in in let index_in := S index_in in
  let nbg := index_in in
  let ikr := index_in in let index_in := S index_in in
  let iki := index_in in let index_in := S index_in in
  let idkr := index_in in let index_in := S index_in in
  let idki := index_in in let index_in := S index_in in
  let iar := index_in in let index_in := S index_in in
  let iai := index_in in let index_in := S index_in in
  let idar := index_in in let index_in := S index_in in
  let idai := index_in in let index_in := S index_in in
  Success (with_indices ppm ia iphi idphi ikr iki idkr idki iar iai idar idai nbg index_in).

(** [primordial_inflation_check_potential]. *)
Definition primordial_inflation_check_potential (ppm : primordial) (phi : R)
  : outcome unit :=
  class_call (V, dV, ddV) <- primordial_inflation_potential ppm phi ;
  class_test (bool_decide (V <= 0), msg_potential_negative) ;
  class_test (bool_decide (dV >= 0), msg_potential_slope) ;
  Success tt.

(** [primordial_inflation_get_epsilon]; the second argument is the
    parameter the source names [phi]. *)
Definition primordial_inflation_get_epsilon (ppm : primordial) (phi : R)
  : outcome R :=
  class_call (V, dV, ddV) <- primordial_inflation_potential ppm phi ;
  Success (1 / 16 / _PI_ * (dV / V) ^ 2).

(** ** Derivatives *)

(** [struct primordial_inflation_parameters_and_workspace]: the inputs [N]
    and [k].  The scratch fields [V], [dV], [ddV], [a2V], [a2dV], [a2ddV],
    [aH], [zpp_over_z], [app_over_a] are written and read only inside one
    call of [primordial_inflation_derivs]; they are local bindings there. *)
Record primordial_inflation_parameters_and_workspace : Type := {
  pipaw_N : nat;
  pipaw_k : R
}.

(** [primordial_inflation_derivs]: fills [dy] from [y]. *)
Definition primordial_inflation_derivs (ppm : primordial)
    (ppipaw : primordial_inflation_parameters_and_workspace)
    (tau : R) (y dy : list R) : outcome (list R) :=
  class_call (V, dV, ddV) <- primordial_inflation_potential ppm (y !!! index_in_phi ppm) ;
  let a2V := y !!! index_in_a ppm * y !!! index_in_a ppm * V in
  let a2dV := y !!! index_in_a ppm * y !!! index_in_a ppm * dV in
  let aH := sqrt ((8 * _PI_ / 3)
                  * (0.5 * y !!! index_in_dphi ppm * y !!! index_in_dphi ppm + a2V)) in
  let dy := <[index_in_a ppm := y !!! index_in_a ppm * aH]> dy in
  let dy := <[index_in_phi ppm := y !!! index_in_dphi ppm]> dy in
  let dy := <[index_in_dphi ppm := -2 * aH * y !!! index_in_dphi ppm - a2dV]> dy in
  if Nat.eqb (pipaw_N ppipaw) (in_bg_size ppm) then Success dy
  else
    let k := pipaw_k ppipaw in
    let a2ddV := y !!! index_in_a ppm * y !!! index_in_a ppm * ddV in
    let zpp_over_z :=
      2 * aH * aH - a2ddV
      - 4 * _PI_ * (7 * y !!! index_in_dphi ppm * y !!! index_in_dphi ppm
                    + 4 * y !!! index_in_dphi ppm / aH * a2dV)
      + 32 * _PI_ * _PI_ * (y !!! index_in_dphi ppm) ^ 4 / aH ^ 2 in
    let app_over_a :=
      2 * aH * aH - 4 * _PI_ * y !!! index_in_dphi ppm * y !!! index_in_dphi ppm in
    let dy := <[index_in_ksi_re ppm := y !!! index_in_dksi_re ppm]> dy in
    let dy := <[index_in_ksi_im ppm := y !!! index_in_dksi_im ppm]> dy in
    let dy := <[index_in_dksi_re ppm := - (k * k - zpp_over_z) * y !!! index_in_ksi_re ppm]> dy in
    let dy := <[index_in_dksi_im ppm := - (k * k - zpp_over_z) * y !!! index_in_ksi_im ppm]> dy in
    let dy := <[index_in_ah_re ppm := y !!! index_in_dah_re ppm]> dy in
    let dy := <[index_in_ah_im ppm := y !!! index_in_dah_im ppm]> dy in
    let dy := <[index_in_dah_re ppm := - (k * k - app_over_a) * y !!! index_in_ah_re ppm]> dy in
    let dy := <[index_in_dah_im ppm := - (k * k - app_over_a) * y !!! index_in_ah_im ppm]> dy in
    Success dy.

(** ** The generic integrator (tools/evolver, not part of this file)

    [generic_integrator(derivs, tau_start, tau_end, y, parameters, tol,
    minimum_variation, &gi)] advances [y] from [tau_start] to [tau_end]; it
    and the workspace set-up and clean-up may fail. *)
Class GenericIntegrator : Type := {
  generic_integrator_workspace : Type;
  initialize_generic_integrator : nat -> outcome generic_integrator_workspace;
  generic_integrator :
    (R -> list R -> list R -> outcome (list R)) ->
    R -> R -> list R -> R -> R -> generic_integrator_workspace ->
    outcome (list R * generic_integrator_workspace);
  cleanup_generic_integrator : generic_integrator_workspace -> outcome unit
}.

(** [for (i = lo; i < hi; i++) body], on a state [s]. *)
Definition for_loop {S : Type} (lo hi : nat) (body : nat -> S -> S) (s : S) : S :=
  fold_left (fun s i => body i s) (seq lo (hi - lo)) s.

Section Inflation.

Context `{GI : GenericIntegrator}.

Variable ppm : primordial.
Variable ppr : precision.

(** ** Background evolution *)

(** The adaptive step of the background loops:
    [bg_stepsize * min(1/aH, |y[dphi]/dy[dphi]|)] with [aH = dy[a]/y[a]]. *)
Definition background_dtau (y dy : list R) : R :=
  let aH := dy !!! index_in_a ppm / y !!! index_in_a ppm in
  primordial_inflation_bg_stepsize ppr
  * Rmin (1 / aH) (Rabs (y !!! index_in_dphi ppm / dy !!! index_in_dphi ppm)).

(** The variables live across the loop of
    [primordial_inflation_evolve_background]. *)
Record background_state : Type := {
  bg_y : list R;
  bg_dy : list R;
  bg_tau_end : R;
  bg_dtau : R;
  bg_epsilon : R;
  bg_gi : generic_integrator_workspace
}.

Definition bg_pipaw : primordial_inflation_parameters_and_workspace :=
  {| pipaw_N := in_bg_size ppm; pipaw_k := 0 |}.

(** The loop test of [primordial_inflation_evolve_background]. *)
Definition evolve_background_continue (phi_stop : R) (s : background_state) : bool :=
  bool_decide (bg_y s !!! index_in_phi ppm
               <= phi_stop - bg_y s !!! index_in_dphi ppm * bg_dtau s).

(** One pass through the body of that loop. *)
Definition evolve_background_step (s : background_state) : outcome background_state :=
  class_call _ <- primordial_inflation_check_potential ppm (bg_y s !!! index_in_phi ppm) ;
  let tau_start := bg_tau_end s in
  class_call dy <- primordial_inflation_derivs ppm bg_pipaw tau_start (bg_y s) (bg_dy s) ;
  let dtau := background_dtau (bg_y s) dy in
  let tau_end := tau_start + dtau in
  class_call (y, gi) <- generic_integrator (primordial_inflation_derivs ppm bg_pipaw)
                          tau_start tau_end (bg_y s)
                          (primordial_inflation_tol_integration ppr)
                          (smallest_allowed_variation ppr) (bg_gi s) ;
  let epsilon_old := bg_epsilon s in
  class_call epsilon <- primordial_inflation_get_epsilon ppm (y !!! index_in_dphi ppm) ;
  class_test (bool_decide (epsilon > 1) && bool_decide (epsilon_old <= 1),
              msg_epsilon_crossing) ;
  Success {| bg_y := y; bg_dy := dy; bg_tau_end := tau_end; bg_dtau := dtau;
             bg_epsilon := epsilon; bg_gi := gi |}.

Fixpoint evolve_background_loop (fuel : nat) (phi_stop : R) (s : background_state)
  : outcome background_state :=
  match fuel with
  | O => OutOfFuel
  | S fuel' =>
      if evolve_background_continue phi_stop s then
        class_call s' <- evolve_background_step s ;
        evolve_background_loop fuel' phi_stop s'
      else Success s
  end.

(** The statements after the loop: one step of size
    [(phi_stop - y[phi]) / dy[index_in_dphi]] along the derivative. *)
Definition evolve_background_last_step (phi_stop : R) (y dy : list R) : list R :=
  let dtau := (phi_stop - y !!! index_in_phi ppm) / dy !!! index_in_dphi ppm in
  let y := <[index_in_a ppm := y !!! index_in_a ppm + dy !!! index_in_a ppm * dtau]> y in
  let y := <[index_in_phi ppm := y !!! index_in_phi ppm + dy !!! index_in_phi ppm * dtau]> y in
  let y := <[index_in_dphi ppm := y !!! index_in_dphi ppm + dy !!! index_in_dphi ppm * dtau]> y in
  y.

(** [primordial_inflation_evolve_background]; returns the arrays [y], [dy]. *)
Definition primordial_inflation_evolve_background (fuel : nat)
    (y dy : list R) (phi_stop : R) : outcome (list R * list R) :=
  class_call gi <- initialize_generic_integrator (pipaw_N bg_pipaw) ;
  class_call epsilon <- primordial_inflation_get_epsilon ppm (y !!! index_in_dphi ppm) ;
  let tau_end := 0 in
  class_call dy <- primordial_inflation_derivs ppm bg_pipaw tau_end y dy ;
  let dtau := background_dtau y dy in
  class_call s <- evolve_background_loop fuel phi_stop
                    {| bg_y := y; bg_dy := dy; bg_tau_end := tau_end; bg_dtau := dtau;
                       bg_epsilon := epsilon; bg_gi := gi |} ;
  class_call _ <- cleanup_generic_integrator (bg_gi s) ;
  class_call dy <- primordial_inflation_derivs ppm bg_pipaw (bg_tau_end s) (bg_y s) (bg_dy s) ;
  Success (evolve_background_last_step phi_stop (bg_y s) dy, dy).

(** ** Reaching a given aH *)

Record reach_state : Type := {
  ra_y : list R;
  ra_dy : list R;
  ra_tau_end : R;
  ra_gi : generic_integrator_workspace
}.

Definition reach_aH_continue (aH_stop : R) (s : reach_state) : bool :=
  bool_decide (ra_dy s !!! index_in_a ppm / ra_y s !!! index_in_a ppm < aH_stop).

Definition reach_aH_step (s : reach_state) : outcome reach_state :=
  class_call _ <- primordial_inflation_check_potential ppm (ra_y s !!! index_in_phi ppm) ;
  let tau_start := ra_tau_end s in
  class_call dy <- primordial_inflation_derivs ppm bg_pipaw tau_start (ra_y s) (ra_dy s) ;
  let dtau := background_dtau (ra_y s) dy in
  let tau_end := tau_start + dtau in
  class_call (y, gi) <- generic_integrator (primordial_inflation_derivs ppm bg_pipaw)
                          tau_start tau_end (ra_y s)
                          (primordial_inflation_tol_integration ppr)
                          (smallest_allowed_variation ppr) (ra_gi s) ;
  Success {| ra_y := y; ra_dy := dy; ra_tau_end := tau_end; ra_gi := gi |}.

Fixpoint reach_aH_loop (fuel : nat) (aH_stop : R) (s : reach_state)
  : outcome reach_state :=
  match fuel with
  | O => OutOfFuel
  | S fuel' =>
      if reach_aH_continue aH_stop s then
        class_call s' <- reach_aH_step s ;
        reach_aH_loop fuel' aH_stop s'
      else Success s
  end.

(** [primordial_inflation_reach_aH]. *)
Definition primordial_inflation_reach_aH (fuel : nat)
    (y dy : list R) (aH_stop : R) : outcome (list R * list R) :=
  class_call gi <- initialize_generic_integrator (pipaw_N bg_pipaw) ;
  let tau_end := 0 in
  class_call dy <- primordial_inflation_derivs ppm bg_pipaw tau_end y dy ;
  class_call s <- reach_aH_loop fuel aH_stop
                    {| ra_y := y; ra_dy := dy; ra_tau_end := tau_end; ra_gi := gi |} ;
  class_call _ <- cleanup_generic_integrator (ra_gi s) ;
  Success (ra_y s, ra_dy s).

(** ** Attractor search *)

Record attractor_state : Type := {
  at_y : list R;
  at_dy : list R;
  at_phi : R;
  at_counter : Z;
  at_dphidt_0new : R;
  at_dphidt_0old : R
}.

Definition find_attractor_continue (precision : R) (s : attractor_state) : bool :=
  bool_decide (Rabs (at_dphidt_0new s / at_dphidt_0old s - 1) >= precision).

(** One pass through the loop of [primordial_inflation_find_attractor];
    [V_0], [dV_0] are the values computed before the loop. *)
Definition find_attractor_step (fuel : nat) (phi_0 V_0 dV_0 : R)
    (s : attractor_state) : outcome attractor_state :=
  let counter := (at_counter s + 1)%Z in
  class_test (bool_decide (counter >= primordial_inflation_attractor_maxit ppr)%Z,
              msg_no_attractor) ;
  let dphidt_0old := at_dphidt_0new s in
  let phi := at_phi s + dV_0 / V_0 / 16 / _PI_ in
  class_call _ <- primordial_inflation_check_potential ppm phi ;
  class_call (V, dV, ddV) <- primordial_inflation_potential ppm phi ;
  let a := 1 in
  let dphidt := (- dV) / 3 / sqrt ((8 * _PI_ / 3) * V) in
  let y := <[index_in_a ppm := a]> (at_y s) in
  let y := <[index_in_phi ppm := phi]> y in
  let y := <[index_in_dphi ppm := a * dphidt]> y in
  class_call (y, dy) <- primordial_inflation_evolve_background fuel y (at_dy s) phi_0 ;
  let dphidt_0new := y !!! index_in_dphi ppm / y !!! index_in_a ppm in
  Success {| at_y := y; at_dy := dy; at_phi := phi; at_counter := counter;
             at_dphidt_0new := dphidt_0new; at_dphidt_0old := dphidt_0old |}.

Fixpoint find_attractor_loop (fuel : nat) (phi_0 precision V_0 dV_0 : R)
    (s : attractor_state) : outcome attractor_state :=
  match fuel with
  | O => OutOfFuel
  | S fuel' =>
      if find_attractor_continue precision s then
        class_call s' <- find_attractor_step fuel' phi_0 V_0 dV_0 s ;
        find_attractor_loop fuel' phi_0 precision V_0 dV_0 s'
      else Success s
  end.

(** [primordial_inflation_find_attractor]; returns [y], [dy], [*H_0],
    [*dphidt_0].  The local [phi] is declared without an initial value and
    is read by the first call of [primordial_inflation_potential], before
    [phi = phi_0]; [phi_indeterminate] is the value that read yields. *)
Definition primordial_inflation_find_attractor (fuel : nat) (phi_indeterminate : R)
    (phi_0 precision : R) (y dy : list R) : outcome (list R * list R * R * R) :=
  let phi := phi_indeterminate in
  class_call (V_0, dV_0, ddV_0) <- primordial_inflation_potential ppm phi ;
  let dphidt_0new := (- dV_0) / 3 / sqrt ((8 * _PI_ / 3) * V_0) in
  let phi := phi_0 in
  let counter := 0%Z in
  let dphidt_0old := dphidt_0new / (precision + 2) in
  class_call s <- find_attractor_loop fuel phi_0 precision V_0 dV_0
                    {| at_y := y; at_dy := dy; at_phi := phi; at_counter := counter;
                       at_dphidt_0new := dphidt_0new; at_dphidt_0old := dphidt_0old |} ;
  let dphidt_0 := at_dphidt_0new s in
  let H_0 := sqrt ((8 * _PI_ / 3)
                   * (0.5 * at_dphidt_0new s * at_dphidt_0new s + V_0)) in
  Success (at_y s, at_dy s, H_0, dphidt_0).

(** ** Mode integration for one wavenumber *)

Record mode_state : Type := {
  md_y : list R;
  md_dy : list R;
  md_tau_end : R;
  md_dtau : R;
  md_aH : R;
  md_curvature_new : R;
  md_dlnPdN : R;
  md_gi : generic_integrator_workspace
}.

Definition mode_pipaw (k : R) : primordial_inflation_parameters_and_workspace :=
  {| pipaw_N := in_size ppm; pipaw_k := k |}.

(** The eight assignments that start [primordial_inflation_one_k]. *)
Definition one_k_initial_conditions (k : R) (y : list R) : list R :=
  let y := <[index_in_ksi_re ppm := 1 / sqrt (2 * k)]> y in
  let y := <[index_in_ksi_im ppm := 0]> y in
  let y := <[index_in_dksi_re ppm := 0]> y in
  let y := <[index_in_dksi_im ppm := - k * y !!! index_in_ksi_re ppm]> y in
  let y := <[index_in_ah_re ppm := 1 / sqrt (2 * k)]> y in
  let y := <[index_in_ah_im ppm := 0]> y in
  let y := <[index_in_dah_re ppm := 0]> y in
  let y := <[index_in_dah_im ppm := - k * y !!! index_in_ah_re ppm]> y in
  y.

Definition mode_dtau (k : R) (y dy : list R) : R :=
  primordial_inflation_pt_stepsize ppr * 2 * _PI_
  / Rmax (sqrt (Rabs (dy !!! index_in_dksi_re ppm / y !!! index_in_ksi_re ppm))) k.

(** One pass through the body of the [do ... while] loop. *)
Definition one_k_step (k : R) (s : mode_state) : outcome mode_state :=
  let tau_start := md_tau_end s in
  let tau_end := tau_start + md_dtau s in
  class_call (y, gi) <- generic_integrator (primordial_inflation_derivs ppm (mode_pipaw k))
                          tau_start tau_end (md_y s)
                          (primordial_inflation_tol_integration ppr)
                          (smallest_allowed_variation ppr) (md_gi s) ;
  class_call dy <- primordial_inflation_derivs ppm (mode_pipaw k) tau_end y (md_dy s) ;
  let dtau := mode_dtau k y dy in
  let aH := dy !!! index_in_a ppm / y !!! index_in_a ppm in
  let curvature_old := md_curvature_new s in
  let z := y !!! index_in_a ppm * y !!! index_in_dphi ppm / aH in
  let ksi2 := y !!! index_in_ksi_re ppm * y !!! index_in_ksi_re ppm
              + y !!! index_in_ksi_im ppm * y !!! index_in_ksi_im ppm in
  let curvature_new := k * k * k / 2 / _PI_ / _PI_ * ksi2 / z / z in
  let dlnPdN := (curvature_new - curvature_old) / dtau
                * y !!! index_in_a ppm / dy !!! index_in_a ppm / curvature_new in
  Success {| md_y := y; md_dy := dy; md_tau_end := tau_end; md_dtau := dtau;
             md_aH := aH; md_curvature_new := curvature_new; md_dlnPdN := dlnPdN;
             md_gi := gi |}.

(** The test of the [do ... while] loop. *)
Definition one_k_continue (k : R) (s : mode_state) : bool :=
  bool_decide (k / md_aH s >= primordial_inflation_ratio_max ppr)
  || bool_decide (Rabs (md_dlnPdN s) > primordial_inflation_tol_curvature ppr).

Fixpoint one_k_loop (fuel : nat) (k : R) (s : mode_state) : outcome mode_state :=
  match fuel with
  | O => OutOfFuel
  | S fuel' =>
      class_call s' <- one_k_step k s ;
      if one_k_continue k s' then one_k_loop fuel' k s' else Success s'
  end.

(** [primordial_inflation_one_k]; returns [y], [dy], [*curvature],
    [*tensor].  [aH] and [dlnPdN] have no value before the first pass of
    the loop and are not read before it assigns them. *)
Definition primordial_inflation_one_k (fuel : nat) (k : R) (y dy : list R)
  : outcome (list R * list R * R * R) :=
  class_call gi <- initialize_generic_integrator (pipaw_N (mode_pipaw k)) ;
  let y := one_k_initial_conditions k y in
  let curvature_new := 1e10 in
  let tau_end := 0 in
  class_call dy <- primordial_inflation_derivs ppm (mode_pipaw k) tau_end y dy ;
  let dtau := mode_dtau k y dy in
  class_call s <- one_k_loop fuel k
                    {| md_y := y; md_dy := dy; md_tau_end := tau_end; md_dtau := dtau;
                       md_aH := 0; md_curvature_new := curvature_new; md_dlnPdN := 0;
                       md_gi := gi |} ;
  class_call _ <- cleanup_generic_integrator (md_gi s) ;
  let curvature := md_curvature_new s in
  let y := md_y s in
  let ah2 := y !!! index_in_ah_re ppm * y !!! index_in_ah_re ppm
             + y !!! index_in_ah_im ppm * y !!! index_in_ah_im ppm in
  let tensor := 32 * k * k * k / _PI_ * ah2 / y !!! index_in_a ppm / y !!! index_in_a ppm in
  Success (y, md_dy s, curvature, tensor).

(** ** Spectrum assembly *)

Variable ppt : perturbs.

(** The two tests and four assignments that end the body of the loop over
    [index_k] in [primordial_inflation_spectra]. *)
Definition spectra_store (table : primordial) (index_k : nat) (curvature tensors : R)
  : outcome primordial :=
  class_test (bool_decide (curvature <= 0), msg_negative_curvature) ;
  class_test (bool_decide (tensors <= 0), msg_negative_tensor) ;
  let t := lnpk table in
  let t := <[index_md_scalars ppt := <[index_k := ln curvature]> (t !!! index_md_scalars ppt)]> t in
  let t := <[index_md_tensors ppt := <[index_k := ln tensors]> (t !!! index_md_tensors ppt)]> t in
  let z := is_non_zero table in
  let z := <[index_md_scalars ppt := <[0%nat := true]> (z !!! index_md_scalars ppt)]> z in
  let z := <[index_md_tensors ppt := <[0%nat := true]> (z !!! index_md_tensors ppt)]> z in
  Success (with_table table t z).

(** The body of the loop over [index_k]; [table] is [ppm] with the entries
    written so far. *)
Definition spectra_step (fuel : nat) (y_ini : list R) (index_k : nat)
    (st : primordial * list R * list R) : outcome (primordial * list R * list R) :=
  let '(table, y, dy) := st in
  let k := exp (lnk ppm !!! index_k) in
  let y := <[index_in_a ppm := y_ini !!! index_in_a ppm]> y in
  let y := <[index_in_phi ppm := y_ini !!! index_in_phi ppm]> y in
  let y := <[index_in_dphi ppm := y_ini !!! index_in_dphi ppm]> y in
  class_call (y, dy) <- primordial_inflation_reach_aH fuel y dy
                          (k / primordial_inflation_ratio_min ppr) ;
  class_call (y, dy, curvature, tensors) <- primordial_inflation_one_k fuel k y dy ;
  class_call table <- spectra_store table index_k curvature tensors ;
  Success (table, y, dy).

Fixpoint spectra_loop (fuel : nat) (y_ini : list R) (indices : list nat)
    (st : primordial * list R * list R) : outcome (primordial * list R * list R) :=
  match indices with
  | [] => Success st
  | index_k :: rest =>
      class_call st' <- spectra_step fuel y_ini index_k st ;
      spectra_loop fuel y_ini rest st'
  end.

(** [primordial_inflation_spectra]; returns [ppm] with its table filled. *)
Definition primordial_inflation_spectra (fuel : nat) (y_ini y dy : list R)
  : outcome primordial :=
  class_call _ <- primordial_inflation_check_potential ppm (y_ini !!! index_in_phi ppm) ;
  class_call (V, dV, ddV) <- primordial_inflation_potential ppm (y_ini !!! index_in_phi ppm) ;
  let aH := sqrt ((8 * _PI_ / 3)
                  * (0.5 * y_ini !!! index_in_dphi ppm * y_ini !!! index_in_dphi ppm
                     + y_ini !!! index_in_a ppm * y_ini !!! index_in_a ppm * V)) in
  class_test (bool_decide (aH >= exp (lnk ppm !!! 0%nat) / primordial_inflation_ratio_min ppr),
              msg_initial_aH) ;
  class_call (table, _, _) <- spectra_loop fuel y_ini (seq 0 (lnk_size ppm)) (ppm, y, dy) ;
  Success table.

End Inflation.

(** ** Analytic spectrum and table lookup *)

(** Modelled from the spec: [index_symmetric_matrix] is a macro of another
    header; the spec gives it as the packed upper-triangular index
    [pair_index(i, j, n) = i*n - i*(i-1)/2 + (j-i)], used with [i <= j]. *)
Definition index_symmetric_matrix (i1 i2 N : nat) : nat :=
  (i1 * N - i1 * (i1 - 1) / 2 + (i2 - i1))%nat.

(** [primordial_analytic_spectrum]: the value written to [*pk].  The
    function returns [_SUCCESS_] on every path. *)
Definition primordial_analytic_spectrum (ppm : primordial)
    (index_mode index_ic1_ic2 : nat) (k : R) : R :=
  if ((is_non_zero ppm !!! index_mode) !!! index_ic1_ic2 : bool) then
    (amplitude ppm !!! index_mode : list R) !!! index_ic1_ic2
    * exp (((tilt ppm !!! index_mode : list R) !!! index_ic1_ic2 - 1) * ln (k / k_pivot ppm)
           + 0.5 * (running ppm !!! index_mode : list R) !!! index_ic1_ic2
             * ln (k / k_pivot ppm) ^ 2)
  else 0.

(** The array utilities (tools/arrays, not part of this file):
    [array_interpolate_spline(x_array, n_lines, array, array_splined,
    n_columns, x, &last_index, result, result_size, errmsg)] returns its
    status with [last_index], and the [result] array as it leaves it. *)
Class ArrayTools : Type := {
  array_interpolate_spline :
    list R -> nat -> list R -> list R -> nat -> R -> list R -> nat ->
    outcome nat * list R
}.

(** The first block of [primordial_spectrum_at_k]: "infer ln(k) from
    input. In linear mode, reject negative value of input k value." *)
Definition infer_lnk (mode : linear_or_logarithmic) (input : R) : outcome R :=
  match mode with
  | linear =>
      class_test (bool_decide (input <= 0), msg_k_not_positive) ;
      Success (ln input)
  | logarithmic => Success input
  end.

Section Table.

Context `{AT : ArrayTools}.

Variable ppm : primordial.

(** The "direct computation" loops of [primordial_spectrum_at_k]. *)
Definition direct_computation (index_mode : nat) (lnk_ : R) (output : list R) : list R :=
  let n := ic_size ppm !!! index_mode in
  for_loop 0 n (fun index_ic1 output =>
    for_loop index_ic1 n (fun index_ic2 output =>
      let index_ic1_ic2 := index_symmetric_matrix index_ic1 index_ic2 n in
      if ((is_non_zero ppm !!! index_mode) !!! index_ic1_ic2 : bool) then
        <[index_ic1_ic2 :=
            primordial_analytic_spectrum ppm index_mode index_ic1_ic2 (exp lnk_)]> output
      else <[index_ic1_ic2 := 0]> output) output) output.

(** The transformation applied after the direct computation when
    [mode == logarithmic]. *)
Definition to_logarithmic (index_mode : nat) (output : list R) : list R :=
  let n := ic_size ppm !!! index_mode in
  let output :=
    for_loop 0 n (fun index_ic1 output =>
      let index_ic1_ic2 := index_symmetric_matrix index_ic1 index_ic1 n in
      <[index_ic1_ic2 := ln (output !!! index_ic1_ic2)]> output) output in
  for_loop 0 n (fun index_ic1 output =>
    for_loop (index_ic1 + 1) n (fun index_ic2 output =>
      let index_ic1_ic2 := index_symmetric_matrix index_ic1 index_ic2 n in
      if ((is_non_zero ppm !!! index_mode) !!! index_ic1_ic2 : bool) then
        <[index_ic1_ic2 :=
            output !!! index_ic1_ic2
            / sqrt (output !!! index_symmetric_matrix index_ic1 index_ic1 n
                    * output !!! index_symmetric_matrix index_ic2 index_ic2 n)]> output
      else output) output) output.

(** The transformation applied after the interpolation when
    [mode == linear]. *)
Definition to_linear (index_mode : nat) (output : list R) : list R :=
  let n := ic_size ppm !!! index_mode in
  let output :=
    for_loop 0 n (fun index_ic1 output =>
      let index_ic1_ic2 := index_symmetric_matrix index_ic1 index_ic1 n in
      <[index_ic1_ic2 := exp (output !!! index_ic1_ic2)]> output) output in
  for_loop 0 n (fun index_ic1 output =>
    for_loop (index_ic1 + 1) n (fun index_ic2 output =>
      let index_ic1_ic2 := index_symmetric_matrix index_ic1 index_ic2 n in
      if ((is_non_zero ppm !!! index_mode) !!! index_ic1_ic2 : bool) then
        <[index_ic1_ic2 :=
            output !!! index_ic1_ic2
            * sqrt (output !!! index_symmetric_matrix index_ic1 index_ic1 n
                    * output !!! index_symmetric_matrix index_ic2 index_ic2 n)]> output
      else <[index_ic1_ic2 := 0]> output) output) output.

(** [primordial_spectrum_at_k]: the error status, and the caller's
    [output] array as the call leaves it. *)
Definition primordial_spectrum_at_k (index_mode : nat) (mode : linear_or_logarithmic)
    (input : R) (output : list R) : outcome unit * list R :=
  match infer_lnk mode input with
  | Failure e => (Failure e, output)
  | OutOfFuel => (OutOfFuel, output)
  | Success lnk_ =>
      if bool_decide (lnk_ > lnk ppm !!! (lnk_size ppm - 1)%nat)
         || bool_decide (lnk_ < lnk ppm !!! 0%nat)
      then
        match primordial_spec_type ppm with
        | analytic_Pk =>
            let output := direct_computation index_mode lnk_ output in
            let output :=
              match mode with
              | logarithmic => to_logarithmic index_mode output
              | linear => output
              end in
            (Success tt, output)
        | _ => (Failure msg_k_out_of_range, output)
        end
      else
        match array_interpolate_spline (lnk ppm) (lnk_size ppm)
                (lnpk ppm !!! index_mode) (ddlnpk ppm !!! index_mode)
                (ic_ic_size ppm !!! index_mode) lnk_ output
                (ic_ic_size ppm !!! index_mode) with
        | (Success last_index, output) =>
            let output :=
              match mode with
              | linear => to_linear index_mode output
              | logarithmic => output
              end in
            (Success tt, output)
        | (Failure e, output) => (Failure e, output)
        | (OutOfFuel, output) => (OutOfFuel, output)
        end
  end.

(** A call [primordial_spectrum_at_k(ppm, index_mode, mode, input, &x)]
    whose output array is the single [double] local [x]: the value of [x]
    after a successful call. *)
Definition spectrum_at_k_into (index_mode : nat) (mode : linear_or_logarithmic)
    (input : R) (x : R) : outcome R :=
  match primordial_spectrum_at_k index_mode mode input [x] with
  | (Success _, output) => Success (output !!! 0%nat)
  | (Failure e, _) => Failure e
  | (OutOfFuel, _) => OutOfFuel
  end.

End Table.

(** The last block of [primordial_init] ("derive spectral parameters from
    numerically computed spectra").  The locals [lnpk_pivot], [lnpk_plus],
    [lnpk_minus] are declared without initial values; [locals] holds what
    they contain when the block starts. *)
Definition primordial_init_spectral_parameters `{AT : ArrayTools}
    (ppr : precision) (ppt : perturbs) (ppm : primordial) (locals : R * R * R)
  : outcome primordial :=
  let '(lnpk_pivot, lnpk_plus, lnpk_minus) := locals in
  match primordial_spec_type ppm with
  | analytic_Pk => Success ppm
  | _ =>
      let dlnk := ln 10 / k_per_decade_primordial ppr in
      class_call (ppm, lnpk_pivot, lnpk_plus, lnpk_minus) <-
        (if has_scalars ppt then
           class_call lnpk_pivot <- spectrum_at_k_into ppm (index_md_scalars ppt) logarithmic
                                      (ln (k_pivot ppm)) lnpk_pivot ;
           class_call lnpk_plus <- spectrum_at_k_into ppm (index_md_scalars ppt) logarithmic
                                     (ln (k_pivot ppm) + dlnk) lnpk_plus ;
           class_call lnpk_minus <- spectrum_at_k_into ppm (index_md_scalars ppt) logarithmic
                                      (ln (k_pivot ppm) - dlnk) lnpk_minus ;
           Success (with_scalar_parameters ppm
                      (exp lnpk_pivot)
                      ((lnpk_plus - lnpk_minus) / (2 * dlnk) + 1)
                      ((lnpk_plus - 2 * lnpk_pivot + lnpk_minus) / dlnk ^ 2),
                    lnpk_pivot, lnpk_plus, lnpk_minus)
         else Success (ppm, lnpk_pivot, lnpk_plus, lnpk_minus)) ;
      if has_tensors ppt then
        class_call lnpk_pivot <- spectrum_at_k_into ppm (index_md_tensors ppt) logarithmic
                                   (ln (k_pivot ppm)) lnpk_pivot ;
        class_call lnpk_plus <- spectrum_at_k_into ppm (index_md_tensors ppt) logarithmic
                                  (ln (k_pivot ppm) + dlnk) lnpk_plus ;
        class_call lnpk_minus <- spectrum_at_k_into ppm (index_md_tensors ppt) logarithmic
                                   (ln (k_pivot ppm) - dlnk) lnpk_minus ;
        Success (with_tensor_parameters ppm
                   (exp lnpk_pivot / A_s ppm)
                   ((lnpk_plus - lnpk_minus) / (2 * dlnk))
                   ((lnpk_plus - 2 * lnpk_pivot + lnpk_minus) / dlnk ^ 2))
      else Success ppm
  end.

(** ** Concrete collaborators and configurations

    The integrator and the array utilities belong to other modules.  To run
    the code on concrete inputs, the integrator is instantiated with one
    explicit Euler step ([y + (tau_end - tau_start) * dy(tau_start, y)]),
    and the interpolation with the table line of the first node. *)

Definition euler_step (derivs : R -> list R -> list R -> outcome (list R))
    (tau_start tau_end : R) (y : list R) : outcome (list R) :=
  class_call dy <- derivs tau_start y (map (fun _ => 0) y) ;
  Success (zip_with (fun y_i dy_i => y_i + (tau_end - tau_start) * dy_i) y dy).

Definition euler_integrator : GenericIntegrator :=
  {| generic_integrator_workspace := unit;
     initialize_generic_integrator := fun _ => Success tt;
     generic_integrator := fun derivs tau_start tau_end y _ _ gi =>
       class_call y' <- euler_step derivs tau_start tau_end y ;
       Success (y', gi);
     cleanup_generic_integrator := fun _ => Success tt |}.

Definition first_line_lookup : ArrayTools :=
  {| array_interpolate_spline := fun x_array n_lines array array_splined n_columns x result result_size =>
       (Success 0%nat,
        for_loop 0 result_size (fun i result => <[i := array !!! i]> result) result) |}.

(** A [struct primordial] for a polynomial potential, with the indices
    assigned by [primordial_inflation_indices] and a table over [lnk_]
    with one initial condition for each of two modes. *)
Definition inflation_ppm (v0 v1 v2 v3 v4 pivot : R) (lnk_ : list R) : primordial :=
  {| primordial_spec_type := inflation_V; k_pivot := 1 / 20;
     lnk := lnk_; ic_size := [1%nat; 1%nat]; ic_ic_size := [1%nat; 1%nat];
     lnpk := [map (fun _ => 0) lnk_; map (fun _ => 0) lnk_];
     ddlnpk := [map (fun _ => 0) lnk_; map (fun _ => 0) lnk_];
     is_non_zero := [[false]; [false]];
     amplitude := []; tilt := []; running := [];
     A_s := 0; n_s := 0; alpha_s := 0; r := 0; n_t := 0; alpha_t := 0;
     potential := polynomial;
     V0 := v0; V1 := v1; V2 := v2; V3 := v3; V4 := v4; phi_pivot := pivot;
     index_in_a := 0; index_in_phi := 1; index_in_dphi := 2;
     index_in_ksi_re := 3; index_in_ksi_im := 4;
     index_in_dksi_re := 5; index_in_dksi_im := 6;
     index_in_ah_re := 7; index_in_ah_im := 8;
     index_in_dah_re := 9; index_in_dah_im := 10;
     in_bg_size := 3; in_size := 11 |}.

(** The potential [V(phi) = 1 - phi]: positive with negative slope for
    [phi < 1]; [linear_ppm_on lnk_] has the grid [lnk_], [linear_ppm] none. *)
Definition linear_ppm_on (lnk_ : list R) : primordial := inflation_ppm 1 (-1) 0 0 0 0 lnk_.

Abbreviation linear_ppm := (linear_ppm_on []).

(** The potential [V(phi) = 1 + phi], whose slope is positive. *)
Definition rising_ppm : primordial := inflation_ppm 1 1 0 0 0 0 [].

Definition ppr_with (bg_stepsize pt_stepsize ratio_max tol_curvature : R) (maxit : Z)
  : precision :=
  {| k_per_decade_primordial := 10;
     primordial_inflation_ratio_min := 100;
     primordial_inflation_ratio_max := ratio_max;
     primordial_inflation_pt_stepsize := pt_stepsize;
     primordial_inflation_bg_stepsize := bg_stepsize;
     primordial_inflation_tol_integration := 1 / 1000;
     primordial_inflation_attractor_maxit := maxit;
     primordial_inflation_tol_curvature := tol_curvature;
     smallest_allowed_variation := 1 / 1000000 |}.

(** An analytic spectrum for one mode with two initial conditions, the
    cross term being zero, tabulated on the nodes [ln k = 0] and [ln k = 1]. *)
Definition analytic_ppm : primordial :=
  {| primordial_spec_type := analytic_Pk; k_pivot := 1;
     lnk := [0; 1]; ic_size := [2%nat]; ic_ic_size := [3%nat];
     lnpk := [[0; 0; 0; 0; 0; 0]]; ddlnpk := [[0; 0; 0; 0; 0; 0]];
     is_non_zero := [[true; false; true]];
     amplitude := [[2; 0; 3]]; tilt := [[1; 0; 1]]; running := [[0; 0; 0]];
     A_s := 2; n_s := 1; alpha_s := 0; r := 0; n_t := 0; alpha_t := 0;
     potential := polynomial;
     V0 := 0; V1 := 0; V2 := 0; V3 := 0; V4 := 0; phi_pivot := 0;
     index_in_a := 0; index_in_phi := 1; index_in_dphi := 2;
     index_in_ksi_re := 3; index_in_ksi_im := 4;
     index_in_dksi_re := 5; index_in_dksi_im := 6;
     index_in_ah_re := 7; index_in_ah_im := 8;
     index_in_dah_re := 9; index_in_dah_im := 10;
     in_bg_size := 3; in_size := 11 |}.

(** A state vector of [in_size = 11] entries with the given background. *)
Definition background_vector (a phi dphi : R) : list R :=
  [a; phi; dphi; 0; 0; 0; 0; 0; 0; 0; 0].

Definition zero_vector : list R := background_vector 0 0 0.

(** A numerically computed table for the pivot [k_pivot = 1] on the nodes
    [ln k = -ln 10] and [ln k = ln 10], with ln P = -20 for the scalar mode
    and ln P = -22 for the tensor mode at both nodes. *)
Definition tabulated_ppm : primordial :=
  {| primordial_spec_type := inflation_V; k_pivot := 1;
     lnk := [- ln 10; ln 10]; ic_size := [1%nat; 1%nat]; ic_ic_size := [1%nat; 1%nat];
     lnpk := [[-20; -20]; [-22; -22]]; ddlnpk := [[0; 0]; [0; 0]];
     is_non_zero := [[true]; [true]];
     amplitude := []; tilt := []; running := [];
     A_s := 0; n_s := 0; alpha_s := 0; r := 0; n_t := 0; alpha_t := 0;
     potential := polynomial;
     V0 := 1; V1 := -1; V2 := 0; V3 := 0; V4 := 0; phi_pivot := 0;
     index_in_a := 0; index_in_phi := 1; index_in_dphi := 2;
     index_in_ksi_re := 3; index_in_ksi_im := 4;
     index_in_dksi_re := 5; index_in_dksi_im := 6;
     index_in_ah_re := 7; index_in_ah_im := 8;
     index_in_dah_re := 9; index_in_dah_im := 10;
     in_bg_size := 3; in_size := 11 |}.

(** For the potential of [linear_ppm]: the rate aH and the derivative of
    a*dphi/dtau that [primordial_inflation_derivs] computes at the
    background [(a, phi, dphi)]. *)
Definition linear_aH (a phi dphi : R) : R :=
  sqrt ((8 * _PI_ / 3) * (0.5 * dphi * dphi + a * a * (1 - phi))).

Definition linear_ddphi (a phi dphi : R) : R :=
  -2 * linear_aH a phi dphi * dphi - a * a * -1.

(** For the same potential: the terms z''/z and a''/a of the mode
    equations, as [primordial_inflation_derivs] computes them. *)
Definition linear_zpp_over_z (a phi dphi : R) : R :=
  2 * linear_aH a phi dphi * linear_aH a phi dphi - a * a * 0
  - 4 * _PI_ * (7 * dphi * dphi + 4 * dphi / linear_aH a phi dphi * (a * a * -1))
  + 32 * _PI_ * _PI_ * dphi ^ 4 / linear_aH a phi dphi ^ 2.

Definition linear_app_over_a (a phi dphi : R) : R :=
  2 * linear_aH a phi dphi * linear_aH a phi dphi - 4 * _PI_ * dphi * dphi.

(** The state with which [primordial_inflation_one_k] enters its loop for
    the potential of [linear_ppm], the wavenumber k = 1/2, the background
    [(a, phi, dphi)] and the step-size factor 1/1000: initial conditions in
    [md_y], their derivatives in [md_dy], first step in [md_dtau]. *)
Definition mode_entry_state (a phi dphi : R) : @mode_state euler_integrator :=
  let x0 := 1 / sqrt (2 * (1 / 2)) in
  let zpp0 := linear_zpp_over_z a phi dphi in
  let app0 := linear_app_over_a a phi dphi in
  {| md_y := [a; phi; dphi; x0; 0; 0; - (1 / 2) * x0; x0; 0; 0; - (1 / 2) * x0];
     md_dy := [a * linear_aH a phi dphi; dphi; linear_ddphi a phi dphi; 0;
               - (1 / 2) * x0;
               - (1 / 2 * (1 / 2) - zpp0) * x0; - (1 / 2 * (1 / 2) - zpp0) * 0;
               0; - (1 / 2) * x0;
               - (1 / 2 * (1 / 2) - app0) * x0; - (1 / 2 * (1 / 2) - app0) * 0];
     md_tau_end := 0;
     md_dtau := 1 / 1000 * 2 * PI
                / Rmax (sqrt (Rabs (- (1 / 2 * (1 / 2) - zpp0) * x0 / x0))) (1 / 2);
     md_aH := 0; md_curvature_new := 1e10; md_dlnPdN := 0;
     md_gi := (tt : @generic_integrator_workspace euler_integrator) |}.

Definition first_pass_state : @mode_state euler_integrator := mode_entry_state 1 0 (1 / 2).

(** The precision parameters of the runs of the mode integration and of
    the spectrum assembly below. *)
Definition run_ppr : precision :=
  {| k_per_decade_primordial := 10;
     primordial_inflation_ratio_min := 1 / 7;
     primordial_inflation_ratio_max := 1;
     primordial_inflation_pt_stepsize := 1 / 1000;
     primordial_inflation_bg_stepsize := 1 / 2;
     primordial_inflation_tol_integration := 1 / 1000;
     primordial_inflation_attractor_maxit := 10;
     primordial_inflation_tol_curvature := 1e16;
     smallest_allowed_variation := 1 / 1000000 |}.

(** Scalar modes at index 0 and tensor modes at index 1. *)
Definition scalars_and_tensors : perturbs :=
  {| has_scalars := true; has_tensors := true;
     index_md_scalars := 0; index_md_tensors := 1 |}.



(** ** Quantities read off the functions above *)

(** The values that [primordial_inflation_potential] writes to [*V], [*dV]
    and [*ddV], as functions of [phi]. *)
Definition potential_V (ppm : primordial) (phi : R) : R :=
  match primordial_inflation_potential ppm phi with Success (V, _, _) => V | _ => 0 end.

Definition potential_dV (ppm : primordial) (phi : R) : R :=
  match primordial_inflation_potential ppm phi with Success (_, dV, _) => dV | _ => 0 end.

Definition potential_ddV (ppm : primordial) (phi : R) : R :=
  match primordial_inflation_potential ppm phi with Success (_, _, ddV) => ddV | _ => 0 end.

(** [b] is [a] except for the lines of [lnpk] and [is_non_zero] of the
    scalar and tensor modes, whose lengths are those of [a]. *)
Definition differs_only_in_table (ppt : perturbs) (a b : primordial) : Prop :=
  with_table b (lnpk a) (is_non_zero a) = a
  /\ length (lnpk b) = length (lnpk a)
  /\ length (is_non_zero b) = length (is_non_zero a)
  /\ (forall m, length (lnpk b !!! m : list R) = length (lnpk a !!! m : list R))
  /\ (forall m, length (is_non_zero b !!! m : list bool)
                = length (is_non_zero a !!! m : list bool))
  /\ (forall m, m <> index_md_scalars ppt -> m <> index_md_tensors ppt ->
        (lnpk b !!! m : list R) = lnpk a !!! m
        /\ (is_non_zero b !!! m : list bool) = is_non_zero a !!! m).

(** ** Initialisation: error status *)

(** The messages of the [class_test]s of [primordial_init],
    [primordial_get_lnk_list], [primordial_analytic_spectrum_init] and
    [primordial_inflation_solve_inflation]; [msg_from e] is a message of the
    functions above, passed on by a [class_call]. *)
Inductive InitErrorMsg : Type :=
| msg_k_min_not_positive        (* "k_min negative or null: stop to avoid segmentation fault" *)
| msg_k_max_not_positive        (* "k_max negative or null: stop to avoid segmentation fault" *)
| msg_k_pivot_not_positive      (* "k_pivot negative or null: stop to avoid segmentation fault" *)
| msg_k_per_decade_not_positive (* "k_per_decade_primordial negative or null: stop to avoid segmentation fault" *)
| msg_k_per_decade_too_sparse   (* "k_per_decade_primordial = %e: you ask for such a sparse sampling ..." *)
| msg_inconsistent_kmin_kmax    (* "inconsistent values of kmin=%e, kmax=%e" *)
| msg_inconsistent_amplitude    (* "inconsistent input for primordial amplitude: %g for index_mode=%d, index_ic=%d" *)
| msg_inconsistent_correlation  (* "inconsistent input for isocurvature cross-correlation" *)
| msg_no_scalar_modes           (* "inflationary module cannot work if you do not ask for scalar modes" *)
| msg_vector_modes              (* "inflationary module cannot work if you ask for vector modes" *)
| msg_no_tensor_modes           (* "inflationary module cannot work if you do not ask for tensor modes" *)
| msg_isocurvature_modes        (* "inflationary module cannot work if you ask for isocurvature modes" *)
| msg_phi_ini_not_found         (* "when searching for an initial value of phi just before observable inflation takes place, could not converge after %d iterations. ..." *)
| msg_from (e : ErrorMsg).

Inductive init_outcome (A : Type) : Type :=
| Done (a : A)
| Stopped (e : InitErrorMsg)
| Unfinished.

Arguments Done {A} a.
Arguments Stopped {A} e.
Arguments Unfinished {A}.

Definition init_bind {A B : Type} (c : init_outcome A) (k : A -> init_outcome B)
  : init_outcome B :=
  match c with
  | Done a => k a
  | Stopped e => Stopped e
  | Unfinished => Unfinished
  end.

(** The status of a [class_call] of one of the functions above. *)
Definition from_outcome {A : Type} (c : outcome A) : init_outcome A :=
  match c with
  | Success a => Done a
  | Failure e => Stopped (msg_from e)
  | OutOfFuel => Unfinished
  end.

Notation "'init_call' x <- c ; k" := (init_bind c (fun x => k))
  (at level 10, x pattern, c at level 100, k at level 200, only parsing).

Definition init_condition (condition : bool) (message : InitErrorMsg) : init_outcome unit :=
  if condition then Stopped message else Done tt.

Notation "'init_test' ( c , m ) ; k" := (init_bind (init_condition c m) (fun _ => k))
  (at level 10, c at level 100, m at level 100, k at level 200, only parsing).

(** ** The list of wavenumbers *)

(** The conversion [(int) x] of a [double]: truncation toward zero. *)
Definition double_to_int (x : R) : Z :=
  if bool_decide (0 <= x) then Int_part x else (- Int_part (- x))%Z.

(** [primordial_get_lnk_list]: the array written to [ppm->lnk]; its length
    is the value written to [ppm->lnk_size]. *)
Definition primordial_get_lnk_list (kmin kmax k_per_decade : R) : init_outcome (list R) :=
  init_test (bool_decide (kmin <= 0) || bool_decide (kmax <= kmin),
             msg_inconsistent_kmin_kmax) ;
  let lnk_size := (double_to_int (ln (kmax / kmin) / ln 10 * k_per_decade) + 2)%Z in
  Done (map (fun i : nat => ln kmin + INR i * ln 10 / k_per_decade)
          (seq 0 (Z.to_nat lnk_size))).

(** ** Solving inflation *)

(** [struct precision], the further fields read by
    [primordial_inflation_solve_inflation]. *)
Record precision_search : Type := {
  primordial_inflation_attractor_precision_pivot : R;
  primordial_inflation_attractor_precision_initial : R;
  primordial_inflation_phi_ini_maxit : Z;
  primordial_inflation_jump_initial : R
}.

Section SolveInflation.

Context `{GI : GenericIntegrator}.

Variable ppt : perturbs.
Variable ppm : primordial.
Variable ppr : precision.
Variable pps : precision_search.

(** Each call of [primordial_inflation_find_attractor] reads its local
    [phi] before assigning it; [phi_indeterminate n] is the value read by
    the call made when [counter] is [n]. *)
Variable phi_indeterminate : Z -> R.

(** The variables live across the loop that searches the initial field
    value. *)
Record search_state : Type := {
  se_y : list R;
  se_dy : list R;
  se_a_try : R;
  se_H_try : R;
  se_phi_try : R;
  se_dphidt_try : R;
  se_counter : Z
}.

Definition solve_inflation_continue (aH_ini : R) (s : search_state) : bool :=
  bool_decide (se_a_try s * se_H_try s >= aH_ini).

(** One pass through the body of that loop. *)
Definition solve_inflation_step (fuel : nat) (a_pivot aH_ini : R) (s : search_state)
  : init_outcome search_state :=
  let counter := (se_counter s + 1)%Z in
  init_test (bool_decide (counter >= primordial_inflation_phi_ini_maxit pps)%Z,
             msg_phi_ini_not_found) ;
  init_call (V, dV, ddV) <- from_outcome (primordial_inflation_potential ppm (se_phi_try s)) ;
  let phi_try := se_phi_try s
                 + primordial_inflation_jump_initial pps
                   * ln (se_a_try s * se_H_try s / aH_ini) * dV / V / 8 / _PI_ in
  init_call (y, dy, H_try, dphidt_try) <-
    from_outcome (primordial_inflation_find_attractor ppm ppr fuel
                    (phi_indeterminate counter) phi_try
                    (primordial_inflation_attractor_precision_initial pps)
                    (se_y s) (se_dy s)) ;
  let y := <[index_in_a ppm := 1]> y in
  let y := <[index_in_phi ppm := phi_try]> y in
  let y := <[index_in_dphi ppm := y !!! index_in_a ppm * dphidt_try]> y in
  init_call (y, dy) <-
    from_outcome (primordial_inflation_evolve_background ppm ppr fuel y dy (phi_pivot ppm)) ;
  let a_try := a_pivot / y !!! index_in_a ppm in
  Done {| se_y := y; se_dy := dy; se_a_try := a_try; se_H_try := H_try;
          se_phi_try := phi_try; se_dphidt_try := dphidt_try; se_counter := counter |}.

Fixpoint solve_inflation_loop (fuel : nat) (a_pivot aH_ini : R) (s : search_state)
  : init_outcome search_state :=
  match fuel with
  | O => Unfinished
  | S fuel' =>
      if solve_inflation_continue aH_ini s then
        init_call s' <- solve_inflation_step fuel' a_pivot aH_ini s ;
        solve_inflation_loop fuel' a_pivot aH_ini s'
      else Done s
  end.

(** [primordial_inflation_solve_inflation]; returns [ppm] with its table
    filled.  The arrays [y], [y_ini], [dy] are allocated without initial
    values, and the local [dphidt_try] is declared without one:
    [y], [y_ini], [dy] and [dphidt_try_indeterminate] are what they hold. *)
Definition primordial_inflation_solve_inflation (fuel : nat)
    (y y_ini dy : list R) (dphidt_try_indeterminate : R) : init_outcome primordial :=
  init_call _ <- from_outcome (primordial_inflation_check_potential ppm (phi_pivot ppm)) ;
  init_call (y, dy, H_pivot, dphidt_pivot) <-
    from_outcome (primordial_inflation_find_attractor ppm ppr fuel
                    (phi_indeterminate 0%Z) (phi_pivot ppm)
                    (primordial_inflation_attractor_precision_pivot pps) y dy) ;
  let a_pivot := k_pivot ppm / H_pivot in
  let k_max := exp (lnk ppm !!! (lnk_size ppm - 1)%nat) in
  let y := <[index_in_a ppm := a_pivot]> y in
  let y := <[index_in_phi ppm := phi_pivot ppm]> y in
  let y := <[index_in_dphi ppm := a_pivot * dphidt_pivot]> y in
  init_call (y, dy) <-
    from_outcome (primordial_inflation_reach_aH ppm ppr fuel y dy
                    (k_max / primordial_inflation_ratio_max ppr)) ;
  let aH_ini := exp (lnk ppm !!! 0%nat) / primordial_inflation_ratio_min ppr in
  init_call s <- solve_inflation_loop fuel a_pivot aH_ini
                   {| se_y := y; se_dy := dy; se_a_try := a_pivot; se_H_try := H_pivot;
                      se_phi_try := phi_pivot ppm;
                      se_dphidt_try := dphidt_try_indeterminate; se_counter := 0 |} ;
  let y_ini := <[index_in_a ppm := se_a_try s]> y_ini in
  let y_ini := <[index_in_phi ppm := se_phi_try s]> y_ini in
  let y_ini := <[index_in_dphi ppm := se_a_try s * se_dphidt_try s]> y_ini in
  init_call table <-
    from_outcome (primordial_inflation_spectra ppm ppr ppt fuel y_ini (se_y s) (se_dy s)) ;
  Done table.

End SolveInflation.

(** ** Initialisation of the structure *)

(** [struct perturbs], the further fields read by [primordial_init],
    [primordial_indices] and [primordial_analytic_spectrum_init];
    [k_size[index_mode]] is the length of [k[index_mode]]. *)
Record perturbs_modes : Type := {
  has_perturbations : bool;
  has_vectors : bool;
  has_ad : bool;
  has_bi : bool;
  has_cdi : bool;
  has_nid : bool;
  has_niv : bool;
  index_ic_ad : nat;
  index_ic_bi : nat;
  index_ic_cdi : nat;
  index_ic_nid : nat;
  index_ic_niv : nat;
  index_ic_ten : nat;
  md_size : nat;
  ppt_ic_size : list nat;
  ppt_k : list (list R)
}.

(** [struct primordial], the input parameters of the isocurvature modes
    and of their cross-correlations. *)
Record isocurvature_parameters : Type := {
  f_bi : R; n_bi : R; alpha_bi : R;
  f_cdi : R; n_cdi : R; alpha_cdi : R;
  f_nid : R; n_nid : R; alpha_nid : R;
  f_niv : R; n_niv : R; alpha_niv : R;
  c_ad_bi : R; n_ad_bi : R; alpha_ad_bi : R;
  c_ad_cdi : R; n_ad_cdi : R; alpha_ad_cdi : R;
  c_ad_nid : R; n_ad_nid : R; alpha_ad_nid : R;
  c_ad_niv : R; n_ad_niv : R; alpha_ad_niv : R;
  c_bi_cdi : R; n_bi_cdi : R; alpha_bi_cdi : R;
  c_bi_nid : R; n_bi_nid : R; alpha_bi_nid : R;
  c_bi_niv : R; n_bi_niv : R; alpha_bi_niv : R;
  c_cdi_nid : R; n_cdi_nid : R; alpha_cdi_nid : R;
  c_cdi_niv : R; n_cdi_niv : R; alpha_cdi_niv : R;
  c_nid_niv : R; n_nid_niv : R; alpha_nid_niv : R
}.

(** What the arrays obtained from [class_alloc] hold before they are
    written: entry [i] of the array allocated for the mode [index_mode]. *)
Record uninitialised : Type := {
  fresh_lnpk : nat -> nat -> R;
  fresh_ddlnpk : nat -> nat -> R;
  fresh_is_non_zero : nat -> nat -> bool;
  fresh_amplitude : nat -> nat -> R;
  fresh_tilt : nat -> nat -> R;
  fresh_running : nat -> nat -> R
}.

(** An array of [n] entries with the contents [fresh]. *)
Definition allocated {A : Type} (fresh : nat -> A) (n : nat) : list A :=
  map fresh (seq 0 n).

(** [ppm->md_size] is the length of [ic_size]. *)
Definition primordial_md_size (ppm : primordial) : nat := length (ic_size ppm).

(** Update of the arrays of [struct primordial]. *)
Definition with_arrays (ppm : primordial) (new_lnk : list R)
    (new_ic_size new_ic_ic_size : list nat) (new_lnpk new_ddlnpk : list (list R))
    (new_is_non_zero : list (list bool)) (new_amplitude new_tilt new_running : list (list R))
  : primordial :=
  {| primordial_spec_type := primordial_spec_type ppm; k_pivot := k_pivot ppm;
     lnk := new_lnk; ic_size := new_ic_size; ic_ic_size := new_ic_ic_size;
     lnpk := new_lnpk; ddlnpk := new_ddlnpk; is_non_zero := new_is_non_zero;
     amplitude := new_amplitude; tilt := new_tilt; running := new_running;
     A_s := A_s ppm; n_s := n_s ppm; alpha_s := alpha_s ppm;
     r := r ppm; n_t := n_t ppm; alpha_t := alpha_t ppm;
     potential := potential ppm;
     V0 := V0 ppm; V1 := V1 ppm; V2 := V2 ppm; V3 := V3 ppm; V4 := V4 ppm;
     phi_pivot := phi_pivot ppm;
     index_in_a := index_in_a ppm; index_in_phi := index_in_phi ppm;
     index_in_dphi := index_in_dphi ppm;
     index_in_ksi_re := index_in_ksi_re ppm; index_in_ksi_im := index_in_ksi_im ppm;
     index_in_dksi_re := index_in_dksi_re ppm; index_in_dksi_im := index_in_dksi_im ppm;
     index_in_ah_re := index_in_ah_re ppm; index_in_ah_im := index_in_ah_im ppm;
     index_in_dah_re := index_in_dah_re ppm; index_in_dah_im := index_in_dah_im ppm;
     in_bg_size := in_bg_size ppm; in_size := in_size ppm |}.

Definition with_lnk (ppm : primordial) (new_lnk : list R) : primordial :=
  with_arrays ppm new_lnk (ic_size ppm) (ic_ic_size ppm) (lnpk ppm) (ddlnpk ppm)
    (is_non_zero ppm) (amplitude ppm) (tilt ppm) (running ppm).

(** The assignment [t[index_mode][i] = v]. *)
Definition write_entry {A : Type} (t : list (list A)) (index_mode i : nat) (v : A)
  : list (list A) :=
  <[index_mode := <[i := v]> (t !!! index_mode)]> t.

(** [primordial_indices]: sizes and tables for the [md_size] modes of
    [ppt].  The arrays of sizes and of pointers hold nothing meaningful
    before the loop assigns each of their [md_size] entries. *)
Definition primordial_indices (ptm : perturbs_modes) (ppm : primordial)
    (fresh : uninitialised) : primordial :=
  let empty_R : list (list R) := replicate (md_size ptm) [] in
  let empty_flags : list (list bool) := replicate (md_size ptm) [] in
  let sizes : list nat := replicate (md_size ptm) 0%nat in
  let '(new_ic_size, new_ic_ic_size, new_lnpk, new_ddlnpk, new_is_non_zero) :=
    for_loop 0 (md_size ptm)
      (fun index_mode '(new_ic_size, new_ic_ic_size, new_lnpk, new_ddlnpk, new_is_non_zero) =>
         let new_ic_size := <[index_mode := ppt_ic_size ptm !!! index_mode]> new_ic_size in
         let new_ic_ic_size :=
           <[index_mode := (new_ic_size !!! index_mode * (new_ic_size !!! index_mode + 1) / 2)%nat]>
             new_ic_ic_size in
         let new_lnpk :=
           <[index_mode := allocated (fresh_lnpk fresh index_mode)
                             (lnk_size ppm * new_ic_ic_size !!! index_mode)]> new_lnpk in
         let new_ddlnpk :=
           <[index_mode := allocated (fresh_ddlnpk fresh index_mode)
                             (lnk_size ppm * new_ic_ic_size !!! index_mode)]> new_ddlnpk in
         let new_is_non_zero :=
           <[index_mode := allocated (fresh_is_non_zero fresh index_mode)
                             (new_ic_ic_size !!! index_mode)]> new_is_non_zero in
         (new_ic_size, new_ic_ic_size, new_lnpk, new_ddlnpk, new_is_non_zero))
      (sizes, sizes, empty_R, empty_R, empty_flags) in
  with_arrays ppm (lnk ppm) new_ic_size new_ic_ic_size new_lnpk new_ddlnpk new_is_non_zero
    (amplitude ppm) (tilt ppm) (running ppm).

(** ** The analytic spectrum: amplitudes, tilts and runnings *)

#[global] Instance Req_decision (x y : R) : Decision (x = y) := Req_EM_T x y.

(** The locals [one_amplitude], [one_tilt], [one_running],
    [one_correlation] of [primordial_analytic_spectrum_init] (set to 0 when
    the function starts and kept from one pass of its loops to the next) and
    the tables it writes. *)
Record analytic_state : Type := {
  one_amplitude : R;
  one_tilt : R;
  one_running : R;
  one_correlation : R;
  an_is_non_zero : list (list bool);
  an_amplitude : list (list R);
  an_tilt : list (list R);
  an_running : list (list R)
}.

Definition set_amplitude (s : analytic_state) (a n al : R) : analytic_state :=
  {| one_amplitude := a; one_tilt := n; one_running := al;
     one_correlation := one_correlation s;
     an_is_non_zero := an_is_non_zero s; an_amplitude := an_amplitude s;
     an_tilt := an_tilt s; an_running := an_running s |}.

Definition set_correlation (s : analytic_state) (c n al : R) : analytic_state :=
  {| one_amplitude := one_amplitude s; one_tilt := n; one_running := al;
     one_correlation := c;
     an_is_non_zero := an_is_non_zero s; an_amplitude := an_amplitude s;
     an_tilt := an_tilt s; an_running := an_running s |}.

(** The four assignments to [is_non_zero], [amplitude], [tilt], [running]
    at [[index_mode][i]]. *)
Definition write_coefficients (s : analytic_state) (index_mode i : nat)
    (flag : bool) (a n al : R) : analytic_state :=
  {| one_amplitude := one_amplitude s; one_tilt := one_tilt s;
     one_running := one_running s; one_correlation := one_correlation s;
     an_is_non_zero := write_entry (an_is_non_zero s) index_mode i flag;
     an_amplitude := write_entry (an_amplitude s) index_mode i a;
     an_tilt := write_entry (an_tilt s) index_mode i n;
     an_running := write_entry (an_running s) index_mode i al |}.

(** [for (i = lo; i < hi; i++) body], where [body] may fail. *)
Definition init_for_loop {S : Type} (lo hi : nat) (body : nat -> S -> init_outcome S)
    (s : S) : init_outcome S :=
  fold_left (fun acc i => init_bind acc (body i)) (seq lo (hi - lo)) (Done s).

Section AnalyticSpectrum.

Variable ppt : perturbs.
Variable ptm : perturbs_modes.
Variable ppm : primordial.
Variable iso : isocurvature_parameters.

(** One pass of the loop over the diagonal coefficients. *)
Definition analytic_diagonal_step (index_mode index_ic1 : nat) (s : analytic_state)
  : init_outcome analytic_state :=
  let s :=
    if has_scalars ppt && Nat.eqb index_mode (index_md_scalars ppt) then
      let s :=
        if has_ad ptm && Nat.eqb index_ic1 (index_ic_ad ptm)
        then set_amplitude s (A_s ppm) (n_s ppm) (alpha_s ppm)
        else s in
      let s :=
        if has_bi ptm && Nat.eqb index_ic1 (index_ic_bi ptm)
        then set_amplitude s (A_s ppm * f_bi iso * f_bi iso) (n_bi iso) (alpha_bi iso)
        else s in
      let s :=
        if has_cdi ptm && Nat.eqb index_ic1 (index_ic_cdi ptm)
        then set_amplitude s (A_s ppm * f_cdi iso * f_cdi iso) (n_cdi iso) (alpha_cdi iso)
        else s in
      let s :=
        if has_nid ptm && Nat.eqb index_ic1 (index_ic_nid ptm)
        then set_amplitude s (A_s ppm * f_nid iso * f_nid iso) (n_nid iso) (alpha_nid iso)
        else s in
      let s :=
        if has_niv ptm && Nat.eqb index_ic1 (index_ic_niv ptm)
        then set_amplitude s (A_s ppm * f_niv iso * f_niv iso) (n_niv iso) (alpha_niv iso)
        else s in
      s
    else s in
  let s :=
    if has_tensors ppt && Nat.eqb index_mode (index_md_tensors ppt) then
      if Nat.eqb index_ic1 (index_ic_ten ptm)
      then set_amplitude s (A_s ppm * r ppm) (n_t ppm + 1) (alpha_t ppm)
      else s
    else s in
  init_test (bool_decide (one_amplitude s <= 0), msg_inconsistent_amplitude) ;
  let index_ic1_ic2 :=
    index_symmetric_matrix index_ic1 index_ic1 (ic_size ppm !!! index_mode) in
  Done (write_coefficients s index_mode index_ic1_ic2 true
          (one_amplitude s) (one_tilt s) (one_running s)).

(** One pass of the loops over the non-diagonal coefficients. *)
Definition analytic_cross_step (index_mode index_ic1 index_ic2 : nat) (s : analytic_state)
  : init_outcome analytic_state :=
  let s :=
    if has_scalars ppt && Nat.eqb index_mode (index_md_scalars ppt) then
      let s :=
        if has_ad ptm && has_bi ptm
           && ((Nat.eqb index_ic1 (index_ic_ad ptm) && Nat.eqb index_ic2 (index_ic_bi ptm))
                || (Nat.eqb index_ic1 (index_ic_ad ptm) && Nat.eqb index_ic1 (index_ic_bi ptm)))
        then set_correlation s (c_ad_bi iso) (n_ad_bi iso) (alpha_ad_bi iso) else s in
      let s :=
        if has_ad ptm && has_cdi ptm
           && ((Nat.eqb index_ic1 (index_ic_ad ptm) && Nat.eqb index_ic2 (index_ic_cdi ptm))
                || (Nat.eqb index_ic2 (index_ic_ad ptm) && Nat.eqb index_ic1 (index_ic_cdi ptm)))
        then set_correlation s (c_ad_cdi iso) (n_ad_cdi iso) (alpha_ad_cdi iso) else s in
      let s :=
        if has_ad ptm && has_nid ptm
           && ((Nat.eqb index_ic1 (index_ic_ad ptm) && Nat.eqb index_ic2 (index_ic_nid ptm))
                || (Nat.eqb index_ic2 (index_ic_ad ptm) && Nat.eqb index_ic1 (index_ic_nid ptm)))
        then set_correlation s (c_ad_nid iso) (n_ad_nid iso) (alpha_ad_nid iso) else s in
      let s :=
        if has_ad ptm && has_niv ptm
           && ((Nat.eqb index_ic1 (index_ic_ad ptm) && Nat.eqb index_ic2 (index_ic_niv ptm))
                || (Nat.eqb index_ic2 (index_ic_ad ptm) && Nat.eqb index_ic1 (index_ic_niv ptm)))
        then set_correlation s (c_ad_niv iso) (n_ad_niv iso) (alpha_ad_niv iso) else s in
      let s :=
        if has_bi ptm && has_cdi ptm
           && ((Nat.eqb index_ic1 (index_ic_bi ptm) && Nat.eqb index_ic2 (index_ic_cdi ptm))
                || (Nat.eqb index_ic2 (index_ic_bi ptm) && Nat.eqb index_ic1 (index_ic_cdi ptm)))
        then set_correlation s (c_bi_cdi iso) (n_bi_cdi iso) (alpha_bi_cdi iso) else s in
      let s :=
        if has_bi ptm && has_nid ptm
           && ((Nat.eqb index_ic1 (index_ic_bi ptm) && Nat.eqb index_ic2 (index_ic_nid ptm))
                || (Nat.eqb index_ic2 (index_ic_bi ptm) && Nat.eqb index_ic1 (index_ic_nid ptm)))
        then set_correlation s (c_bi_nid iso) (n_bi_nid iso) (alpha_bi_nid iso) else s in
      let s :=
        if has_bi ptm && has_niv ptm
           && ((Nat.eqb index_ic1 (index_ic_bi ptm) && Nat.eqb index_ic2 (index_ic_niv ptm))
                || (Nat.eqb index_ic2 (index_ic_bi ptm) && Nat.eqb index_ic1 (index_ic_niv ptm)))
        then set_correlation s (c_bi_niv iso) (n_bi_niv iso) (alpha_bi_niv iso) else s in
      let s :=
        if has_cdi ptm && has_nid ptm
           && ((Nat.eqb index_ic1 (index_ic_cdi ptm) && Nat.eqb index_ic2 (index_ic_nid ptm))
                || (Nat.eqb index_ic2 (index_ic_cdi ptm) && Nat.eqb index_ic1 (index_ic_nid ptm)))
        then set_correlation s (c_cdi_nid iso) (n_cdi_nid iso) (alpha_cdi_nid iso) else s in
      let s :=
        if has_cdi ptm && has_niv ptm
           && ((Nat.eqb index_ic1 (index_ic_cdi ptm) && Nat.eqb index_ic2 (index_ic_niv ptm))
                || (Nat.eqb index_ic2 (index_ic_cdi ptm) && Nat.eqb index_ic1 (index_ic_niv ptm)))
        then set_correlation s (c_cdi_niv iso) (n_cdi_niv iso) (alpha_cdi_niv iso) else s in
      let s :=
        if has_nid ptm && has_niv ptm
           && ((Nat.eqb index_ic1 (index_ic_nid ptm) && Nat.eqb index_ic2 (index_ic_niv ptm))
                || (Nat.eqb index_ic2 (index_ic_nid ptm) && Nat.eqb index_ic1 (index_ic_niv ptm)))
        then set_correlation s (c_nid_niv iso) (n_nid_niv iso) (alpha_nid_niv iso) else s in
      s
    else s in
  init_test (bool_decide (one_correlation s < -1) || bool_decide (one_correlation s > 1),
             msg_inconsistent_correlation) ;
  let n := ic_size ppm !!! index_mode in
  let index_ic1_ic2 := index_symmetric_matrix index_ic1 index_ic2 n in
  let index_ic1_ic1 := index_symmetric_matrix index_ic1 index_ic1 n in
  let index_ic2_ic2 := index_symmetric_matrix index_ic2 index_ic2 n in
  if bool_decide (one_correlation s = 0) then
    Done (write_coefficients s index_mode index_ic1_ic2 false 0 0 0)
  else
    Done (write_coefficients s index_mode index_ic1_ic2 true
            (sqrt ((an_amplitude s !!! index_mode : list R) !!! index_ic1_ic1
                   * (an_amplitude s !!! index_mode : list R) !!! index_ic2_ic2)
             * one_correlation s)
            (0.5 * ((an_tilt s !!! index_mode : list R) !!! index_ic1_ic1
                    + (an_tilt s !!! index_mode : list R) !!! index_ic2_ic2)
             + one_tilt s)
            (0.5 * ((an_running s !!! index_mode : list R) !!! index_ic1_ic1
                    + (an_running s !!! index_mode : list R) !!! index_ic2_ic2)
             + one_running s)).

(** The body of the loop over [index_mode]. *)
Definition analytic_mode_step (index_mode : nat) (s : analytic_state)
  : init_outcome analytic_state :=
  let n := ic_size ppm !!! index_mode in
  init_call s <- init_for_loop 0 n (analytic_diagonal_step index_mode) s ;
  init_for_loop 0 n (fun index_ic1 s =>
    init_for_loop (index_ic1 + 1) n (analytic_cross_step index_mode index_ic1) s) s.

(** [primordial_analytic_spectrum_init]; returns [ppm] with the tables
    [is_non_zero], [amplitude], [tilt], [running] written. *)
Definition primordial_analytic_spectrum_init (fresh : uninitialised)
  : init_outcome primordial :=
  let md := primordial_md_size ppm in
  let table (f : nat -> nat -> R) :=
    map (fun index_mode => allocated (f index_mode) (ic_ic_size ppm !!! index_mode))
      (seq 0 md) in
  init_call s <- init_for_loop 0 md analytic_mode_step
                   {| one_amplitude := 0; one_tilt := 0; one_running := 0;
                      one_correlation := 0;
                      an_is_non_zero := is_non_zero ppm;
                      an_amplitude := table (fresh_amplitude fresh);
                      an_tilt := table (fresh_tilt fresh);
                      an_running := table (fresh_running fresh) |} ;
  Done (with_arrays ppm (lnk ppm) (ic_size ppm) (ic_ic_size ppm) (lnpk ppm) (ddlnpk ppm)
          (an_is_non_zero s) (an_amplitude s) (an_tilt s) (an_running s)).

End AnalyticSpectrum.

(** The coefficients stored for [index_mode] at the packed index [i]:
    flag, amplitude, tilt, running. *)
Definition coefficients (s : analytic_state) (index_mode i : nat) : bool * R * R * R :=
  ((an_is_non_zero s !!! index_mode : list bool) !!! i,
   (an_amplitude s !!! index_mode : list R) !!! i,
   (an_tilt s !!! index_mode : list R) !!! i,
   (an_running s !!! index_mode : list R) !!! i).

(** The tables of [s'] are those of [s] after the assignment of the
    coefficients [c] at [[index_mode][i]]. *)
Definition writes_at (index_mode i : nat) (c : bool * R * R * R)
    (s s' : analytic_state) : Prop :=
  an_is_non_zero s' = write_entry (an_is_non_zero s) index_mode i c.1.1.1
  /\ an_amplitude s' = write_entry (an_amplitude s) index_mode i c.1.1.2
  /\ an_tilt s' = write_entry (an_tilt s) index_mode i c.1.2
  /\ an_running s' = write_entry (an_running s) index_mode i c.2.

(** The tables have one line per mode, with one entry per pair of initial
    conditions. *)
Definition tables_allocated (ppm : primordial) (s : analytic_state) : Prop :=
  let md := primordial_md_size ppm in
  let pairs index_mode :=
    (ic_size ppm !!! index_mode * (ic_size ppm !!! index_mode + 1) / 2)%nat in
  length (an_is_non_zero s) = md /\ length (an_amplitude s) = md
  /\ length (an_tilt s) = md /\ length (an_running s) = md
  /\ forall index_mode, (index_mode < md)%nat ->
       length (an_is_non_zero s !!! index_mode : list bool) = pairs index_mode
       /\ length (an_amplitude s !!! index_mode : list R) = pairs index_mode
       /\ length (an_tilt s !!! index_mode : list R) = pairs index_mode
       /\ length (an_running s !!! index_mode : list R) = pairs index_mode.

(** The sizes and the table of flags as [primordial_indices] leaves them. *)
Definition sizes_assigned (ppm : primordial) : Prop :=
  length (is_non_zero ppm) = primordial_md_size ppm
  /\ forall index_mode, (index_mode < primordial_md_size ppm)%nat ->
       ic_ic_size ppm !!! index_mode
       = (ic_size ppm !!! index_mode * (ic_size ppm !!! index_mode + 1) / 2)%nat
       /\ length (is_non_zero ppm !!! index_mode : list bool) = ic_ic_size ppm !!! index_mode.

(** What one pass of the loop over the modes leaves in the tables of
    [index_mode]: each diagonal entry holds what its pass of the first loop
    wrote, and each cross entry what its pass of the second loop wrote, the
    diagonal entries being the final ones by then. *)
Definition mode_written (ppt : perturbs) (ptm : perturbs_modes) (ppm : primordial)
    (iso : isocurvature_parameters) (index_mode : nat) (s : analytic_state) : Prop :=
  let n := ic_size ppm !!! index_mode in
  (forall i (Q : bool * R * R * R -> Prop), (i < n)%nat ->
     (forall t t', analytic_diagonal_step ppt ptm ppm iso index_mode i t = Done t' ->
        exists c, Q c /\ writes_at index_mode (index_symmetric_matrix i i n) c t t') ->
     Q (coefficients s index_mode (index_symmetric_matrix i i n)))
  /\ (forall a b (Q : bool * R * R * R -> Prop), (a < b < n)%nat ->
        (forall t t',
           (forall i, (i < n)%nat ->
              coefficients t index_mode (index_symmetric_matrix i i n)
              = coefficients s index_mode (index_symmetric_matrix i i n)) ->
           analytic_cross_step ppt ptm ppm iso index_mode a b t = Done t' ->
           exists c, Q c /\ writes_at index_mode (index_symmetric_matrix a b n) c t t') ->
        Q (coefficients s index_mode (index_symmetric_matrix a b n))).

(** The four coefficients that [ppm] holds at [[index_mode][i]]. *)
Definition table_entry (ppm : primordial) (index_mode i : nat) : bool * R * R * R :=
  ((is_non_zero ppm !!! index_mode : list bool) !!! i,
   (amplitude ppm !!! index_mode : list R) !!! i,
   (tilt ppm !!! index_mode : list R) !!! i,
   (running ppm !!! index_mode : list R) !!! i).

(** No other initial condition of the scalars has the index of the adiabatic
    one, and the tensors are another mode than the scalars. *)
Definition adiabatic_index_is_distinct (ppt : perturbs) (ptm : perturbs_modes) : Prop :=
  (has_bi ptm = true -> index_ic_bi ptm <> index_ic_ad ptm)
  /\ (has_cdi ptm = true -> index_ic_cdi ptm <> index_ic_ad ptm)
  /\ (has_nid ptm = true -> index_ic_nid ptm <> index_ic_ad ptm)
  /\ (has_niv ptm = true -> index_ic_niv ptm <> index_ic_ad ptm)
  /\ (has_tensors ppt = true -> index_md_tensors ppt <> index_md_scalars ppt).

(** A setting with scalars (mode 0: adiabatic and CDM isocurvature initial
    conditions) and tensors (mode 1). *)
Definition mixed_ppt : perturbs :=
  {| has_scalars := true; has_tensors := true;
     index_md_scalars := 0; index_md_tensors := 1 |}.

Definition mixed_ptm : perturbs_modes :=
  {| has_perturbations := true; has_vectors := false;
     has_ad := true; has_bi := false; has_cdi := true; has_nid := false; has_niv := false;
     index_ic_ad := 0; index_ic_bi := 0; index_ic_cdi := 1; index_ic_nid := 0;
     index_ic_niv := 0; index_ic_ten := 0;
     md_size := 2; ppt_ic_size := [2%nat; 1%nat];
     ppt_k := [[1 / 10; 1; 10]; [1 / 10; 1; 10]] |}.

Definition mixed_iso : isocurvature_parameters :=
  {| f_bi := 0; n_bi := 0; alpha_bi := 0;
     f_cdi := -1 / 2; n_cdi := 1; alpha_cdi := 0;
     f_nid := 0; n_nid := 0; alpha_nid := 0;
     f_niv := 0; n_niv := 0; alpha_niv := 0;
     c_ad_bi := 0; n_ad_bi := 0; alpha_ad_bi := 0;
     c_ad_cdi := 1 / 2; n_ad_cdi := 0; alpha_ad_cdi := 0;
     c_ad_nid := 0; n_ad_nid := 0; alpha_ad_nid := 0;
     c_ad_niv := 0; n_ad_niv := 0; alpha_ad_niv := 0;
     c_bi_cdi := 0; n_bi_cdi := 0; alpha_bi_cdi := 0;
     c_bi_nid := 0; n_bi_nid := 0; alpha_bi_nid := 0;
     c_bi_niv := 0; n_bi_niv := 0; alpha_bi_niv := 0;
     c_cdi_nid := 0; n_cdi_nid := 0; alpha_cdi_nid := 0;
     c_cdi_niv := 0; n_cdi_niv := 0; alpha_cdi_niv := 0;
     c_nid_niv := 0; n_nid_niv := 0; alpha_nid_niv := 0 |}.

(** The input parameters A_s = 2, n_s = 1, r = 1/10, n_t = 0 at the pivot
    k = 1, before any array is allocated. *)
Definition mixed_ppm : primordial :=
  {| primordial_spec_type := analytic_Pk; k_pivot := 1;
     lnk := [0; 1]; ic_size := []; ic_ic_size := [];
     lnpk := []; ddlnpk := []; is_non_zero := [];
     amplitude := []; tilt := []; running := [];
     A_s := 2; n_s := 1; alpha_s := 0; r := 1 / 10; n_t := 0; alpha_t := 0;
     potential := polynomial;
     V0 := 0; V1 := 0; V2 := 0; V3 := 0; V4 := 0; phi_pivot := 0;
     index_in_a := 0; index_in_phi := 1; index_in_dphi := 2;
     index_in_ksi_re := 3; index_in_ksi_im := 4;
     index_in_dksi_re := 5; index_in_dksi_im := 6;
     index_in_ah_re := 7; index_in_ah_im := 8;
     index_in_dah_re := 9; index_in_dah_im := 10;
     in_bg_size := 3; in_size := 11 |}.

Definition zero_fresh : uninitialised :=
  {| fresh_lnpk := fun _ _ => 0; fresh_ddlnpk := fun _ _ => 0;
     fresh_is_non_zero := fun _ _ => false;
     fresh_amplitude := fun _ _ => 0; fresh_tilt := fun _ _ => 0;
     fresh_running := fun _ _ => 0 |}.

(** ** [primordial_init] *)

(** The spline routine of the array utilities (tools/arrays, not part of
    this file): [array_spline_table_lines(x, n_lines, array, n_columns,
    ddarray, _SPLINE_EST_DERIV_, errmsg)] returns its status and [ddarray]
    as it leaves it. *)
Class SplineTable : Type := {
  array_spline_table_lines : list R -> nat -> list R -> nat -> list R -> outcome (list R)
}.

(** The scan of the modes for [k_min] and [k_max], which start from
    [_HUGE_] and 0; [k_size[index_mode]] is the length of
    [k[index_mode]]. *)
Definition scan_k_range (huge : R) (ptm : perturbs_modes) : R * R :=
  for_loop 0 (md_size ptm)
    (fun index_mode '(k_min, k_max) =>
       let k : list R := ppt_k ptm !!! index_mode in
       (Rmin k_min (k !!! 0%nat), Rmax k_max (k !!! (length k - 1)%nat)))
    (huge, 0).

(** The value stored in [lnpk] for the pair of initial conditions
    [index_ic1 <= index_ic2] at the wavenumber [k]: ln P(k) on the diagonal,
    P_12 / sqrt(P_1 P_2) for a correlated pair, 0 for an uncorrelated
    one. *)
Definition analytic_table_value (ppm : primordial) (index_mode index_ic1 index_ic2 : nat)
    (k : R) : R :=
  let n := ic_size ppm !!! index_mode in
  let index_ic1_ic2 := index_symmetric_matrix index_ic1 index_ic2 n in
  if ((is_non_zero ppm !!! index_mode) !!! index_ic1_ic2 : bool) then
    let pk := primordial_analytic_spectrum ppm index_mode index_ic1_ic2 k in
    if Nat.eqb index_ic1 index_ic2 then ln pk
    else
      let pk1 := primordial_analytic_spectrum ppm index_mode
                   (index_symmetric_matrix index_ic1 index_ic1 n) k in
      let pk2 := primordial_analytic_spectrum ppm index_mode
                   (index_symmetric_matrix index_ic2 index_ic2 n) k in
      pk / sqrt (pk1 * pk2)
  else 0.

(** The loops of [primordial_init] that tabulate the analytic spectrum. *)
Definition analytic_table_fill (ptm : perturbs_modes) (ppm : primordial) : primordial :=
  let new_lnpk :=
    for_loop 0 (lnk_size ppm) (fun index_k t =>
      let k := exp (lnk ppm !!! index_k) in
      for_loop 0 (md_size ptm) (fun index_mode t =>
        for_loop 0 (ic_size ppm !!! index_mode) (fun index_ic1 t =>
          for_loop index_ic1 (ic_size ppm !!! index_mode) (fun index_ic2 t =>
            let index_ic1_ic2 :=
              index_symmetric_matrix index_ic1 index_ic2 (ic_size ppm !!! index_mode) in
            write_entry t index_mode
              (index_k * ic_ic_size ppm !!! index_mode + index_ic1_ic2)
              (analytic_table_value ppm index_mode index_ic1 index_ic2 k)) t) t) t)
      (lnpk ppm) in
  with_table ppm new_lnpk (is_non_zero ppm).

(** The loop of [primordial_init] over [array_spline_table_lines]. *)
Definition spline_tables `{ST : SplineTable} (ppm : primordial) : init_outcome primordial :=
  init_call new_ddlnpk <-
    init_for_loop 0 (primordial_md_size ppm)
      (fun index_mode dd =>
         init_call line <-
           from_outcome (array_spline_table_lines (lnk ppm) (lnk_size ppm)
                           (lnpk ppm !!! index_mode) (ic_ic_size ppm !!! index_mode)
                           (dd !!! index_mode)) ;
         Done (<[index_mode := line]> dd))
      (ddlnpk ppm) ;
  Done (with_arrays ppm (lnk ppm) (ic_size ppm) (ic_ic_size ppm) (lnpk ppm) new_ddlnpk
          (is_non_zero ppm) (amplitude ppm) (tilt ppm) (running ppm)).

(** What the locals and the arrays of the inflation branch hold before they
    are assigned: the local [phi] of each call of
    [primordial_inflation_find_attractor], the arrays [y], [y_ini], [dy] and
    the local [dphidt_try] of [primordial_inflation_solve_inflation], and the
    locals [lnpk_pivot], [lnpk_plus], [lnpk_minus] of [primordial_init]. *)
Record indeterminate : Type := {
  ind_phi : Z -> R;
  ind_y : list R;
  ind_y_ini : list R;
  ind_dy : list R;
  ind_dphidt_try : R;
  ind_lnpk : R * R * R
}.

Section Init.

Context `{GI : GenericIntegrator} `{AT : ArrayTools} `{ST : SplineTable}.

(** The constants [_HUGE_] and [_K_PER_DECADE_PRIMORDIAL_MIN_] are defined
    in a header of another directory. *)
Variable _HUGE_ : R.
Variable _K_PER_DECADE_PRIMORDIAL_MIN_ : R.

(** [primordial_init].  [lnk_size] is the length of [lnk], so that
    [ppm->lnk_size = 0] leaves the empty list; [min] and [max] are [Rmin]
    and [Rmax]; [primordial_spec_type] has the two values [analytic_Pk] and
    [inflation_V], so that the last [else] of the source is never taken. *)
Definition primordial_init (ppr : precision) (pps : precision_search)
    (ppt : perturbs) (ptm : perturbs_modes) (iso : isocurvature_parameters)
    (ppm : primordial) (fresh : uninitialised) (ind : indeterminate) (fuel : nat)
  : init_outcome primordial :=
  if negb (has_perturbations ptm) then Done (with_lnk ppm [])
  else
    let '(k_min, k_max) := scan_k_range _HUGE_ ptm in
    init_test (bool_decide (k_min <= 0), msg_k_min_not_positive) ;
    init_test (bool_decide (k_max <= 0), msg_k_max_not_positive) ;
    init_test (bool_decide (k_pivot ppm <= 0), msg_k_pivot_not_positive) ;
    init_test (bool_decide (k_per_decade_primordial ppr <= 0),
               msg_k_per_decade_not_positive) ;
    init_test (bool_decide (k_per_decade_primordial ppr <= _K_PER_DECADE_PRIMORDIAL_MIN_),
               msg_k_per_decade_too_sparse) ;
    init_call new_lnk <-
      primordial_get_lnk_list k_min k_max (k_per_decade_primordial ppr) ;
    let ppm := with_lnk ppm new_lnk in
    let ppm := primordial_indices ptm ppm fresh in
    init_call ppm <-
      match primordial_spec_type ppm with
      | analytic_Pk =>
          init_call ppm <- primordial_analytic_spectrum_init ppt ptm ppm iso fresh ;
          Done (analytic_table_fill ptm ppm)
      | inflation_V =>
          init_test (negb (has_scalars ppt), msg_no_scalar_modes) ;
          init_test (has_vectors ptm, msg_vector_modes) ;
          init_test (negb (has_tensors ppt), msg_no_tensor_modes) ;
          init_test (has_bi ptm || has_cdi ptm || has_nid ptm || has_niv ptm,
                     msg_isocurvature_modes) ;
          init_call ppm <- from_outcome (primordial_inflation_indices ppm) ;
          primordial_inflation_solve_inflation ppt ppm ppr pps (ind_phi ind) fuel
            (ind_y ind) (ind_y_ini ind) (ind_dy ind) (ind_dphidt_try ind)
      end ;
    init_call ppm <- spline_tables ppm ;
    from_outcome (primordial_init_spectral_parameters ppr ppt ppm (ind_lnpk ind)).

End Init.

(** [b] has the grid, the sizes and the parameters of [a]. *)
Definition same_grid (a b : primordial) : Prop :=
  lnk b = lnk a /\ ic_size b = ic_size a /\ ic_ic_size b = ic_ic_size a
  /\ k_pivot b = k_pivot a /\ primordial_spec_type b = primordial_spec_type a.

(** A spline routine that leaves [ddarray] as it is. *)
Definition idle_spline : SplineTable :=
  {| array_spline_table_lines := fun _ _ _ _ ddarray => Success ddarray |}.

Definition init_pps : precision_search :=
  {| primordial_inflation_attractor_precision_pivot := 1 / 1000;
     primordial_inflation_attractor_precision_initial := 1 / 10;
     primordial_inflation_phi_ini_maxit := 10000;
     primordial_inflation_jump_initial := 6 / 5 |}.

Definition zero_indeterminate : indeterminate :=
  {| ind_phi := fun _ => 0; ind_y := zero_vector; ind_y_ini := zero_vector;
     ind_dy := zero_vector; ind_dphidt_try := 0; ind_lnpk := (0, 0, 0) |}.

(** The mixed setting with a first wavenumber of the scalars equal to 0. *)
Definition null_k_ptm : perturbs_modes :=
  {| has_perturbations := true; has_vectors := false;
     has_ad := true; has_bi := false; has_cdi := true; has_nid := false; has_niv := false;
     index_ic_ad := 0; index_ic_bi := 0; index_ic_cdi := 1; index_ic_nid := 0;
     index_ic_niv := 0; index_ic_ten := 0;
     md_size := 2; ppt_ic_size := [2%nat; 1%nat];
     ppt_k := [[0; 1; 10]; [1 / 10; 1; 10]] |}.

(** * Properties *)

(** ** Basic facts about the status monad and the potential *)

Lemma bind_Success {A B : Type} (c : outcome A) (k : A -> outcome B) (b : B) :
  bind c k = Success b -> exists a, c = Success a /\ k a = Success b.
Proof. destruct c as [a| |]; simpl; intros H; [exists a; auto | discriminate..]. Qed.

Lemma bind_Failure_l {A B : Type} (c : outcome A) (k : A -> outcome B) (e : ErrorMsg) :
  c = Failure e -> bind c k = Failure e.
Proof. intros ->; reflexivity. Qed.

Lemma test_condition_Success (c : bool) (m : ErrorMsg) :
  test_condition c m = Success tt <-> c = false.
Proof. destruct c; simpl; split; intros H; congruence. Qed.

Lemma potential_total (ppm : primordial) (phi : R) :
  exists V dV ddV, primordial_inflation_potential ppm phi = Success (V, dV, ddV).
Proof. unfold primordial_inflation_potential. destruct (potential ppm). eauto. Qed.

Lemma pi_bounds : 3 < PI <= 4.
Proof. split; [pose proof PI2_3_2; lra | apply PI_4]. Qed.

Lemma potential_linear_ppm (l : list R) (phi : R) :
  primordial_inflation_potential (linear_ppm_on l) phi = Success (1 - phi, -1, 0).
Proof.
  unfold primordial_inflation_potential, linear_ppm_on, inflation_ppm; simpl.
  do 2 f_equal; [f_equal|]; lra.
Qed.

(** ** The potential check *)

Lemma check_potential_spec (ppm : primordial) (phi V dV ddV : R) :
  primordial_inflation_potential ppm phi = Success (V, dV, ddV) ->
  primordial_inflation_check_potential ppm phi =
    if bool_decide (V <= 0) then Failure msg_potential_negative
    else if bool_decide (dV >= 0) then Failure msg_potential_slope
    else Success tt.
Proof.
  intros H. unfold primordial_inflation_check_potential. rewrite H. simpl.
  destruct (bool_decide (V <= 0)); simpl; [reflexivity|].
  destruct (bool_decide (dV >= 0)); reflexivity.
Qed.

(** C5 (amended).  The potential check succeeds exactly when V > 0 and
    dV/dphi < 0 at the given field value, and fails otherwise; every pass
    of the stepping loops of the background evolver and of the
    horizon-crossing tracker runs it on the current field value first, so
    that a violation makes the pass fail with the message of the check,
    whatever the integrator would have done. *)
Theorem check_potential_guards_background_steps
    `{GI : GenericIntegrator} (ppm : primordial) (ppr : precision)
    (phi V dV ddV : R)
    (Hpot : primordial_inflation_potential ppm phi = Success (V, dV, ddV)) :
  (primordial_inflation_check_potential ppm phi = Success tt <-> V > 0 /\ dV < 0)
  /\ ((exists e, primordial_inflation_check_potential ppm phi = Failure e)
      <-> V <= 0 \/ dV >= 0)
  /\ (forall (s : background_state) e,
        bg_y s !!! index_in_phi ppm = phi ->
        primordial_inflation_check_potential ppm phi = Failure e ->
        evolve_background_step ppm ppr s = Failure e)
  /\ (forall (s : reach_state) e,
        ra_y s !!! index_in_phi ppm = phi ->
        primordial_inflation_check_potential ppm phi = Failure e ->
        reach_aH_step ppm ppr s = Failure e).
Proof.
  pose proof (check_potential_spec ppm phi V dV ddV Hpot) as Hc.
  split; [|split; [|split]].
  - rewrite Hc.
    destruct (bool_decide_reflect (V <= 0)); [split; [discriminate|lra]|].
    destruct (bool_decide_reflect (dV >= 0)); [split; [discriminate|lra]|].
    split; [lra|reflexivity].
  - rewrite Hc.
    destruct (bool_decide_reflect (V <= 0)); [split; [lra|eauto]|].
    destruct (bool_decide_reflect (dV >= 0)); [split; [lra|eauto]|].
    split; [intros [e He]; discriminate|lra].
  - intros s e Hphi He. unfold evolve_background_step. rewrite Hphi, He. reflexivity.
  - intros s e Hphi He. unfold reach_aH_step. rewrite Hphi, He. reflexivity.
Qed.

Lemma check_potential_guards_background_steps_witness :
  (primordial_inflation_check_potential linear_ppm (1 / 2) = Success tt
   <-> 1 - 1 / 2 > 0 /\ -1 < 0)
  /\ ((exists e, primordial_inflation_check_potential linear_ppm (1 / 2) = Failure e)
      <-> 1 - 1 / 2 <= 0 \/ -1 >= 0)
  /\ (forall (s : @background_state euler_integrator) e,
        bg_y s !!! index_in_phi linear_ppm = 1 / 2 ->
        primordial_inflation_check_potential linear_ppm (1 / 2) = Failure e ->
        evolve_background_step linear_ppm (ppr_with 1 1 1 1 10) s = Failure e)
  /\ (forall (s : @reach_state euler_integrator) e,
        ra_y s !!! index_in_phi linear_ppm = 1 / 2 ->
        primordial_inflation_check_potential linear_ppm (1 / 2) = Failure e ->
        reach_aH_step linear_ppm (ppr_with 1 1 1 1 10) s = Failure e).
Proof.
  apply (@check_potential_guards_background_steps euler_integrator linear_ppm
           (ppr_with 1 1 1 1 10) (1 / 2) (1 - 1 / 2) (-1) 0).
  apply potential_linear_ppm.
Defined.

(** ** Mode integration takes its steps without the potential check *)

Lemma derivs_total (ppm : primordial)
    (ppipaw : primordial_inflation_parameters_and_workspace) (tau : R) (y dy : list R) :
  exists dy', primordial_inflation_derivs ppm ppipaw tau y dy = Success dy'.
Proof.
  unfold primordial_inflation_derivs.
  destruct (potential_total ppm (y !!! index_in_phi ppm)) as (V & dV & ddV & ->).
  simpl. destruct (Nat.eqb _ _); eauto.
Qed.

Lemma euler_one_k_step_total (ppm : primordial) (ppr : precision) (k : R)
    (s : @mode_state euler_integrator) :
  exists s', one_k_step ppm ppr k s = Success s'.
Proof.
  unfold one_k_step. simpl. unfold euler_step.
  destruct (derivs_total ppm (mode_pipaw ppm k) (md_tau_end s) (md_y s)
              (map (fun _ => 0) (md_y s))) as [dy1 ->].
  simpl.
  destruct (derivs_total ppm (mode_pipaw ppm k) (md_tau_end s + md_dtau s)
              (zip_with (fun y_i dy_i => y_i + (md_tau_end s + md_dtau s - md_tau_end s) * dy_i)
                 (md_y s) dy1) (md_dy s)) as [dy2 ->].
  simpl. eauto.
Qed.

Lemma euler_one_k_loop_never_fails (ppm : primordial) (ppr : precision) (k : R)
    (fuel : nat) (s : @mode_state euler_integrator) (e : ErrorMsg) :
  one_k_loop ppm ppr fuel k s <> Failure e.
Proof.
  revert s. induction fuel as [|fuel IH]; intros s; simpl; [discriminate|].
  destruct (euler_one_k_step_total ppm ppr k s) as [s' ->]. simpl.
  destruct (one_k_continue ppr k s'); [apply IH | discriminate].
Qed.

Lemma euler_one_k_never_fails (ppm : primordial) (ppr : precision) (k : R)
    (fuel : nat) (y dy : list R) (e : ErrorMsg) :
  primordial_inflation_one_k (GI := euler_integrator) ppm ppr fuel k y dy <> Failure e.
Proof.
  unfold primordial_inflation_one_k. simpl.
  destruct (derivs_total ppm (mode_pipaw ppm k) 0 (one_k_initial_conditions ppm k y) dy)
    as [dy0 ->].
  simpl.
  match goal with |- bind (one_k_loop ?a ?b ?c ?d ?s) _ <> _ =>
    pose proof (euler_one_k_loop_never_fails a b d c s e) as Hl;
    destruct (one_k_loop a b c d s) end; simpl; congruence.
Qed.

(** C5, counterexample.  With the potential V = 1 + phi the check fails at
    phi = 0 (dV/dphi = 1 >= 0), yet from any mode state at that field value
    the mode integrator takes its integration step, and the whole per-k
    integration never returns an error. *)
Lemma mode_integration_without_potential_check :
  primordial_inflation_check_potential rising_ppm 0 = Failure msg_potential_slope
  /\ (forall s : @mode_state euler_integrator,
        md_y s !!! index_in_phi rising_ppm = 0 ->
        exists s', one_k_step rising_ppm (ppr_with 1 1 1 1 10) (1 / 2) s = Success s')
  /\ (forall fuel e,
        primordial_inflation_one_k (GI := euler_integrator) rising_ppm
          (ppr_with 1 1 1 1 10) fuel (1 / 2) (background_vector 1 0 1) zero_vector
        <> Failure e).
Proof.
  split; [|split].
  - rewrite (check_potential_spec rising_ppm 0 1 1 0).
    + destruct (bool_decide_reflect (1 <= 0)); [lra|].
      destruct (bool_decide_reflect (1 >= 0)); [reflexivity|lra].
    + unfold primordial_inflation_potential, rising_ppm, inflation_ppm; simpl.
      do 2 f_equal; [f_equal|]; lra.
  - intros s _. apply euler_one_k_step_total.
  - intros fuel e. apply euler_one_k_never_fails.
Qed.

(** ** Table lookup: the sign test of the linear mode *)

(** C10.  In linear mode a wavenumber k <= 0 makes
    [primordial_spectrum_at_k] return the error status at once, with the
    caller's output array as it was, whatever the interpolation routine is;
    in logarithmic mode the test is not applied: the function can fail with
    that message only if the interpolation routine itself returned it. *)
Theorem spectrum_at_k_rejects_nonpositive_k
    `{AT : ArrayTools} (ppm : primordial) (index_mode : nat)
    (input : R) (output : list R) (Hk : input <= 0) :
  primordial_spectrum_at_k ppm index_mode linear input output
  = (Failure msg_k_not_positive, output)
  /\ infer_lnk logarithmic input = Success input
  /\ ((primordial_spectrum_at_k ppm index_mode logarithmic input output).1
      = Failure msg_k_not_positive ->
      (array_interpolate_spline (lnk ppm) (lnk_size ppm)
         (lnpk ppm !!! index_mode) (ddlnpk ppm !!! index_mode)
         (ic_ic_size ppm !!! index_mode) input output
         (ic_ic_size ppm !!! index_mode)).1 = Failure msg_k_not_positive).
Proof.
  split; [|split].
  - unfold primordial_spectrum_at_k, infer_lnk.
    destruct (bool_decide_reflect (input <= 0)); [reflexivity|lra].
  - reflexivity.
  - unfold primordial_spectrum_at_k, infer_lnk.
    destruct (_ || _).
    + destruct (primordial_spec_type ppm); simpl; discriminate.
    + destruct (array_interpolate_spline _ _ _ _ _ _ _ _) as [[last|e|] out];
        simpl; congruence.
Qed.

Lemma spectrum_at_k_rejects_nonpositive_k_witness :
  primordial_spectrum_at_k (AT := first_line_lookup) analytic_ppm 0 linear (-1) [7; 7; 7]
  = (Failure msg_k_not_positive, [7; 7; 7])
  /\ infer_lnk logarithmic (-1) = Success (-1)
  /\ ((primordial_spectrum_at_k (AT := first_line_lookup) analytic_ppm 0
         logarithmic (-1) [7; 7; 7]).1
      = Failure msg_k_not_positive ->
      (array_interpolate_spline (ArrayTools := first_line_lookup)
         (lnk analytic_ppm) (lnk_size analytic_ppm)
         (lnpk analytic_ppm !!! 0%nat) (ddlnpk analytic_ppm !!! 0%nat)
         (ic_ic_size analytic_ppm !!! 0%nat) (-1) [7; 7; 7]
         (ic_ic_size analytic_ppm !!! 0%nat)).1 = Failure msg_k_not_positive).
Proof.
  apply (@spectrum_at_k_rejects_nonpositive_k first_line_lookup analytic_ppm 0%nat
           (-1) [7; 7; 7]).
  lra.
Defined.

(** ** Table lookup: range dispatch and direct computation *)

Lemma triangle_double (i : nat) : (2 * (i * (i - 1) / 2) = i * (i - 1))%nat.
Proof.
  induction i as [|i IH]; [reflexivity|].
  replace (S i * (S i - 1))%nat with (i * (i - 1) + i * 2)%nat by nia.
  rewrite Nat.div_add by lia. nia.
Qed.

Lemma index_symmetric_matrix_lt (i1 i2 N : nat) :
  (i1 <= i2 < N)%nat -> (index_symmetric_matrix i1 i2 N < N * (N + 1) / 2)%nat.
Proof.
  intros H. unfold index_symmetric_matrix.
  pose proof (triangle_double i1) as Hi.
  pose proof (triangle_double (N + 1)) as HN.
  replace (N + 1 - 1)%nat with N in HN by lia.
  replace (N * (N + 1))%nat with ((N + 1) * N)%nat by lia.
  nia.
Qed.

Lemma fold_insert_lookup {K : Type} (idx : K -> nat) (val : nat -> R)
    (L : list K) (out : list R) (p : K) :
  (idx p < length out)%nat ->
  In p L \/ out !!! idx p = val (idx p) ->
  fold_left (fun out q => <[idx q := val (idx q)]> out) L out !!! idx p = val (idx p).
Proof.
  revert out. induction L as [|q L IH]; intros out Hlen Hin; simpl.
  - destruct Hin as [[]|H]; exact H.
  - apply IH; [rewrite length_insert; exact Hlen|].
    destruct Hin as [[->|Hin]|Hout].
    + right. apply list_lookup_total_insert_eq. exact Hlen.
    + left. exact Hin.
    + right. destruct (Nat.eq_dec (idx q) (idx p)) as [E|E].
      * rewrite E. apply list_lookup_total_insert_eq. exact Hlen.
      * rewrite list_lookup_total_insert_ne by exact E. exact Hout.
Qed.

Lemma fold_left_nested {S A B : Type} (f : A -> list B) (g : A -> B -> S -> S)
    (l : list A) (s : S) :
  fold_left (fun s a => fold_left (fun s b => g a b s) (f a) s) l s
  = fold_left (fun s ab => g (fst ab) (snd ab) s)
      (flat_map (fun a => map (pair a) (f a)) l) s.
Proof.
  revert s. induction l as [|a l IH]; intros s; simpl; [reflexivity|].
  rewrite fold_left_app, IH. f_equal.
  generalize (f a) s. intros lb. induction lb as [|b lb IHb]; intros s0; simpl;
    [reflexivity | apply IHb].
Qed.

Lemma fold_left_pointwise {S A : Type} (f g : S -> A -> S) (l : list A) (s : S) :
  (forall s a, f s a = g s a) -> fold_left f l s = fold_left g l s.
Proof.
  intros H. revert s. induction l as [|a l IH]; intros s; simpl; [reflexivity|].
  rewrite H. apply IH.
Qed.

Lemma direct_computation_entries (ppm : primordial) (index_mode : nat) (lnk_ : R)
    (output : list R) (i1 i2 : nat) :
  let n := ic_size ppm !!! index_mode in
  (i1 <= i2 < n)%nat ->
  (n * (n + 1) / 2 <= length output)%nat ->
  direct_computation ppm index_mode lnk_ output !!! index_symmetric_matrix i1 i2 n
  = primordial_analytic_spectrum ppm index_mode (index_symmetric_matrix i1 i2 n) (exp lnk_).
Proof.
  intros n Hi Hlen. unfold direct_computation, for_loop. fold n.
  rewrite (fold_left_nested (fun i1 => seq i1 (n - i1))
             (fun index_ic1 index_ic2 output =>
                if ((is_non_zero ppm !!! index_mode)
                      !!! index_symmetric_matrix index_ic1 index_ic2 n : bool)
                then <[index_symmetric_matrix index_ic1 index_ic2 n :=
                         primordial_analytic_spectrum ppm index_mode
                           (index_symmetric_matrix index_ic1 index_ic2 n) (exp lnk_)]> output
                else <[index_symmetric_matrix index_ic1 index_ic2 n := 0]> output)).
  erewrite (fold_left_pointwise _
              (fun out (q : nat * nat) =>
                 <[index_symmetric_matrix (fst q) (snd q) n :=
                     primordial_analytic_spectrum ppm index_mode
                       (index_symmetric_matrix (fst q) (snd q) n) (exp lnk_)]> out)).
  - apply (fold_insert_lookup (fun q : nat * nat => index_symmetric_matrix (fst q) (snd q) n)
             (fun idx => primordial_analytic_spectrum ppm index_mode idx (exp lnk_))
             _ output (i1, i2)).
    + simpl. pose proof (index_symmetric_matrix_lt i1 i2 n Hi). lia.
    + left. apply in_flat_map. exists i1. split.
      * apply in_seq. lia.
      * apply in_map. apply in_seq. lia.
  - intros out q. unfold primordial_analytic_spectrum.
    destruct ((is_non_zero ppm !!! index_mode) !!! _ : bool); reflexivity.
Qed.

Lemma infer_lnk_linear (mode : linear_or_logarithmic) (input lnk_ : R) :
  infer_lnk mode input = Success lnk_ -> mode = linear -> input > 0 /\ exp lnk_ = input.
Proof.
  intros H ->. unfold infer_lnk in H.
  destruct (bool_decide_reflect (input <= 0)); simpl in H; [discriminate|].
  injection H as <-. split; [lra|]. apply exp_ln. lra.
Qed.

(** C8.  Let ln(k) be inferred from the input.  If it lies in the closed
    interval between the first and the last node of the grid (end points
    included), the result is the one of the spline interpolation (turned
    into P(k) in linear mode) and the out-of-range test does not fire.  If it
    lies strictly outside, the function fails with the out-of-range message
    unless the spectrum is analytic; then it succeeds, and every pair entry
    i1 <= i2 of the direct computation holds
    A exp((n-1) ln(k/k_pivot) + 0.5 alpha ln(k/k_pivot)^2) when the pair is
    non-zero and 0 otherwise, the logarithmic mode applying its
    transformation to these values. *)
Theorem spectrum_at_k_range_dispatch
    `{AT : ArrayTools} (ppm : primordial) (index_mode : nat)
    (mode : linear_or_logarithmic) (input lnk_ : R) (output : list R)
    (Hgrid : (0 < lnk_size ppm)%nat)
    (Hlnk : infer_lnk mode input = Success lnk_) :
  let first := lnk ppm !!! 0%nat in
  let last := lnk ppm !!! (lnk_size ppm - 1)%nat in
  let n := ic_size ppm !!! index_mode in
  (first <= lnk_ <= last ->
   primordial_spectrum_at_k ppm index_mode mode input output
   = match array_interpolate_spline (lnk ppm) (lnk_size ppm)
             (lnpk ppm !!! index_mode) (ddlnpk ppm !!! index_mode)
             (ic_ic_size ppm !!! index_mode) lnk_ output
             (ic_ic_size ppm !!! index_mode) with
     | (Success _, out) =>
         (Success tt,
          match mode with linear => to_linear ppm index_mode out | logarithmic => out end)
     | (Failure e, out) => (Failure e, out)
     | (OutOfFuel, out) => (OutOfFuel, out)
     end)
  /\ (lnk_ < first \/ lnk_ > last ->
      primordial_spec_type ppm <> analytic_Pk ->
      primordial_spectrum_at_k ppm index_mode mode input output
      = (Failure msg_k_out_of_range, output))
  /\ (lnk_ < first \/ lnk_ > last ->
      primordial_spec_type ppm = analytic_Pk ->
      (n * (n + 1) / 2 <= length output)%nat ->
      exists direct : list R,
        primordial_spectrum_at_k ppm index_mode mode input output
        = (Success tt,
           match mode with
           | linear => direct
           | logarithmic => to_logarithmic ppm index_mode direct
           end)
        /\ (mode = linear -> exp lnk_ = input)
        /\ forall i1 i2 : nat, (i1 <= i2 < n)%nat ->
             direct !!! index_symmetric_matrix i1 i2 n
             = if ((is_non_zero ppm !!! index_mode) !!! index_symmetric_matrix i1 i2 n : bool)
               then (amplitude ppm !!! index_mode : list R) !!! index_symmetric_matrix i1 i2 n
                    * exp (((tilt ppm !!! index_mode : list R) !!! index_symmetric_matrix i1 i2 n - 1)
                           * ln (exp lnk_ / k_pivot ppm)
                           + 0.5 * (running ppm !!! index_mode : list R)
                                     !!! index_symmetric_matrix i1 i2 n
                             * ln (exp lnk_ / k_pivot ppm) ^ 2)
               else 0).
Proof.
  intros first last n. unfold primordial_spectrum_at_k. rewrite Hlnk.
  fold first last.
  split; [|split].
  - intros [Hlo Hhi].
    destruct (bool_decide_reflect (lnk_ > last)); [lra|].
    destruct (bool_decide_reflect (lnk_ < first)); [lra|]. simpl.
    destruct (array_interpolate_spline _ _ _ _ _ _ _ _) as [[li|e|] out]; reflexivity.
  - intros Hout Hty.
    assert (bool_decide (lnk_ > last) || bool_decide (lnk_ < first) = true) as ->.
    { destruct (bool_decide_reflect (lnk_ > last)); [reflexivity|].
      destruct (bool_decide_reflect (lnk_ < first)); [reflexivity|]. lra. }
    destruct (primordial_spec_type ppm); [contradiction|reflexivity].
  - intros Hout Hty Hlen.
    assert (bool_decide (lnk_ > last) || bool_decide (lnk_ < first) = true) as ->.
    { destruct (bool_decide_reflect (lnk_ > last)); [reflexivity|].
      destruct (bool_decide_reflect (lnk_ < first)); [reflexivity|]. lra. }
    rewrite Hty. exists (direct_computation ppm index_mode lnk_ output).
    split; [destruct mode; reflexivity|]. split.
    + intros Hm. apply (infer_lnk_linear mode input lnk_ Hlnk Hm).
    + intros i1 i2 Hi.
      pose proof (direct_computation_entries ppm index_mode lnk_ output i1 i2 Hi Hlen) as E.
      cbv zeta in E. unfold n. rewrite E. reflexivity.
Qed.

Lemma spectrum_at_k_range_dispatch_witness :
  (0 < lnk_size analytic_ppm)%nat
  /\ infer_lnk logarithmic 0 = Success 0
  /\ primordial_spectrum_at_k (AT := first_line_lookup) analytic_ppm 0 logarithmic 0 [7; 7; 7]
     = (Success tt, [0; 0; 0])
  /\ primordial_spectrum_at_k (AT := first_line_lookup) analytic_ppm 0 logarithmic 1 [7; 7; 7]
     = (Success tt, [0; 0; 0])
  /\ exists direct : list R,
       primordial_spectrum_at_k (AT := first_line_lookup) analytic_ppm 0 logarithmic 2 [7; 7; 7]
       = (Success tt, to_logarithmic analytic_ppm 0 direct)
       /\ direct !!! index_symmetric_matrix 0 1 2 = 0.
Proof.
  assert (Hgrid : (0 < lnk_size analytic_ppm)%nat) by (unfold lnk_size; simpl; lia).
  split; [exact Hgrid|]. split; [reflexivity|]. split; [|split].
  - destruct (@spectrum_at_k_range_dispatch first_line_lookup analytic_ppm 0%nat
                logarithmic 0 0 [7; 7; 7] Hgrid eq_refl) as [Ha _].
    rewrite Ha; [reflexivity|]. simpl. lra.
  - destruct (@spectrum_at_k_range_dispatch first_line_lookup analytic_ppm 0%nat
                logarithmic 1 1 [7; 7; 7] Hgrid eq_refl) as [Ha _].
    rewrite Ha; [reflexivity|]. simpl. lra.
  - destruct (@spectrum_at_k_range_dispatch first_line_lookup analytic_ppm 0%nat
                logarithmic 2 2 [7; 7; 7] Hgrid eq_refl) as (_ & _ & Hc).
    destruct Hc as (direct & Hd & _ & Hentries).
    + right. simpl. lra.
    + reflexivity.
    + simpl. lia.
    + exists direct. split; [exact Hd|]. apply (Hentries 0%nat 1%nat). simpl. lia.
Defined.

(** ** Mode integration: initial conditions *)

Lemma vector_of_length_11 (y : list R) :
  length y = 11%nat ->
  exists y0 y1 y2 y3 y4 y5 y6 y7 y8 y9 y10,
    y = [y0; y1; y2; y3; y4; y5; y6; y7; y8; y9; y10].
Proof.
  intros H.
  do 11 (destruct y as [|? y]; [discriminate H|]).
  destruct y; [|discriminate H]. repeat eexists.
Qed.

(** C4.  With the indices assigned by [primordial_inflation_indices] and a
    state vector of [in_size] entries, the mode integration for a
    wavenumber k > 0 starts from a state in which the curvature mode
    function ksi and the tensor mode function ah both have the value
    1/sqrt(2k) (real part, the imaginary part being 0, so that the squared
    modulus is 1/(2k)), and the derivative of each is -k times that value
    (stored in the imaginary slot, the real slot being 0); the background
    entries are left as they were.  This state is the one handed to the
    first derivative evaluation and to the loop. *)
Theorem one_k_bunch_davies_initial_conditions
    (ppm0 ppm : primordial) (k : R) (y : list R)
    (Hidx : primordial_inflation_indices ppm0 = Success ppm)
    (Hk : k > 0)
    (Hlen : length y = in_size ppm) :
  let y' := one_k_initial_conditions ppm k y in
  (y' !!! index_in_ksi_re ppm = 1 / sqrt (2 * k)
   /\ y' !!! index_in_ksi_im ppm = 0
   /\ y' !!! index_in_dksi_re ppm = 0
   /\ y' !!! index_in_dksi_im ppm = - k * y' !!! index_in_ksi_re ppm)
  /\ (y' !!! index_in_ah_re ppm = 1 / sqrt (2 * k)
      /\ y' !!! index_in_ah_im ppm = 0
      /\ y' !!! index_in_dah_re ppm = 0
      /\ y' !!! index_in_dah_im ppm = - k * y' !!! index_in_ah_re ppm)
  /\ (0 < 1 / sqrt (2 * k) /\ (1 / sqrt (2 * k)) ^ 2 = 1 / (2 * k))
  /\ (y' !!! index_in_a ppm = y !!! index_in_a ppm
      /\ y' !!! index_in_phi ppm = y !!! index_in_phi ppm
      /\ y' !!! index_in_dphi ppm = y !!! index_in_dphi ppm)
  /\ (forall (GI : GenericIntegrator) (ppr : precision) (fuel : nat) (dy : list R),
        primordial_inflation_one_k ppm ppr fuel k y dy
        = (class_call gi <- initialize_generic_integrator (in_size ppm) ;
           class_call dy0 <- primordial_inflation_derivs ppm (mode_pipaw ppm k) 0 y' dy ;
           class_call s <- one_k_loop ppm ppr fuel k
                             {| md_y := y'; md_dy := dy0; md_tau_end := 0;
                                md_dtau := mode_dtau ppm ppr k y' dy0;
                                md_aH := 0; md_curvature_new := 1e10; md_dlnPdN := 0;
                                md_gi := gi |} ;
           class_call _ <- cleanup_generic_integrator (md_gi s) ;
           Success (md_y s, md_dy s, md_curvature_new s,
                    32 * k * k * k / _PI_
                    * (md_y s !!! index_in_ah_re ppm * md_y s !!! index_in_ah_re ppm
                       + md_y s !!! index_in_ah_im ppm * md_y s !!! index_in_ah_im ppm)
                    / md_y s !!! index_in_a ppm / md_y s !!! index_in_a ppm))).
Proof.
  intros y'. injection Hidx as <-.
  simpl in Hlen. destruct (vector_of_length_11 y Hlen)
    as (y0 & y1 & y2 & y3 & y4 & y5 & y6 & y7 & y8 & y9 & y10 & ->).
  assert (Hs : 0 < sqrt (2 * k)) by (apply sqrt_lt_R0; lra).
  split; [|split; [|split; [|split]]].
  - subst y'. repeat split; reflexivity.
  - subst y'. repeat split; reflexivity.
  - split.
    + apply Rdiv_lt_0_compat; lra.
    + replace ((1 / sqrt (2 * k)) ^ 2) with (1 / (sqrt (2 * k) * sqrt (2 * k)))
        by (field; lra).
      rewrite sqrt_sqrt by lra. reflexivity.
  - subst y'. repeat split; reflexivity.
  - intros GI ppr fuel dy. reflexivity.
Qed.

Lemma one_k_bunch_davies_initial_conditions_witness :
  let y' := one_k_initial_conditions linear_ppm 2 (background_vector 1 0 1) in
  y' !!! index_in_ksi_re linear_ppm = 1 / sqrt (2 * 2)
  /\ y' !!! index_in_dksi_im linear_ppm = - 2 * y' !!! index_in_ksi_re linear_ppm
  /\ y' !!! index_in_ah_re linear_ppm = 1 / sqrt (2 * 2)
  /\ y' !!! index_in_dah_im linear_ppm = - 2 * y' !!! index_in_ah_re linear_ppm.
Proof.
  assert (Hidx : primordial_inflation_indices linear_ppm = Success linear_ppm)
    by reflexivity.
  assert (Hk : 2 > 0) by lra.
  assert (Hlen : length (background_vector 1 0 1) = in_size linear_ppm) by reflexivity.
  destruct (one_k_bunch_davies_initial_conditions linear_ppm linear_ppm 2
              (background_vector 1 0 1) Hidx Hk Hlen)
    as ((H1 & _ & _ & H2) & (H3 & _ & _ & H4) & _).
  repeat split; assumption.
Defined.

(** ** Mode integration: when the loop stops *)

Lemma one_k_step_fields `{GI : GenericIntegrator} (ppm : primordial) (ppr : precision)
    (k : R) (s s' : mode_state) :
  one_k_step ppm ppr k s = Success s' ->
  md_aH s' = md_dy s' !!! index_in_a ppm / md_y s' !!! index_in_a ppm
  /\ md_dlnPdN s'
     = (md_curvature_new s' - md_curvature_new s) / md_dtau s'
       * md_y s' !!! index_in_a ppm / md_dy s' !!! index_in_a ppm / md_curvature_new s'.
Proof.
  unfold one_k_step. intros H.
  destruct (generic_integrator _ _ _ _ _ _ _) as [[y gi]|e|]; simpl in H; try discriminate.
  destruct (primordial_inflation_derivs _ _ _ _ _) as [dy|e|]; simpl in H; try discriminate.
  injection H as <-. simpl. split; reflexivity.
Qed.

Lemma one_k_continue_false `{GI : GenericIntegrator} (ppr : precision) (k : R)
    (s : mode_state) :
  one_k_continue ppr k s = false
  <-> k / md_aH s < primordial_inflation_ratio_max ppr
      /\ Rabs (md_dlnPdN s) <= primordial_inflation_tol_curvature ppr.
Proof.
  unfold one_k_continue.
  destruct (bool_decide_reflect (k / md_aH s >= primordial_inflation_ratio_max ppr));
    destruct (bool_decide_reflect
                (Rabs (md_dlnPdN s) > primordial_inflation_tol_curvature ppr));
    simpl; split; intros H; try discriminate; try reflexivity; lra.
Qed.

Lemma one_k_loop_Success `{GI : GenericIntegrator} (ppm : primordial) (ppr : precision)
    (k : R) (fuel : nat) (s s_end : mode_state) :
  one_k_loop ppm ppr fuel k s = Success s_end -> one_k_continue ppr k s_end = false.
Proof.
  revert s. induction fuel as [|fuel IH]; intros s; simpl; [discriminate|].
  destruct (one_k_step ppm ppr k s) as [s'|e|]; simpl; try discriminate.
  destruct (one_k_continue ppr k s') eqn:Hc; [apply IH|].
  intros H. injection H as <-. exact Hc.
Qed.

(** C7.  After a pass of the loop body that yields the state s', with
    aH = dy[a]/y[a] and dlnPdN the fractional change of the curvature
    spectrum per e-fold computed in that pass: the loop stops there exactly
    when k/aH < ratio_max and |dlnPdN| <= tol_curvature both hold; when
    either fails another pass is made from s'.  Hence whenever the loop
    returns, both conditions hold at the state it returns. *)
Theorem one_k_loop_stops_when_both_hold
    `{GI : GenericIntegrator} (ppm : primordial) (ppr : precision) (k : R)
    (s s' : mode_state)
    (Hstep : one_k_step ppm ppr k s = Success s') :
  let ratio_max := primordial_inflation_ratio_max ppr in
  let tol := primordial_inflation_tol_curvature ppr in
  (md_aH s' = md_dy s' !!! index_in_a ppm / md_y s' !!! index_in_a ppm
   /\ md_dlnPdN s'
      = (md_curvature_new s' - md_curvature_new s) / md_dtau s'
        * md_y s' !!! index_in_a ppm / md_dy s' !!! index_in_a ppm / md_curvature_new s')
  /\ (k / md_aH s' < ratio_max /\ Rabs (md_dlnPdN s') <= tol ->
      forall fuel, one_k_loop ppm ppr (S fuel) k s = Success s')
  /\ (k / md_aH s' >= ratio_max \/ Rabs (md_dlnPdN s') > tol ->
      forall fuel, one_k_loop ppm ppr (S fuel) k s = one_k_loop ppm ppr fuel k s')
  /\ (forall fuel s_end,
        one_k_loop ppm ppr fuel k s = Success s_end ->
        k / md_aH s_end < ratio_max /\ Rabs (md_dlnPdN s_end) <= tol).
Proof.
  intros ratio_max tol. split; [|split; [|split]].
  - exact (one_k_step_fields ppm ppr k s s' Hstep).
  - intros Hexit fuel. simpl. rewrite Hstep. simpl.
    apply one_k_continue_false in Hexit. rewrite Hexit. reflexivity.
  - intros Hgo fuel. simpl. rewrite Hstep. simpl.
    destruct (one_k_continue ppr k s') eqn:Hc; [reflexivity|].
    apply one_k_continue_false in Hc. fold ratio_max tol in Hc. lra.
  - intros fuel s_end H. apply one_k_continue_false.
    exact (one_k_loop_Success ppm ppr k fuel s s_end H).
Qed.

(** ** Spectrum assembly: only positive powers are stored *)

Lemma spectra_store_spec (ppt : perturbs) (table : primordial) (index_k : nat)
    (curvature tensors : R) :
  spectra_store ppt table index_k curvature tensors
  = if bool_decide (curvature <= 0) then Failure msg_negative_curvature
    else if bool_decide (tensors <= 0) then Failure msg_negative_tensor
    else
      let t1 := <[index_md_scalars ppt :=
                    <[index_k := ln curvature]> (lnpk table !!! index_md_scalars ppt)]>
                  (lnpk table) in
      let t2 := <[index_md_tensors ppt :=
                    <[index_k := ln tensors]> (t1 !!! index_md_tensors ppt)]> t1 in
      let z1 := <[index_md_scalars ppt :=
                    <[0%nat := true]> (is_non_zero table !!! index_md_scalars ppt)]>
                  (is_non_zero table) in
      let z2 := <[index_md_tensors ppt :=
                    <[0%nat := true]> (z1 !!! index_md_tensors ppt)]> z1 in
      Success (with_table table t2 z2).
Proof.
  unfold spectra_store.
  destruct (bool_decide (curvature <= 0)); simpl; [reflexivity|].
  destruct (bool_decide (tensors <= 0)); reflexivity.
Qed.





(** ** Spectral parameters by finite differences *)

Lemma spectrum_at_k_into_with_scalar_parameters `{AT : ArrayTools}
    (ppm : primordial) (a n al : R) (index_mode : nat) (mode : linear_or_logarithmic)
    (input x : R) :
  spectrum_at_k_into (with_scalar_parameters ppm a n al) index_mode mode input x
  = spectrum_at_k_into ppm index_mode mode input x.
Proof. reflexivity. Qed.

(** C9.  For a spectrum that is not analytic, with scalar and tensor modes
    present, when the last block of [primordial_init] succeeds there are
    values lnP(ln k_pivot), lnP(ln k_pivot + dlnk), lnP(ln k_pivot - dlnk) of
    the scalar and of the tensor log-spectrum, returned by
    [primordial_spectrum_at_k] in logarithmic mode with
    dlnk = ln(10)/k_per_decade_primordial, such that
    A_s = exp(lnP_pivot), n_s = (lnP_plus - lnP_minus)/(2 dlnk) + 1,
    alpha_s = (lnP_plus - 2 lnP_pivot + lnP_minus)/dlnk^2, and from the tensor
    values r = exp(lnP_pivot)/A_s, n_t = (lnP_plus - lnP_minus)/(2 dlnk),
    alpha_t = (lnP_plus - 2 lnP_pivot + lnP_minus)/dlnk^2. *)
Theorem spectral_parameters_by_finite_differences
    `{AT : ArrayTools} (ppr : precision) (ppt : perturbs) (ppm ppm' : primordial)
    (lnpk_pivot lnpk_plus lnpk_minus : R)
    (Htype : primordial_spec_type ppm <> analytic_Pk)
    (Hscalars : has_scalars ppt = true)
    (Htensors : has_tensors ppt = true)
    (Hrun : primordial_init_spectral_parameters ppr ppt ppm
              (lnpk_pivot, lnpk_plus, lnpk_minus) = Success ppm') :
  let dlnk := ln 10 / k_per_decade_primordial ppr in
  let lnk_pivot := ln (k_pivot ppm) in
  exists s_pivot s_plus s_minus t_pivot t_plus t_minus : R,
    (spectrum_at_k_into ppm (index_md_scalars ppt) logarithmic lnk_pivot lnpk_pivot
     = Success s_pivot
     /\ spectrum_at_k_into ppm (index_md_scalars ppt) logarithmic (lnk_pivot + dlnk) lnpk_plus
        = Success s_plus
     /\ spectrum_at_k_into ppm (index_md_scalars ppt) logarithmic (lnk_pivot - dlnk) lnpk_minus
        = Success s_minus)
    /\ (spectrum_at_k_into ppm (index_md_tensors ppt) logarithmic lnk_pivot s_pivot
        = Success t_pivot
        /\ spectrum_at_k_into ppm (index_md_tensors ppt) logarithmic (lnk_pivot + dlnk) s_plus
           = Success t_plus
        /\ spectrum_at_k_into ppm (index_md_tensors ppt) logarithmic (lnk_pivot - dlnk) s_minus
           = Success t_minus)
    /\ (A_s ppm' = exp s_pivot
        /\ n_s ppm' = (s_plus - s_minus) / (2 * dlnk) + 1
        /\ alpha_s ppm' = (s_plus - 2 * s_pivot + s_minus) / dlnk ^ 2)
    /\ (r ppm' = exp t_pivot / A_s ppm'
        /\ n_t ppm' = (t_plus - t_minus) / (2 * dlnk)
        /\ alpha_t ppm' = (t_plus - 2 * t_pivot + t_minus) / dlnk ^ 2).
Proof.
  intros dlnk lnk_pivot. unfold primordial_init_spectral_parameters in Hrun.
  destruct (primordial_spec_type ppm) eqn:Hty; [contradiction|].
  rewrite Hscalars, Htensors in Hrun. fold dlnk lnk_pivot in Hrun.
  apply bind_Success in Hrun as ([[[ppm1 p1] p2] p3] & Hs & Ht).
  apply bind_Success in Hs as (s_pivot & Hs0 & Hs).
  apply bind_Success in Hs as (s_plus & Hs1 & Hs).
  apply bind_Success in Hs as (s_minus & Hs2 & Hs).
  injection Hs as <- <- <- <-.
  simpl k_pivot in Ht. fold lnk_pivot in Ht.
  rewrite !spectrum_at_k_into_with_scalar_parameters in Ht.
  apply bind_Success in Ht as (t_pivot & Ht0 & Ht).
  apply bind_Success in Ht as (t_plus & Ht1 & Ht).
  apply bind_Success in Ht as (t_minus & Ht2 & Ht).
  injection Ht as <-.
  exists s_pivot, s_plus, s_minus, t_pivot, t_plus, t_minus.
  simpl. repeat split; assumption || reflexivity.
Qed.

Lemma ln_10_pos : 0 < ln 10.
Proof. rewrite <- ln_1. apply ln_increasing; lra. Qed.

Lemma tabulated_lookup (index_mode : nat) (x v : R) :
  (index_mode < 2)%nat ->
  - ln 10 <= x <= ln 10 ->
  spectrum_at_k_into (AT := first_line_lookup) tabulated_ppm index_mode logarithmic x v
  = Success ((lnpk tabulated_ppm !!! index_mode : list R) !!! 0%nat).
Proof.
  intros Hm [Hlo Hhi]. unfold spectrum_at_k_into, primordial_spectrum_at_k, infer_lnk.
  simpl lnk. unfold lnk_size. simpl lnk. simpl length.
  change ([- ln 10; ln 10] !!! (2 - 1)%nat) with (ln 10).
  change ([- ln 10; ln 10] !!! 0%nat) with (- ln 10).
  destruct (bool_decide_reflect (x > ln 10)); [lra|].
  destruct (bool_decide_reflect (x < - ln 10)); [lra|].
  destruct index_mode as [|[|index_mode]]; [reflexivity..|lia].
Qed.

Lemma tabulated_spectral_parameters :
  primordial_init_spectral_parameters (AT := first_line_lookup)
    (ppr_with 1 1 1 1 10) scalars_and_tensors tabulated_ppm (0, 0, 0)
  = Success
      (with_tensor_parameters
         (with_scalar_parameters tabulated_ppm (exp (-20))
            ((-20 - -20) / (2 * (ln 10 / 10)) + 1)
            ((-20 - 2 * -20 + -20) / (ln 10 / 10) ^ 2))
         (exp (-22) / exp (-20))
         ((-22 - -22) / (2 * (ln 10 / 10)))
         ((-22 - 2 * -22 + -22) / (ln 10 / 10) ^ 2)).
Proof.
  pose proof ln_10_pos as H10.
  unfold primordial_init_spectral_parameters.
  change (primordial_spec_type tabulated_ppm) with inflation_V.
  change (has_scalars scalars_and_tensors) with true.
  change (has_tensors scalars_and_tensors) with true.
  change (k_per_decade_primordial (ppr_with 1 1 1 1 10)) with 10.
  change (k_pivot tabulated_ppm) with 1.
  cbv iota beta.
  rewrite !tabulated_lookup by (simpl; lia || (rewrite ln_1; lra)).
  cbn [bind].
  rewrite !spectrum_at_k_into_with_scalar_parameters.
  change (k_pivot (with_scalar_parameters _ _ _ _)) with 1.
  rewrite !tabulated_lookup by (simpl; lia || (rewrite ln_1; lra)).
  reflexivity.
Qed.

Lemma spectral_parameters_by_finite_differences_witness :
  let ppm' :=
    with_tensor_parameters
      (with_scalar_parameters tabulated_ppm (exp (-20))
         ((-20 - -20) / (2 * (ln 10 / 10)) + 1)
         ((-20 - 2 * -20 + -20) / (ln 10 / 10) ^ 2))
      (exp (-22) / exp (-20))
      ((-22 - -22) / (2 * (ln 10 / 10)))
      ((-22 - 2 * -22 + -22) / (ln 10 / 10) ^ 2) in
  let dlnk := ln 10 / 10 in
  exists s_pivot s_plus s_minus t_pivot t_plus t_minus : R,
    (spectrum_at_k_into (AT := first_line_lookup) tabulated_ppm 0 logarithmic (ln 1) 0
     = Success s_pivot
     /\ spectrum_at_k_into (AT := first_line_lookup) tabulated_ppm 0 logarithmic
          (ln 1 + dlnk) 0 = Success s_plus
     /\ spectrum_at_k_into (AT := first_line_lookup) tabulated_ppm 0 logarithmic
          (ln 1 - dlnk) 0 = Success s_minus)
    /\ (spectrum_at_k_into (AT := first_line_lookup) tabulated_ppm 1 logarithmic
          (ln 1) s_pivot = Success t_pivot
        /\ spectrum_at_k_into (AT := first_line_lookup) tabulated_ppm 1 logarithmic
             (ln 1 + dlnk) s_plus = Success t_plus
        /\ spectrum_at_k_into (AT := first_line_lookup) tabulated_ppm 1 logarithmic
             (ln 1 - dlnk) s_minus = Success t_minus)
    /\ (A_s ppm' = exp s_pivot
        /\ n_s ppm' = (s_plus - s_minus) / (2 * dlnk) + 1
        /\ alpha_s ppm' = (s_plus - 2 * s_pivot + s_minus) / dlnk ^ 2)
    /\ (r ppm' = exp t_pivot / A_s ppm'
        /\ n_t ppm' = (t_plus - t_minus) / (2 * dlnk)
        /\ alpha_t ppm' = (t_plus - 2 * t_pivot + t_minus) / dlnk ^ 2).
Proof.
  intros ppm' dlnk.
  assert (Htype : primordial_spec_type tabulated_ppm <> analytic_Pk) by discriminate.
  exact (@spectral_parameters_by_finite_differences first_line_lookup
           (ppr_with 1 1 1 1 10) scalars_and_tensors tabulated_ppm ppm' 0 0 0
           Htype eq_refl eq_refl tabulated_spectral_parameters).
Defined.

(** ** Background evolution on concrete inputs *)

Lemma derivs_background_linear (l : list R) (tau a phi dphi : R) (rest : list R) (d0 d1 d2 : R)
    (drest : list R) :
  primordial_inflation_derivs (linear_ppm_on l) (bg_pipaw (linear_ppm_on l)) tau
    (a :: phi :: dphi :: rest) (d0 :: d1 :: d2 :: drest)
  = Success (a * linear_aH a phi dphi :: dphi :: linear_ddphi a phi dphi :: drest).
Proof.
  unfold primordial_inflation_derivs.
  change (index_in_phi (linear_ppm_on l)) with 1%nat.
  change ((a :: phi :: dphi :: rest) !!! 1%nat) with phi.
  rewrite potential_linear_ppm. reflexivity.
Qed.

Lemma get_epsilon_linear (l : list R) (x : R) :
  primordial_inflation_get_epsilon (linear_ppm_on l) x
  = Success (1 / 16 / PI * (-1 / (1 - x)) ^ 2).
Proof.
  unfold primordial_inflation_get_epsilon. rewrite potential_linear_ppm. reflexivity.
Qed.

Lemma evolve_background_no_step (l : list R) (ppr : precision) (fuel : nat)
    (a phi dphi phi_stop : R) :
  let dtau := primordial_inflation_bg_stepsize ppr
              * Rmin (1 / (a * linear_aH a phi dphi / a))
                  (Rabs (dphi / linear_ddphi a phi dphi)) in
  ~ phi <= phi_stop - dphi * dtau ->
  let dtau_last := (phi_stop - phi) / linear_ddphi a phi dphi in
  primordial_inflation_evolve_background (GI := euler_integrator) (linear_ppm_on l) ppr (S fuel)
    (background_vector a phi dphi) zero_vector phi_stop
  = Success
      ([a + a * linear_aH a phi dphi * dtau_last;
        phi + dphi * dtau_last;
        dphi + linear_ddphi a phi dphi * dtau_last; 0; 0; 0; 0; 0; 0; 0; 0],
       [a * linear_aH a phi dphi; dphi; linear_ddphi a phi dphi; 0; 0; 0; 0; 0; 0; 0; 0]).
Proof.
  intros dtau Hstop dtau_last.
  unfold primordial_inflation_evolve_background.
  cbn [initialize_generic_integrator euler_integrator bind].
  change (background_vector a phi dphi !!! index_in_dphi (linear_ppm_on l)) with dphi.
  rewrite get_epsilon_linear. cbn [bind].
  unfold zero_vector, background_vector. rewrite derivs_background_linear. cbn [bind].
  unfold evolve_background_loop, evolve_background_continue.
  cbn [bg_y bg_dy bg_dtau bg_tau_end bg_gi bg_epsilon].
  unfold background_dtau.
  change (index_in_phi (linear_ppm_on l)) with 1%nat.
  change (index_in_dphi (linear_ppm_on l)) with 2%nat.
  change (index_in_a (linear_ppm_on l)) with 0%nat.
  cbn [lookup_total list_lookup_total].
  change (primordial_inflation_bg_stepsize ppr
          * Rmin (1 / (a * linear_aH a phi dphi / a))
              (Rabs (dphi / linear_ddphi a phi dphi))) with dtau.
  destruct (bool_decide_reflect (phi <= phi_stop - dphi * dtau)); [contradiction|].
  cbn [bind cleanup_generic_integrator euler_integrator bg_gi bg_tau_end bg_y bg_dy].
  rewrite derivs_background_linear. cbn [bind].
  reflexivity.
Qed.

Lemma linear_aH_square (a phi dphi : R) :
  0 <= 0.5 * dphi * dphi + a * a * (1 - phi) ->
  0 <= linear_aH a phi dphi
  /\ linear_aH a phi dphi * linear_aH a phi dphi
     = 8 * PI / 3 * (0.5 * dphi * dphi + a * a * (1 - phi)).
Proof.
  intros H. unfold linear_aH, _PI_. pose proof pi_bounds as Hpi.
  split; [apply sqrt_pos|]. apply sqrt_sqrt. nra.
Qed.

Lemma Rmin_lower (x y m : R) : m <= x -> m <= y -> m <= Rmin x y.
Proof. intros Hx Hy. apply Rmin_glb; assumption. Qed.

Lemma Rmin_upper (x y m : R) : x <= m \/ y <= m -> Rmin x y <= m.
Proof.
  intros [H|H]; [pose proof (Rmin_l x y) | pose proof (Rmin_r x y)]; lra.
Qed.

Lemma inverse_bounds (x lo hi : R) :
  0 < lo -> lo <= x <= hi -> 1 / hi <= 1 / x <= 1 / lo.
Proof.
  intros Hlo [H1 H2]. unfold Rdiv. rewrite !Rmult_1_l.
  split; apply Rinv_le_contravar; lra.
Qed.

Lemma check_potential_linear (l : list R) (x : R) :
  x < 1 -> primordial_inflation_check_potential (linear_ppm_on l) x = Success tt.
Proof.
  intros H. rewrite (check_potential_spec (linear_ppm_on l) x (1 - x) (-1) 0)
    by apply potential_linear_ppm.
  destruct (bool_decide_reflect (1 - x <= 0)); [lra|].
  destruct (bool_decide_reflect (-1 >= 0)); [lra|]. reflexivity.
Qed.

Lemma quotient_bounds (x y lo hi : R) :
  0 < y -> lo * y <= x <= hi * y -> lo <= x / y <= hi.
Proof.
  intros Hy [H1 H2].
  assert (E : x = x / y * y) by (field; lra).
  split; apply Rmult_le_reg_r with y; try exact Hy; rewrite <- E; assumption.
Qed.

Lemma quotient_neg_bounds (x y lo hi : R) :
  y < 0 -> hi * y <= x <= lo * y -> lo <= x / y <= hi.
Proof.
  intros Hy [H1 H2].
  assert (E : x = x / y * y) by (field; lra).
  assert (Hl : ~ x / y < lo) by (intros C; assert (x / y * y > lo * y) by nra; lra).
  assert (Hh : ~ x / y > hi) by (intros C; assert (x / y * y < hi * y) by nra; lra).
  lra.
Qed.

(** C1, the code at a failing input.  Potential V = 1 - phi (V > 0 and
    dV/dphi = -1 < 0 wherever the field goes), state a = 1, phi = 0,
    a*dphi/dtau = 1/2, target phi_stop = 1/2000, step-size factor 1/100.
    The next step would overshoot, so the stepping loop exits at once; the
    final correction uses dtau = (phi_stop - phi)/dy[index_in_dphi], which
    moves a*dphi/dtau by exactly phi_stop - phi and leaves the field at a
    negative value instead of phi_stop. *)
Theorem evolve_background_misses_phi_stop :
  forall fuel : nat,
  exists y' dy' : list R,
    primordial_inflation_evolve_background (GI := euler_integrator) linear_ppm
      (ppr_with (1 / 100) (1 / 100) 1 (1 / 100) 10) (S fuel)
      (background_vector 1 0 (1 / 2)) zero_vector (1 / 2000)
    = Success (y', dy')
    /\ y' !!! index_in_phi linear_ppm < 0
    /\ y' !!! index_in_dphi linear_ppm = 1 / 2 + (1 / 2000 - 0)
    /\ primordial_inflation_check_potential linear_ppm 0 = Success tt
    /\ primordial_inflation_check_potential linear_ppm (y' !!! index_in_phi linear_ppm)
       = Success tt.
Proof.
  intros fuel.
  pose proof pi_bounds as Hpi.
  destruct (linear_aH_square 1 0 (1 / 2)) as [Hh0 Hh2]; [lra|].
  set (h := linear_aH 1 0 (1 / 2)) in *.
  assert (Hh : 3 < h < 7 / 2) by nra.
  assert (Hdd : linear_ddphi 1 0 (1 / 2) = 1 - h) by (unfold linear_ddphi; fold h; lra).
  rewrite evolve_background_no_step.
  - fold h. rewrite Hdd. eexists. eexists. split; [reflexivity|].
    change (index_in_phi linear_ppm) with 1%nat.
    change (index_in_dphi linear_ppm) with 2%nat.
    cbn [lookup_total list_lookup_total].
    destruct (quotient_neg_bounds (1 / 2000 - 0) (1 - h) (- (1 / 4000)) (- (1 / 5000)))
      as [Hq1 Hq2]; [lra|lra|].
    assert (Hphi : 0 + 1 / 2 * ((1 / 2000 - 0) / (1 - h)) < 0) by lra.
    split; [exact Hphi|]. split; [field; lra|].
    split; apply check_potential_linear; lra.
  - fold h. rewrite Hdd.
    change (primordial_inflation_bg_stepsize (ppr_with (1 / 100) (1 / 100) 1 (1 / 100) 10))
      with (1 / 100).
    assert (Hm : 1 / 5 <= Rmin (1 / (1 * h / 1)) (Rabs (1 / 2 / (1 - h)))).
    { apply Rmin_lower.
      - replace (1 * h / 1) with h by (field; lra).
        destruct (inverse_bounds h 3 (7 / 2)); lra.
      - destruct (quotient_neg_bounds (1 / 2) (1 - h) (- (1 / 4)) (- (1 / 5)))
          as [Hq1 Hq2]; [lra|lra|].
        rewrite Rabs_left by lra. lra. }
    lra.
Qed.

Lemma epsilon_linear_gt_1 (x : R) :
  x < 1 -> 16 * PI * ((1 - x) * (1 - x)) < 1 -> 1 / 16 / PI * (-1 / (1 - x)) ^ 2 > 1.
Proof.
  intros Hx H. pose proof pi_bounds as Hpi.
  assert (Hw : 0 < 16 * PI * ((1 - x) * (1 - x))).
  { apply Rmult_lt_0_compat; [lra|]. apply Rmult_lt_0_compat; lra. }
  replace (1 / 16 / PI * (-1 / (1 - x)) ^ 2) with (1 / (16 * PI * ((1 - x) * (1 - x))))
    by (field; lra).
  assert (E : 1 / (16 * PI * ((1 - x) * (1 - x))) * (16 * PI * ((1 - x) * (1 - x))) = 1)
    by (field; lra).
  assert (0 < 1 / (16 * PI * ((1 - x) * (1 - x)))) by (apply Rdiv_lt_0_compat; lra).
  nra.
Qed.

Lemma epsilon_linear_le_1 (x : R) :
  x < 1 -> 1 <= 16 * PI * ((1 - x) * (1 - x)) -> 1 / 16 / PI * (-1 / (1 - x)) ^ 2 <= 1.
Proof.
  intros Hx H. pose proof pi_bounds as Hpi.
  replace (1 / 16 / PI * (-1 / (1 - x)) ^ 2) with (1 / (16 * PI * ((1 - x) * (1 - x))))
    by (field; lra).
  assert (E : 1 / (16 * PI * ((1 - x) * (1 - x))) * (16 * PI * ((1 - x) * (1 - x))) = 1)
    by (field; lra).
  assert (0 < 1 / (16 * PI * ((1 - x) * (1 - x)))) by (apply Rdiv_lt_0_compat; lra).
  nra.
Qed.

Lemma epsilon_linear_le_1_far (x w : R) :
  0 < w -> x <= 1 - w -> 1 <= 48 * (w * w) -> 1 / 16 / PI * (-1 / (1 - x)) ^ 2 <= 1.
Proof.
  intros Hw Hx H. pose proof pi_bounds as Hpi.
  apply epsilon_linear_le_1; [lra|].
  assert (w * w <= (1 - x) * (1 - x)) by nra.
  assert (48 * ((1 - x) * (1 - x)) <= 16 * PI * ((1 - x) * (1 - x)))
    by (apply Rmult_le_compat_r; nra).
  lra.
Qed.

Lemma epsilon_linear_gt_1_near (x w : R) :
  1 - w <= x -> x < 1 -> 64 * (w * w) < 1 -> 1 / 16 / PI * (-1 / (1 - x)) ^ 2 > 1.
Proof.
  intros Hw Hx H. pose proof pi_bounds as Hpi.
  apply epsilon_linear_gt_1; [lra|].
  assert ((1 - x) * (1 - x) <= w * w) by nra.
  assert (16 * PI * ((1 - x) * (1 - x)) <= 64 * ((1 - x) * (1 - x)))
    by (apply Rmult_le_compat_r; nra).
  lra.
Qed.

Lemma evolve_background_step_linear (l : list R) (ppr : precision)
    (a phi dphi d0 d1 d2 tau dtau0 eps0 : R) :
  phi < 1 ->
  let h := linear_aH a phi dphi in
  let ddphi := linear_ddphi a phi dphi in
  let dtau := primordial_inflation_bg_stepsize ppr
              * Rmin (1 / (a * h / a)) (Rabs (dphi / ddphi)) in
  let y1 := [a + (tau + dtau - tau) * (a * h); phi + (tau + dtau - tau) * dphi;
             dphi + (tau + dtau - tau) * ddphi;
             0 + (tau + dtau - tau) * 0; 0 + (tau + dtau - tau) * 0;
             0 + (tau + dtau - tau) * 0; 0 + (tau + dtau - tau) * 0;
             0 + (tau + dtau - tau) * 0; 0 + (tau + dtau - tau) * 0;
             0 + (tau + dtau - tau) * 0; 0 + (tau + dtau - tau) * 0] in
  let eps1 := 1 / 16 / PI * (-1 / (1 - (dphi + (tau + dtau - tau) * ddphi))) ^ 2 in
  evolve_background_step (GI := euler_integrator) (linear_ppm_on l) ppr
    {| bg_y := background_vector a phi dphi;
       bg_dy := [d0; d1; d2; 0; 0; 0; 0; 0; 0; 0; 0];
       bg_tau_end := tau; bg_dtau := dtau0; bg_epsilon := eps0;
       bg_gi := (tt : @generic_integrator_workspace euler_integrator) |}
  = if bool_decide (eps1 > 1) && bool_decide (eps0 <= 1)
    then Failure msg_epsilon_crossing
    else Success {| bg_y := y1; bg_dy := [a * h; dphi; ddphi; 0; 0; 0; 0; 0; 0; 0; 0];
                    bg_tau_end := tau + dtau; bg_dtau := dtau; bg_epsilon := eps1;
                    bg_gi := (tt : @generic_integrator_workspace euler_integrator) |}.
Proof.
  intros Hphi h ddphi dtau y1 eps1.
  unfold evolve_background_step.
  cbn [bg_y bg_dy bg_tau_end bg_dtau bg_epsilon bg_gi].
  change (background_vector a phi dphi !!! index_in_phi (linear_ppm_on l)) with phi.
  rewrite check_potential_linear by exact Hphi. cbn [bind].
  unfold background_vector. rewrite derivs_background_linear. cbn [bind].
  cbn [generic_integrator euler_integrator]. unfold euler_step.
  cbn [map]. rewrite derivs_background_linear. cbn [bind].
  unfold background_dtau.
  change (index_in_phi (linear_ppm_on l)) with 1%nat.
  change (index_in_dphi (linear_ppm_on l)) with 2%nat.
  change (index_in_a (linear_ppm_on l)) with 0%nat.
  cbn [lookup_total list_lookup_total zip_with].
  fold h ddphi. fold dtau.
  rewrite get_epsilon_linear. cbn [bind]. fold eps1.
  destruct (bool_decide (eps1 > 1) && bool_decide (eps0 <= 1)); reflexivity.
Qed.

(** C2, the code at a failing input.  Potential V = 1 - phi, state a = 1,
    phi = 17/20, a*dphi/dtau = 1/2, step-size factor 1/5, target
    phi_stop = 1, the integrator making one Euler step.  The loop is entered
    with the state [s0] that [primordial_inflation_evolve_background]
    builds; its first pass moves the field from 0.85 to about 0.91 and
    succeeds, although the slow-roll parameter (1/16 pi)(dV/V)^2 of the
    potential at the field value goes from below 1 to above 1 in that pass:
    the code evaluates the potential at y[index_in_dphi], the field
    velocity, where no crossing occurs. *)
Theorem epsilon_crossing_at_field_value_not_detected :
  let ppr := ppr_with (1 / 5) (1 / 100) 1 (1 / 100) 10 in
  let y0 := background_vector 1 (17 / 20) (1 / 2) in
  exists (dy0 : list R) (eps0 : R) (s1 : @background_state euler_integrator)
         (eps_before eps_after : R),
    primordial_inflation_derivs linear_ppm (bg_pipaw linear_ppm) 0 y0 zero_vector
    = Success dy0
    /\ primordial_inflation_get_epsilon linear_ppm (y0 !!! index_in_dphi linear_ppm)
       = Success eps0
    /\ let s0 := {| bg_y := y0; bg_dy := dy0; bg_tau_end := 0;
                    bg_dtau := background_dtau linear_ppm ppr y0 dy0;
                    bg_epsilon := eps0;
                    bg_gi := (tt : @generic_integrator_workspace euler_integrator) |} in
       evolve_background_continue linear_ppm 1 s0 = true
       /\ evolve_background_step linear_ppm ppr s0 = Success s1
       /\ primordial_inflation_get_epsilon linear_ppm (bg_y s0 !!! index_in_phi linear_ppm)
          = Success eps_before
       /\ primordial_inflation_get_epsilon linear_ppm (bg_y s1 !!! index_in_phi linear_ppm)
          = Success eps_after
       /\ eps_before <= 1 /\ eps_after > 1.
Proof.
  intros ppr y0.
  pose proof pi_bounds as Hpi.
  destruct (linear_aH_square 1 (17 / 20) (1 / 2)) as [Hh0 Hh2]; [lra|].
  set (h := linear_aH 1 (17 / 20) (1 / 2)) in *.
  assert (Hh : 37 / 25 < h < 43 / 25) by nra.
  assert (Hdd : linear_ddphi 1 (17 / 20) (1 / 2) = 1 - h)
    by (unfold linear_ddphi; fold h; lra).
  set (m := Rmin (1 / (1 * h / 1)) (Rabs (1 / 2 / (1 - h)))).
  assert (Hm : 29 / 50 <= m <= 17 / 25).
  { unfold m. replace (1 * h / 1) with h by (field; lra).
    destruct (inverse_bounds h (37 / 25) (43 / 25)) as [Hi1 Hi2]; [lra|lra|].
    destruct (quotient_neg_bounds (1 / 2) (1 - h) (- (25 / 24)) (- (25 / 36)))
      as [Hq1 Hq2]; [lra|lra|].
    split.
    - apply Rmin_lower; [lra|]. rewrite Rabs_left by lra. lra.
    - apply Rmin_upper. left. lra. }
  eexists. exists (1 / 16 / PI * (-1 / (1 - 1 / 2)) ^ 2). eexists.
  exists (1 / 16 / PI * (-1 / (1 - 17 / 20)) ^ 2).
  exists (1 / 16 / PI * (-1 / (1 - (17 / 20 + (0 + 1 / 5 * m - 0) * (1 / 2)))) ^ 2).
  split; [unfold y0, zero_vector, background_vector; apply derivs_background_linear|].
  split; [apply get_epsilon_linear|].
  fold h. rewrite Hdd. cbv zeta.
  assert (Hdtau : background_dtau linear_ppm ppr y0 [1 * h; 1 / 2; 1 - h; 0; 0; 0; 0; 0; 0; 0; 0]
                  = 1 / 5 * m) by reflexivity.
  rewrite Hdtau.
  assert (Hp : - (49 / 100) <= m * (1 - h) <= - (27 / 100)) by nra.
  split; [|split; [|split; [|split; [|split]]]].
  - unfold evolve_background_continue. cbn [bg_y bg_dtau].
    change (y0 !!! index_in_phi linear_ppm) with (17 / 20).
    change (y0 !!! index_in_dphi linear_ppm) with (1 / 2).
    destruct (bool_decide_reflect (17 / 20 <= 1 - 1 / 2 * (1 / 5 * m))); [reflexivity|lra].
  - unfold y0. rewrite evolve_background_step_linear by lra.
    fold h. rewrite Hdd.
    change (primordial_inflation_bg_stepsize ppr) with (1 / 5). fold m.
    assert (He : 1 / 16 / PI * (-1 / (1 - (1 / 2 + (0 + 1 / 5 * m - 0) * (1 - h)))) ^ 2 <= 1).
    { apply (epsilon_linear_le_1_far _ (1 / 2)); lra. }
    destruct (bool_decide_reflect
                (1 / 16 / PI * (-1 / (1 - (1 / 2 + (0 + 1 / 5 * m - 0) * (1 - h)))) ^ 2 > 1));
      [lra|]. cbn [andb]. reflexivity.
  - cbn [bg_y]. change (y0 !!! index_in_phi linear_ppm) with (17 / 20).
    apply get_epsilon_linear.
  - cbn [bg_y]. change (index_in_phi linear_ppm) with 1%nat.
    cbn [lookup_total list_lookup_total]. apply get_epsilon_linear.
  - apply (epsilon_linear_le_1_far _ (3 / 20)); lra.
  - apply (epsilon_linear_gt_1_near _ (1 / 10)); lra.
Qed.

(** ** Attractor search and the uninitialised trial field *)

Lemma find_attractor_H_0 `{GI : GenericIntegrator} (ppm : primordial) (ppr : precision)
    (fuel : nat) (phi_indeterminate phi_0 precision : R) (y dy y' dy' : list R)
    (H_0 dphidt_0 V_0 dV_0 ddV_0 : R) :
  primordial_inflation_potential ppm phi_indeterminate = Success (V_0, dV_0, ddV_0) ->
  primordial_inflation_find_attractor ppm ppr fuel phi_indeterminate phi_0 precision y dy
  = Success (y', dy', H_0, dphidt_0) ->
  H_0 = sqrt ((8 * PI / 3) * (0.5 * dphidt_0 * dphidt_0 + V_0)).
Proof.
  intros Hpot H. unfold primordial_inflation_find_attractor in H.
  rewrite Hpot in H. cbn [bind] in H.
  apply bind_Success in H as (s & _ & H). injection H as _ _ <- <-. reflexivity.
Qed.

Lemma find_attractor_loop_pass `{GI : GenericIntegrator} (ppm : primordial)
    (ppr : precision) (fuel : nat) (phi_0 precision V_0 dV_0 : R) (s : attractor_state) :
  find_attractor_loop ppm ppr (S fuel) phi_0 precision V_0 dV_0 s
  = if find_attractor_continue precision s then
      class_call s' <- find_attractor_step ppm ppr fuel phi_0 V_0 dV_0 s ;
      find_attractor_loop ppm ppr fuel phi_0 precision V_0 dV_0 s'
    else Success s.
Proof. reflexivity. Qed.

Lemma find_attractor_step_linear (l : list R) (ppr : precision) (fuel : nat)
    (phi_0 V_0 dV_0 p new old : R) (counter : Z) :
  let phi := p + dV_0 / V_0 / 16 / PI in
  let d := - (-1) / 3 / sqrt (8 * PI / 3 * (1 - phi)) in
  let dtau := primordial_inflation_bg_stepsize ppr
              * Rmin (1 / (1 * linear_aH 1 phi (1 * d) / 1))
                  (Rabs (1 * d / linear_ddphi 1 phi (1 * d))) in
  let dtau_last := (phi_0 - phi) / linear_ddphi 1 phi (1 * d) in
  (counter + 1 < primordial_inflation_attractor_maxit ppr)%Z ->
  phi < 1 ->
  ~ phi <= phi_0 - 1 * d * dtau ->
  find_attractor_step (GI := euler_integrator) (linear_ppm_on l) ppr (S fuel) phi_0 V_0 dV_0
    {| at_y := zero_vector; at_dy := zero_vector; at_phi := p; at_counter := counter;
       at_dphidt_0new := new; at_dphidt_0old := old |}
  = Success
      {| at_y := [1 + 1 * linear_aH 1 phi (1 * d) * dtau_last;
                  phi + 1 * d * dtau_last;
                  1 * d + linear_ddphi 1 phi (1 * d) * dtau_last;
                  0; 0; 0; 0; 0; 0; 0; 0];
         at_dy := [1 * linear_aH 1 phi (1 * d); 1 * d; linear_ddphi 1 phi (1 * d);
                   0; 0; 0; 0; 0; 0; 0; 0];
         at_phi := phi; at_counter := (counter + 1)%Z;
         at_dphidt_0new := (1 * d + linear_ddphi 1 phi (1 * d) * dtau_last)
                           / (1 + 1 * linear_aH 1 phi (1 * d) * dtau_last);
         at_dphidt_0old := new |}.
Proof.
  intros phi d dtau dtau_last Hmax Hphi Hstop.
  unfold find_attractor_step. cbn [at_counter at_phi at_dphidt_0new at_y at_dy].
  destruct (bool_decide_reflect
              (counter + 1 >= primordial_inflation_attractor_maxit ppr)%Z); [lia|].
  cbn [test_condition bind]. unfold _PI_. fold phi.
  rewrite check_potential_linear by exact Hphi. cbn [bind].
  rewrite potential_linear_ppm. cbn [bind]. fold d.
  change (<[index_in_dphi (linear_ppm_on l):=1 * d]>
            (<[index_in_phi (linear_ppm_on l):=phi]> (<[index_in_a (linear_ppm_on l):=1]> zero_vector)))
    with (background_vector 1 phi (1 * d)).
  rewrite evolve_background_no_step by exact Hstop. cbn [bind].
  reflexivity.
Qed.

Lemma sqrt_bounds (x lo hi : R) :
  0 <= lo -> lo * lo < x -> x < hi * hi -> 0 < hi -> lo < sqrt x < hi.
Proof.
  intros Hlo H1 H2 Hhi.
  assert (Hx : 0 <= x) by nra.
  pose proof (sqrt_pos x) as Hs. pose proof (sqrt_sqrt x Hx) as Hq.
  split.
  - destruct (Rlt_le_dec lo (sqrt x)) as [H|H]; [exact H|]. nra.
  - destruct (Rlt_le_dec (sqrt x) hi) as [H|H]; [exact H|]. nra.
Qed.

Lemma sqrt_lower (x lo : R) : 0 <= lo -> lo * lo < x -> lo < sqrt x.
Proof.
  intros Hlo H. assert (Hx : 0 <= x) by nra.
  pose proof (sqrt_pos x) as Hs. pose proof (sqrt_sqrt x Hx) as Hq.
  destruct (Rlt_le_dec lo (sqrt x)) as [H1|H1]; [exact H1|]. nra.
Qed.

(** C3, the code at a failing input.  Potential V = 1 - phi, phi_0 = 0,
    precision 1/2, at most 10 iterations, background step-size factor 2,
    the same arrays on entry.  When the uninitialised local [phi] happens to
    hold 0 the search converges in its first pass and returns H_0 < 33/10;
    when it holds -8 the same call cannot return that pair: any pair it
    returns has H_0 more than twice as large. *)
Theorem find_attractor_depends_on_uninitialized_phi :
  let ppr := ppr_with 2 (1 / 100) 1 (1 / 100) 10 in
  forall fuel : nat,
  exists (y1 dy1 : list R) (H1 d1 : R),
    primordial_inflation_find_attractor (GI := euler_integrator) linear_ppm ppr
      (S (S fuel)) 0 0 (1 / 2) zero_vector zero_vector
    = Success (y1, dy1, H1, d1)
    /\ 0 < H1 < 33 / 10
    /\ (forall (y2 dy2 : list R) (H2 d2 : R),
          primordial_inflation_find_attractor (GI := euler_integrator) linear_ppm ppr
            (S (S fuel)) (-8) 0 (1 / 2) zero_vector zero_vector
          = Success (y2, dy2, H2, d2) ->
          H2 > 2 * H1)
    /\ primordial_inflation_find_attractor (GI := euler_integrator) linear_ppm ppr
         (S (S fuel)) (-8) 0 (1 / 2) zero_vector zero_vector
       <> Success (y1, dy1, H1, d1).
Proof.
  intros ppr fuel.
  pose proof pi_bounds as Hpi.
  (* the initial slow-roll estimate *)
  set (r0 := sqrt (8 * PI / 3 * (1 - 0))).
  assert (Hr0 : 141 / 50 < r0 < 327 / 100) by (apply sqrt_bounds; lra).
  set (n0 := - (-1) / 3 / r0).
  assert (Hn0 : 1019 / 10000 < n0 < 1183 / 10000).
  { unfold n0. replace (- (-1) / 3 / r0) with (1 / (3 * r0)) by (field; lra).
    destruct (inverse_bounds (3 * r0) (3 * (141 / 50)) (3 * (327 / 100))); lra. }
  (* the trial field value *)
  set (phi := 0 + -1 / (1 - 0) / 16 / PI).
  assert (Hphi : - (1 / 48) <= phi <= - (1 / 64)).
  { unfold phi. replace (0 + -1 / (1 - 0) / 16 / PI) with (- (1 / (16 * PI))) by (field; lra).
    destruct (inverse_bounds (16 * PI) 48 64); lra. }
  assert (Hcphi : 8 * PI / 3 * (1 - phi) = 8 * PI / 3 + 1 / 6)
    by (unfold phi; field; lra).
  set (r1 := sqrt (8 * PI / 3 * (1 - phi))).
  assert (Hr1 : 57 / 20 < r1 < 33 / 10)
    by (apply sqrt_bounds; rewrite ?Hcphi; lra).
  set (d := - (-1) / 3 / r1).
  assert (Hd : 101 / 1000 < d < 117 / 1000).
  { unfold d. replace (- (-1) / 3 / r1) with (1 / (3 * r1)) by (field; lra).
    destruct (inverse_bounds (3 * r1) (3 * (57 / 20)) (3 * (33 / 10))); lra. }
  destruct (linear_aH_square 1 phi (1 * d)) as [Hh0 Hh2]; [nra|].
  set (h := linear_aH 1 phi (1 * d)) in *.
  assert (Hh : 57 / 20 < h < 83 / 25).
  { assert (Hd2 : 0 <= d * d <= 14 / 1000) by nra.
    assert (Hin : 8 * PI / 3 * (0.5 * (1 * d) * (1 * d) + 1 * 1 * (1 - phi))
                  = 8 * PI / 3 + 1 / 6 + 4 * PI / 3 * (d * d)) by nra.
    assert (0 <= PI * (d * d) <= 56 / 1000) by nra.
    nra. }
  set (ddphi := linear_ddphi 1 phi (1 * d)).
  assert (Hdd : 223 / 1000 < ddphi < 425 / 1000).
  { unfold ddphi, linear_ddphi. fold h. nra. }
  set (m := Rmin (1 / (1 * h / 1)) (Rabs (1 * d / ddphi))).
  assert (Hm : 237 / 1000 <= m).
  { unfold m. apply Rmin_lower.
    - replace (1 * h / 1) with h by (field; lra).
      destruct (inverse_bounds h (57 / 20) (83 / 25)); lra.
    - destruct (quotient_bounds (1 * d) ddphi (237 / 1000) 1); [lra|nra|].
      rewrite Rabs_right by lra. lra. }
  assert (Hskip : ~ phi <= 0 - 1 * d * (primordial_inflation_bg_stepsize ppr * m)).
  { change (primordial_inflation_bg_stepsize ppr) with 2. nra. }
  set (dl := (0 - phi) / ddphi).
  assert (Hdl : 36 / 1000 <= dl <= 94 / 1000).
  { unfold dl. apply quotient_bounds; [lra|nra]. }
  assert (Hddl : ddphi * dl = 0 - phi) by (unfold dl; field; lra).
  set (a1 := 1 + 1 * h * dl).
  assert (Ha1 : 11 / 10 < a1 < 1313 / 1000) by (unfold a1; nra).
  set (new1 := (1 * d + ddphi * dl) / a1).
  assert (Hnew1 : 88 / 1000 <= new1 <= 126 / 1000).
  { unfold new1. rewrite Hddl. apply quotient_bounds; [lra|nra]. }
  assert (Hratio : 37 / 50 <= new1 / n0 <= 5 / 4).
  { apply quotient_bounds; [lra|nra]. }
  set (H1 := sqrt (8 * PI / 3 * (0.5 * new1 * new1 + (1 - 0)))).
  assert (HH1 : 0 < H1 < 33 / 10).
  { assert (0 <= new1 * new1 <= 16 / 1000) by nra.
    assert (0 <= PI * (new1 * new1) <= 64 / 1000) by nra.
    apply sqrt_bounds; nra. }
  assert (Hrun : primordial_inflation_find_attractor (GI := euler_integrator) linear_ppm ppr
                   (S (S fuel)) 0 0 (1 / 2) zero_vector zero_vector
                 = Success ([a1; phi + 1 * d * dl; 1 * d + ddphi * dl;
                             0; 0; 0; 0; 0; 0; 0; 0],
                            [1 * h; 1 * d; ddphi; 0; 0; 0; 0; 0; 0; 0; 0], H1, new1)).
  { unfold primordial_inflation_find_attractor.
    rewrite potential_linear_ppm. cbn [bind]. unfold _PI_. fold r0 n0.
    rewrite find_attractor_loop_pass. unfold find_attractor_continue at 1.
    cbn [at_dphidt_0new at_dphidt_0old].
    assert (E : n0 / (n0 / (1 / 2 + 2)) - 1 = 3 / 2) by (field; lra).
    rewrite E.
    destruct (bool_decide_reflect (Rabs (3 / 2) >= 1 / 2)) as [_|C];
      [|exfalso; apply C; rewrite Rabs_right; lra].
    rewrite find_attractor_step_linear;
      [|simpl; lia|fold phi; lra|fold phi r1 d h ddphi m; exact Hskip].
    fold phi r1 d h ddphi dl a1 new1. cbn [bind].
    rewrite find_attractor_loop_pass. unfold find_attractor_continue at 1.
    cbn [at_dphidt_0new at_dphidt_0old].
    destruct (bool_decide_reflect (Rabs (new1 / n0 - 1) >= 1 / 2)) as [C|_].
    { exfalso. unfold Rabs in C. destruct (Rcase_abs (new1 / n0 - 1)); lra. }
    cbn [bind at_y at_dy at_dphidt_0new]. fold H1. reflexivity. }
  assert (Hother : forall (y2 dy2 : list R) (H2 d2 : R),
             primordial_inflation_find_attractor (GI := euler_integrator) linear_ppm ppr
               (S (S fuel)) (-8) 0 (1 / 2) zero_vector zero_vector
             = Success (y2, dy2, H2, d2) -> H2 > 2 * H1).
  { intros y2 dy2 H2 d2 Hrun2.
    rewrite (find_attractor_H_0 _ _ _ _ _ _ _ _ _ _ _ _ _ _ _
               (potential_linear_ppm [] (-8)) Hrun2).
    assert (0 <= d2 * d2) by nra.
    assert (0 <= PI * (d2 * d2)) by nra.
    assert (33 / 5 < sqrt (8 * PI / 3 * (0.5 * d2 * d2 + (1 - -8))))
      by (apply sqrt_lower; nra).
    lra. }
  eexists. eexists. exists H1, new1.
  split; [exact Hrun|]. split; [exact HH1|]. split; [exact Hother|].
  intros C. specialize (Hother _ _ _ _ C). lra.
Qed.

(** ** Mode integration on a concrete input *)

Lemma derivs_mode_linear (l : list R) (k tau a phi dphi kr ki dkr dki ar ai dar dai : R)
    (d0 d1 d2 d3 d4 d5 d6 d7 d8 d9 d10 : R) :
  primordial_inflation_derivs (linear_ppm_on l) (mode_pipaw (linear_ppm_on l) k) tau
    [a; phi; dphi; kr; ki; dkr; dki; ar; ai; dar; dai]
    [d0; d1; d2; d3; d4; d5; d6; d7; d8; d9; d10]
  = Success [a * linear_aH a phi dphi; dphi; linear_ddphi a phi dphi;
             dkr; dki;
             - (k * k - linear_zpp_over_z a phi dphi) * kr;
             - (k * k - linear_zpp_over_z a phi dphi) * ki;
             dar; dai;
             - (k * k - linear_app_over_a a phi dphi) * ar;
             - (k * k - linear_app_over_a a phi dphi) * ai].
Proof.
  unfold primordial_inflation_derivs.
  change (index_in_phi (linear_ppm_on l)) with 1%nat.
  change ([a; phi; dphi; kr; ki; dkr; dki; ar; ai; dar; dai] !!! 1%nat) with phi.
  rewrite potential_linear_ppm. reflexivity.
Qed.

Lemma one_k_step_linear (l : list R) (ppr : precision) (k tau dtau0 cold aH0 dl0 : R)
    (a phi dphi kr ki dkr dki ar ai dar dai : R)
    (d0 d1 d2 d3 d4 d5 d6 d7 d8 d9 d10 : R) :
  let dt := tau + dtau0 - tau in
  let zpp := linear_zpp_over_z a phi dphi in
  let a1 := a + dt * (a * linear_aH a phi dphi) in
  let phi1 := phi + dt * dphi in
  let dphi1 := dphi + dt * linear_ddphi a phi dphi in
  let kr1 := kr + dt * dkr in
  let ki1 := ki + dt * dki in
  let h1 := linear_aH a1 phi1 dphi1 in
  let zpp1 := linear_zpp_over_z a1 phi1 dphi1 in
  let dtau1 := primordial_inflation_pt_stepsize ppr * 2 * PI
               / Rmax (sqrt (Rabs (- (k * k - zpp1) * kr1 / kr1))) k in
  let aH1 := a1 * h1 / a1 in
  let z := a1 * dphi1 / aH1 in
  let ksi2 := kr1 * kr1 + ki1 * ki1 in
  let cnew := k * k * k / 2 / PI / PI * ksi2 / z / z in
  exists s' : @mode_state euler_integrator,
    one_k_step (linear_ppm_on l) ppr k
      {| md_y := [a; phi; dphi; kr; ki; dkr; dki; ar; ai; dar; dai];
         md_dy := [d0; d1; d2; d3; d4; d5; d6; d7; d8; d9; d10];
         md_tau_end := tau; md_dtau := dtau0; md_aH := aH0;
         md_curvature_new := cold; md_dlnPdN := dl0;
         md_gi := (tt : @generic_integrator_workspace euler_integrator) |}
    = Success s'
    /\ md_aH s' = aH1
    /\ md_curvature_new s' = cnew
    /\ md_dlnPdN s' = (cnew - cold) / dtau1 * a1 / (a1 * h1) / cnew
    /\ md_y s' !!! index_in_a (linear_ppm_on l) = a1
    /\ md_y s' !!! index_in_ah_re (linear_ppm_on l) = ar + dt * dar
    /\ md_y s' !!! index_in_ah_im (linear_ppm_on l) = ai + dt * dai.
Proof.
  intros dt zpp a1 phi1 dphi1 kr1 ki1 h1 zpp1 dtau1 aH1 z ksi2 cnew.
  unfold one_k_step.
  cbn [md_y md_dy md_tau_end md_dtau md_curvature_new md_gi
       generic_integrator euler_integrator].
  unfold euler_step. cbn [map]. rewrite derivs_mode_linear. cbn [bind zip_with].
  fold dt zpp a1 phi1 dphi1 kr1 ki1.
  rewrite derivs_mode_linear. cbn [bind]. fold h1 zpp1.
  eexists. split; [reflexivity|].
  cbn [md_aH md_curvature_new md_dlnPdN md_y].
  unfold mode_dtau, _PI_.
  change (index_in_a (linear_ppm_on l)) with 0%nat.
  change (index_in_dphi (linear_ppm_on l)) with 2%nat.
  change (index_in_ksi_re (linear_ppm_on l)) with 3%nat.
  change (index_in_ksi_im (linear_ppm_on l)) with 4%nat.
  change (index_in_dksi_re (linear_ppm_on l)) with 5%nat.
  change (index_in_ah_re (linear_ppm_on l)) with 7%nat.
  change (index_in_ah_im (linear_ppm_on l)) with 8%nat.
  cbn [lookup_total list_lookup_total].
  repeat split; reflexivity.
Qed.

Lemma Rmax_bounds (x k hi : R) : x <= hi -> k <= hi -> k <= Rmax x k <= hi.
Proof.
  intros Hx Hk. split; [apply Rmax_r | apply Rmax_lub; assumption].
Qed.

Lemma linear_zpp_over_z_bounds (a phi dphi : R) :
  0 < a <= 9 / 2 -> 0 <= dphi <= 7 / 10 -> 5 / 2 < linear_aH a phi dphi < 14 ->
  -50 <= linear_zpp_over_z a phi dphi <= 800.
Proof.
  intros Ha Hd Hh. pose proof pi_bounds as Hpi.
  unfold linear_zpp_over_z, _PI_. set (h := linear_aH a phi dphi) in *.
  assert (Hq : 0 <= 4 * dphi / h <= 28 / 25) by (apply quotient_bounds; lra).
  set (q := 4 * dphi / h) in *.
  assert (Hd2 : 0 <= dphi * dphi <= 49 / 100) by nra.
  assert (Hd4 : 0 <= dphi ^ 4 <= 1 / 4).
  { replace (dphi ^ 4) with ((dphi * dphi) * (dphi * dphi)) by ring. nra. }
  assert (Hpp : 9 <= PI * PI <= 16) by nra.
  assert (Hn : 0 <= 32 * PI * PI * dphi ^ 4 <= 128).
  { replace (32 * PI * PI * dphi ^ 4) with (32 * ((PI * PI) * dphi ^ 4)) by ring. nra. }
  assert (Hh2 : 25 / 4 < h ^ 2 < 196) by (replace (h ^ 2) with (h * h) by ring; nra).
  assert (Hw : 0 <= 32 * PI * PI * dphi ^ 4 / h ^ 2 <= 21)
    by (apply quotient_bounds; lra).
  set (w := 32 * PI * PI * dphi ^ 4 / h ^ 2) in *.
  assert (Haa : 0 <= a * a <= 81 / 4) by nra.
  assert (Hqa : -23 <= q * (a * a * -1) <= 0) by nra.
  set (inner := 7 * dphi * dphi + q * (a * a * -1)).
  assert (Hin : -23 <= inner <= 7 / 2) by (unfold inner; nra).
  assert (Hpin : -92 <= PI * inner <= 14) by nra.
  assert (Hhh : 25 / 4 < h * h < 196) by nra.
  replace (4 * PI * inner) with (4 * (PI * inner)) by ring.
  lra.
Qed.

Lemma mode_dtau_bounds (s k zpp x : R) :
  0 < s -> k = 1 / 2 -> x <> 0 -> -50 <= zpp <= 800 ->
  1 / 5 * s <= s * 2 * PI / Rmax (sqrt (Rabs (- (k * k - zpp) * x / x))) k <= 16 * s.
Proof.
  intros Hs -> Hx Hz. pose proof pi_bounds as Hpi.
  replace (- (1 / 2 * (1 / 2) - zpp) * x / x) with (zpp - 1 / 4) by (field; exact Hx).
  assert (Ha : 0 <= Rabs (zpp - 1 / 4) <= 800).
  { split; [apply Rabs_pos|]. apply Rabs_le. lra. }
  assert (Hsq : sqrt (Rabs (zpp - 1 / 4)) <= 29).
  { pose proof (sqrt_pos (Rabs (zpp - 1 / 4))) as Hp.
    pose proof (sqrt_sqrt (Rabs (zpp - 1 / 4)) (proj1 Ha)) as Hq.
    destruct (Rle_lt_dec (sqrt (Rabs (zpp - 1 / 4))) 29) as [H|H]; [exact H|]. nra. }
  destruct (Rmax_bounds (sqrt (Rabs (zpp - 1 / 4))) (1 / 2) 29 Hsq) as [Hm1 Hm2]; [lra|].
  set (m := Rmax (sqrt (Rabs (zpp - 1 / 4))) (1 / 2)) in *.
  apply quotient_bounds; [lra|]. nra.
Qed.

(** One Euler pass of the mode loop from the entry state of any background
    with 1 <= a <= 7/2, 0 <= phi <= 1/10, 3/10 <= dphi <= 1/2 meets both
    stopping conditions for ratio_max = 1 and tol_curvature = 1e16, and
    leaves strictly positive curvature and tensor powers. *)
Lemma one_k_pass_in_box (l : list R) (a phi dphi : R) :
  1 <= a <= 7 / 2 -> 0 <= phi <= 1 / 10 -> 3 / 10 <= dphi <= 1 / 2 ->
  exists s' : @mode_state euler_integrator,
    one_k_step (linear_ppm_on l) run_ppr (1 / 2) (mode_entry_state a phi dphi) = Success s'
    /\ 1 / 2 / md_aH s' < primordial_inflation_ratio_max run_ppr
    /\ Rabs (md_dlnPdN s') <= primordial_inflation_tol_curvature run_ppr
    /\ md_curvature_new s' > 0
    /\ 32 * (1 / 2) * (1 / 2) * (1 / 2) / PI
       * (md_y s' !!! index_in_ah_re (linear_ppm_on l)
          * md_y s' !!! index_in_ah_re (linear_ppm_on l)
          + md_y s' !!! index_in_ah_im (linear_ppm_on l)
            * md_y s' !!! index_in_ah_im (linear_ppm_on l))
       / md_y s' !!! index_in_a (linear_ppm_on l)
       / md_y s' !!! index_in_a (linear_ppm_on l) > 0.
Proof.
  intros Hba Hbphi Hbdphi. pose proof pi_bounds as Hpi.
  unfold mode_entry_state. cbv zeta.
  set (x0 := 1 / sqrt (2 * (1 / 2))).
  (* bounds on the entry state and on the first step size *)
  assert (Hx0 : x0 = 1).
  { unfold x0. replace (2 * (1 / 2)) with 1 by lra. rewrite sqrt_1. lra. }
  assert (Haa0 : 1 <= a * a <= 49 / 4) by nra.
  assert (Hv0 : 9 / 10 <= 0.5 * dphi * dphi + a * a * (1 - phi) <= 25 / 2) by nra.
  destruct (linear_aH_square a phi dphi) as [Hh0p Hh0q]; [lra|].
  set (h0 := linear_aH a phi dphi) in *.
  assert (Hh0 : 5 / 2 < h0 < 12).
  { set (v := 0.5 * dphi * dphi + a * a * (1 - phi)) in *.
    assert (7 < 8 * PI / 3 * v < 134) by nra. nra. }
  assert (Hdd0 : -12 <= linear_ddphi a phi dphi <= 25 / 2).
  { unfold linear_ddphi. fold h0. nra. }
  set (dd0 := linear_ddphi a phi dphi) in *.
  assert (Hz0 : -50 <= linear_zpp_over_z a phi dphi <= 800)
    by (apply linear_zpp_over_z_bounds; fold h0; lra).
  set (zpp0 := linear_zpp_over_z a phi dphi) in *.
  destruct (mode_dtau_bounds (1 / 1000) (1 / 2) zpp0 x0) as [Ht0 Ht0']; try lra.
  set (dtau0 := 1 / 1000 * 2 * PI
                / Rmax (sqrt (Rabs (- (1 / 2 * (1 / 2) - zpp0) * x0 / x0))) (1 / 2)) in *.
  (* the pass *)
  destruct (one_k_step_linear l run_ppr (1 / 2) 0 dtau0 1e10 0 0
              a phi dphi x0 0 0 (- (1 / 2) * x0) x0 0 0 (- (1 / 2) * x0)
              (a * h0) dphi dd0 0 (- (1 / 2) * x0)
              (- (1 / 2 * (1 / 2) - zpp0) * x0) (- (1 / 2 * (1 / 2) - zpp0) * 0)
              0 (- (1 / 2) * x0)
              (- (1 / 2 * (1 / 2) - linear_app_over_a a phi dphi) * x0)
              (- (1 / 2 * (1 / 2) - linear_app_over_a a phi dphi) * 0))
    as (s' & Hs & HaH & Hc & Hd & Ha & Har & Hai).
  fold h0 dd0 in Hs |- *. exists s'. split; [exact Hs|].
  revert HaH Hc Hd Ha Har Hai.
  fold h0 dd0.
  set (dt := 0 + dtau0 - 0).
  assert (Hdt : 1 / 5000 <= dt <= 16 / 1000) by (unfold dt; lra).
  set (a1 := a + dt * (a * h0)).
  assert (Hah0 : 0 <= a * h0 <= 42) by nra.
  assert (Ha1 : 1 <= a1 <= 21 / 5) by (unfold a1; nra).
  set (phi1 := phi + dt * dphi).
  assert (Hphi1 : 0 <= phi1 <= 11 / 100) by (unfold phi1; nra).
  set (dphi1 := dphi + dt * dd0).
  assert (Hdphi1 : 1 / 10 <= dphi1 <= 7 / 10) by (unfold dphi1; nra).
  set (kr1 := x0 + dt * 0).
  assert (Hkr1 : kr1 = 1) by (unfold kr1; lra).
  set (ki1 := 0 + dt * (- (1 / 2) * x0)).
  assert (Hki1 : - (1 / 100) <= ki1 <= 0) by (unfold ki1; nra).
  assert (Haa1 : 1 <= a1 * a1 <= 441 / 25) by nra.
  assert (Hv1 : 89 / 100 <= 0.5 * dphi1 * dphi1 + a1 * a1 * (1 - phi1) <= 18) by nra.
  destruct (linear_aH_square a1 phi1 dphi1) as [Hh1p Hh1q]; [lra|].
  set (h1 := linear_aH a1 phi1 dphi1) in *.
  assert (Hh1 : 5 / 2 < h1 < 14).
  { set (v := 0.5 * dphi1 * dphi1 + a1 * a1 * (1 - phi1)) in *.
    assert (7 < 8 * PI / 3 * v < 193) by nra. nra. }
  assert (Hz1 : -50 <= linear_zpp_over_z a1 phi1 dphi1 <= 800)
    by (apply linear_zpp_over_z_bounds; fold h1; lra).
  set (zpp1 := linear_zpp_over_z a1 phi1 dphi1) in *.
  change (primordial_inflation_pt_stepsize run_ppr) with (1 / 1000).
  destruct (mode_dtau_bounds (1 / 1000) (1 / 2) zpp1 kr1) as [Ht1 Ht1']; try lra.
  set (dtau1 := 1 / 1000 * 2 * PI
                / Rmax (sqrt (Rabs (- (1 / 2 * (1 / 2) - zpp1) * kr1 / kr1))) (1 / 2)) in *.
  assert (HaH1 : a1 * h1 / a1 = h1) by (field; lra).
  rewrite HaH1.
  assert (Hzz : 1 / 140 <= a1 * dphi1 / h1 <= 63 / 50)
    by (apply quotient_bounds; [lra|nra]).
  set (z := a1 * dphi1 / h1) in *.
  assert (Hksi2 : 1 <= kr1 * kr1 + ki1 * ki1 <= 2) by (rewrite Hkr1; nra).
  set (ksi2 := kr1 * kr1 + ki1 * ki1) in *.
  assert (Hcn : 1 / 500 <= 1 / 2 * (1 / 2) * (1 / 2) / 2 / PI / PI * ksi2 / z / z <= 300).
  { replace (1 / 2 * (1 / 2) * (1 / 2) / 2 / PI / PI * ksi2 / z / z)
      with (ksi2 / (16 * (PI * PI) * (z * z))) by (field; lra).
    assert (9 <= PI * PI <= 16) by nra.
    assert (1 / 19600 <= z * z <= 3969 / 2500) by nra.
    assert (9 / 19600 <= (PI * PI) * (z * z) <= 16 * (3969 / 2500)) by nra.
    apply quotient_bounds; lra. }
  set (cnew := 1 / 2 * (1 / 2) * (1 / 2) / 2 / PI / PI * ksi2 / z / z) in *.
  assert (Hdl : Rabs ((cnew - 1e10) / dtau1 * a1 / (a1 * h1) / cnew) <= 1e16).
  { replace ((cnew - 1e10) / dtau1 * a1 / (a1 * h1) / cnew)
      with (- ((1e10 - cnew) / (dtau1 * h1 * cnew))) by (field; lra).
    rewrite Rabs_Ropp.
    assert (1 / 1000000 <= dtau1 * h1 * cnew).
    { assert (1 / 2000 <= dtau1 * h1) by nra. nra. }
    destruct (quotient_bounds (1e10 - cnew) (dtau1 * h1 * cnew) 0 1e16); [lra|nra|].
    rewrite Rabs_right; lra. }
  intros HaH Hc Hd Ha Har Hai.
  rewrite HaH, Hd, Hc, Ha, Har, Hai.
  change (primordial_inflation_ratio_max run_ppr) with 1.
  change (primordial_inflation_tol_curvature run_ppr) with 1e16.
  assert (Hr : 1 / 2 / h1 < 1).
  { destruct (quotient_bounds (1 / 2) h1 0 (1 / 4)); lra. }
  split; [exact Hr|]. split; [exact Hdl|]. split; [lra|].
  assert (Hah2 : 1 <= kr1 * kr1 + ki1 * ki1) by (rewrite Hkr1; nra).
  replace (32 * (1 / 2) * (1 / 2) * (1 / 2) / PI * (kr1 * kr1 + ki1 * ki1) / a1 / a1)
    with (4 * (kr1 * kr1 + ki1 * ki1) / (PI * (a1 * a1))) by (field; lra).
  assert (0 < PI * (a1 * a1)) by nra.
  apply Rdiv_lt_0_compat; lra.
Qed.

(** From any background of that box, whatever the integration vectors hold
    in their perturbation slots, [primordial_inflation_one_k] returns after
    one pass with strictly positive curvature and tensor powers. *)
Lemma one_k_run_in_box (l : list R) (fuel : nat) (a phi dphi : R)
    (r3 r4 r5 r6 r7 r8 r9 r10 d0 d1 d2 d3 d4 d5 d6 d7 d8 d9 d10 : R) :
  1 <= a <= 7 / 2 -> 0 <= phi <= 1 / 10 -> 3 / 10 <= dphi <= 1 / 2 ->
  exists (y' dy' : list R) (curvature tensor : R),
    primordial_inflation_one_k (GI := euler_integrator) (linear_ppm_on l) run_ppr
      (S fuel) (1 / 2) [a; phi; dphi; r3; r4; r5; r6; r7; r8; r9; r10]
      [d0; d1; d2; d3; d4; d5; d6; d7; d8; d9; d10]
    = Success (y', dy', curvature, tensor)
    /\ curvature > 0 /\ tensor > 0.
Proof.
  intros Ha Hphi Hdphi.
  destruct (one_k_pass_in_box l a phi dphi Ha Hphi Hdphi)
    as (s' & Hs & Hratio & Htol & Hc & Ht).
  unfold primordial_inflation_one_k.
  cbn [initialize_generic_integrator euler_integrator bind].
  change (one_k_initial_conditions (linear_ppm_on l) (1 / 2)
            [a; phi; dphi; r3; r4; r5; r6; r7; r8; r9; r10])
    with [a; phi; dphi; 1 / sqrt (2 * (1 / 2)); 0; 0; - (1 / 2) * (1 / sqrt (2 * (1 / 2)));
          1 / sqrt (2 * (1 / 2)); 0; 0; - (1 / 2) * (1 / sqrt (2 * (1 / 2)))].
  rewrite derivs_mode_linear. cbn [bind].
  unfold mode_dtau, _PI_.
  change (index_in_dksi_re (linear_ppm_on l)) with 5%nat.
  change (index_in_ksi_re (linear_ppm_on l)) with 3%nat.
  cbn [lookup_total list_lookup_total one_k_loop].
  change (primordial_inflation_pt_stepsize run_ppr) with (1 / 1000).
  change (one_k_step (linear_ppm_on l) run_ppr (1 / 2) _)
    with (one_k_step (linear_ppm_on l) run_ppr (1 / 2) (mode_entry_state a phi dphi)).
  rewrite Hs. cbn [bind].
  assert (Hstop : one_k_continue run_ppr (1 / 2) s' = false)
    by (apply one_k_continue_false; split; assumption).
  rewrite Hstop. cbn [bind cleanup_generic_integrator euler_integrator].
  eexists. eexists. eexists. eexists. split; [reflexivity|].
  split; [exact Hc | exact Ht].
Qed.

Lemma one_k_loop_stops_when_both_hold_witness :
  exists s' : @mode_state euler_integrator,
    one_k_step linear_ppm run_ppr (1 / 2) first_pass_state = Success s'
    /\ 1 / 2 / md_aH s' < 1
    /\ Rabs (md_dlnPdN s') <= 1e16
    /\ md_aH s' = md_dy s' !!! index_in_a linear_ppm / md_y s' !!! index_in_a linear_ppm
    /\ (forall fuel, one_k_loop linear_ppm run_ppr (S fuel) (1 / 2) first_pass_state = Success s').
Proof.
  destruct (one_k_pass_in_box [] 1 0 (1 / 2)) as (s' & Hs & Hratio & Htol & _); try lra.
  exists s'. split; [exact Hs|]. split; [exact Hratio|]. split; [exact Htol|].
  destruct (one_k_loop_stops_when_both_hold linear_ppm run_ppr (1 / 2) first_pass_state s' Hs)
    as ((Ha & _) & Hexit & _).
  split; [exact Ha|]. apply Hexit. split; [exact Hratio | exact Htol].
Defined.

(** ** A complete run of the spectrum assembly *)

Lemma pi_tight : 3141 / 1000 < PI < 3143 / 1000.
Proof.
  pose proof (PI_2_3_7_ineq 1) as [Hlo Hhi].
  unfold sum_f_R0, tg_alt, PI_2_3_7_tg, Ratan_seq in Hlo, Hhi.
  simpl in Hlo, Hhi.
  set (t := / 3) in *. set (s := / 7) in *.
  assert (Ht3 : t * (t * (t * 1)) = 1 / 27) by (unfold t; field).
  assert (Ht5 : t * (t * (t * (t * (t * 1)))) = 1 / 243) by (unfold t; field).
  assert (Ht7 : t * (t * (t * (t * (t * (t * (t * 1)))))) = 1 / 2187) by (unfold t; field).
  assert (Hs3 : s * (s * (s * 1)) = 1 / 343) by (unfold s; field).
  assert (Hs5 : s * (s * (s * (s * (s * 1)))) = 1 / 16807) by (unfold s; field).
  assert (Hs7 : s * (s * (s * (s * (s * (s * (s * 1)))))) = 1 / 823543) by (unfold s; field).
  rewrite Ht7, Ht5, Ht3, Hs7, Hs5, Hs3 in Hlo. rewrite Ht5, Ht3, Hs5, Hs3 in Hhi.
  unfold t, s in *.
  lra.
Qed.

(** One pass of the loop of [primordial_inflation_reach_aH] with the Euler
    integrator and the potential V = 1 - phi, in closed form. *)
Lemma reach_aH_step_linear (l : list R) (ppr : precision)
    (a phi dphi r3 r4 r5 r6 r7 r8 r9 r10 d0 d1 d2 : R) (drest : list R) (tau : R) :
  phi < 1 ->
  let h := linear_aH a phi dphi in
  let ddphi := linear_ddphi a phi dphi in
  let dtau := primordial_inflation_bg_stepsize ppr
              * Rmin (1 / (a * h / a)) (Rabs (dphi / ddphi)) in
  let dt := tau + dtau - tau in
  reach_aH_step (GI := euler_integrator) (linear_ppm_on l) ppr
    {| ra_y := [a; phi; dphi; r3; r4; r5; r6; r7; r8; r9; r10];
       ra_dy := d0 :: d1 :: d2 :: drest;
       ra_tau_end := tau;
       ra_gi := (tt : @generic_integrator_workspace euler_integrator) |}
  = Success {| ra_y := [a + dt * (a * h); phi + dt * dphi; dphi + dt * ddphi;
                        r3 + dt * 0; r4 + dt * 0; r5 + dt * 0; r6 + dt * 0;
                        r7 + dt * 0; r8 + dt * 0; r9 + dt * 0; r10 + dt * 0];
               ra_dy := a * h :: dphi :: ddphi :: drest;
               ra_tau_end := tau + dtau;
               ra_gi := (tt : @generic_integrator_workspace euler_integrator) |}.
Proof.
  intros Hphi h ddphi dtau dt.
  unfold reach_aH_step.
  cbn [ra_y ra_dy ra_tau_end ra_gi].
  change ([a; phi; dphi; r3; r4; r5; r6; r7; r8; r9; r10] !!! index_in_phi (linear_ppm_on l))
    with phi.
  rewrite check_potential_linear by exact Hphi. cbn [bind].
  rewrite derivs_background_linear. cbn [bind].
  cbn [generic_integrator euler_integrator]. unfold euler_step.
  cbn [map]. rewrite derivs_background_linear. cbn [bind].
  unfold background_dtau.
  change (index_in_dphi (linear_ppm_on l)) with 2%nat.
  change (index_in_a (linear_ppm_on l)) with 0%nat.
  cbn [lookup_total list_lookup_total zip_with].
  fold h ddphi. fold dtau. fold dt. reflexivity.
Qed.

Lemma reach_aH_loop_pass {GI : GenericIntegrator} (ppm : primordial) (ppr : precision)
    (fuel : nat) (aH_stop : R) (s s' : reach_state) :
  ra_dy s !!! index_in_a ppm / ra_y s !!! index_in_a ppm < aH_stop ->
  reach_aH_step ppm ppr s = Success s' ->
  reach_aH_loop ppm ppr (S fuel) aH_stop s = reach_aH_loop ppm ppr fuel aH_stop s'.
Proof.
  intros Hc Hs. cbn [reach_aH_loop]. unfold reach_aH_continue.
  destruct (bool_decide_reflect
              (ra_dy s !!! index_in_a ppm / ra_y s !!! index_in_a ppm < aH_stop)) as [_|N];
    [|contradiction].
  rewrite Hs. reflexivity.
Qed.

Lemma reach_aH_loop_exit {GI : GenericIntegrator} (ppm : primordial) (ppr : precision)
    (fuel : nat) (aH_stop : R) (s : reach_state) :
  ~ ra_dy s !!! index_in_a ppm / ra_y s !!! index_in_a ppm < aH_stop ->
  reach_aH_loop ppm ppr (S fuel) aH_stop s = Success s.
Proof.
  intros Hc. cbn [reach_aH_loop]. unfold reach_aH_continue.
  destruct (bool_decide_reflect
              (ra_dy s !!! index_in_a ppm / ra_y s !!! index_in_a ppm < aH_stop)) as [Y|_];
    [contradiction|reflexivity].
Qed.

Lemma quotient_lt (x y hi : R) : 0 < y -> x < hi * y -> x / y < hi.
Proof.
  intros Hy H. assert (E : x = x / y * y) by (field; lra).
  apply Rmult_lt_reg_r with y; [exact Hy|]. rewrite <- E. exact H.
Qed.

Lemma quotient_not_lt (x y lo : R) : 0 < y -> lo * y <= x -> ~ x / y < lo.
Proof.
  intros Hy H C. assert (E : x = x / y * y) by (field; lra).
  assert (x / y * y < lo * y) by (apply Rmult_lt_compat_r; assumption). lra.
Qed.

(** Interval arithmetic for the bounds below. *)
Lemma product_bounds (x y lx hx ly hy : R) :
  lx < x < hx -> ly < y < hy -> 0 <= lx -> 0 <= ly -> lx * ly < x * y < hx * hy.
Proof. intros. nra. Qed.

Lemma product_bounds_le (x y lx hx ly hy : R) :
  lx <= x <= hx -> ly < y < hy -> 0 <= lx -> 0 <= ly -> lx * ly <= x * y <= hx * hy.
Proof. intros. nra. Qed.


Lemma root_bounds (h x lo hi : R) :
  0 <= h -> h * h = x -> 0 <= lo -> 0 <= hi -> lo * lo < x < hi * hi -> lo < h < hi.
Proof.
  intros Hh E Hlo Hhi [H1 H2]. split.
  - destruct (Rlt_le_dec lo h) as [L|L]; [exact L|].
    assert (h * h <= lo * lo) by (apply Rmult_le_compat; lra). lra.
  - destruct (Rlt_le_dec h hi) as [L|L]; [exact L|].
    assert (hi * hi <= h * h) by (apply Rmult_le_compat; lra). lra.
Qed.

(** With the Euler integrator, V = 1 - phi, step-size factor 1/2 and the
    target aH = 7/2, [primordial_inflation_reach_aH] started from a = 1,
    phi = 0, a*dphi/dtau = 1/5 makes three passes (aH is about 2.92, 4.28 and
    6.2 at their starts; the loop test reads the derivative of the previous
    state with the new scale factor) and returns a background with
    1 <= a <= 7/2, 0 <= phi <= 1/10, 3/10 <= dphi <= 1/2. *)
Lemma reach_aH_run (l : list R) (fuel : nat) (d0 d1 d2 : R) (drest : list R) :
  exists (a phi dphi r3 r4 r5 r6 r7 r8 r9 r10 e0 e1 e2 : R),
    primordial_inflation_reach_aH (GI := euler_integrator) (linear_ppm_on l) run_ppr
      (S (S (S (S fuel)))) [1; 0; 1 / 5; 0; 0; 0; 0; 0; 0; 0; 0]
      (d0 :: d1 :: d2 :: drest) (7 / 2)
    = Success ([a; phi; dphi; r3; r4; r5; r6; r7; r8; r9; r10], e0 :: e1 :: e2 :: drest)
    /\ 1 <= a <= 7 / 2 /\ 0 <= phi <= 1 / 10 /\ 3 / 10 <= dphi <= 1 / 2.
Proof.
  pose proof pi_tight as Hpi.
  unfold primordial_inflation_reach_aH.
  cbn [initialize_generic_integrator euler_integrator bind].
  rewrite derivs_background_linear. cbn [bind].
  (* entry state *)
  destruct (linear_aH_square 1 0 (1 / 5)) as [Hh0p Hh0q]; [lra|].
  set (h0 := linear_aH 1 0 (1 / 5)) in *.
  assert (Hh0 : 2922 / 1000 < h0 < 2924 / 1000)
    by (apply (root_bounds h0 _ _ _ Hh0p Hh0q); lra).
  assert (Hdd0 : linear_ddphi 1 0 (1 / 5) = 1 - 2 / 5 * h0)
    by (unfold linear_ddphi; fold h0; lra).
  set (dd0 := linear_ddphi 1 0 (1 / 5)) in *.
  erewrite reach_aH_loop_pass;
    [ | | apply reach_aH_step_linear; lra ];
    [ | change (1 * h0 / 1 < 7 / 2); lra ].
  fold h0 dd0. change (primordial_inflation_bg_stepsize run_ppr) with (1 / 2).
  (* first pass: the step is 1/(2 aH) *)
  assert (Hq0 : - (119 / 100) <= 1 / 5 / dd0 <= - (117 / 100))
    by (apply quotient_neg_bounds; lra).
  assert (Hm0 : Rmin (1 / (1 * h0 / 1)) (Rabs (1 / 5 / dd0)) = 1 / h0).
  { replace (1 * h0 / 1) with h0 by (field; lra). apply Rmin_left.
    destruct (inverse_bounds h0 (2922 / 1000) (2924 / 1000)); [lra|lra|].
    unfold Rabs. destruct (Rcase_abs (1 / 5 / dd0)); lra. }
  rewrite Hm0.
  set (dt0 := 0 + 1 / 2 * (1 / h0) - 0).
  assert (Hdh0 : dt0 * h0 = 1 / 2) by (unfold dt0; field; lra).
  assert (Hdt0 : 17099 / 100000 < dt0 < 17112 / 100000) by nra.
  set (a1 := 1 + dt0 * (1 * h0)).
  assert (Ha1 : a1 = 3 / 2) by (unfold a1; lra).
  set (phi1 := 0 + dt0 * (1 / 5)).
  assert (Hphi1 : 341 / 10000 < phi1 < 343 / 10000) by (unfold phi1; lra).
  set (dphi1 := 1 / 5 + dt0 * dd0).
  assert (Hdphi1 : 1709 / 10000 < dphi1 < 1712 / 10000) by (unfold dphi1; nra).
  set (tau1 := 0 + 1 / 2 * (1 / h0)).
  (* second pass *)
  erewrite reach_aH_loop_pass;
    [ | | apply reach_aH_step_linear; lra ];
    [ | change (1 * h0 / a1 < 7 / 2); apply quotient_lt; lra ].
  change (primordial_inflation_bg_stepsize run_ppr) with (1 / 2).
  pose proof (product_bounds _ _ _ _ _ _ Hdphi1 Hdphi1 ltac:(lra) ltac:(lra)) as Hd1.
  destruct (linear_aH_square a1 phi1 dphi1) as [Hh1p Hh1q]; [rewrite Ha1; lra|].
  set (h1 := linear_aH a1 phi1 dphi1) in *.
  assert (Hv1 : 21874 / 10000 < 0.5 * dphi1 * dphi1 + a1 * a1 * (1 - phi1) < 21880 / 10000)
    by (rewrite Ha1; lra).
  set (v1 := 0.5 * dphi1 * dphi1 + a1 * a1 * (1 - phi1)) in *.
  assert (Hpv1 : 183216 / 10000 < 8 * PI / 3 * v1 < 183385 / 10000).
  { pose proof (product_bounds _ _ _ _ _ _ Hpi Hv1 ltac:(lra) ltac:(lra)) as Hpv. lra. }
  assert (Hh1 : 428 / 100 < h1 < 4283 / 1000)
    by (apply (root_bounds h1 _ _ _ Hh1p Hh1q); lra).
  pose proof (product_bounds _ _ _ _ _ _ Hh1 Hdphi1 ltac:(lra) ltac:(lra)) as Hhd1.
  assert (Hdd1 : 7834 / 10000 < linear_ddphi a1 phi1 dphi1 < 7872 / 10000)
    by (unfold linear_ddphi; fold h1; rewrite Ha1; lra).
  set (dd1 := linear_ddphi a1 phi1 dphi1) in *.
  assert (Hq1 : 217 / 1000 <= dphi1 / dd1 <= 2186 / 10000)
    by (apply quotient_bounds; lra).
  assert (Hm1 : 217 / 1000 <= Rmin (1 / (a1 * h1 / a1)) (Rabs (dphi1 / dd1)) <= 2186 / 10000).
  { replace (a1 * h1 / a1) with h1 by (field; lra).
    rewrite (Rabs_right (dphi1 / dd1)) by lra.
    destruct (inverse_bounds h1 (428 / 100) (4283 / 1000)); [lra|lra|].
    split; [apply Rmin_lower; lra | apply Rmin_upper; right; lra]. }
  set (m1 := Rmin (1 / (a1 * h1 / a1)) (Rabs (dphi1 / dd1))) in *.
  set (dt1 := tau1 + 1 / 2 * m1 - tau1).
  assert (Hdt1 : 1085 / 10000 <= dt1 <= 1093 / 10000) by (unfold dt1; lra).
  pose proof (product_bounds_le _ _ _ _ _ _ Hdt1 Hh1 ltac:(lra) ltac:(lra)) as Hdh1.
  pose proof (product_bounds_le _ _ _ _ _ _ Hdt1 Hdphi1 ltac:(lra) ltac:(lra)) as Hdp1.
  pose proof (product_bounds_le _ _ _ _ _ _ Hdt1 Hdd1 ltac:(lra) ltac:(lra)) as Hdq1.
  set (a2 := a1 + dt1 * (a1 * h1)).
  assert (Ha2 : 21965 / 10000 < a2 < 22023 / 10000) by (unfold a2; rewrite Ha1; lra).
  set (phi2 := phi1 + dt1 * dphi1).
  assert (Hphi2 : 526 / 10000 < phi2 < 531 / 10000) by (unfold phi2; lra).
  set (dphi2 := dphi1 + dt1 * dd1).
  assert (Hdphi2 : 2558 / 10000 < dphi2 < 2573 / 10000) by (unfold dphi2; lra).
  set (tau2 := tau1 + 1 / 2 * m1).
  (* third pass *)
  erewrite reach_aH_loop_pass;
    [ | | apply reach_aH_step_linear; lra ];
    [ | change (a1 * h1 / a2 < 7 / 2); apply quotient_lt; [lra | rewrite Ha1; lra] ].
  change (primordial_inflation_bg_stepsize run_ppr) with (1 / 2).
  pose proof (product_bounds _ _ _ _ _ _ Ha2 Ha2 ltac:(lra) ltac:(lra)) as Haa2.
  pose proof (product_bounds _ _ _ _ _ _ Hdphi2 Hdphi2 ltac:(lra) ltac:(lra)) as Hd2.
  assert (Hop2 : 9469 / 10000 < 1 - phi2 < 9474 / 10000) by lra.
  pose proof (product_bounds _ _ _ _ _ _ Haa2 Hop2 ltac:(lra) ltac:(lra)) as Hp2.
  destruct (linear_aH_square a2 phi2 dphi2) as [Hh2p Hh2q]; [lra|].
  set (h2 := linear_aH a2 phi2 dphi2) in *.
  assert (Hv2 : 4601 / 1000 < 0.5 * dphi2 * dphi2 + a2 * a2 * (1 - phi2) < 46282 / 10000)
    by lra.
  set (v2 := 0.5 * dphi2 * dphi2 + a2 * a2 * (1 - phi2)) in *.
  assert (Hpv2 : 3853 / 100 < 8 * PI / 3 * v2 < 3880 / 100).
  { pose proof (product_bounds _ _ _ _ _ _ Hpi Hv2 ltac:(lra) ltac:(lra)) as Hpv. lra. }
  assert (Hh2 : 62 / 10 < h2 < 623 / 100)
    by (apply (root_bounds h2 _ _ _ Hh2p Hh2q); lra).
  pose proof (product_bounds _ _ _ _ _ _ Hh2 Hdphi2 ltac:(lra) ltac:(lra)) as Hhd2.
  assert (Hdd2 : 16186 / 10000 < linear_ddphi a2 phi2 dphi2 < 16783 / 10000)
    by (unfold linear_ddphi; fold h2; lra).
  set (dd2 := linear_ddphi a2 phi2 dphi2) in *.
  assert (Hq2 : 1524 / 10000 <= dphi2 / dd2 <= 159 / 1000)
    by (apply quotient_bounds; lra).
  assert (Hm2 : 1524 / 10000 <= Rmin (1 / (a2 * h2 / a2)) (Rabs (dphi2 / dd2)) <= 159 / 1000).
  { replace (a2 * h2 / a2) with h2 by (field; lra).
    rewrite (Rabs_right (dphi2 / dd2)) by lra.
    destruct (inverse_bounds h2 (62 / 10) (623 / 100)); [lra|lra|].
    split; [apply Rmin_lower; lra | apply Rmin_upper; right; lra]. }
  set (m2 := Rmin (1 / (a2 * h2 / a2)) (Rabs (dphi2 / dd2))) in *.
  set (dt2 := tau2 + 1 / 2 * m2 - tau2).
  assert (Hdt2 : 762 / 10000 <= dt2 <= 795 / 10000) by (unfold dt2; lra).
  pose proof (product_bounds _ _ _ _ _ _ Ha2 Hh2 ltac:(lra) ltac:(lra)) as Hah2.
  pose proof (product_bounds_le _ _ _ _ _ _ Hdt2 Hah2 ltac:(lra) ltac:(lra)) as Hda2.
  pose proof (product_bounds_le _ _ _ _ _ _ Hdt2 Hdphi2 ltac:(lra) ltac:(lra)) as Hdp2.
  pose proof (product_bounds_le _ _ _ _ _ _ Hdt2 Hdd2 ltac:(lra) ltac:(lra)) as Hdq2.
  set (a3 := a2 + dt2 * (a2 * h2)).
  assert (Ha3 : 32 / 10 < a3 < 33 / 10) by (unfold a3; lra).
  set (phi3 := phi2 + dt2 * dphi2).
  assert (Hphi3 : 7 / 100 < phi3 < 8 / 100) by (unfold phi3; lra).
  set (dphi3 := dphi2 + dt2 * dd2).
  assert (Hdphi3 : 37 / 100 < dphi3 < 4 / 10) by (unfold dphi3; lra).
  (* the loop test fails *)
  rewrite reach_aH_loop_exit
    by (change (~ a2 * h2 / a3 < 7 / 2); apply quotient_not_lt; lra).
  cbn [bind ra_gi ra_y ra_dy cleanup_generic_integrator euler_integrator].
  do 14 eexists. split; [reflexivity|]. lra.
Qed.

(** [primordial_inflation_spectra] returns a table for the one-node grid
    k = 1/2 with the Euler integrator and the precision parameters
    [run_ppr]. *)
Lemma spectra_run (fuel : nat) :
  exists table' : primordial,
    primordial_inflation_spectra (GI := euler_integrator) (linear_ppm_on [ln (1 / 2)])
      run_ppr scalars_and_tensors (S (S (S (S fuel))))
      (background_vector 1 0 (1 / 5)) zero_vector zero_vector
    = Success table'.
Proof.
  pose proof pi_tight as Hpi.
  unfold primordial_inflation_spectra.
  change (background_vector 1 0 (1 / 5) !!! index_in_phi (linear_ppm_on [ln (1 / 2)])) with 0.
  change (background_vector 1 0 (1 / 5) !!! index_in_dphi (linear_ppm_on [ln (1 / 2)]))
    with (1 / 5).
  change (background_vector 1 0 (1 / 5) !!! index_in_a (linear_ppm_on [ln (1 / 2)])) with 1.
  rewrite check_potential_linear by lra. cbn [bind].
  rewrite potential_linear_ppm. cbn [bind].
  change (lnk (linear_ppm_on [ln (1 / 2)]) !!! 0%nat) with (ln (1 / 2)).
  rewrite exp_ln by lra.
  change (primordial_inflation_ratio_min run_ppr) with (1 / 7).
  replace (1 / 2 / (1 / 7)) with (7 / 2) by lra.
  change (sqrt (8 * _PI_ / 3 * (0.5 * (1 / 5) * (1 / 5) + 1 * 1 * (1 - 0))))
    with (linear_aH 1 0 (1 / 5)).
  destruct (linear_aH_square 1 0 (1 / 5)) as [Hh0p Hh0q]; [lra|].
  assert (Hh0 : 2922 / 1000 < linear_aH 1 0 (1 / 5) < 2924 / 1000)
    by (apply (root_bounds _ _ _ _ Hh0p Hh0q); lra).
  destruct (bool_decide_reflect (linear_aH 1 0 (1 / 5) >= 7 / 2)) as [C|_]; [lra|].
  cbn [test_condition bind].
  change (seq 0 (lnk_size (linear_ppm_on [ln (1 / 2)]))) with [0%nat].
  cbn [spectra_loop]. unfold spectra_step.
  change (lnk (linear_ppm_on [ln (1 / 2)]) !!! 0%nat) with (ln (1 / 2)).
  rewrite exp_ln by lra.
  change (primordial_inflation_ratio_min run_ppr) with (1 / 7).
  replace (1 / 2 / (1 / 7)) with (7 / 2) by lra.
  destruct (reach_aH_run [ln (1 / 2)] fuel 0 0 0 [0; 0; 0; 0; 0; 0; 0; 0])
    as (a & phi & dphi & r3 & r4 & r5 & r6 & r7 & r8 & r9 & r10 & e0 & e1 & e2
        & Hreach & Ha & Hphi & Hdphi).
  change (primordial_inflation_reach_aH (linear_ppm_on [ln (1 / 2)]) run_ppr
            (S (S (S (S fuel)))) _ zero_vector (7 / 2))
    with (primordial_inflation_reach_aH (GI := euler_integrator)
            (linear_ppm_on [ln (1 / 2)]) run_ppr
            (S (S (S (S fuel)))) [1; 0; 1 / 5; 0; 0; 0; 0; 0; 0; 0; 0]
            [0; 0; 0; 0; 0; 0; 0; 0; 0; 0; 0] (7 / 2)).
  rewrite Hreach. cbn [bind].
  destruct (one_k_run_in_box [ln (1 / 2)] (S (S (S fuel))) a phi dphi
              r3 r4 r5 r6 r7 r8 r9 r10 e0 e1 e2 0 0 0 0 0 0 0 0 Ha Hphi Hdphi)
    as (y' & dy' & curvature & tensor & Hk & Hc & Ht).
  rewrite Hk. cbn [bind].
  rewrite spectra_store_spec.
  destruct (bool_decide_reflect (curvature <= 0)) as [C|_]; [lra|].
  destruct (bool_decide_reflect (tensor <= 0)) as [C|_]; [lra|].
  cbn [bind]. eexists. reflexivity.
Qed.


(** * Further properties of the code *)

(** ** The potential *)

Lemma shifted_power_derivative (p c v : R) (n : nat) (x : R) :
  derivable_pt_lim (fun x => (x - p) ^ S n / c * v) x (INR (S n) * (x - p) ^ n / c * v).
Proof.
  assert (H : derivable_pt_lim (comp (fun y => y ^ S n) (fun x => x - p)) x
                (INR (S n) * (x - p) ^ pred (S n) * (1 - 0))).
  { apply derivable_pt_lim_comp.
    - apply (derivable_pt_lim_minus id (fun _ => p)).
      + apply derivable_pt_lim_id.
      + apply derivable_pt_lim_const.
    - apply derivable_pt_lim_pow. }
  pose proof (derivable_pt_lim_mult _ (fun _ => / c * v) x _ 0 H
                (derivable_pt_lim_const (/ c * v) x)) as H2.
  unfold mult_fct, comp in H2.
  replace (INR (S n) * (x - p) ^ n / c * v)
    with (INR (S n) * (x - p) ^ pred (S n) * (1 - 0) * (/ c * v) + (x - p) ^ S n * 0)
    by (simpl pred; unfold Rdiv; ring).
  eapply derivable_pt_lim_ext; [|exact H2].
  intros t. simpl. unfold Rdiv. ring.
Qed.

(** X1.  The three values returned by [primordial_inflation_potential] are
    consistent: as functions of the field value, the second is the
    derivative of the first and the third is the derivative of the second,
    for every coefficient set (V0 ... V4, phi_pivot) and at every field
    value. *)
Theorem potential_returns_its_derivatives (ppm : primordial) (phi : R) :
  derivable_pt_lim (potential_V ppm) phi (potential_dV ppm phi)
  /\ derivable_pt_lim (potential_dV ppm) phi (potential_ddV ppm phi).
Proof.
  unfold potential_V, potential_dV, potential_ddV, primordial_inflation_potential.
  destruct (potential ppm).
  generalize (phi_pivot ppm). intros p.
  pose proof (shifted_power_derivative p 1 (V1 ppm) 0 phi) as D1.
  pose proof (shifted_power_derivative p 2 (V2 ppm) 1 phi) as D2.
  pose proof (shifted_power_derivative p 6 (V3 ppm) 2 phi) as D3.
  pose proof (shifted_power_derivative p 24 (V4 ppm) 3 phi) as D4.
  pose proof (shifted_power_derivative p 1 (V2 ppm) 0 phi) as E1.
  pose proof (shifted_power_derivative p 2 (V3 ppm) 1 phi) as E2.
  pose proof (shifted_power_derivative p 6 (V4 ppm) 2 phi) as E3.
  split.
  - pose proof (derivable_pt_lim_plus _ _ phi _ _
                  (derivable_pt_lim_plus _ _ phi _ _
                     (derivable_pt_lim_plus _ _ phi _ _
                        (derivable_pt_lim_plus _ _ phi _ _
                           (derivable_pt_lim_const (V0 ppm) phi) D1) D2) D3) D4) as H.
    unfold plus_fct in H.
    eapply derivable_pt_lim_ext; [intros t; cbv beta|].
    2: { replace (V1 ppm + (phi - p) * V2 ppm + (phi - p) ^ 2 / 2 * V3 ppm
               + (phi - p) ^ 3 / 6 * V4 ppm)
        with (0 + INR 1 * (phi - p) ^ 0 / 1 * V1 ppm + INR 2 * (phi - p) ^ 1 / 2 * V2 ppm
              + INR 3 * (phi - p) ^ 2 / 6 * V3 ppm + INR 4 * (phi - p) ^ 3 / 24 * V4 ppm)
        by (cbn [INR]; field).
      exact H. }
    unfold fct_cte. field.
  - pose proof (derivable_pt_lim_plus _ _ phi _ _
                  (derivable_pt_lim_plus _ _ phi _ _
                     (derivable_pt_lim_plus _ _ phi _ _
                        (derivable_pt_lim_const (V1 ppm) phi) E1) E2) E3) as H.
    unfold plus_fct in H.
    eapply derivable_pt_lim_ext; [intros t; cbv beta|].
    2: { replace (V2 ppm + (phi - p) * V3 ppm + (phi - p) ^ 2 / 2 * V4 ppm)
        with (0 + INR 1 * (phi - p) ^ 0 / 1 * V2 ppm + INR 2 * (phi - p) ^ 1 / 2 * V3 ppm
              + INR 3 * (phi - p) ^ 2 / 6 * V4 ppm)
        by (cbn [INR]; field).
      exact H. }
    unfold fct_cte. field.
Qed.

(** ** The derivative function *)

Lemma inflation_indices_layout (ppm0 ppm : primordial) :
  primordial_inflation_indices ppm0 = Success ppm ->
  index_in_a ppm = 0%nat /\ index_in_phi ppm = 1%nat /\ index_in_dphi ppm = 2%nat
  /\ index_in_ksi_re ppm = 3%nat /\ index_in_ksi_im ppm = 4%nat
  /\ index_in_dksi_re ppm = 5%nat /\ index_in_dksi_im ppm = 6%nat
  /\ index_in_ah_re ppm = 7%nat /\ index_in_ah_im ppm = 8%nat
  /\ index_in_dah_re ppm = 9%nat /\ index_in_dah_im ppm = 10%nat
  /\ in_bg_size ppm = 3%nat /\ in_size ppm = 11%nat
  /\ potential ppm = potential ppm0
  /\ (V0 ppm, V1 ppm, V2 ppm, V3 ppm, V4 ppm, phi_pivot ppm)
     = (V0 ppm0, V1 ppm0, V2 ppm0, V3 ppm0, V4 ppm0, phi_pivot ppm0).
Proof.
  unfold primordial_inflation_indices. intros H. injection H as <-. simpl.
  repeat split.
Qed.

(** X2.  The right-hand side computed by [primordial_inflation_derivs] for
    the mode equations keeps the Wronskian of each mode function constant:
    with the derivative it returns, d/dtau (ksi_re * dksi_im - ksi_im *
    dksi_re) = 0, and the same for the tensor mode function ah, whatever the
    state, the wavenumber and the potential. *)
Theorem derivs_conserves_wronskians (ppm0 ppm : primordial) (k tau : R) (y dy dy' : list R)
    (Hindices : primordial_inflation_indices ppm0 = Success ppm)
    (Hlen : length dy = in_size ppm)
    (Hderivs : primordial_inflation_derivs ppm {| pipaw_N := in_size ppm; pipaw_k := k |}
                 tau y dy = Success dy') :
  dy' !!! index_in_ksi_re ppm * y !!! index_in_dksi_im ppm
  + y !!! index_in_ksi_re ppm * dy' !!! index_in_dksi_im ppm
  - (dy' !!! index_in_ksi_im ppm * y !!! index_in_dksi_re ppm
     + y !!! index_in_ksi_im ppm * dy' !!! index_in_dksi_re ppm) = 0
  /\ dy' !!! index_in_ah_re ppm * y !!! index_in_dah_im ppm
     + y !!! index_in_ah_re ppm * dy' !!! index_in_dah_im ppm
     - (dy' !!! index_in_ah_im ppm * y !!! index_in_dah_re ppm
        + y !!! index_in_ah_im ppm * dy' !!! index_in_dah_re ppm) = 0.
Proof.
  destruct (inflation_indices_layout ppm0 ppm Hindices)
    as (Ea & Ephi & Edphi & Ekr & Eki & Edkr & Edki & Ear & Eai & Edar & Edai & Ebg & En & _).
  rewrite En in Hlen.
  destruct (vector_of_length_11 dy Hlen) as (d0 & d1 & d2 & d3 & d4 & d5 & d6 & d7 & d8 & d9 & d10 & ->).
  unfold primordial_inflation_derivs in Hderivs.
  destruct (potential_total ppm (y !!! index_in_phi ppm)) as (V & dV & ddV & HV).
  rewrite HV in Hderivs. cbn [bind] in Hderivs.
  rewrite Ea, Ephi, Edphi, Ekr, Eki, Edkr, Edki, Ear, Eai, Edar, Edai, Ebg, En in *.
  cbn [pipaw_N pipaw_k Nat.eqb] in Hderivs.
  injection Hderivs as <-.
  cbn [insert list_insert lookup_total list_lookup_total].
  split; ring.
Qed.

Lemma derivs_conserves_wronskians_witness :
  exists ppm dy',
    primordial_inflation_indices linear_ppm = Success ppm
    /\ primordial_inflation_derivs ppm {| pipaw_N := in_size ppm; pipaw_k := 2 |} 0
         [1; 0; 1 / 2; 1; 2; 3; 4; 5; 6; 7; 8] zero_vector = Success dy'
    /\ dy' !!! 3%nat * 4 + 1 * dy' !!! 6%nat - (dy' !!! 4%nat * 3 + 2 * dy' !!! 5%nat) = 0.
Proof.
  eexists. eexists. split; [reflexivity|]. split; [reflexivity|].
  exact (proj1 (derivs_conserves_wronskians linear_ppm _ 2 0
                  [1; 0; 1 / 2; 1; 2; 3; 4; 5; 6; 7; 8] zero_vector _
                  eq_refl eq_refl eq_refl)).
Defined.

(** X3.  The background does not feel the perturbations: the entries of the
    derivative for a, phi and a*dphi/dtau are the same whether
    [primordial_inflation_derivs] is called for the background alone
    (N = in_bg_size) or for the full system (N = in_size), they depend on the
    state only through a, phi and a*dphi/dtau, and the call for the
    background alone leaves every other entry of [dy] as it was. *)
Theorem derivs_background_decoupled (ppm0 ppm : primordial) (k tau tau2 : R)
    (y y2 dy dy2 dy_bg dy_md : list R)
    (Hindices : primordial_inflation_indices ppm0 = Success ppm)
    (Hlen : length dy = in_size ppm)
    (Hlen2 : length dy2 = in_size ppm)
    (Ha : y !!! index_in_a ppm = y2 !!! index_in_a ppm)
    (Hphi : y !!! index_in_phi ppm = y2 !!! index_in_phi ppm)
    (Hdphi : y !!! index_in_dphi ppm = y2 !!! index_in_dphi ppm)
    (Hbg : primordial_inflation_derivs ppm {| pipaw_N := in_bg_size ppm; pipaw_k := 0 |}
             tau y dy = Success dy_bg)
    (Hmd : primordial_inflation_derivs ppm {| pipaw_N := in_size ppm; pipaw_k := k |}
             tau2 y2 dy2 = Success dy_md) :
  dy_bg !!! index_in_a ppm = dy_md !!! index_in_a ppm
  /\ dy_bg !!! index_in_phi ppm = dy_md !!! index_in_phi ppm
  /\ dy_bg !!! index_in_dphi ppm = dy_md !!! index_in_dphi ppm
  /\ forall i, (in_bg_size ppm <= i)%nat -> dy_bg !!! i = dy !!! i.
Proof.
  destruct (inflation_indices_layout ppm0 ppm Hindices)
    as (Ea & Ephi & Edphi & Ekr & Eki & Edkr & Edki & Ear & Eai & Edar & Edai & Ebg & En & _).
  rewrite En in Hlen, Hlen2.
  destruct (vector_of_length_11 dy Hlen) as (d0 & d1 & d2 & d3 & d4 & d5 & d6 & d7 & d8 & d9 & d10 & ->).
  destruct (vector_of_length_11 dy2 Hlen2) as (e0 & e1 & e2 & e3 & e4 & e5 & e6 & e7 & e8 & e9 & e10 & ->).
  unfold primordial_inflation_derivs in Hbg, Hmd.
  rewrite <- Hphi in Hmd.
  destruct (potential_total ppm (y !!! index_in_phi ppm)) as (V & dV & ddV & HV).
  rewrite HV in Hbg, Hmd. cbn [bind] in Hbg, Hmd.
  rewrite <- Ha, <- Hdphi in Hmd.
  rewrite Ea, Ephi, Edphi, Ekr, Eki, Edkr, Edki, Ear, Eai, Edar, Edai, Ebg, En in *.
  cbn [pipaw_N pipaw_k Nat.eqb] in Hbg, Hmd.
  injection Hbg as <-. injection Hmd as <-.
  cbn [insert list_insert lookup_total list_lookup_total].
  repeat split.
  intros i Hi. do 3 (destruct i as [|i]; [lia|]). reflexivity.
Qed.

Lemma derivs_background_decoupled_witness :
  exists ppm dy_bg dy_md,
    primordial_inflation_indices linear_ppm = Success ppm
    /\ primordial_inflation_derivs ppm {| pipaw_N := in_bg_size ppm; pipaw_k := 0 |} 0
         [1; 0; 1 / 2; 1; 2; 3; 4; 5; 6; 7; 8] zero_vector = Success dy_bg
    /\ primordial_inflation_derivs ppm {| pipaw_N := in_size ppm; pipaw_k := 2 |} 1
         [1; 0; 1 / 2; 0; 0; 0; 0; 0; 0; 0; 0] [9; 9; 9; 9; 9; 9; 9; 9; 9; 9; 9]
       = Success dy_md
    /\ dy_bg !!! 0%nat = dy_md !!! 0%nat
    /\ dy_bg !!! 2%nat = dy_md !!! 2%nat
    /\ dy_bg !!! 5%nat = 0.
Proof.
  eexists. eexists. eexists. split; [reflexivity|]. split; [reflexivity|].
  split; [reflexivity|].
  destruct (derivs_background_decoupled linear_ppm _ 2 0 1
              [1; 0; 1 / 2; 1; 2; 3; 4; 5; 6; 7; 8]
              [1; 0; 1 / 2; 0; 0; 0; 0; 0; 0; 0; 0]
              zero_vector [9; 9; 9; 9; 9; 9; 9; 9; 9; 9; 9] _ _
              eq_refl eq_refl eq_refl eq_refl eq_refl eq_refl eq_refl eq_refl)
    as (Ha & _ & Hd & Hrest).
  split; [exact Ha|]. split; [exact Hd|].
  exact (Hrest 5%nat ltac:(simpl; lia)).
Defined.

(** ** Reaching a given aH *)

Lemma reach_aH_loop_Success `{GI : GenericIntegrator} (ppm : primordial) (ppr : precision)
    (fuel : nat) (aH_stop : R) (s s' : reach_state) :
  reach_aH_loop ppm ppr fuel aH_stop s = Success s' ->
  ~ ra_dy s' !!! index_in_a ppm / ra_y s' !!! index_in_a ppm < aH_stop.
Proof.
  revert s. induction fuel as [|fuel IH]; intros s H; [discriminate|].
  cbn [reach_aH_loop] in H. unfold reach_aH_continue in H.
  destruct (bool_decide_reflect
              (ra_dy s !!! index_in_a ppm / ra_y s !!! index_in_a ppm < aH_stop)) as [Y|N].
  - apply bind_Success in H as (s1 & _ & H). exact (IH s1 H).
  - injection H as <-. exact N.
Qed.

(** X4.  [primordial_inflation_reach_aH] returns only when the ratio
    dy[a]/y[a] of the arrays it returns is no longer below aH_stop; and when
    that ratio, with dy the derivative at the entry state, is not below
    aH_stop on entry, the function makes no step at all: it returns y as it
    received it and dy set to the derivative at y, without checking the
    potential. *)
Theorem reach_aH_stops_at_aH_stop `{GI : GenericIntegrator} (ppm : primordial)
    (ppr : precision) (fuel : nat) (y dy : list R) (aH_stop : R) :
  (forall y' dy',
      primordial_inflation_reach_aH ppm ppr fuel y dy aH_stop = Success (y', dy') ->
      ~ dy' !!! index_in_a ppm / y' !!! index_in_a ppm < aH_stop)
  /\ (forall gi dy0,
        initialize_generic_integrator (in_bg_size ppm) = Success gi ->
        cleanup_generic_integrator gi = Success tt ->
        primordial_inflation_derivs ppm (bg_pipaw ppm) 0 y dy = Success dy0 ->
        ~ dy0 !!! index_in_a ppm / y !!! index_in_a ppm < aH_stop ->
        primordial_inflation_reach_aH ppm ppr (S fuel) y dy aH_stop = Success (y, dy0)).
Proof.
  split.
  - intros y' dy' H. unfold primordial_inflation_reach_aH in H.
    apply bind_Success in H as (gi & _ & H).
    apply bind_Success in H as (dy0 & _ & H).
    apply bind_Success in H as (s' & Hloop & H).
    apply bind_Success in H as (_ & _ & H).
    injection H as <- <-.
    exact (reach_aH_loop_Success ppm ppr fuel aH_stop _ s' Hloop).
  - intros gi dy0 Hinit Hclean Hd Hstop.
    unfold primordial_inflation_reach_aH.
    change (pipaw_N (bg_pipaw ppm)) with (in_bg_size ppm).
    rewrite Hinit. cbn [bind]. rewrite Hd. cbn [bind].
    rewrite reach_aH_loop_exit by exact Hstop.
    cbn [bind ra_gi ra_y ra_dy]. rewrite Hclean. reflexivity.
Qed.

Lemma reach_aH_stops_at_aH_stop_witness :
  exists y' dy' : list R,
    primordial_inflation_reach_aH (GI := euler_integrator) linear_ppm run_ppr 4
      [1; 0; 1 / 5; 0; 0; 0; 0; 0; 0; 0; 0] zero_vector (7 / 2) = Success (y', dy')
    /\ ~ dy' !!! index_in_a linear_ppm / y' !!! index_in_a linear_ppm < 7 / 2.
Proof.
  destruct (reach_aH_run [] 0 0 0 0 [0; 0; 0; 0; 0; 0; 0; 0])
    as (a & phi & dphi & r3 & r4 & r5 & r6 & r7 & r8 & r9 & r10 & e0 & e1 & e2 & Hrun & _).
  eexists. eexists. split; [exact Hrun|].
  exact (proj1 (reach_aH_stops_at_aH_stop (GI := euler_integrator) linear_ppm run_ppr 4
                  [1; 0; 1 / 5; 0; 0; 0; 0; 0; 0; 0; 0] zero_vector (7 / 2)) _ _ Hrun).
Defined.

(** ** Attractor search *)

(** X5.  The loop of [primordial_inflation_find_attractor] is always
    entered: the previous velocity is initialised to the slow-roll estimate
    divided by precision + 2, so for V > 0 and dV/dphi <> 0 at the field value
    read first and precision >= 0 the convergence test
    |new/old - 1| >= precision holds before the first pass.  Consequently a
    bound primordial_inflation_attractor_maxit <= 1 makes every such call
    fail with the "could not converge" message. *)
Theorem find_attractor_first_pass_is_forced `{GI : GenericIntegrator}
    (ppm : primordial) (ppr : precision) (fuel : nat)
    (phi_indeterminate phi_0 precision : R) (y dy : list R) (V_0 dV_0 ddV_0 : R)
    (Hpot : primordial_inflation_potential ppm phi_indeterminate = Success (V_0, dV_0, ddV_0))
    (HV : V_0 > 0)
    (HdV : dV_0 <> 0)
    (Hprec : precision >= 0) :
  let dphidt_0new := (- dV_0) / 3 / sqrt ((8 * _PI_ / 3) * V_0) in
  let s0 := {| at_y := y; at_dy := dy; at_phi := phi_0; at_counter := 0;
               at_dphidt_0new := dphidt_0new;
               at_dphidt_0old := dphidt_0new / (precision + 2) |} in
  find_attractor_continue precision s0 = true
  /\ ((primordial_inflation_attractor_maxit ppr <= 1)%Z ->
      primordial_inflation_find_attractor ppm ppr (S fuel) phi_indeterminate phi_0
        precision y dy = Failure msg_no_attractor).
Proof.
  intros dphidt_0new s0.
  pose proof pi_bounds as Hpi.
  assert (Hs : 0 < sqrt (8 * _PI_ / 3 * V_0)).
  { apply sqrt_lt_R0. unfold _PI_. nra. }
  assert (Hnew : dphidt_0new <> 0).
  { unfold dphidt_0new. intros E.
    assert (E2 : - dV_0 = - dV_0 / 3 / sqrt (8 * _PI_ / 3 * V_0) * (3 * sqrt (8 * _PI_ / 3 * V_0)))
      by (field; lra).
    rewrite E in E2. lra. }
  assert (Hc : find_attractor_continue precision s0 = true).
  { unfold find_attractor_continue, s0. cbn [at_dphidt_0new at_dphidt_0old].
    replace (dphidt_0new / (dphidt_0new / (precision + 2)) - 1) with (precision + 1)
      by (field; split; [lra | exact Hnew]).
    rewrite Rabs_right by lra.
    destruct (bool_decide_reflect (precision + 1 >= precision)); [reflexivity|lra]. }
  split; [exact Hc|].
  intros Hmax. unfold primordial_inflation_find_attractor.
  rewrite Hpot. cbn [bind]. fold dphidt_0new. fold s0.
  rewrite find_attractor_loop_pass, Hc.
  unfold find_attractor_step. change (at_counter s0) with 0%Z.
  destruct (bool_decide_reflect (0 + 1 >= primordial_inflation_attractor_maxit ppr)%Z);
    [reflexivity | lia].
Qed.

Lemma find_attractor_first_pass_is_forced_witness :
  primordial_inflation_find_attractor (GI := euler_integrator) linear_ppm
    (ppr_with (1 / 100) (1 / 100) 1 (1 / 100) 1) 1 0 0 (1 / 100) zero_vector zero_vector
  = Failure msg_no_attractor.
Proof.
  assert (Hpot : primordial_inflation_potential linear_ppm 0 = Success (1 - 0, -1, 0))
    by apply potential_linear_ppm.
  assert (HV : 1 - 0 > 0) by lra.
  assert (HdV : (-1 : R) <> 0) by lra.
  assert (Hprec : 1 / 100 >= 0) by lra.
  apply (find_attractor_first_pass_is_forced (GI := euler_integrator) linear_ppm
           (ppr_with (1 / 100) (1 / 100) 1 (1 / 100) 1) 0 0 0 (1 / 100)
           zero_vector zero_vector (1 - 0) (-1) 0 Hpot HV HdV Hprec).
  simpl. lia.
Defined.

(** ** Mode integration *)

(** X6.  [primordial_inflation_one_k] does not depend on what its buffers
    hold on entry apart from the background: for the index layout of
    [primordial_inflation_indices] and buffers of [in_size] entries, two
    calls whose [y] agree on a, phi and a*dphi/dtau return the same result
    whatever the perturbation slots of [y] and the whole of [dy] contain
    (for instance what the previous wavenumber left there). *)
Theorem one_k_ignores_buffer_contents `{GI : GenericIntegrator}
    (ppm0 ppm : primordial) (ppr : precision) (fuel : nat) (k : R)
    (y y2 dy dy2 : list R)
    (Hindices : primordial_inflation_indices ppm0 = Success ppm)
    (Hy : length y = in_size ppm) (Hy2 : length y2 = in_size ppm)
    (Hdy : length dy = in_size ppm) (Hdy2 : length dy2 = in_size ppm)
    (Ha : y !!! index_in_a ppm = y2 !!! index_in_a ppm)
    (Hphi : y !!! index_in_phi ppm = y2 !!! index_in_phi ppm)
    (Hdphi : y !!! index_in_dphi ppm = y2 !!! index_in_dphi ppm) :
  primordial_inflation_one_k ppm ppr fuel k y dy
  = primordial_inflation_one_k ppm ppr fuel k y2 dy2.
Proof.
  destruct (inflation_indices_layout ppm0 ppm Hindices)
    as (Ea & Ephi & Edphi & Ekr & Eki & Edkr & Edki & Ear & Eai & Edar & Edai & Ebg & En & _).
  rewrite En in Hy, Hy2, Hdy, Hdy2.
  destruct (vector_of_length_11 y Hy) as (a & phi & dphi & y3 & y4 & y5 & y6 & y7 & y8 & y9 & y10 & ->).
  destruct (vector_of_length_11 y2 Hy2) as (a' & phi' & dphi' & z3 & z4 & z5 & z6 & z7 & z8 & z9 & z10 & ->).
  destruct (vector_of_length_11 dy Hdy) as (d0 & d1 & d2 & d3 & d4 & d5 & d6 & d7 & d8 & d9 & d10 & ->).
  destruct (vector_of_length_11 dy2 Hdy2) as (e0 & e1 & e2 & e3 & e4 & e5 & e6 & e7 & e8 & e9 & e10 & ->).
  rewrite Ea in Ha. rewrite Ephi in Hphi. rewrite Edphi in Hdphi.
  cbn [lookup_total list_lookup_total] in Ha, Hphi, Hdphi. subst a' phi' dphi'.
  unfold primordial_inflation_one_k.
  assert (Hic : one_k_initial_conditions ppm k [a; phi; dphi; y3; y4; y5; y6; y7; y8; y9; y10]
                = one_k_initial_conditions ppm k [a; phi; dphi; z3; z4; z5; z6; z7; z8; z9; z10]).
  { unfold one_k_initial_conditions. rewrite Ekr, Eki, Edkr, Edki, Ear, Eai, Edar, Edai.
    reflexivity. }
  rewrite Hic.
  set (y_ic := one_k_initial_conditions ppm k [a; phi; dphi; z3; z4; z5; z6; z7; z8; z9; z10]).
  assert (Hd : primordial_inflation_derivs ppm (mode_pipaw ppm k) 0 y_ic
                 [d0; d1; d2; d3; d4; d5; d6; d7; d8; d9; d10]
               = primordial_inflation_derivs ppm (mode_pipaw ppm k) 0 y_ic
                   [e0; e1; e2; e3; e4; e5; e6; e7; e8; e9; e10]).
  { unfold primordial_inflation_derivs.
    destruct (primordial_inflation_potential ppm (y_ic !!! index_in_phi ppm))
      as [[[V dV] ddV]| |]; [|reflexivity..].
    cbn [bind]. unfold mode_pipaw. cbn [pipaw_N pipaw_k].
    rewrite Ea, Ephi, Edphi, Ekr, Eki, Edkr, Edki, Ear, Eai, Edar, Edai, Ebg, En.
    reflexivity. }
  rewrite Hd. reflexivity.
Qed.

Lemma one_k_ignores_buffer_contents_witness :
  exists ppm,
    primordial_inflation_indices linear_ppm = Success ppm
    /\ primordial_inflation_one_k (GI := euler_integrator) ppm run_ppr 5 (1 / 2)
         [1; 0; 1 / 2; 1; 2; 3; 4; 5; 6; 7; 8] [9; 9; 9; 9; 9; 9; 9; 9; 9; 9; 9]
       = primordial_inflation_one_k (GI := euler_integrator) ppm run_ppr 5 (1 / 2)
           [1; 0; 1 / 2; 0; 0; 0; 0; 0; 0; 0; 0] zero_vector.
Proof.
  eexists. split; [reflexivity|].
  exact (one_k_ignores_buffer_contents (GI := euler_integrator) linear_ppm _ run_ppr 5 (1 / 2)
           [1; 0; 1 / 2; 1; 2; 3; 4; 5; 6; 7; 8] [1; 0; 1 / 2; 0; 0; 0; 0; 0; 0; 0; 0]
           [9; 9; 9; 9; 9; 9; 9; 9; 9; 9; 9] zero_vector
           eq_refl eq_refl eq_refl eq_refl eq_refl eq_refl eq_refl eq_refl).
Defined.

Lemma one_k_step_curvature `{GI : GenericIntegrator} (ppm : primordial) (ppr : precision)
    (k : R) (s s' : mode_state) :
  one_k_step ppm ppr k s = Success s' ->
  md_curvature_new s'
  = k * k * k / 2 / _PI_ / _PI_
    * (md_y s' !!! index_in_ksi_re ppm * md_y s' !!! index_in_ksi_re ppm
       + md_y s' !!! index_in_ksi_im ppm * md_y s' !!! index_in_ksi_im ppm)
    / (md_y s' !!! index_in_a ppm * md_y s' !!! index_in_dphi ppm
       / (md_dy s' !!! index_in_a ppm / md_y s' !!! index_in_a ppm))
    / (md_y s' !!! index_in_a ppm * md_y s' !!! index_in_dphi ppm
       / (md_dy s' !!! index_in_a ppm / md_y s' !!! index_in_a ppm)).
Proof.
  unfold one_k_step. intros H.
  destruct (generic_integrator _ _ _ _ _ _ _) as [[y gi]|e|]; simpl in H; try discriminate.
  destruct (primordial_inflation_derivs _ _ _ _ _) as [dy|e|]; simpl in H; try discriminate.
  injection H as <-. reflexivity.
Qed.

Lemma one_k_loop_last_step `{GI : GenericIntegrator} (ppm : primordial) (ppr : precision)
    (k : R) (fuel : nat) (s s_end : mode_state) :
  one_k_loop ppm ppr fuel k s = Success s_end ->
  exists s_prev, one_k_step ppm ppr k s_prev = Success s_end.
Proof.
  revert s. induction fuel as [|fuel IH]; intros s; simpl; [discriminate|].
  destruct (one_k_step ppm ppr k s) as [s'|e|] eqn:Hs; simpl; try discriminate.
  destruct (one_k_continue ppr k s'); [apply IH|].
  intros H. injection H as <-. exists s. exact Hs.
Qed.

Lemma square_quotient_nonneg (x z : R) : 0 <= x -> 0 <= x / z / z.
Proof.
  intros H. unfold Rdiv. rewrite Rmult_assoc.
  apply Rmult_le_pos; [exact H|]. apply Rle_0_sqr.
Qed.

(** X7.  For k > 0, the powers returned by [primordial_inflation_one_k]
    are k^3/(2 pi^2) |ksi|^2 / z^2 with z = a * (a dphi/dtau) / aH and
    32 k^3/pi |ah|^2 / a^2, evaluated on the arrays it returns; both are
    >= 0, and (denominators being non-zero) one of them is 0 only if both
    the real and the imaginary part of the mode function are exactly 0.  So
    the "negative spectrum" errors of the caller can only be raised by a
    vanishing mode function. *)
Theorem one_k_powers_are_nonnegative `{GI : GenericIntegrator}
    (ppm : primordial) (ppr : precision) (fuel : nat) (k : R) (y dy y' dy' : list R)
    (curvature tensor : R)
    (Hk : k > 0)
    (Hrun : primordial_inflation_one_k ppm ppr fuel k y dy = Success (y', dy', curvature, tensor)) :
  let ksi2 := y' !!! index_in_ksi_re ppm * y' !!! index_in_ksi_re ppm
              + y' !!! index_in_ksi_im ppm * y' !!! index_in_ksi_im ppm in
  let ah2 := y' !!! index_in_ah_re ppm * y' !!! index_in_ah_re ppm
             + y' !!! index_in_ah_im ppm * y' !!! index_in_ah_im ppm in
  let z := y' !!! index_in_a ppm * y' !!! index_in_dphi ppm
           / (dy' !!! index_in_a ppm / y' !!! index_in_a ppm) in
  curvature = k * k * k / 2 / _PI_ / _PI_ * ksi2 / z / z
  /\ tensor = 32 * k * k * k / _PI_ * ah2 / y' !!! index_in_a ppm / y' !!! index_in_a ppm
  /\ curvature >= 0 /\ tensor >= 0
  /\ (z <> 0 -> curvature = 0 ->
      y' !!! index_in_ksi_re ppm = 0 /\ y' !!! index_in_ksi_im ppm = 0)
  /\ (y' !!! index_in_a ppm <> 0 -> tensor = 0 ->
      y' !!! index_in_ah_re ppm = 0 /\ y' !!! index_in_ah_im ppm = 0).
Proof.
  intros ksi2 ah2 z. pose proof pi_bounds as Hpi.
  unfold primordial_inflation_one_k in Hrun.
  apply bind_Success in Hrun as (gi & _ & H).
  apply bind_Success in H as (dy0 & _ & H).
  apply bind_Success in H as (s & Hloop & H).
  apply bind_Success in H as (_ & _ & H).
  injection H as <- <- <- <-.
  destruct (one_k_loop_last_step ppm ppr k fuel _ s Hloop) as (s_prev & Hstep).
  pose proof (one_k_step_curvature ppm ppr k s_prev s Hstep) as Hc.
  fold ksi2 z in Hc. fold ah2.
  assert (Hk3 : 0 < k * k * k) by (apply Rmult_lt_0_compat; [apply Rmult_lt_0_compat|]; lra).
  assert (Hksi : 0 <= ksi2) by (unfold ksi2; nra).
  assert (Hah : 0 <= ah2) by (unfold ah2; nra).
  assert (Hc0 : 0 < k * k * k / 2 / _PI_ / _PI_).
  { unfold _PI_. repeat apply Rdiv_lt_0_compat; lra. }
  assert (Ht0 : 0 < 32 * k * k * k / _PI_).
  { unfold _PI_. apply Rdiv_lt_0_compat; lra. }
  split; [exact Hc|]. split; [reflexivity|]. rewrite Hc.
  set (c0 := k * k * k / 2 / _PI_ / _PI_) in *.
  set (t0 := 32 * k * k * k / _PI_) in *.
  split; [apply Rle_ge; apply square_quotient_nonneg; apply Rmult_le_pos; lra|].
  split; [apply Rle_ge; apply square_quotient_nonneg; apply Rmult_le_pos; lra|].
  split.
  - intros Hz E.
    assert (E2 : c0 * ksi2 = 0).
    { replace (c0 * ksi2) with (c0 * ksi2 / z / z * (z * z)) by (field; exact Hz).
      rewrite E. ring. }
    assert (E3 : ksi2 = 0) by nra. unfold ksi2 in E3. split; nra.
  - intros Ha E.
    assert (E2 : t0 * ah2 = 0).
    { replace (t0 * ah2)
        with (t0 * ah2 / md_y s !!! index_in_a ppm
              / md_y s !!! index_in_a ppm
              * (md_y s !!! index_in_a ppm * md_y s !!! index_in_a ppm))
        by (field; exact Ha).
      rewrite E. ring. }
    assert (E3 : ah2 = 0) by nra. unfold ah2 in E3. split; nra.
Qed.

Lemma one_k_powers_are_nonnegative_witness :
  exists (y' dy' : list R) (curvature tensor : R),
    primordial_inflation_one_k (GI := euler_integrator) linear_ppm run_ppr 1 (1 / 2)
      [1; 0; 1 / 2; 0; 0; 0; 0; 0; 0; 0; 0] zero_vector
    = Success (y', dy', curvature, tensor)
    /\ curvature >= 0 /\ tensor >= 0.
Proof.
  destruct (one_k_run_in_box [] 0 1 0 (1 / 2) 0 0 0 0 0 0 0 0 0 0 0 0 0 0 0 0 0 0 0)
    as (y' & dy' & curvature & tensor & Hrun & _); try lra.
  exists y', dy', curvature, tensor. split; [exact Hrun|].
  assert (Hk : 1 / 2 > 0) by lra.
  destruct (one_k_powers_are_nonnegative (GI := euler_integrator) linear_ppm run_ppr 1 (1 / 2)
              _ _ y' dy' curvature tensor Hk Hrun) as (_ & _ & Hc & Ht & _).
  split; [exact Hc | exact Ht].
Defined.

(** ** Spectrum assembly: what is written *)

Lemma differs_only_in_table_refl (ppt : perturbs) (a : primordial) :
  differs_only_in_table ppt a a.
Proof.
  unfold differs_only_in_table. repeat split. destruct a; reflexivity.
Qed.

Lemma differs_only_in_table_trans (ppt : perturbs) (a b c : primordial) :
  differs_only_in_table ppt a b -> differs_only_in_table ppt b c ->
  differs_only_in_table ppt a c.
Proof.
  intros (A1 & A2 & A3 & A4 & A5 & A6) (B1 & B2 & B3 & B4 & B5 & B6).
  unfold differs_only_in_table. split; [|split; [|split; [|split; [|split]]]].
  - rewrite <- A1 at 3. rewrite <- B1. destruct c; reflexivity.
  - congruence.
  - congruence.
  - intros m. rewrite B4. apply A4.
  - intros m. rewrite B5. apply A5.
  - intros m H1 H2. destruct (A6 m H1 H2) as [E1 E2]. destruct (B6 m H1 H2) as [F1 F2].
    split; congruence.
Qed.

Lemma lookup_total_insert_list {A : Type} `{Inhabited A} (l : list A) (i j : nat) (x : A) :
  (<[i := x]> l) !!! j = if decide (i = j /\ (i < length l)%nat) then x else l !!! j.
Proof.
  destruct (decide (i = j /\ (i < length l)%nat)) as [[-> Hl]|N].
  - apply list_lookup_total_insert_eq. exact Hl.
  - destruct (decide (i = j)) as [->|Hne].
    + assert (Hge : (length l <= j)%nat) by lia.
      rewrite list_insert_ge by exact Hge. reflexivity.
    + apply list_lookup_total_insert_ne. exact Hne.
Qed.

Lemma spectra_store_frame (ppt : perturbs) (table table' : primordial) (index_k : nat)
    (curvature tensors : R) :
  spectra_store ppt table index_k curvature tensors = Success table' ->
  differs_only_in_table ppt table table'.
Proof.
  rewrite spectra_store_spec.
  destruct (bool_decide (curvature <= 0)); [discriminate|].
  destruct (bool_decide (tensors <= 0)); [discriminate|].
  cbv zeta. intros H. injection H as <-.
  unfold differs_only_in_table. cbn [lnpk is_non_zero with_table].
  split; [destruct table; reflexivity|].
  split; [rewrite !length_insert; reflexivity|].
  split; [rewrite !length_insert; reflexivity|].
  split; [|split].
  - intros m. rewrite !lookup_total_insert_list.
    repeat (destruct (decide _)); rewrite ?length_insert; try reflexivity;
      rewrite ?lookup_total_insert_list; repeat (destruct (decide _));
      rewrite ?length_insert; try reflexivity; destruct_and?; try congruence.
  - intros m. rewrite !lookup_total_insert_list.
    repeat (destruct (decide _)); rewrite ?length_insert; try reflexivity;
      rewrite ?lookup_total_insert_list; repeat (destruct (decide _));
      rewrite ?length_insert; try reflexivity; destruct_and?; try congruence.
  - intros m H1 H2. rewrite !list_lookup_total_insert_ne by congruence. split; reflexivity.
Qed.

Lemma spectra_loop_frame `{GI : GenericIntegrator} (ppm : primordial) (ppr : precision)
    (ppt : perturbs) (fuel : nat) (y_ini : list R) (indices : list nat)
    (st st' : primordial * list R * list R) :
  spectra_loop ppm ppr ppt fuel y_ini indices st = Success st' ->
  differs_only_in_table ppt st.1.1 st'.1.1.
Proof.
  revert st. induction indices as [|i rest IH]; intros st H.
  - injection H as <-. apply differs_only_in_table_refl.
  - cbn [spectra_loop] in H. apply bind_Success in H as (st1 & Hstep & H).
    apply differs_only_in_table_trans with st1.1.1; [|exact (IH st1 H)].
    destruct st as [[table y] dy]. unfold spectra_step in Hstep.
    apply bind_Success in Hstep as ([y1 dy1] & _ & Hstep).
    apply bind_Success in Hstep as ([[[y2 dy2] c] t] & _ & Hstep).
    apply bind_Success in Hstep as (table1 & Hstore & Hstep).
    injection Hstep as <-. exact (spectra_store_frame ppt table table1 i c t Hstore).
Qed.

Lemma spectra_frame `{GI : GenericIntegrator}
    (ppm : primordial) (ppr : precision) (ppt : perturbs) (fuel : nat)
    (y_ini y dy : list R) (table' : primordial) :
  primordial_inflation_spectra ppm ppr ppt fuel y_ini y dy = Success table' ->
  differs_only_in_table ppt ppm table'.
Proof.
  intros Hrun. unfold primordial_inflation_spectra in Hrun.
  apply bind_Success in Hrun as (_ & _ & H).
  apply bind_Success in H as ([[V dV] ddV] & _ & H).
  apply bind_Success in H as (_ & _ & H).
  apply bind_Success in H as ([[table1 y1] dy1] & Hloop & H).
  injection H as <-.
  exact (spectra_loop_frame ppm ppr ppt fuel y_ini _ _ _ Hloop).
Qed.

Lemma differs_only_in_table_fields (ppt : perturbs) (a b : primordial) :
  differs_only_in_table ppt a b ->
  lnk b = lnk a /\ ddlnpk b = ddlnpk a
  /\ (A_s b, n_s b, alpha_s b, r b, n_t b, alpha_t b)
     = (A_s a, n_s a, alpha_s a, r a, n_t a, alpha_t a)
  /\ (primordial_spec_type b, k_pivot b, ic_size b, ic_ic_size b)
     = (primordial_spec_type a, k_pivot a, ic_size a, ic_ic_size a).
Proof.
  intros (E & _). rewrite <- E. repeat split.
Qed.

(** X8.  A successful [primordial_inflation_spectra] changes nothing of
    [ppm] but the lines of [lnpk] and [is_non_zero] of the scalar and the
    tensor mode, and keeps their lengths: the grid [lnk], the second
    derivatives [ddlnpk] (not recomputed here), the spectral parameters
    A_s, n_s, alpha_s, r, n_t, alpha_t, every other field and every line of
    another mode are as they were. *)
Theorem spectra_writes_only_the_table `{GI : GenericIntegrator}
    (ppm : primordial) (ppr : precision) (ppt : perturbs) (fuel : nat)
    (y_ini y dy : list R) (table' : primordial)
    (Hrun : primordial_inflation_spectra ppm ppr ppt fuel y_ini y dy = Success table') :
  differs_only_in_table ppt ppm table'
  /\ lnk table' = lnk ppm /\ ddlnpk table' = ddlnpk ppm
  /\ (A_s table', n_s table', alpha_s table', r table', n_t table', alpha_t table')
     = (A_s ppm, n_s ppm, alpha_s ppm, r ppm, n_t ppm, alpha_t ppm).
Proof.
  pose proof (spectra_frame ppm ppr ppt fuel y_ini y dy table' Hrun) as F.
  destruct (differs_only_in_table_fields ppt ppm table' F) as (E1 & E2 & E3 & _).
  auto.
Qed.

Lemma spectra_writes_only_the_table_witness :
  exists table' : primordial,
    primordial_inflation_spectra (GI := euler_integrator) (linear_ppm_on [ln (1 / 2)])
      run_ppr scalars_and_tensors 4 (background_vector 1 0 (1 / 5)) zero_vector zero_vector
    = Success table'
    /\ lnk table' = [ln (1 / 2)] /\ ddlnpk table' = [[0]; [0]].
Proof.
  destruct (spectra_run 0) as [table' Hrun]. exists table'. split; [exact Hrun|].
  destruct (spectra_writes_only_the_table (GI := euler_integrator) _ _ _ _ _ _ _ table' Hrun)
    as (_ & E1 & E2 & _).
  split; [exact E1 | exact E2].
Defined.

(** ** The analytic spectrum *)

(** X9.  For a non-zero entry with a positive amplitude and k_pivot > 0,
    the analytic spectrum has the amplitude as its value at the pivot, and
    the finite differences that [primordial_init] applies to a tabulated
    spectrum recover its tilt and running exactly, for every step dlnk <> 0:
    with lnP the logarithm of [primordial_analytic_spectrum] at k_pivot and
    at k_pivot exp(+-dlnk), (lnP+ - lnP-)/(2 dlnk) + 1 is the tilt and
    (lnP+ - 2 lnP0 + lnP-)/dlnk^2 is the running. *)
Theorem analytic_spectrum_tilt_and_running
    (ppm : primordial) (index_mode index_ic1_ic2 : nat) (dlnk : R)
    (Hnz : (is_non_zero ppm !!! index_mode : list bool) !!! index_ic1_ic2 = true)
    (Hamp : (amplitude ppm !!! index_mode : list R) !!! index_ic1_ic2 > 0)
    (Hpivot : k_pivot ppm > 0)
    (Hstep : dlnk <> 0) :
  let pk := primordial_analytic_spectrum ppm index_mode index_ic1_ic2 in
  let lnpk_pivot := ln (pk (k_pivot ppm)) in
  let lnpk_plus := ln (pk (k_pivot ppm * exp dlnk)) in
  let lnpk_minus := ln (pk (k_pivot ppm * exp (- dlnk))) in
  exp lnpk_pivot = (amplitude ppm !!! index_mode : list R) !!! index_ic1_ic2
  /\ (lnpk_plus - lnpk_minus) / (2 * dlnk) + 1
     = (tilt ppm !!! index_mode : list R) !!! index_ic1_ic2
  /\ (lnpk_plus - 2 * lnpk_pivot + lnpk_minus) / dlnk ^ 2
     = (running ppm !!! index_mode : list R) !!! index_ic1_ic2.
Proof.
  intros pk lnpk_pivot lnpk_plus lnpk_minus.
  assert (Hpk : forall x : R,
             ln (pk (k_pivot ppm * exp x))
             = ln ((amplitude ppm !!! index_mode : list R) !!! index_ic1_ic2)
               + (((tilt ppm !!! index_mode : list R) !!! index_ic1_ic2 - 1) * x
                  + 1 / 2 * (running ppm !!! index_mode : list R) !!! index_ic1_ic2 * x ^ 2)).
  { intros x. unfold pk, primordial_analytic_spectrum. rewrite Hnz.
    replace 0.5 with (1 / 2) by lra.
    replace (k_pivot ppm * exp x / k_pivot ppm) with (exp x) by (field; lra).
    rewrite ln_exp. rewrite ln_mult by (try apply exp_pos; lra).
    rewrite ln_exp. reflexivity. }
  assert (Hp0 : lnpk_pivot = ln ((amplitude ppm !!! index_mode : list R) !!! index_ic1_ic2)).
  { unfold lnpk_pivot. replace (k_pivot ppm) with (k_pivot ppm * exp 0) at 1
      by (rewrite exp_0; ring).
    rewrite Hpk. ring. }
  split; [|split].
  - rewrite Hp0. apply exp_ln. lra.
  - unfold lnpk_plus, lnpk_minus. rewrite !Hpk. field. exact Hstep.
  - unfold lnpk_plus, lnpk_minus. rewrite Hp0, !Hpk. field. exact Hstep.
Qed.

Lemma analytic_spectrum_tilt_and_running_witness :
  exp (ln (primordial_analytic_spectrum analytic_ppm 0 2 1)) = 3
  /\ (ln (primordial_analytic_spectrum analytic_ppm 0 2 (1 * exp 1))
      - ln (primordial_analytic_spectrum analytic_ppm 0 2 (1 * exp (- 1)))) / (2 * 1) + 1 = 1.
Proof.
  assert (Hnz : (is_non_zero analytic_ppm !!! 0%nat : list bool) !!! 2%nat = true)
    by reflexivity.
  assert (Hamp : (amplitude analytic_ppm !!! 0%nat : list R) !!! 2%nat > 0)
    by (simpl; lra).
  assert (Hpivot : k_pivot analytic_ppm > 0) by (simpl; lra).
  assert (Hstep : (1 : R) <> 0) by lra.
  destruct (analytic_spectrum_tilt_and_running analytic_ppm 0 2 1 Hnz Hamp Hpivot Hstep)
    as (H1 & H2 & _).
  split; [exact H1 | exact H2].
Defined.

(** ** Table lookup: the two output formats *)

Lemma index_symmetric_matrix_lt_rows (i1 j1 i2 j2 N : nat) :
  (i1 <= j1 < N)%nat -> (i2 <= j2 < N)%nat -> (i1 < i2)%nat ->
  (index_symmetric_matrix i1 j1 N < index_symmetric_matrix i2 j2 N)%nat.
Proof.
  intros H1 H2 Hlt. unfold index_symmetric_matrix.
  pose proof (triangle_double i1) as T1.
  pose proof (triangle_double i2) as T2.
  destruct i2 as [|i2]; [lia|].
  replace (S i2 - 1)%nat with i2 in * by lia.
  destruct i1 as [|i1].
  - simpl in *. nia.
  - replace (S i1 - 1)%nat with i1 in * by lia. nia.
Qed.

Lemma index_symmetric_matrix_inj (i1 j1 i2 j2 N : nat) :
  (i1 <= j1 < N)%nat -> (i2 <= j2 < N)%nat ->
  index_symmetric_matrix i1 j1 N = index_symmetric_matrix i2 j2 N ->
  i1 = i2 /\ j1 = j2.
Proof.
  intros H1 H2 E.
  destruct (Nat.lt_trichotomy i1 i2) as [L|[->|L]].
  - pose proof (index_symmetric_matrix_lt_rows i1 j1 i2 j2 N H1 H2 L). lia.
  - split; [reflexivity|]. unfold index_symmetric_matrix in E.
    pose proof (triangle_double i2) as T2. nia.
  - pose proof (index_symmetric_matrix_lt_rows i2 j2 i1 j1 N H2 H1 L). lia.
Qed.

Lemma insert_lookup_total_id (l : list R) (i : nat) : <[i := l !!! i]> l = l.
Proof.
  destruct (decide (i < length l)%nat) as [H|H].
  - apply list_insert_id. apply list_lookup_lookup_total_lt. exact H.
  - apply list_insert_ge. lia.
Qed.

(** A loop whose pass [q] overwrites the entry [idx q] with a value read
    from entries that the loop has not written yet. *)
Lemma fold_update_lookup {K : Type} (idx : K -> nat) (F : K -> list R -> R) (G : K -> R)
    (L : list K) (o : list R) :
  NoDup (map idx L) ->
  (forall q out, In q L ->
      (forall p, ~ In p (map idx L) \/ p = idx q -> out !!! p = o !!! p) ->
      F q out = G q) ->
  let result := fold_left (fun out q => <[idx q := F q out]> out) L o in
  length result = length o
  /\ (forall p, ~ In p (map idx L) -> result !!! p = o !!! p)
  /\ (forall q, In q L -> (idx q < length o)%nat -> result !!! idx q = G q).
Proof.
  induction L as [|q L IH] using rev_ind; intros Hnd Hloc; cbv zeta.
  - simpl. split; [reflexivity|]. split; [reflexivity|]. intros q [].
  - rewrite map_app in Hnd. apply NoDup_app in Hnd as (Hnd & Hdisj & _).
    assert (HqL : ~ In (idx q) (map idx L)).
    { intros Hin. apply (Hdisj (idx q)); [apply list_elem_of_In; exact Hin|].
      simpl. left. }
    destruct IH as (IHlen & IHout & IHin); [exact Hnd| |].
    { intros q0 out Hq0 Hag. apply Hloc; [apply in_or_app; left; exact Hq0|].
      intros p [Hp|Hp]; apply Hag; [left|right; exact Hp].
      intros Hin. apply Hp. rewrite map_app. apply in_or_app. left. exact Hin. }
    rewrite fold_left_app. cbn [fold_left].
    set (prev := fold_left (fun out q0 => <[idx q0 := F q0 out]> out) L o) in *.
    assert (HF : F q prev = G q).
    { apply Hloc; [apply in_or_app; right; left; reflexivity|].
      intros p [Hp| ->]; apply IHout; [|exact HqL].
      intros Hin. apply Hp. rewrite map_app. apply in_or_app. left. exact Hin. }
    split; [rewrite length_insert; exact IHlen|]. split.
    + intros p Hp. rewrite map_app in Hp.
      assert (idx q <> p) by (intros <-; apply Hp; apply in_or_app; right; left; reflexivity).
      rewrite list_lookup_total_insert_ne by assumption.
      apply IHout. intros Hin. apply Hp. apply in_or_app. left. exact Hin.
    + intros q0 Hq0 Hlen. apply in_app_or in Hq0 as [Hq0|[<-|[]]].
      * assert (idx q <> idx q0) by (intros E; apply HqL; rewrite E; apply in_map; exact Hq0).
        rewrite list_lookup_total_insert_ne by assumption. apply IHin; assumption.
      * rewrite list_lookup_total_insert_eq by (rewrite IHlen; exact Hlen). exact HF.
Qed.

Lemma in_strict_pairs (n a b : nat) :
  In (a, b) (flat_map (fun a => map (pair a) (seq (a + 1) (n - (a + 1)))) (seq 0 n))
  <-> (a < b < n)%nat.
Proof.
  rewrite in_flat_map. split.
  - intros (x & Hx & Hin). apply in_map_iff in Hin as (y & E & Hy).
    injection E as -> ->. apply in_seq in Hx. apply in_seq in Hy. lia.
  - intros H. exists a. split; [apply in_seq; lia|].
    apply in_map. apply in_seq. lia.
Qed.

Lemma NoDup_strict_pairs (n : nat) :
  NoDup (map (fun q : nat * nat => index_symmetric_matrix (fst q) (snd q) n)
           (flat_map (fun a => map (pair a) (seq (a + 1) (n - (a + 1)))) (seq 0 n))).
Proof.
  apply (NoDup_fmap_2_strong
           (fun q : nat * nat => index_symmetric_matrix (fst q) (snd q) n)).
  - intros [a b] [a' b'] H1 H2 E. apply list_elem_of_In in H1, H2.
    apply in_strict_pairs in H1, H2. simpl in E.
    destruct (index_symmetric_matrix_inj a b a' b' n) as [-> ->]; [lia|lia|exact E|].
    reflexivity.
  - change (NoDup (seq 0 n ≫= (fun a => pair a <$> seq (a + 1) (n - (a + 1))))).
    apply NoDup_bind.
    + intros x1 x2 [a b] _ _ H1 H2.
      apply list_elem_of_fmap in H1 as (y1 & E1 & _). apply list_elem_of_fmap in H2 as (y2 & E2 & _).
      congruence.
    + intros x _. apply NoDup_fmap_2_strong; [|apply NoDup_seq].
      intros y1 y2 _ _ E. congruence.
    + apply NoDup_seq.
Qed.

Lemma NoDup_diagonal (n : nat) :
  NoDup (map (fun i : nat => index_symmetric_matrix i i n) (seq 0 n)).
Proof.
  apply (NoDup_fmap_2_strong (fun i : nat => index_symmetric_matrix i i n));
    [|apply NoDup_seq].
  intros i j Hi Hj E. apply list_elem_of_In in Hi, Hj. apply in_seq in Hi, Hj.
  destruct (index_symmetric_matrix_inj i i j j n) as [-> _]; [lia|lia|exact E|].
  reflexivity.
Qed.

Lemma diagonal_not_strict_pair (n i : nat) :
  (i < n)%nat ->
  ~ In (index_symmetric_matrix i i n)
      (map (fun q : nat * nat => index_symmetric_matrix (fst q) (snd q) n)
         (flat_map (fun a => map (pair a) (seq (a + 1) (n - (a + 1)))) (seq 0 n))).
Proof.
  intros Hi Hin. apply in_map_iff in Hin as ([a b] & E & Hab).
  apply in_strict_pairs in Hab. simpl in E.
  destruct (index_symmetric_matrix_inj a b i i n); [lia|lia|exact E|]. lia.
Qed.

Lemma strict_pair_not_diagonal (n a b : nat) :
  (a < b < n)%nat ->
  ~ In (index_symmetric_matrix a b n)
      (map (fun i : nat => index_symmetric_matrix i i n) (seq 0 n)).
Proof.
  intros Hab Hin. apply in_map_iff in Hin as (i & E & Hi). apply in_seq in Hi.
  destruct (index_symmetric_matrix_inj i i a b n); [lia|lia|exact E|]. lia.
Qed.

Lemma to_linear_entries (ppm : primordial) (index_mode : nat) (output : list R) :
  let n := ic_size ppm !!! index_mode in
  (n * (n + 1) / 2 <= length output)%nat ->
  length (to_linear ppm index_mode output) = length output
  /\ (forall i, (i < n)%nat ->
        to_linear ppm index_mode output !!! index_symmetric_matrix i i n
        = exp (output !!! index_symmetric_matrix i i n))
  /\ (forall a b, (a < b < n)%nat ->
        to_linear ppm index_mode output !!! index_symmetric_matrix a b n
        = if ((is_non_zero ppm !!! index_mode) !!! index_symmetric_matrix a b n : bool)
          then output !!! index_symmetric_matrix a b n
               * sqrt (exp (output !!! index_symmetric_matrix a a n)
                       * exp (output !!! index_symmetric_matrix b b n))
          else 0).
Proof.
  intros n Hlen. unfold to_linear, for_loop. fold n. rewrite Nat.sub_0_r.
  destruct (fold_update_lookup (fun i : nat => index_symmetric_matrix i i n)
              (fun i out => exp (out !!! index_symmetric_matrix i i n))
              (fun i => exp (output !!! index_symmetric_matrix i i n))
              (seq 0 n) output (NoDup_diagonal n)) as (L1 & O1 & D1).
  { intros i out _ Hag. rewrite Hag by (right; reflexivity). reflexivity. }
  cbv zeta in L1, O1, D1.
  set (o1 := fold_left (fun out i => <[index_symmetric_matrix i i n :=
                                         exp (out !!! index_symmetric_matrix i i n)]> out)
               (seq 0 n) output) in *.
  rewrite (fold_left_nested (fun a => seq (a + 1) (n - (a + 1)))
             (fun index_ic1 index_ic2 output =>
                if ((is_non_zero ppm !!! index_mode)
                      !!! index_symmetric_matrix index_ic1 index_ic2 n : bool)
                then <[index_symmetric_matrix index_ic1 index_ic2 n :=
                         output !!! index_symmetric_matrix index_ic1 index_ic2 n
                         * sqrt (output !!! index_symmetric_matrix index_ic1 index_ic1 n
                                 * output !!! index_symmetric_matrix index_ic2 index_ic2 n)]>
                       output
                else <[index_symmetric_matrix index_ic1 index_ic2 n := 0]> output)).
  set (idx := fun q : nat * nat => index_symmetric_matrix (fst q) (snd q) n).
  set (F := fun (q : nat * nat) (out : list R) =>
              if ((is_non_zero ppm !!! index_mode) !!! idx q : bool)
              then out !!! idx q
                   * sqrt (out !!! index_symmetric_matrix (fst q) (fst q) n
                           * out !!! index_symmetric_matrix (snd q) (snd q) n)
              else 0).
  set (G := fun q : nat * nat =>
              if ((is_non_zero ppm !!! index_mode) !!! idx q : bool)
              then o1 !!! idx q
                   * sqrt (o1 !!! index_symmetric_matrix (fst q) (fst q) n
                           * o1 !!! index_symmetric_matrix (snd q) (snd q) n)
              else 0).
  erewrite (fold_left_pointwise _ (fun out q => <[idx q := F q out]> out)).
  2: { intros out q. unfold F, idx.
       destruct ((is_non_zero ppm !!! index_mode) !!! _ : bool); reflexivity. }
  destruct (fold_update_lookup idx F G _ o1 (NoDup_strict_pairs n)) as (L2 & O2 & D2).
  { intros [a b] out Hq Hag. apply in_strict_pairs in Hq. unfold F, G. cbn [fst snd].
    rewrite (Hag (idx (a, b))) by (right; reflexivity).
    rewrite (Hag (index_symmetric_matrix a a n))
      by (left; apply diagonal_not_strict_pair; lia).
    rewrite (Hag (index_symmetric_matrix b b n))
      by (left; apply diagonal_not_strict_pair; lia).
    reflexivity. }
  cbv zeta in L2, O2, D2.
  split; [rewrite L2; exact L1|]. split.
  - intros i Hi. rewrite O2 by (apply diagonal_not_strict_pair; exact Hi).
    apply D1; [apply in_seq; lia|].
    pose proof (index_symmetric_matrix_lt i i n). lia.
  - intros a b Hab. transitivity (G (a, b)).
    + apply (D2 (a, b)); [apply in_strict_pairs; exact Hab|].
      unfold idx. cbn [fst snd]. rewrite L1.
      pose proof (index_symmetric_matrix_lt a b n). lia.
    + unfold G, idx. cbn [fst snd].
      rewrite (O1 (index_symmetric_matrix a b n))
        by (apply strict_pair_not_diagonal; exact Hab).
      rewrite (D1 a), (D1 b); try (apply in_seq; lia);
        try (pose proof (index_symmetric_matrix_lt a a n);
             pose proof (index_symmetric_matrix_lt b b n); lia).
      reflexivity.
Qed.

Lemma to_logarithmic_entries (ppm : primordial) (index_mode : nat) (output : list R) :
  let n := ic_size ppm !!! index_mode in
  (n * (n + 1) / 2 <= length output)%nat ->
  length (to_logarithmic ppm index_mode output) = length output
  /\ (forall i, (i < n)%nat ->
        to_logarithmic ppm index_mode output !!! index_symmetric_matrix i i n
        = ln (output !!! index_symmetric_matrix i i n))
  /\ (forall a b, (a < b < n)%nat ->
        to_logarithmic ppm index_mode output !!! index_symmetric_matrix a b n
        = if ((is_non_zero ppm !!! index_mode) !!! index_symmetric_matrix a b n : bool)
          then output !!! index_symmetric_matrix a b n
               / sqrt (ln (output !!! index_symmetric_matrix a a n)
                       * ln (output !!! index_symmetric_matrix b b n))
          else output !!! index_symmetric_matrix a b n).
Proof.
  intros n Hlen. unfold to_logarithmic, for_loop. fold n. rewrite Nat.sub_0_r.
  destruct (fold_update_lookup (fun i : nat => index_symmetric_matrix i i n)
              (fun i out => ln (out !!! index_symmetric_matrix i i n))
              (fun i => ln (output !!! index_symmetric_matrix i i n))
              (seq 0 n) output (NoDup_diagonal n)) as (L1 & O1 & D1).
  { intros i out _ Hag. rewrite Hag by (right; reflexivity). reflexivity. }
  cbv zeta in L1, O1, D1.
  set (o1 := fold_left (fun out i => <[index_symmetric_matrix i i n :=
                                         ln (out !!! index_symmetric_matrix i i n)]> out)
               (seq 0 n) output) in *.
  rewrite (fold_left_nested (fun a => seq (a + 1) (n - (a + 1)))
             (fun index_ic1 index_ic2 output =>
                if ((is_non_zero ppm !!! index_mode)
                      !!! index_symmetric_matrix index_ic1 index_ic2 n : bool)
                then <[index_symmetric_matrix index_ic1 index_ic2 n :=
                         output !!! index_symmetric_matrix index_ic1 index_ic2 n
                         / sqrt (output !!! index_symmetric_matrix index_ic1 index_ic1 n
                                 * output !!! index_symmetric_matrix index_ic2 index_ic2 n)]>
                       output
                else output)).
  set (idx := fun q : nat * nat => index_symmetric_matrix (fst q) (snd q) n).
  set (F := fun (q : nat * nat) (out : list R) =>
              if ((is_non_zero ppm !!! index_mode) !!! idx q : bool)
              then out !!! idx q
                   / sqrt (out !!! index_symmetric_matrix (fst q) (fst q) n
                           * out !!! index_symmetric_matrix (snd q) (snd q) n)
              else out !!! idx q).
  set (G := fun q : nat * nat =>
              if ((is_non_zero ppm !!! index_mode) !!! idx q : bool)
              then o1 !!! idx q
                   / sqrt (o1 !!! index_symmetric_matrix (fst q) (fst q) n
                           * o1 !!! index_symmetric_matrix (snd q) (snd q) n)
              else o1 !!! idx q).
  erewrite (fold_left_pointwise _ (fun out q => <[idx q := F q out]> out)).
  2: { intros out q. unfold F, idx.
       destruct ((is_non_zero ppm !!! index_mode) !!! _ : bool);
         [reflexivity | symmetry; apply insert_lookup_total_id]. }
  destruct (fold_update_lookup idx F G _ o1 (NoDup_strict_pairs n)) as (L2 & O2 & D2).
  { intros [a b] out Hq Hag. apply in_strict_pairs in Hq. unfold F, G. cbn [fst snd].
    rewrite (Hag (idx (a, b))) by (right; reflexivity).
    rewrite (Hag (index_symmetric_matrix a a n))
      by (left; apply diagonal_not_strict_pair; lia).
    rewrite (Hag (index_symmetric_matrix b b n))
      by (left; apply diagonal_not_strict_pair; lia).
    reflexivity. }
  cbv zeta in L2, O2, D2.
  split; [rewrite L2; exact L1|]. split.
  - intros i Hi. rewrite O2 by (apply diagonal_not_strict_pair; exact Hi).
    apply D1; [apply in_seq; lia|].
    pose proof (index_symmetric_matrix_lt i i n). lia.
  - intros a b Hab. transitivity (G (a, b)).
    + apply (D2 (a, b)); [apply in_strict_pairs; exact Hab|].
      unfold idx. cbn [fst snd]. rewrite L1.
      pose proof (index_symmetric_matrix_lt a b n). lia.
    + unfold G, idx. cbn [fst snd].
      rewrite (O1 (index_symmetric_matrix a b n))
        by (apply strict_pair_not_diagonal; exact Hab).
      rewrite (D1 a), (D1 b); try (apply in_seq; lia);
        try (pose proof (index_symmetric_matrix_lt a a n);
             pose proof (index_symmetric_matrix_lt b b n); lia).
      reflexivity.
Qed.

Lemma fold_left_length_preserved {A : Type} (f : list R -> A -> list R) (l : list A)
    (o : list R) :
  (forall o a, length (f o a) = length o) -> length (fold_left f l o) = length o.
Proof.
  intros H. revert o. induction l as [|a l IH]; intros o; [reflexivity|].
  cbn [fold_left]. rewrite IH. apply H.
Qed.

Lemma direct_computation_length (ppm : primordial) (index_mode : nat) (lnk_ : R)
    (output : list R) :
  length (direct_computation ppm index_mode lnk_ output) = length output.
Proof.
  unfold direct_computation, for_loop.
  apply fold_left_length_preserved. intros o i.
  apply fold_left_length_preserved. intros o' j.
  destruct ((is_non_zero ppm !!! index_mode) !!! _ : bool); apply length_insert.
Qed.

(** X10.  Inside the table range the two modes of
    [primordial_spectrum_at_k] agree: if the logarithmic query at ln k
    succeeds with the interpolated array, the linear query at k > 0 (same
    output buffer) succeeds with an array of the same length in which every
    diagonal entry is the exponential of the interpolated one, hence > 0,
    and every cross entry is the interpolated correlation times
    sqrt(P_ii P_jj) of the diagonal entries returned, or exactly 0 when the
    pair is flagged as uncorrelated. *)
Theorem spectrum_at_k_linear_from_logarithmic `{AT : ArrayTools}
    (ppm : primordial) (index_mode : nat) (k : R) (output interpolated : list R)
    (Hk : k > 0)
    (Hrange : lnk ppm !!! 0%nat <= ln k <= lnk ppm !!! (lnk_size ppm - 1)%nat)
    (Hlog : primordial_spectrum_at_k ppm index_mode logarithmic (ln k) output
            = (Success tt, interpolated))
    (Hlen : (ic_size ppm !!! index_mode * (ic_size ppm !!! index_mode + 1) / 2
             <= length interpolated)%nat) :
  let n := ic_size ppm !!! index_mode in
  exists pk : list R,
    primordial_spectrum_at_k ppm index_mode linear k output = (Success tt, pk)
    /\ length pk = length interpolated
    /\ (forall i, (i < n)%nat ->
          pk !!! index_symmetric_matrix i i n
          = exp (interpolated !!! index_symmetric_matrix i i n)
          /\ pk !!! index_symmetric_matrix i i n > 0)
    /\ (forall a b, (a < b < n)%nat ->
          pk !!! index_symmetric_matrix a b n
          = if ((is_non_zero ppm !!! index_mode) !!! index_symmetric_matrix a b n : bool)
            then interpolated !!! index_symmetric_matrix a b n
                 * sqrt (pk !!! index_symmetric_matrix a a n
                         * pk !!! index_symmetric_matrix b b n)
            else 0).
Proof.
  intros n. unfold primordial_spectrum_at_k in *. cbn [infer_lnk] in *.
  destruct (bool_decide_reflect (k <= 0)) as [C|_]; [lra|].
  cbn [test_condition bind].
  destruct (bool_decide_reflect (ln k > lnk ppm !!! (lnk_size ppm - 1)%nat)) as [C|_]; [lra|].
  destruct (bool_decide_reflect (ln k < lnk ppm !!! 0%nat)) as [C|_]; [lra|].
  cbn [orb] in *.
  destruct (array_interpolate_spline (lnk ppm) (lnk_size ppm) (lnpk ppm !!! index_mode)
              (ddlnpk ppm !!! index_mode) (ic_ic_size ppm !!! index_mode) (ln k) output
              (ic_ic_size ppm !!! index_mode)) as [[last| |] res]; try discriminate.
  injection Hlog as ->.
  destruct (to_linear_entries ppm index_mode interpolated Hlen) as (L & D & C).
  fold n in D, C.
  exists (to_linear ppm index_mode interpolated).
  split; [reflexivity|]. split; [exact L|]. split.
  - intros i Hi. split; [exact (D i Hi)|]. rewrite (D i Hi). apply exp_pos.
  - intros a b Hab. rewrite (C a b Hab), (D a), (D b) by lia. reflexivity.
Qed.

Lemma spectrum_at_k_linear_from_logarithmic_witness :
  exists pk : list R,
    primordial_spectrum_at_k (AT := first_line_lookup) tabulated_ppm 0 linear 1 [0]
    = (Success tt, pk)
    /\ pk !!! 0%nat > 0.
Proof.
  pose proof ln_10_pos as H10.
  assert (Hk : (1 : R) > 0) by lra.
  assert (Hrange : lnk tabulated_ppm !!! 0%nat <= ln 1
                   <= lnk tabulated_ppm !!! (lnk_size tabulated_ppm - 1)%nat)
    by (rewrite ln_1; simpl; lra).
  assert (Hlog : primordial_spectrum_at_k (AT := first_line_lookup) tabulated_ppm 0
                   logarithmic (ln 1) [0] = (Success tt, [-20])).
  { unfold primordial_spectrum_at_k. cbn [infer_lnk]. rewrite ln_1.
    destruct (bool_decide_reflect (0 > lnk tabulated_ppm !!! (lnk_size tabulated_ppm - 1)%nat))
      as [C|_]; [simpl in C; lra|].
    destruct (bool_decide_reflect (0 < lnk tabulated_ppm !!! 0%nat))
      as [C|_]; [simpl in C; lra|].
    reflexivity. }
  destruct (spectrum_at_k_linear_from_logarithmic (AT := first_line_lookup) tabulated_ppm 0 1
              [0] [-20] Hk Hrange Hlog ltac:(simpl; lia)) as (pk & Hrun & _ & Hdiag & _).
  exists pk. split; [exact Hrun|].
  exact (proj2 (Hdiag 0%nat ltac:(simpl; lia))).
Defined.

(** X11.  Outside the table range, for an analytic spectrum, the
    logarithmic mode of [primordial_spectrum_at_k] returns ln P_ii on the
    diagonal, and for a correlated pair i < j the closed-form P_ij divided
    by sqrt(ln P_ii * ln P_jj): the division uses the diagonal entries after
    they have been replaced by their logarithms (inside the range the table
    holds P_ij / sqrt(P_ii P_jj)).  An uncorrelated pair gives 0. *)
Theorem spectrum_at_k_logarithmic_extrapolation `{AT : ArrayTools}
    (ppm : primordial) (index_mode : nat) (lnk_ : R) (output : list R)
    (Htype : primordial_spec_type ppm = analytic_Pk)
    (Hout : lnk_ > lnk ppm !!! (lnk_size ppm - 1)%nat \/ lnk_ < lnk ppm !!! 0%nat)
    (Hlen : (ic_size ppm !!! index_mode * (ic_size ppm !!! index_mode + 1) / 2
             <= length output)%nat) :
  let n := ic_size ppm !!! index_mode in
  let pk := fun a b =>
    primordial_analytic_spectrum ppm index_mode (index_symmetric_matrix a b n) (exp lnk_) in
  exists result : list R,
    primordial_spectrum_at_k ppm index_mode logarithmic lnk_ output = (Success tt, result)
    /\ (forall i, (i < n)%nat -> result !!! index_symmetric_matrix i i n = ln (pk i i))
    /\ (forall a b, (a < b < n)%nat ->
          result !!! index_symmetric_matrix a b n
          = if ((is_non_zero ppm !!! index_mode) !!! index_symmetric_matrix a b n : bool)
            then pk a b / sqrt (ln (pk a a) * ln (pk b b))
            else 0).
Proof.
  intros n pk. unfold primordial_spectrum_at_k. cbn [infer_lnk].
  assert (Hb : bool_decide (lnk_ > lnk ppm !!! (lnk_size ppm - 1)%nat)
               || bool_decide (lnk_ < lnk ppm !!! 0%nat) = true).
  { destruct (bool_decide_reflect (lnk_ > lnk ppm !!! (lnk_size ppm - 1)%nat));
      [reflexivity|].
    destruct (bool_decide_reflect (lnk_ < lnk ppm !!! 0%nat)); [reflexivity|].
    destruct Hout; contradiction. }
  rewrite Hb, Htype.
  set (direct := direct_computation ppm index_mode lnk_ output).
  assert (Hd : forall a b, (a <= b < n)%nat ->
                 direct !!! index_symmetric_matrix a b n = pk a b).
  { intros a b Hab. apply direct_computation_entries; [exact Hab | exact Hlen]. }
  assert (Hdlen : length direct = length output) by apply direct_computation_length.
  destruct (to_logarithmic_entries ppm index_mode direct) as (L & D & C);
    [rewrite Hdlen; exact Hlen|]. fold n in D, C.
  exists (to_logarithmic ppm index_mode direct).
  split; [reflexivity|]. split.
  - intros i Hi. rewrite (D i Hi), Hd by lia. reflexivity.
  - intros a b Hab. rewrite (C a b Hab), !Hd by lia.
    destruct ((is_non_zero ppm !!! index_mode) !!! index_symmetric_matrix a b n : bool) eqn:E;
      [reflexivity|].
    unfold pk, primordial_analytic_spectrum. rewrite E. reflexivity.
Qed.

Lemma spectrum_at_k_logarithmic_extrapolation_witness :
  exists result : list R,
    primordial_spectrum_at_k (AT := first_line_lookup) analytic_ppm 0 logarithmic 2 [0; 0; 0]
    = (Success tt, result)
    /\ result !!! 0%nat = ln (primordial_analytic_spectrum analytic_ppm 0 0 (exp 2))
    /\ result !!! 1%nat = 0.
Proof.
  assert (Hout : 2 > lnk analytic_ppm !!! (lnk_size analytic_ppm - 1)%nat
                 \/ 2 < lnk analytic_ppm !!! 0%nat) by (left; simpl; lra).
  destruct (spectrum_at_k_logarithmic_extrapolation (AT := first_line_lookup) analytic_ppm 0 2
              [0; 0; 0] eq_refl Hout ltac:(simpl; lia)) as (result & Hrun & Hdiag & Hcross).
  exists result. split; [exact Hrun|]. split.
  - exact (Hdiag 0%nat ltac:(simpl; lia)).
  - exact (Hcross 0%nat 1%nat ltac:(simpl; lia)).
Defined.

(** ** The list of wavenumbers *)

Lemma lnk_list_lookup (f : nat -> R) (n i : nat) :
  (i < n)%nat -> map f (seq 0 n) !!! i = f i.
Proof.
  intros H. change (map f (seq 0 n)) with (f <$> seq 0 n).
  rewrite (list_lookup_total_fmap f (seq 0 n) i) by (rewrite length_seq; exact H).
  rewrite lookup_total_seq_lt by exact H. reflexivity.
Qed.

Lemma lnk_list_spec (kmin kmax k_per_decade : R) :
  kmin > 0 -> kmax > kmin -> k_per_decade > 0 ->
  exists l : list R,
    primordial_get_lnk_list kmin kmax k_per_decade = Done l
    /\ (2 <= length l)%nat
    /\ l !!! 0%nat = ln kmin
    /\ (forall i, (i + 1 < length l)%nat ->
          l !!! (i + 1)%nat - l !!! i = ln 10 / k_per_decade)
    /\ l !!! (length l - 2)%nat <= ln kmax < l !!! (length l - 1)%nat.
Proof.
  intros Hmin Hmax Hk. pose proof ln_10_pos as H10.
  unfold primordial_get_lnk_list.
  destruct (bool_decide_reflect (kmin <= 0)); [lra|].
  destruct (bool_decide_reflect (kmax <= kmin)); [lra|].
  cbn [orb init_condition init_bind].
  set (x := ln (kmax / kmin) / ln 10 * k_per_decade).
  assert (Hratio : 1 < kmax / kmin).
  { apply Rmult_lt_reg_r with kmin; [lra|]. unfold Rdiv.
    rewrite Rmult_assoc, Rinv_l by lra. lra. }
  assert (Hln : 0 < ln (kmax / kmin)) by (rewrite <- ln_1; apply ln_increasing; lra).
  assert (Hx : 0 < x).
  { unfold x. apply Rmult_lt_0_compat; [|exact Hk]. apply Rdiv_lt_0_compat; lra. }
  assert (Hint : double_to_int x = Int_part x).
  { unfold double_to_int. destruct (bool_decide_reflect (0 <= x)); [reflexivity|lra]. }
  rewrite Hint.
  destruct (base_Int_part x) as [Hip1 Hip2].
  assert (Hip0 : (0 <= Int_part x)%Z).
  { destruct (Z_lt_le_dec (Int_part x) 0) as [C|C]; [|exact C].
    assert (IZR (Int_part x) <= -1) by (apply IZR_le; lia). lra. }
  set (m := Z.to_nat (Int_part x)).
  assert (Hm : INR m = IZR (Int_part x)).
  { unfold m. rewrite INR_IZR_INZ, Z2Nat.id by exact Hip0. reflexivity. }
  replace (Z.to_nat (Int_part x + 2)) with (S (S m)) by (unfold m; lia).
  set (f := fun i : nat => ln kmin + INR i * ln 10 / k_per_decade).
  eexists. split; [reflexivity|].
  rewrite length_map, length_seq.
  split; [lia|]. split; [|split].
  - rewrite lnk_list_lookup by lia. unfold f. simpl. unfold Rdiv. ring.
  - intros i Hi. rewrite !lnk_list_lookup by lia. unfold f.
    rewrite Nat.add_1_r, S_INR. field. lra.
  - replace (S (S m) - 2)%nat with m by lia.
    replace (S (S m) - 1)%nat with (S m) by lia.
    rewrite !lnk_list_lookup by lia. unfold f. rewrite S_INR, Hm.
    assert (Hkk : ln kmax = ln kmin + x * ln 10 / k_per_decade).
    { unfold x. replace (ln (kmax / kmin)) with (ln kmax - ln kmin)
        by (unfold Rdiv; rewrite ln_mult, ln_Rinv; try lra; apply Rinv_0_lt_compat; lra).
      field. lra. }
    rewrite Hkk.
    assert (Hs : 0 < ln 10 / k_per_decade) by (apply Rdiv_lt_0_compat; lra).
    unfold Rdiv in *. split.
    + assert (IZR (Int_part x) * (ln 10 * / k_per_decade) <= x * (ln 10 * / k_per_decade))
        by (apply Rmult_le_compat_r; lra). lra.
    + assert (x * (ln 10 * / k_per_decade) < (IZR (Int_part x) + 1) * (ln 10 * / k_per_decade))
        by (apply Rmult_lt_compat_r; lra). lra.
Qed.

Lemma lnk_list_Done (kmin kmax k_per_decade : R) (l : list R) :
  primordial_get_lnk_list kmin kmax k_per_decade = Done l -> kmin > 0 /\ kmax > kmin.
Proof.
  unfold primordial_get_lnk_list.
  destruct (bool_decide_reflect (kmin <= 0)); [discriminate|].
  destruct (bool_decide_reflect (kmax <= kmin)); [discriminate|].
  intros _. lra.
Qed.





(** ** Solving inflation *)

Lemma init_bind_Done {A B : Type} (c : init_outcome A) (k : A -> init_outcome B) (b : B) :
  init_bind c k = Done b -> exists a, c = Done a /\ k a = Done b.
Proof. destruct c as [a| |]; simpl; intros H; [exists a; auto | discriminate..]. Qed.

Lemma from_outcome_Done {A : Type} (c : outcome A) (a : A) :
  from_outcome c = Done a -> c = Success a.
Proof. destruct c; simpl; intros H; [congruence | discriminate..]. Qed.

Lemma potential_at_pivot (ppm : primordial) :
  primordial_inflation_potential ppm (phi_pivot ppm) = Success (V0 ppm, V1 ppm, V2 ppm).
Proof.
  unfold primordial_inflation_potential. destruct (potential ppm).
  do 2 f_equal; [f_equal|]; unfold Rdiv; ring.
Qed.

(** X14.  [primordial_inflation_solve_inflation] needs V0 > 0 and V1 < 0:
    the potential and its slope at phi_pivot are the coefficients V0 and V1,
    and the check made before anything else stops the function with the
    "potential becomes negative" message when V0 <= 0 and with the
    "dV/dphi < 0" message when V0 > 0 and V1 >= 0, whatever the other
    parameters, the grid and the buffers are. *)
Theorem solve_inflation_requires_valid_potential_at_pivot `{GI : GenericIntegrator}
    (ppt : perturbs) (ppm : primordial) (ppr : precision) (pps : precision_search)
    (phi_indeterminate : Z -> R) (fuel : nat) (y y_ini dy : list R)
    (dphidt_try_indeterminate : R) :
  let run := primordial_inflation_solve_inflation ppt ppm ppr pps phi_indeterminate fuel
               y y_ini dy dphidt_try_indeterminate in
  (V0 ppm <= 0 -> run = Stopped (msg_from msg_potential_negative))
  /\ (V0 ppm > 0 -> V1 ppm >= 0 -> run = Stopped (msg_from msg_potential_slope))
  /\ (forall table', run = Done table' -> V0 ppm > 0 /\ V1 ppm < 0).
Proof.
  intros run. unfold run, primordial_inflation_solve_inflation.
  rewrite (check_potential_spec ppm (phi_pivot ppm) (V0 ppm) (V1 ppm) (V2 ppm))
    by apply potential_at_pivot.
  destruct (bool_decide_reflect (V0 ppm <= 0)) as [HV|HV].
  - split; [reflexivity|]. split; [lra|]. discriminate.
  - destruct (bool_decide_reflect (V1 ppm >= 0)) as [HdV|HdV].
    + split; [lra|]. split; [reflexivity|]. discriminate.
    + split; [lra|]. split; [lra|]. intros _ _. lra.
Qed.

Lemma solve_inflation_requires_valid_potential_at_pivot_witness :
  primordial_inflation_solve_inflation (GI := euler_integrator) scalars_and_tensors
    rising_ppm run_ppr
    {| primordial_inflation_attractor_precision_pivot := 1 / 1000;
       primordial_inflation_attractor_precision_initial := 1 / 10;
       primordial_inflation_phi_ini_maxit := 10000;
       primordial_inflation_jump_initial := 12 / 10 |}
    (fun _ => 0) 10 zero_vector zero_vector zero_vector 0
  = Stopped (msg_from msg_potential_slope).
Proof.
  apply (solve_inflation_requires_valid_potential_at_pivot (GI := euler_integrator)
           scalars_and_tensors rising_ppm run_ppr _ (fun _ => 0) 10
           zero_vector zero_vector zero_vector 0);
    simpl; lra.
Defined.

(** ** Loops that may fail *)

Lemma init_fold_not_Done {S A : Type} (body : A -> S -> init_outcome S) (l : list A)
    (c : init_outcome S) (s' : S) :
  fold_left (fun acc i => init_bind acc (body i)) l c = Done s' ->
  exists s, c = Done s.
Proof.
  revert c. induction l as [|i l IH]; intros c H; cbn [fold_left] in H.
  - exists s'. exact H.
  - apply IH in H as (s1 & H). destruct c as [s| |]; [exists s; reflexivity | discriminate..].
Qed.

Lemma init_fold_cons {S A : Type} (body : A -> S -> init_outcome S) (i : A) (l : list A)
    (s s' : S) :
  fold_left (fun acc i => init_bind acc (body i)) (i :: l) (Done s) = Done s' ->
  exists s1, body i s = Done s1
             /\ fold_left (fun acc i => init_bind acc (body i)) l (Done s1) = Done s'.
Proof.
  cbn [fold_left init_bind]. intros H.
  destruct (init_fold_not_Done body l _ s' H) as (s1 & E). rewrite E in H. eauto.
Qed.

Lemma init_fold_invariant {S A : Type} (body : A -> S -> init_outcome S) (I : S -> Prop)
    (l : list A) (s s' : S) :
  (forall i s s', In i l -> I s -> body i s = Done s' -> I s') ->
  I s ->
  fold_left (fun acc i => init_bind acc (body i)) l (Done s) = Done s' ->
  I s'.
Proof.
  revert s. induction l as [|i l IH]; intros s Hstep Hs H.
  - cbn [fold_left] in H. injection H as <-. exact Hs.
  - apply init_fold_cons in H as (s1 & H1 & H2).
    apply (IH s1); [| |exact H2].
    + intros j t t' Hj. apply Hstep. right. exact Hj.
    + apply (Hstep i s s1); [left; reflexivity | exact Hs | exact H1].
Qed.

(** What the pass [q] of a loop establishes, and the other passes keep,
    holds when the loop ends. *)
Lemma init_fold_established {S A : Type} (body : A -> S -> init_outcome S)
    (I P : S -> Prop) (l : list A) (q : A) (s s' : S) :
  NoDup l -> In q l ->
  (forall i s s', In i l -> I s -> body i s = Done s' -> I s') ->
  (forall s s', I s -> body q s = Done s' -> P s') ->
  (forall i s s', In i l -> i <> q -> I s -> P s -> body i s = Done s' -> P s') ->
  I s ->
  fold_left (fun acc i => init_bind acc (body i)) l (Done s) = Done s' ->
  P s'.
Proof.
  revert s. induction l as [|i l IH]; intros s Hnd Hq HI Hest Hkeep Hs H; [destruct Hq|].
  apply init_fold_cons in H as (s1 & H1 & H2).
  apply NoDup_cons in Hnd as [Hi Hnd].
  assert (Hs1 : I s1) by (apply (HI i s s1); [left; reflexivity | exact Hs | exact H1]).
  destruct Hq as [->|Hq].
  - assert (HP : P s1) by (apply (Hest s s1); assumption).
    enough (HIP : I s' /\ P s') by apply HIP.
    apply (init_fold_invariant body (fun t => I t /\ P t) l s1 s'); [|split; assumption|exact H2].
    intros j t t' Hj [Ht Pt] Hb. split.
    + apply (HI j t t'); [right; exact Hj | exact Ht | exact Hb].
    + apply (Hkeep j t t'); [right; exact Hj| |exact Ht|exact Pt|exact Hb].
      intros ->. apply Hi. apply list_elem_of_In. exact Hj.
  - apply (IH s1); try assumption.
    + intros j t t' Hj. apply HI. right. exact Hj.
    + intros j t t' Hj. apply Hkeep. right. exact Hj.
Qed.

(** ** Tables indexed by mode and pair *)

Lemma write_entry_length {A : Type} (t : list (list A)) (m i : nat) (v : A) :
  length (write_entry t m i v) = length t.
Proof. unfold write_entry. apply length_insert. Qed.

Lemma write_entry_line_length {A : Type} (t : list (list A)) (m i m' : nat) (v : A) :
  length (write_entry t m i v !!! m' : list A) = length (t !!! m' : list A).
Proof.
  unfold write_entry. destruct (decide (m = m')) as [->|Hne].
  - destruct (decide (m' < length t)%nat) as [Hl|Hl].
    + rewrite list_lookup_total_insert_eq by exact Hl. apply length_insert.
    + rewrite list_insert_ge by lia. reflexivity.
  - rewrite list_lookup_total_insert_ne by exact Hne. reflexivity.
Qed.

Lemma write_entry_same {A : Type} `{Inhabited A} (t : list (list A)) (m i : nat) (v : A) :
  (m < length t)%nat -> (i < length (t !!! m : list A))%nat ->
  (write_entry t m i v !!! m : list A) !!! i = v.
Proof.
  intros Hm Hi. unfold write_entry.
  rewrite list_lookup_total_insert_eq by exact Hm.
  apply list_lookup_total_insert_eq. exact Hi.
Qed.

Lemma write_entry_other {A : Type} `{Inhabited A} (t : list (list A)) (m i m' i' : nat)
    (v : A) :
  m' <> m \/ i' <> i ->
  (write_entry t m i v !!! m' : list A) !!! i' = (t !!! m' : list A) !!! i'.
Proof.
  intros Hne. unfold write_entry. destruct (decide (m = m')) as [->|Hm].
  - destruct Hne as [Hne|Hne]; [contradiction|].
    destruct (decide (m' < length t)%nat) as [Hl|Hl].
    + rewrite list_lookup_total_insert_eq by exact Hl.
      apply list_lookup_total_insert_ne. congruence.
    + rewrite list_insert_ge by lia. reflexivity.
  - rewrite list_lookup_total_insert_ne by exact Hm. reflexivity.
Qed.

(** ** [primordial_indices] *)

Lemma staged_insert {A : Type} (f : nat -> A) (d : A) (md k : nat) :
  (k < md)%nat ->
  <[k := f k]> (map f (seq 0 k) ++ replicate (md - k) d)
  = map f (seq 0 (S k)) ++ replicate (md - S k) d.
Proof.
  intros Hk. replace (md - k)%nat with (S (md - S k)) by lia.
  rewrite seq_S, map_app. cbn [map replicate Nat.add].
  rewrite insert_app_r_alt by (rewrite length_map, length_seq; lia).
  rewrite length_map, length_seq, Nat.sub_diag. cbn [insert list_insert].
  rewrite <- app_assoc. reflexivity.
Qed.

Lemma staged_lookup {A : Type} `{Inhabited A} (f : nat -> A) (d : A) (md k : nat) :
  (map f (seq 0 (S k)) ++ replicate (md - S k) d) !!! k = f k.
Proof.
  rewrite lookup_total_app_l by (rewrite length_map, length_seq; lia).
  change (map f (seq 0 (S k))) with (f <$> seq 0 (S k)).
  rewrite (list_lookup_total_fmap f (seq 0 (S k)) k) by (rewrite length_seq; lia).
  rewrite lookup_total_seq_lt by lia. reflexivity.
Qed.

Lemma primordial_indices_arrays (ptm : perturbs_modes) (ppm : primordial)
    (fresh : uninitialised) :
  let md := md_size ptm in
  let n index_mode := ppt_ic_size ptm !!! index_mode in
  let pairs index_mode := (n index_mode * (n index_mode + 1) / 2)%nat in
  primordial_indices ptm ppm fresh
  = with_arrays ppm (lnk ppm) (map n (seq 0 md)) (map pairs (seq 0 md))
      (map (fun m => allocated (fresh_lnpk fresh m) (lnk_size ppm * pairs m)) (seq 0 md))
      (map (fun m => allocated (fresh_ddlnpk fresh m) (lnk_size ppm * pairs m)) (seq 0 md))
      (map (fun m => allocated (fresh_is_non_zero fresh m) (pairs m)) (seq 0 md))
      (amplitude ppm) (tilt ppm) (running ppm).
Proof.
  intros md n pairs. unfold primordial_indices, for_loop. fold md. rewrite Nat.sub_0_r.
  set (body := fun (s : list nat * list nat * list (list R) * list (list R) * list (list bool))
                   (index_mode : nat) => _).
  set (stage := fun k : nat =>
    (map n (seq 0 k) ++ replicate (md - k) 0%nat,
     map pairs (seq 0 k) ++ replicate (md - k) 0%nat,
     map (fun m => allocated (fresh_lnpk fresh m) (lnk_size ppm * pairs m)) (seq 0 k)
       ++ replicate (md - k) ([] : list R),
     map (fun m => allocated (fresh_ddlnpk fresh m) (lnk_size ppm * pairs m)) (seq 0 k)
       ++ replicate (md - k) ([] : list R),
     map (fun m => allocated (fresh_is_non_zero fresh m) (pairs m)) (seq 0 k)
       ++ replicate (md - k) ([] : list bool))).
  assert (Hstage : forall k, (k <= md)%nat -> fold_left body (seq 0 k) (stage 0%nat) = stage k).
  { induction k as [|k IH]; intros Hk; [reflexivity|].
    rewrite seq_S, fold_left_app, IH by lia. cbn [fold_left Nat.add].
    unfold body, stage.
    change (ppt_ic_size ptm !!! k) with (n k).
    rewrite (staged_insert n 0%nat md k) by lia.
    rewrite (staged_lookup n 0%nat md k).
    change ((n k * (n k + 1)) `div` 2)%nat with (pairs k).
    rewrite (staged_insert pairs 0%nat md k) by lia.
    rewrite (staged_lookup pairs 0%nat md k).
    rewrite (staged_insert
               (fun m => allocated (fresh_lnpk fresh m) (lnk_size ppm * pairs m)) [] md k) by lia.
    rewrite (staged_insert
               (fun m => allocated (fresh_ddlnpk fresh m) (lnk_size ppm * pairs m)) [] md k) by lia.
    rewrite (staged_insert
               (fun m => allocated (fresh_is_non_zero fresh m) (pairs m)) [] md k) by lia.
    reflexivity. }
  assert (H0 : (replicate md 0%nat, replicate md 0%nat, replicate md ([] : list R),
                replicate md ([] : list R), replicate md ([] : list bool)) = stage 0%nat).
  { unfold stage. cbn [seq map app]. rewrite Nat.sub_0_r. reflexivity. }
  rewrite H0, (Hstage md (Nat.le_refl md)).
  unfold stage. rewrite Nat.sub_diag. cbn [replicate]. rewrite !app_nil_r. reflexivity.
Qed.

Lemma map_seq_lookup {A : Type} `{Inhabited A} (f : nat -> A) (n i : nat) :
  (i < n)%nat -> map f (seq 0 n) !!! i = f i.
Proof.
  intros Hi. change (map f (seq 0 n)) with (f <$> seq 0 n).
  rewrite (list_lookup_total_fmap f (seq 0 n) i) by (rewrite length_seq; exact Hi).
  rewrite lookup_total_seq_lt by exact Hi. reflexivity.
Qed.

Lemma primordial_indices_sizes_assigned (ptm : perturbs_modes) (ppm : primordial)
    (fresh : uninitialised) :
  sizes_assigned (primordial_indices ptm ppm fresh)
  /\ primordial_md_size (primordial_indices ptm ppm fresh) = md_size ptm
  /\ forall m, (m < md_size ptm)%nat ->
       ic_size (primordial_indices ptm ppm fresh) !!! m = ppt_ic_size ptm !!! m.
Proof.
  rewrite primordial_indices_arrays. unfold sizes_assigned, primordial_md_size.
  cbn [ic_size ic_ic_size is_non_zero with_arrays]. rewrite !length_map, !length_seq.
  assert (Hmap : forall (A : Type) `{Inhabited A} (f : nat -> A) m,
             (m < md_size ptm)%nat -> map f (seq 0 (md_size ptm)) !!! m = f m).
  { intros A HA f m Hm. change (map f (seq 0 (md_size ptm))) with (f <$> seq 0 (md_size ptm)).
    rewrite (list_lookup_total_fmap f (seq 0 (md_size ptm)) m) by (rewrite length_seq; lia).
    rewrite lookup_total_seq_lt by lia. reflexivity. }
  split; [split; [reflexivity|]|split; [reflexivity|]].
  - intros m Hm. rewrite !Hmap by exact Hm. split; [reflexivity|].
    unfold allocated. rewrite length_map, length_seq. reflexivity.
  - intros m Hm. apply Hmap. exact Hm.
Qed.

(** X15 ([primordial_indices]): for every mode of the perturbations,
    [ic_size] is copied from [ppt], [ic_ic_size] is n(n+1)/2, the tables
    [lnpk] and [ddlnpk] have [lnk_size * ic_ic_size] entries and
    [is_non_zero] has [ic_ic_size]; the packed index of every pair
    i1 <= i2 < n is below [ic_ic_size], and the list of wavenumbers is
    kept. *)
Theorem primordial_indices_assigns_sizes (ptm : perturbs_modes) (ppm : primordial)
    (fresh : uninitialised) (m i1 i2 : nat)
    (Hm : (m < md_size ptm)%nat)
    (Hi : (i1 <= i2 < ppt_ic_size ptm !!! m)%nat) :
  let p := primordial_indices ptm ppm fresh in
  let n := ppt_ic_size ptm !!! m in
  primordial_md_size p = md_size ptm
  /\ lnk p = lnk ppm
  /\ ic_size p !!! m = n
  /\ ic_ic_size p !!! m = (n * (n + 1) / 2)%nat
  /\ length (lnpk p !!! m : list R) = (lnk_size p * ic_ic_size p !!! m)%nat
  /\ length (ddlnpk p !!! m : list R) = (lnk_size p * ic_ic_size p !!! m)%nat
  /\ length (is_non_zero p !!! m : list bool) = ic_ic_size p !!! m
  /\ (index_symmetric_matrix i1 i2 (ic_size p !!! m) < ic_ic_size p !!! m)%nat.
Proof.
  intros p n. unfold p. rewrite primordial_indices_arrays.
  unfold primordial_md_size, lnk_size.
  cbn [ic_size ic_ic_size lnk lnpk ddlnpk is_non_zero with_arrays].
  assert (Hmap : forall (A : Type) `{Inhabited A} (f : nat -> A),
             map f (seq 0 (md_size ptm)) !!! m = f m).
  { intros A HA f. change (map f (seq 0 (md_size ptm))) with (f <$> seq 0 (md_size ptm)).
    rewrite (list_lookup_total_fmap f (seq 0 (md_size ptm)) m) by (rewrite length_seq; lia).
    rewrite lookup_total_seq_lt by lia. reflexivity. }
  rewrite !Hmap. unfold allocated. rewrite !length_map, !length_seq.
  repeat split. apply index_symmetric_matrix_lt. exact Hi.
Qed.

Lemma primordial_indices_assigns_sizes_witness :
  let p := primordial_indices mixed_ptm mixed_ppm zero_fresh in
  primordial_md_size p = 2%nat
  /\ ic_ic_size p !!! 0%nat = 3%nat
  /\ length (lnpk p !!! 0%nat : list R) = 6%nat
  /\ (index_symmetric_matrix 0 1 (ic_size p !!! 0%nat) < ic_ic_size p !!! 0%nat)%nat.
Proof.
  assert (Hm : (0 < md_size mixed_ptm)%nat) by (cbn; lia).
  assert (Hi : (0 <= 1 < ppt_ic_size mixed_ptm !!! 0%nat)%nat) by (cbn; lia).
  destruct (primordial_indices_assigns_sizes mixed_ptm mixed_ppm zero_fresh 0 0 1 Hm Hi)
    as (H1 & H2 & H3 & H4 & H5 & H6 & H7 & H8).
  cbv zeta. split; [exact H1|]. split; [exact H4|]. split; [|exact H8].
  rewrite H5, H4. unfold lnk_size. rewrite H2. reflexivity.
Defined.

(** ** The analytic coefficients *)

Lemma writes_at_allocated (ppm : primordial) (m i : nat) (c : bool * R * R * R)
    (s s' : analytic_state) :
  writes_at m i c s s' -> tables_allocated ppm s -> tables_allocated ppm s'.
Proof.
  intros (E1 & E2 & E3 & E4) (L1 & L2 & L3 & L4 & Hlines).
  unfold tables_allocated. rewrite E1, E2, E3, E4, !write_entry_length.
  repeat (split; [assumption|]).
  intros m' Hm'. rewrite !write_entry_line_length. apply Hlines. exact Hm'.
Qed.

Lemma writes_at_other (m i : nat) (c : bool * R * R * R) (s s' : analytic_state)
    (m' i' : nat) :
  writes_at m i c s s' -> m' <> m \/ i' <> i ->
  coefficients s' m' i' = coefficients s m' i'.
Proof.
  intros (E1 & E2 & E3 & E4) Hne. unfold coefficients.
  rewrite E1, E2, E3, E4, !write_entry_other by exact Hne. reflexivity.
Qed.

Lemma writes_at_same (ppm : primordial) (m i : nat) (c : bool * R * R * R)
    (s s' : analytic_state) :
  writes_at m i c s s' -> tables_allocated ppm s ->
  (m < primordial_md_size ppm)%nat ->
  (i < ic_size ppm !!! m * (ic_size ppm !!! m + 1) / 2)%nat ->
  coefficients s' m i = c.
Proof.
  intros (E1 & E2 & E3 & E4) (L1 & L2 & L3 & L4 & Hlines) Hm Hi.
  destruct (Hlines m Hm) as (N1 & N2 & N3 & N4).
  unfold coefficients. rewrite E1, E2, E3, E4.
  rewrite !write_entry_same by lia.
  destruct c as [[[f a] n] al]. reflexivity.
Qed.

Lemma analytic_diagonal_step_spec (ppt : perturbs) (ptm : perturbs_modes)
    (ppm : primordial) (iso : isocurvature_parameters) (m i : nat)
    (s s' : analytic_state) :
  analytic_diagonal_step ppt ptm ppm iso m i s = Done s' ->
  exists a tilt_ running_ : R,
    a > 0
    /\ writes_at m (index_symmetric_matrix i i (ic_size ppm !!! m))
         (true, a, tilt_, running_) s s'.
Proof.
  unfold analytic_diagonal_step. cbv zeta.
  match goal with
  | |- init_bind (init_condition (bool_decide (one_amplitude ?t <= 0)) _) _ = _ -> _ =>
      set (s1 := t)
  end.
  assert (Htab : an_is_non_zero s1 = an_is_non_zero s /\ an_amplitude s1 = an_amplitude s
                 /\ an_tilt s1 = an_tilt s /\ an_running s1 = an_running s).
  { unfold s1.
    repeat match goal with
           | |- context [if ?b then _ else _] => destruct b
           end; cbn; repeat split. }
  destruct Htab as (T1 & T2 & T3 & T4).
  destruct (bool_decide_reflect (one_amplitude s1 <= 0)) as [C|C]; [discriminate|].
  cbn [init_condition init_bind]. intros H. injection H as <-.
  exists (one_amplitude s1), (one_tilt s1), (one_running s1).
  split; [lra|]. unfold writes_at, write_coefficients. cbn.
  rewrite T1, T2, T3, T4. repeat split.
Qed.

Lemma analytic_cross_step_spec (ppt : perturbs) (ptm : perturbs_modes)
    (ppm : primordial) (iso : isocurvature_parameters) (m a b : nat)
    (s s' : analytic_state) :
  analytic_cross_step ppt ptm ppm iso m a b s = Done s' ->
  let n := ic_size ppm !!! m in
  writes_at m (index_symmetric_matrix a b n) (false, 0, 0, 0) s s'
  \/ exists correlation tilt_ running_ : R,
       -1 <= correlation <= 1 /\ correlation <> 0
       /\ writes_at m (index_symmetric_matrix a b n)
            (true,
             sqrt ((coefficients s m (index_symmetric_matrix a a n)).1.1.2
                   * (coefficients s m (index_symmetric_matrix b b n)).1.1.2)
             * correlation,
             tilt_, running_) s s'.
Proof.
  unfold analytic_cross_step. cbv zeta.
  match goal with
  | |- init_bind (init_condition (bool_decide (one_correlation ?t < -1) || _) _) _ = _ -> _ =>
      set (s1 := t)
  end.
  assert (Htab : an_is_non_zero s1 = an_is_non_zero s /\ an_amplitude s1 = an_amplitude s
                 /\ an_tilt s1 = an_tilt s /\ an_running s1 = an_running s).
  { unfold s1.
    repeat match goal with
           | |- context [if ?b then _ else _] => destruct b
           end; cbn; repeat split. }
  destruct Htab as (T1 & T2 & T3 & T4).
  destruct (bool_decide_reflect (one_correlation s1 < -1)) as [C1|C1]; [discriminate|].
  destruct (bool_decide_reflect (one_correlation s1 > 1)) as [C2|C2]; [discriminate|].
  cbn [orb init_condition init_bind].
  destruct (bool_decide_reflect (one_correlation s1 = 0)) as [C0|C0];
    intros H; injection H as <-.
  - left. unfold writes_at, write_coefficients. cbn.
    rewrite T1, T2, T3, T4. repeat split.
  - right. eexists (one_correlation s1), _, _.
    split; [lra|]. split; [exact C0|].
    unfold writes_at, write_coefficients, coefficients. cbn.
    rewrite T1, T2, T3, T4. repeat split.
Qed.

Lemma index_symmetric_matrix_ne (a b a' b' n : nat) :
  (a <= b < n)%nat -> (a' <= b' < n)%nat -> a <> a' \/ b <> b' ->
  index_symmetric_matrix a b n <> index_symmetric_matrix a' b' n.
Proof.
  intros H1 H2 Hne E. destruct (index_symmetric_matrix_inj a b a' b' n H1 H2 E). lia.
Qed.

Section AnalyticCoefficients.

Variable ppt : perturbs.
Variable ptm : perturbs_modes.
Variable ppm : primordial.
Variable iso : isocurvature_parameters.

Lemma analytic_diagonal_loop_spec (m : nat) (s s1 : analytic_state) :
  let n := ic_size ppm !!! m in
  (m < primordial_md_size ppm)%nat ->
  tables_allocated ppm s ->
  init_for_loop 0 n (analytic_diagonal_step ppt ptm ppm iso m) s = Done s1 ->
  tables_allocated ppm s1
  /\ (forall m' i', m' <> m -> coefficients s1 m' i' = coefficients s m' i')
  /\ (forall i (Q : bool * R * R * R -> Prop), (i < n)%nat ->
        (forall t t', analytic_diagonal_step ppt ptm ppm iso m i t = Done t' ->
           exists c, Q c /\ writes_at m (index_symmetric_matrix i i n) c t t') ->
        Q (coefficients s1 m (index_symmetric_matrix i i n))).
Proof.
  intros n Hm Hs Hloop. unfold init_for_loop in Hloop. rewrite Nat.sub_0_r in Hloop.
  set (I := fun t : analytic_state =>
              tables_allocated ppm t
              /\ forall m' i', m' <> m -> coefficients t m' i' = coefficients s m' i').
  assert (HI : forall i t t', In i (seq 0 n) -> I t ->
                 analytic_diagonal_step ppt ptm ppm iso m i t = Done t' -> I t').
  { intros i t t' _ [Ht Ho] Hstep.
    destruct (analytic_diagonal_step_spec _ _ _ _ _ _ _ _ Hstep) as (a & tl & ru & _ & W).
    split; [exact (writes_at_allocated ppm _ _ _ _ _ W Ht)|].
    intros m' i' Hne. rewrite (writes_at_other _ _ _ _ _ m' i' W) by (left; exact Hne).
    apply Ho. exact Hne. }
  assert (Hs0 : I s) by (split; [exact Hs | reflexivity]).
  destruct (init_fold_invariant _ I _ _ _ HI Hs0 Hloop) as [Hs1 Ho1].
  split; [exact Hs1|]. split; [exact Ho1|].
  intros i Q Hi HQ.
  refine (init_fold_established _ I
            (fun t => Q (coefficients t m (index_symmetric_matrix i i n))) (seq 0 n) i s s1
            (NoDup_seq _ _) _ HI _ _ Hs0 Hloop).
  - apply in_seq. lia.
  - intros t t' [Ht _] Hstep.
    destruct (HQ t t' Hstep) as (c & Hc & W).
    rewrite (writes_at_same ppm _ _ _ _ _ W Ht Hm)
      by (apply index_symmetric_matrix_lt; fold n; lia).
    exact Hc.
  - intros j t t' Hj Hne _ HP Hstep. apply in_seq in Hj.
    destruct (analytic_diagonal_step_spec _ _ _ _ _ _ _ _ Hstep) as (a & tl & ru & _ & W).
    rewrite (writes_at_other _ _ _ _ _ m (index_symmetric_matrix i i n) W); [exact HP|].
    right. apply index_symmetric_matrix_ne; fold n; lia.
Qed.

Lemma analytic_cross_loops_spec (m : nat) (s1 s' : analytic_state) :
  let n := ic_size ppm !!! m in
  (m < primordial_md_size ppm)%nat ->
  tables_allocated ppm s1 ->
  init_for_loop 0 n (fun index_ic1 s =>
    init_for_loop (index_ic1 + 1) n (analytic_cross_step ppt ptm ppm iso m index_ic1) s) s1
  = Done s' ->
  tables_allocated ppm s'
  /\ (forall m' i', m' <> m -> coefficients s' m' i' = coefficients s1 m' i')
  /\ (forall i, (i < n)%nat ->
        coefficients s' m (index_symmetric_matrix i i n)
        = coefficients s1 m (index_symmetric_matrix i i n))
  /\ (forall a b (Q : bool * R * R * R -> Prop), (a < b < n)%nat ->
        (forall t t',
           (forall i, (i < n)%nat ->
              coefficients t m (index_symmetric_matrix i i n)
              = coefficients s1 m (index_symmetric_matrix i i n)) ->
           analytic_cross_step ppt ptm ppm iso m a b t = Done t' ->
           exists c, Q c /\ writes_at m (index_symmetric_matrix a b n) c t t') ->
        Q (coefficients s' m (index_symmetric_matrix a b n))).
Proof.
  intros n Hm Hs Hloop. unfold init_for_loop in Hloop. rewrite Nat.sub_0_r in Hloop.
  set (I := fun t : analytic_state =>
              tables_allocated ppm t
              /\ (forall m' i', m' <> m -> coefficients t m' i' = coefficients s1 m' i')
              /\ (forall i, (i < n)%nat ->
                    coefficients t m (index_symmetric_matrix i i n)
                    = coefficients s1 m (index_symmetric_matrix i i n))).
  (* one pass of the inner loop *)
  assert (Hstep : forall a b t t', (a < b < n)%nat -> I t ->
                    analytic_cross_step ppt ptm ppm iso m a b t = Done t' ->
                    I t'
                    /\ forall j, j <> index_symmetric_matrix a b n ->
                         coefficients t' m j = coefficients t m j).
  { intros a b t t' Hab (Ht & Ho & Hd) Hst.
    pose proof (analytic_cross_step_spec _ _ _ _ _ _ _ _ _ Hst) as Hspec. cbv zeta in Hspec.
    fold n in Hspec.
    assert (W : exists c, writes_at m (index_symmetric_matrix a b n) c t t').
    { destruct Hspec as [W|(c & tl & ru & _ & _ & W)]; eauto. }
    destruct W as (c & W).
    split.
    - split; [exact (writes_at_allocated ppm _ _ _ _ _ W Ht)|]. split.
      + intros m' i' Hne. rewrite (writes_at_other _ _ _ _ _ m' i' W) by (left; exact Hne).
        apply Ho. exact Hne.
      + intros i Hi. rewrite <- (Hd i Hi).
        apply (writes_at_other _ _ _ _ _ _ _ W). right.
        apply index_symmetric_matrix_ne; lia.
    - intros j Hj. apply (writes_at_other _ _ _ _ _ _ _ W). right. exact Hj. }
  (* the inner loop *)
  assert (Hinner : forall a t t', (a < n)%nat -> I t ->
                     fold_left (fun acc i => init_bind acc
                                  (analytic_cross_step ppt ptm ppm iso m a i))
                       (seq (a + 1) (n - (a + 1))) (Done t) = Done t' ->
                     I t'
                     /\ (forall a0 b0, (a0 < b0 < n)%nat -> a0 <> a ->
                           coefficients t' m (index_symmetric_matrix a0 b0 n)
                           = coefficients t m (index_symmetric_matrix a0 b0 n))
                     /\ (forall b (Q : bool * R * R * R -> Prop), (a < b < n)%nat ->
                           (forall u u', I u ->
                              analytic_cross_step ppt ptm ppm iso m a b u = Done u' ->
                              exists c, Q c
                                        /\ writes_at m (index_symmetric_matrix a b n) c u u') ->
                           Q (coefficients t' m (index_symmetric_matrix a b n)))).
  { intros a t t' Ha Ht Hl.
    assert (HIin : forall i u u', In i (seq (a + 1) (n - (a + 1))) -> I u ->
                     analytic_cross_step ppt ptm ppm iso m a i u = Done u' -> I u').
    { intros i u u' Hi Hu Hst. apply in_seq in Hi.
      apply (Hstep a i u u'); [lia | exact Hu | exact Hst]. }
    split; [exact (init_fold_invariant _ I _ _ _ HIin Ht Hl)|]. split.
    - intros a0 b0 Hab0 Hne.
      enough (HIP : I t' /\ coefficients t' m (index_symmetric_matrix a0 b0 n)
                            = coefficients t m (index_symmetric_matrix a0 b0 n)) by apply HIP.
      refine (init_fold_invariant _
                (fun u => I u /\ coefficients u m (index_symmetric_matrix a0 b0 n)
                                 = coefficients t m (index_symmetric_matrix a0 b0 n))
                (seq (a + 1) (n - (a + 1))) t t' _ (conj Ht eq_refl) Hl).
      intros j u u' Hj [Hu HP] Hst. apply in_seq in Hj.
      destruct (Hstep a j u u') as (Hu' & Hk); [lia|exact Hu|exact Hst|].
      split; [exact Hu'|]. rewrite Hk; [exact HP|].
      apply index_symmetric_matrix_ne; lia.
    - intros b Q Hab HQ.
      refine (init_fold_established _ I
                (fun u => Q (coefficients u m (index_symmetric_matrix a b n)))
                (seq (a + 1) (n - (a + 1))) b t t' (NoDup_seq _ _) _ HIin _ _ Ht Hl).
      + apply in_seq. lia.
      + intros u u' Hu Hst. destruct (HQ u u' Hu Hst) as (c & Hc & W).
        rewrite (writes_at_same ppm _ _ _ _ _ W (proj1 Hu) Hm)
          by (apply index_symmetric_matrix_lt; fold n; lia).
        exact Hc.
      + intros j u u' Hj Hne Hu HP Hst. apply in_seq in Hj.
        destruct (Hstep a j u u') as (_ & Hk); [lia|exact Hu|exact Hst|].
        rewrite Hk; [exact HP|]. apply index_symmetric_matrix_ne; lia. }
  assert (Hs0 : I s1) by (split; [exact Hs | split; reflexivity]).
  assert (HIout : forall a t t', In a (seq 0 n) -> I t ->
                    init_for_loop (a + 1) n (analytic_cross_step ppt ptm ppm iso m a) t = Done t' ->
                    I t').
  { intros a t t' Ha Ht Hl. apply in_seq in Ha.
    apply (Hinner a t t'); [lia | exact Ht | exact Hl]. }
  destruct (init_fold_invariant _ I _ _ _ HIout Hs0 Hloop) as (Hs' & Ho' & Hd').
  split; [exact Hs'|]. split; [exact Ho'|]. split; [exact Hd'|].
  intros a b Q Hab HQ.
  refine (init_fold_established _ I
            (fun u => Q (coefficients u m (index_symmetric_matrix a b n))) (seq 0 n) a s1 s'
            (NoDup_seq _ _) _ HIout _ _ Hs0 Hloop).
  - apply in_seq. lia.
  - intros t t' Ht Hl. destruct (Hinner a t t') as (_ & _ & Hc); [lia|exact Ht|exact Hl|].
    apply Hc; [exact Hab|]. intros u u' Hu Hst. apply (HQ u u'); [apply Hu | exact Hst].
  - intros j t t' Hj Hne Ht HP Hl. apply in_seq in Hj.
    destruct (Hinner j t t') as (_ & Hk & _); [lia|exact Ht|exact Hl|].
    rewrite Hk; [exact HP | exact Hab | congruence].
Qed.

End AnalyticCoefficients.

Section AnalyticTables.

Variable ppt : perturbs.
Variable ptm : perturbs_modes.
Variable ppm : primordial.
Variable iso : isocurvature_parameters.

Lemma mode_written_depends_on_mode (m : nat) (s s' : analytic_state) :
  (forall i, coefficients s' m i = coefficients s m i) ->
  mode_written ppt ptm ppm iso m s -> mode_written ppt ptm ppm iso m s'.
Proof.
  intros E [Hd Hc]. split.
  - intros i Q Hi HQ. rewrite E. apply Hd; assumption.
  - intros a b Q Hab HQ. rewrite E. apply Hc; [exact Hab|].
    intros t t' Ht Hst. apply (HQ t t'); [|exact Hst].
    intros i Hi. rewrite E. apply Ht. exact Hi.
Qed.

Lemma analytic_mode_step_spec (m : nat) (s s' : analytic_state) :
  (m < primordial_md_size ppm)%nat ->
  tables_allocated ppm s ->
  analytic_mode_step ppt ptm ppm iso m s = Done s' ->
  tables_allocated ppm s'
  /\ (forall m' i', m' <> m -> coefficients s' m' i' = coefficients s m' i')
  /\ mode_written ppt ptm ppm iso m s'.
Proof.
  intros Hm Hs Hstep. unfold analytic_mode_step in Hstep. cbv zeta in Hstep.
  destruct (init_for_loop 0 (ic_size ppm !!! m) (analytic_diagonal_step ppt ptm ppm iso m) s)
    as [s1| |] eqn:Hdiag; cbn [init_bind] in Hstep; try discriminate.
  destruct (analytic_diagonal_loop_spec ppt ptm ppm iso m s s1 Hm Hs Hdiag)
    as (Hs1 & Ho1 & Hd1).
  destruct (analytic_cross_loops_spec ppt ptm ppm iso m s1 s' Hm Hs1 Hstep)
    as (Hs' & Ho' & Hd' & Hc').
  split; [exact Hs'|]. split.
  - intros m' i' Hne. rewrite Ho' by exact Hne. apply Ho1. exact Hne.
  - split.
    + intros i Q Hi HQ. rewrite Hd' by exact Hi. apply Hd1; assumption.
    + intros a b Q Hab HQ. apply Hc'; [exact Hab|].
      intros t t' Ht Hst. apply (HQ t t'); [|exact Hst].
      intros i Hi. rewrite Hd' by exact Hi. apply Ht. exact Hi.
Qed.

Lemma analytic_modes_loop_spec (m : nat) (s s' : analytic_state) :
  (m < primordial_md_size ppm)%nat ->
  tables_allocated ppm s ->
  init_for_loop 0 (primordial_md_size ppm) (analytic_mode_step ppt ptm ppm iso) s = Done s' ->
  mode_written ppt ptm ppm iso m s'.
Proof.
  intros Hm Hs Hloop. unfold init_for_loop in Hloop. rewrite Nat.sub_0_r in Hloop.
  refine (init_fold_established _ (tables_allocated ppm) (mode_written ppt ptm ppm iso m)
            (seq 0 (primordial_md_size ppm)) m s s' (NoDup_seq _ _) _ _ _ _ Hs Hloop).
  - apply in_seq. lia.
  - intros j t t' Hj Ht Hst. apply in_seq in Hj.
    apply (analytic_mode_step_spec j t t'); [lia | exact Ht | exact Hst].
  - intros t t' Ht Hst. apply (analytic_mode_step_spec m t t' Hm Ht Hst).
  - intros j t t' Hj Hne Ht HP Hst. apply in_seq in Hj.
    destruct (analytic_mode_step_spec j t t') as (_ & Ho & _); [lia | exact Ht | exact Hst |].
    apply (mode_written_depends_on_mode m t t'); [|exact HP].
    intros i. apply Ho. congruence.
Qed.

Lemma analytic_init_mode_written (fresh : uninitialised) (ppm' : primordial) (m : nat) :
  sizes_assigned ppm ->
  (m < primordial_md_size ppm)%nat ->
  primordial_analytic_spectrum_init ppt ptm ppm iso fresh = Done ppm' ->
  exists s, mode_written ppt ptm ppm iso m s
            /\ is_non_zero ppm' = an_is_non_zero s /\ amplitude ppm' = an_amplitude s
            /\ tilt ppm' = an_tilt s /\ running ppm' = an_running s
            /\ k_pivot ppm' = k_pivot ppm.
Proof.
  intros [Hlen Hsizes] Hm Hinit. unfold primordial_analytic_spectrum_init in Hinit.
  cbv zeta in Hinit.
  match type of Hinit with
  | init_bind (init_for_loop _ _ _ ?s0) _ = _ => set (s0_ := s0) in *
  end.
  destruct (init_for_loop 0 (primordial_md_size ppm) (analytic_mode_step ppt ptm ppm iso) s0_)
    as [s| |] eqn:Hloop; cbn [init_bind] in Hinit; try discriminate.
  injection Hinit as <-. exists s. split; [|repeat split].
  apply (analytic_modes_loop_spec m s0_ s Hm); [|exact Hloop].
  unfold tables_allocated, s0_. cbn [an_is_non_zero an_amplitude an_tilt an_running].
  rewrite !length_map, !length_seq.
  repeat (split; [first [exact Hlen | reflexivity]|]).
  intros m' Hm'. destruct (Hsizes m' Hm') as [E L].
  assert (Hmap : forall (f : nat -> list R),
             map f (seq 0 (primordial_md_size ppm)) !!! m' = f m').
  { intros f. change (map f (seq 0 (primordial_md_size ppm)))
      with (f <$> seq 0 (primordial_md_size ppm)).
    rewrite (list_lookup_total_fmap f (seq 0 (primordial_md_size ppm)) m')
      by (rewrite length_seq; lia).
    rewrite lookup_total_seq_lt by lia. reflexivity. }
  rewrite !Hmap. unfold allocated. rewrite !length_map, !length_seq, L, E. repeat split.
Qed.

End AnalyticTables.

Ltac keep_tables s1 s :=
  assert (an_is_non_zero s1 = an_is_non_zero s /\ an_amplitude s1 = an_amplitude s
          /\ an_tilt s1 = an_tilt s /\ an_running s1 = an_running s)
    as (?T1 & ?T2 & ?T3 & ?T4)
    by (subst s1;
        repeat match goal with
               | |- context [if ?b then _ else _] => destruct b
               end; cbn; repeat split).

Lemma analytic_diagonal_step_tensor (ppt : perturbs) (ptm : perturbs_modes)
    (ppm : primordial) (iso : isocurvature_parameters) (t t' : analytic_state) :
  has_tensors ppt = true ->
  analytic_diagonal_step ppt ptm ppm iso (index_md_tensors ppt) (index_ic_ten ptm) t = Done t' ->
  exists c, (A_s ppm * r ppm > 0 /\ c = (true, A_s ppm * r ppm, n_t ppm + 1, alpha_t ppm))
            /\ writes_at (index_md_tensors ppt)
                 (index_symmetric_matrix (index_ic_ten ptm) (index_ic_ten ptm)
                    (ic_size ppm !!! index_md_tensors ppt)) c t t'.
Proof.
  intros Hten. unfold analytic_diagonal_step. cbv zeta.
  rewrite Hten, !Nat.eqb_refl. cbn [andb].
  match goal with
  | |- context [set_amplitude ?x (A_s ppm * r ppm)] => set (s1 := x)
  end.
  keep_tables s1 t.
  cbn [one_amplitude one_tilt one_running set_amplitude].
  destruct (bool_decide_reflect (A_s ppm * r ppm <= 0)) as [C|C]; [discriminate|].
  cbn [init_condition init_bind]. intros H. injection H as <-.
  eexists. split; [split; [lra | reflexivity]|].
  unfold writes_at, write_coefficients. cbn. rewrite T1, T2, T3, T4. repeat split.
Qed.

Lemma analytic_diagonal_step_adiabatic (ppt : perturbs) (ptm : perturbs_modes)
    (ppm : primordial) (iso : isocurvature_parameters) (t t' : analytic_state) :
  has_scalars ppt = true -> has_ad ptm = true ->
  adiabatic_index_is_distinct ppt ptm ->
  analytic_diagonal_step ppt ptm ppm iso (index_md_scalars ppt) (index_ic_ad ptm) t = Done t' ->
  exists c, (A_s ppm > 0 /\ c = (true, A_s ppm, n_s ppm, alpha_s ppm))
            /\ writes_at (index_md_scalars ppt)
                 (index_symmetric_matrix (index_ic_ad ptm) (index_ic_ad ptm)
                    (ic_size ppm !!! index_md_scalars ppt)) c t t'.
Proof.
  intros Hsc Had (Hbi & Hcdi & Hnid & Hniv & Hten). unfold analytic_diagonal_step. cbv zeta.
  rewrite Hsc, Had, !Nat.eqb_refl. cbn [andb].
  assert (Ebi : has_bi ptm && Nat.eqb (index_ic_ad ptm) (index_ic_bi ptm) = false).
  { destruct (has_bi ptm); [|reflexivity]. cbn [andb]. apply Nat.eqb_neq.
    intros E. apply Hbi; [reflexivity | congruence]. }
  assert (Ecdi : has_cdi ptm && Nat.eqb (index_ic_ad ptm) (index_ic_cdi ptm) = false).
  { destruct (has_cdi ptm); [|reflexivity]. cbn [andb]. apply Nat.eqb_neq.
    intros E. apply Hcdi; [reflexivity | congruence]. }
  assert (Enid : has_nid ptm && Nat.eqb (index_ic_ad ptm) (index_ic_nid ptm) = false).
  { destruct (has_nid ptm); [|reflexivity]. cbn [andb]. apply Nat.eqb_neq.
    intros E. apply Hnid; [reflexivity | congruence]. }
  assert (Eniv : has_niv ptm && Nat.eqb (index_ic_ad ptm) (index_ic_niv ptm) = false).
  { destruct (has_niv ptm); [|reflexivity]. cbn [andb]. apply Nat.eqb_neq.
    intros E. apply Hniv; [reflexivity | congruence]. }
  assert (Eten : has_tensors ppt && Nat.eqb (index_md_scalars ppt) (index_md_tensors ppt)
                 = false).
  { destruct (has_tensors ppt); [|reflexivity]. cbn [andb]. apply Nat.eqb_neq.
    intros E. apply Hten; [reflexivity | congruence]. }
  rewrite Ebi, Ecdi, Enid, Eniv, Eten.
  cbn [one_amplitude one_tilt one_running set_amplitude].
  destruct (bool_decide_reflect (A_s ppm <= 0)) as [C|C]; [discriminate|].
  cbn [init_condition init_bind]. intros H. injection H as <-.
  eexists. split; [split; [lra | reflexivity]|].
  unfold writes_at, write_coefficients. cbn. repeat split.
Qed.

Lemma analytic_diagonal_step_cdi (ppt : perturbs) (ptm : perturbs_modes)
    (ppm : primordial) (iso : isocurvature_parameters) (t t' : analytic_state) :
  has_scalars ppt = true -> has_cdi ptm = true ->
  has_nid ptm = false -> has_niv ptm = false ->
  (has_tensors ppt = true -> index_md_tensors ppt <> index_md_scalars ppt) ->
  analytic_diagonal_step ppt ptm ppm iso (index_md_scalars ppt) (index_ic_cdi ptm) t = Done t' ->
  exists c, (A_s ppm * f_cdi iso * f_cdi iso > 0
             /\ c = (true, A_s ppm * f_cdi iso * f_cdi iso, n_cdi iso, alpha_cdi iso))
            /\ writes_at (index_md_scalars ppt)
                 (index_symmetric_matrix (index_ic_cdi ptm) (index_ic_cdi ptm)
                    (ic_size ppm !!! index_md_scalars ppt)) c t t'.
Proof.
  intros Hsc Hcdi Hnid Hniv Hten. unfold analytic_diagonal_step. cbv zeta.
  rewrite Hsc, Hcdi, Hnid, Hniv, !Nat.eqb_refl. cbn [andb].
  assert (Eten : has_tensors ppt && Nat.eqb (index_md_scalars ppt) (index_md_tensors ppt)
                 = false).
  { destruct (has_tensors ppt); [|reflexivity]. cbn [andb]. apply Nat.eqb_neq.
    intros E. apply Hten; [reflexivity | congruence]. }
  rewrite Eten.
  match goal with
  | |- context [set_amplitude ?x (A_s ppm * f_cdi iso * f_cdi iso)] => set (s1 := x)
  end.
  keep_tables s1 t.
  cbn [one_amplitude one_tilt one_running set_amplitude].
  destruct (bool_decide_reflect (A_s ppm * f_cdi iso * f_cdi iso <= 0)) as [C|C];
    [discriminate|].
  cbn [init_condition init_bind]. intros H. injection H as <-.
  eexists. split; [split; [lra | reflexivity]|].
  unfold writes_at, write_coefficients. cbn. rewrite T1, T2, T3, T4. repeat split.
Qed.

Lemma analytic_cross_step_ad_cdi (ppt : perturbs) (ptm : perturbs_modes)
    (ppm : primordial) (iso : isocurvature_parameters) (t t' : analytic_state) :
  let m := index_md_scalars ppt in
  let n := ic_size ppm !!! m in
  let ad := index_symmetric_matrix (index_ic_ad ptm) (index_ic_ad ptm) n in
  let cdi := index_symmetric_matrix (index_ic_cdi ptm) (index_ic_cdi ptm) n in
  has_scalars ppt = true -> has_ad ptm = true -> has_cdi ptm = true ->
  has_bi ptm = false -> has_nid ptm = false -> has_niv ptm = false ->
  analytic_cross_step ppt ptm ppm iso m (index_ic_ad ptm) (index_ic_cdi ptm) t = Done t' ->
  exists c,
    (-1 <= c_ad_cdi iso <= 1
     /\ c = if bool_decide (c_ad_cdi iso = 0) then (false, 0, 0, 0)
            else (true,
                  sqrt ((coefficients t m ad).1.1.2 * (coefficients t m cdi).1.1.2)
                  * c_ad_cdi iso,
                  0.5 * ((coefficients t m ad).1.2 + (coefficients t m cdi).1.2)
                  + n_ad_cdi iso,
                  0.5 * ((coefficients t m ad).2 + (coefficients t m cdi).2)
                  + alpha_ad_cdi iso))
    /\ writes_at m (index_symmetric_matrix (index_ic_ad ptm) (index_ic_cdi ptm) n) c t t'.
Proof.
  intros m n ad cdi Hsc Had Hcdi Hbi Hnid Hniv. unfold analytic_cross_step. cbv zeta.
  fold m. rewrite Hsc, Had, Hcdi, Hbi, Hnid, Hniv, !Nat.eqb_refl.
  cbn [andb orb].
  rewrite ?andb_false_r. cbn [andb orb].
  cbn [one_correlation one_tilt one_running set_correlation
       an_is_non_zero an_amplitude an_tilt an_running].
  destruct (bool_decide_reflect (c_ad_cdi iso < -1)) as [C1|C1]; [discriminate|].
  destruct (bool_decide_reflect (c_ad_cdi iso > 1)) as [C2|C2]; [discriminate|].
  cbn [orb init_condition init_bind].
  destruct (bool_decide_reflect (c_ad_cdi iso = 0)) as [C0|C0];
    intros H; injection H as <-.
  - eexists. split; [split; [lra | reflexivity]|].
    unfold writes_at, write_coefficients. cbn. repeat split.
  - eexists. split; [split; [lra | reflexivity]|].
    unfold writes_at, write_coefficients, coefficients. cbn. repeat split.
Qed.

(** ** The analytic coefficients: what the tables hold *)

(** The run of [primordial_analytic_spectrum_init] on the mixed setting, after
    [primordial_indices]. *)
Lemma mixed_run_on (l : list R) :
  exists ppm', primordial_analytic_spectrum_init mixed_ppt mixed_ptm
                 (primordial_indices mixed_ptm (with_lnk mixed_ppm l) zero_fresh)
                 mixed_iso zero_fresh
               = Done ppm'.
Proof.
  rewrite primordial_indices_arrays.
  unfold primordial_analytic_spectrum_init, init_for_loop, analytic_mode_step, init_for_loop.
  cbn.
  unfold analytic_diagonal_step at 1. cbn.
  rewrite bool_decide_eq_false_2 by lra. cbn.
  unfold analytic_diagonal_step at 1. cbn.
  rewrite bool_decide_eq_false_2 by lra. cbn.
  unfold analytic_cross_step at 1. cbn.
  rewrite !bool_decide_eq_false_2 by lra. cbn.
  unfold analytic_diagonal_step at 1. cbn.
  rewrite bool_decide_eq_false_2 by lra. cbn.
  eexists. reflexivity.
Qed.

Lemma mixed_run :
  exists ppm', primordial_analytic_spectrum_init mixed_ppt mixed_ptm
                 (primordial_indices mixed_ptm mixed_ppm zero_fresh) mixed_iso zero_fresh
               = Done ppm'.
Proof. exact (mixed_run_on [0; 1]). Qed.

Lemma mixed_sizes :
  sizes_assigned (primordial_indices mixed_ptm mixed_ppm zero_fresh)
  /\ primordial_md_size (primordial_indices mixed_ptm mixed_ppm zero_fresh) = 2%nat
  /\ ic_size (primordial_indices mixed_ptm mixed_ppm zero_fresh) = [2%nat; 1%nat]
  /\ k_pivot (primordial_indices mixed_ptm mixed_ppm zero_fresh) = 1
  /\ A_s (primordial_indices mixed_ptm mixed_ppm zero_fresh) = 2
  /\ r (primordial_indices mixed_ptm mixed_ppm zero_fresh) = 1 / 10.
Proof.
  split; [apply primordial_indices_sizes_assigned|].
  rewrite primordial_indices_arrays. repeat split.
Qed.

Lemma coefficients_of_tables (ppm' : primordial) (s : analytic_state) (m i : nat) :
  is_non_zero ppm' = an_is_non_zero s -> amplitude ppm' = an_amplitude s ->
  tilt ppm' = an_tilt s -> running ppm' = an_running s ->
  coefficients s m i = table_entry ppm' m i.
Proof. unfold table_entry. intros -> -> -> ->. reflexivity. Qed.

Lemma analytic_init_diagonal (ppt : perturbs) (ptm : perturbs_modes)
    (ppm : primordial) (iso : isocurvature_parameters) (fresh : uninitialised)
    (ppm' : primordial) (m i : nat) :
  sizes_assigned ppm -> (m < primordial_md_size ppm)%nat ->
  primordial_analytic_spectrum_init ppt ptm ppm iso fresh = Done ppm' ->
  (i < ic_size ppm !!! m)%nat ->
  (is_non_zero ppm' !!! m : list bool)
    !!! index_symmetric_matrix i i (ic_size ppm !!! m) = true
  /\ (amplitude ppm' !!! m : list R) !!! index_symmetric_matrix i i (ic_size ppm !!! m) > 0.
Proof.
  intros Hsizes Hm Hinit Hi.
  destruct (analytic_init_mode_written ppt ptm ppm iso fresh ppm' m Hsizes Hm Hinit)
    as (s & [Hd _] & E1 & E2 & E3 & E4 & _).
  pose proof (Hd i (fun c => c.1.1.1 = true /\ c.1.1.2 > 0) Hi) as H.
  cbv beta in H. rewrite (coefficients_of_tables ppm' s m _ E1 E2 E3 E4) in H.
  apply H. intros t t' Hst.
  destruct (analytic_diagonal_step_spec _ _ _ _ _ _ _ _ Hst) as (a & tl & ru & Ha & W).
  eexists. split; [|exact W]. split; [reflexivity | exact Ha].
Qed.

(** X16 ([primordial_analytic_spectrum_init]): when the function succeeds on
    sizes as [primordial_indices] assigns them, every diagonal entry of every
    mode is flagged non-zero with a strictly positive amplitude, and every
    cross entry a < b has |A_ab| <= sqrt(A_aa A_bb) and is flagged zero
    exactly when its amplitude is 0. *)
Theorem analytic_init_amplitudes_consistent (ppt : perturbs) (ptm : perturbs_modes)
    (ppm : primordial) (iso : isocurvature_parameters) (fresh : uninitialised)
    (ppm' : primordial) (m : nat)
    (Hsizes : sizes_assigned ppm)
    (Hm : (m < primordial_md_size ppm)%nat)
    (Hinit : primordial_analytic_spectrum_init ppt ptm ppm iso fresh = Done ppm') :
  let n := ic_size ppm !!! m in
  let flag i j := (is_non_zero ppm' !!! m : list bool) !!! index_symmetric_matrix i j n in
  let A i j := (amplitude ppm' !!! m : list R) !!! index_symmetric_matrix i j n in
  (forall i, (i < n)%nat -> flag i i = true /\ A i i > 0)
  /\ (forall a b, (a < b < n)%nat ->
        Rabs (A a b) <= sqrt (A a a * A b b) /\ (flag a b = false <-> A a b = 0)).
Proof.
  intros n flag A.
  destruct (analytic_init_mode_written ppt ptm ppm iso fresh ppm' m Hsizes Hm Hinit)
    as (s & [Hd Hc] & E1 & E2 & E3 & E4 & _).
  pose proof (fun i => coefficients_of_tables ppm' s m i E1 E2 E3 E4) as Hco.
  unfold table_entry in Hco.
  assert (Hdiag : forall i, (i < n)%nat -> flag i i = true /\ A i i > 0).
  { intros i Hi.
    exact (analytic_init_diagonal ppt ptm ppm iso fresh ppm' m i Hsizes Hm Hinit Hi). }
  split; [exact Hdiag|].
  intros a b Hab.
  destruct (Hdiag a ltac:(lia)) as [_ Haa]. destruct (Hdiag b ltac:(lia)) as [_ Hbb].
  pose proof (Hc a b
                (fun c => c = (false, 0, 0, 0)
                          \/ exists correlation tl ru : R,
                               -1 <= correlation <= 1 /\ correlation <> 0
                               /\ c = (true, sqrt (A a a * A b b) * correlation, tl, ru))
                Hab) as H.
  cbv beta in H. rewrite Hco in H.
  assert (Hroot : 0 < sqrt (A a a * A b b)).
  { apply sqrt_lt_R0. apply Rmult_lt_0_compat; lra. }
  destruct H as [H|(c & tl & ru & Hc1 & Hc0 & H)].
  - intros t t' Ht Hst.
    pose proof (analytic_cross_step_spec _ _ _ _ _ _ _ _ _ Hst) as Hspec. cbv zeta in Hspec.
    fold n in Hspec. rewrite !Ht, !Hco in Hspec by lia. cbn [fst snd] in Hspec.
    destruct Hspec as [W|(c & tl & ru & Hc1 & Hc0 & W)].
    + eexists. split; [|exact W]. left. reflexivity.
    + eexists. split; [|exact W]. right. exists c, tl, ru.
      split; [exact Hc1|]. split; [exact Hc0 | reflexivity].
  - injection H as F1 F2 _ _.
    assert (Ef : flag a b = false) by exact F1. assert (EA : A a b = 0) by exact F2.
    rewrite Ef, EA, Rabs_R0. split; [lra|]. split; reflexivity.
  - injection H as F1 F2 _ _.
    assert (Ef : flag a b = true) by exact F1.
    assert (EA : A a b = sqrt (A a a * A b b) * c) by exact F2.
    rewrite Ef, EA. split.
    + rewrite Rabs_mult, (Rabs_pos_eq (sqrt _)) by lra.
      assert (Rabs c <= 1) by (apply Rabs_le; lra). nra.
    + split; [discriminate|]. intros Hz. exfalso.
      apply Rmult_integral in Hz. destruct Hz; [lra | contradiction].
Qed.

Lemma analytic_init_amplitudes_consistent_witness :
  exists ppm',
    primordial_analytic_spectrum_init mixed_ppt mixed_ptm
      (primordial_indices mixed_ptm mixed_ppm zero_fresh) mixed_iso zero_fresh = Done ppm'
    /\ (amplitude ppm' !!! 0%nat : list R) !!! 0%nat > 0
    /\ Rabs ((amplitude ppm' !!! 0%nat : list R) !!! 1%nat)
       <= sqrt ((amplitude ppm' !!! 0%nat : list R) !!! 0%nat
                * (amplitude ppm' !!! 0%nat : list R) !!! 2%nat).
Proof.
  destruct mixed_run as [ppm' Hrun]. exists ppm'. split; [exact Hrun|].
  destruct mixed_sizes as (Hs & Hmd & Hic & _).
  assert (Hm : (0 < primordial_md_size (primordial_indices mixed_ptm mixed_ppm zero_fresh))%nat)
    by (rewrite Hmd; lia).
  destruct (analytic_init_amplitudes_consistent mixed_ppt mixed_ptm
              (primordial_indices mixed_ptm mixed_ppm zero_fresh) mixed_iso zero_fresh
              ppm' 0 Hs Hm Hrun) as [Hd Hc].
  rewrite Hic in Hd, Hc. cbn [lookup_total list_lookup_total] in Hd, Hc.
  split.
  - apply (Hd 0%nat). lia.
  - apply (Hc 0%nat 1%nat). lia.
Defined.

Section AnalyticEntries.

Variable ppt : perturbs.
Variable ptm : perturbs_modes.
Variable ppm : primordial.
Variable iso : isocurvature_parameters.
Variable fresh : uninitialised.
Variable ppm' : primordial.

Hypothesis Hsizes : sizes_assigned ppm.
Hypothesis Hinit : primordial_analytic_spectrum_init ppt ptm ppm iso fresh = Done ppm'.

Lemma adiabatic_entry :
  let m := index_md_scalars ppt in
  let n := ic_size ppm !!! m in
  has_scalars ppt = true -> has_ad ptm = true ->
  adiabatic_index_is_distinct ppt ptm ->
  (m < primordial_md_size ppm)%nat -> (index_ic_ad ptm < n)%nat ->
  A_s ppm > 0
  /\ table_entry ppm' m (index_symmetric_matrix (index_ic_ad ptm) (index_ic_ad ptm) n)
     = (true, A_s ppm, n_s ppm, alpha_s ppm).
Proof.
  intros m n Hsc Had Hdis Hm Hi.
  destruct (analytic_init_mode_written ppt ptm ppm iso fresh ppm' m Hsizes Hm Hinit)
    as (s & [Hd _] & E1 & E2 & E3 & E4 & _).
  rewrite <- (coefficients_of_tables ppm' s m _ E1 E2 E3 E4).
  apply (Hd (index_ic_ad ptm)
            (fun c => A_s ppm > 0 /\ c = (true, A_s ppm, n_s ppm, alpha_s ppm)) Hi).
  intros t t' Hst.
  exact (analytic_diagonal_step_adiabatic ppt ptm ppm iso t t' Hsc Had Hdis Hst).
Qed.

Lemma tensor_entry :
  let m := index_md_tensors ppt in
  let n := ic_size ppm !!! m in
  has_tensors ppt = true ->
  (m < primordial_md_size ppm)%nat -> (index_ic_ten ptm < n)%nat ->
  A_s ppm * r ppm > 0
  /\ table_entry ppm' m (index_symmetric_matrix (index_ic_ten ptm) (index_ic_ten ptm) n)
     = (true, A_s ppm * r ppm, n_t ppm + 1, alpha_t ppm).
Proof.
  intros m n Hten Hm Hi.
  destruct (analytic_init_mode_written ppt ptm ppm iso fresh ppm' m Hsizes Hm Hinit)
    as (s & [Hd _] & E1 & E2 & E3 & E4 & _).
  rewrite <- (coefficients_of_tables ppm' s m _ E1 E2 E3 E4).
  apply (Hd (index_ic_ten ptm)
            (fun c => A_s ppm * r ppm > 0
                      /\ c = (true, A_s ppm * r ppm, n_t ppm + 1, alpha_t ppm)) Hi).
  intros t t' Hst.
  exact (analytic_diagonal_step_tensor ppt ptm ppm iso t t' Hten Hst).
Qed.

Lemma ad_cdi_entries :
  let m := index_md_scalars ppt in
  let n := ic_size ppm !!! m in
  has_scalars ppt = true -> has_ad ptm = true -> has_cdi ptm = true ->
  has_bi ptm = false -> has_nid ptm = false -> has_niv ptm = false ->
  (has_tensors ppt = true -> index_md_tensors ppt <> index_md_scalars ppt) ->
  (m < primordial_md_size ppm)%nat ->
  (index_ic_ad ptm < index_ic_cdi ptm < n)%nat ->
  A_s ppm > 0
  /\ A_s ppm * f_cdi iso * f_cdi iso > 0
  /\ -1 <= c_ad_cdi iso <= 1
  /\ table_entry ppm' m (index_symmetric_matrix (index_ic_cdi ptm) (index_ic_cdi ptm) n)
     = (true, A_s ppm * f_cdi iso * f_cdi iso, n_cdi iso, alpha_cdi iso)
  /\ table_entry ppm' m (index_symmetric_matrix (index_ic_ad ptm) (index_ic_cdi ptm) n)
     = if bool_decide (c_ad_cdi iso = 0) then (false, 0, 0, 0)
       else (true,
             sqrt (A_s ppm * (A_s ppm * f_cdi iso * f_cdi iso)) * c_ad_cdi iso,
             0.5 * (n_s ppm + n_cdi iso) + n_ad_cdi iso,
             0.5 * (alpha_s ppm + alpha_cdi iso) + alpha_ad_cdi iso).
Proof.
  intros m n Hsc Had Hcdi Hbi Hnid Hniv Hten Hm Hi.
  assert (Hdis : adiabatic_index_is_distinct ppt ptm).
  { unfold adiabatic_index_is_distinct. rewrite Hbi, Hnid, Hniv.
    repeat split; try discriminate; [intros _; lia | exact Hten]. }
  destruct (adiabatic_entry Hsc Had Hdis Hm ltac:(fold m n; lia)) as [HA Ead].
  fold m n in Ead.
  destruct (analytic_init_mode_written ppt ptm ppm iso fresh ppm' m Hsizes Hm Hinit)
    as (s & [Hd Hc] & E1 & E2 & E3 & E4 & _).
  pose proof (fun i => coefficients_of_tables ppm' s m i E1 E2 E3 E4) as Hco.
  assert (Ecdi : A_s ppm * f_cdi iso * f_cdi iso > 0
                 /\ table_entry ppm' m (index_symmetric_matrix (index_ic_cdi ptm) (index_ic_cdi ptm) n)
                    = (true, A_s ppm * f_cdi iso * f_cdi iso, n_cdi iso, alpha_cdi iso)).
  { rewrite <- Hco.
    apply (Hd (index_ic_cdi ptm)
              (fun c => A_s ppm * f_cdi iso * f_cdi iso > 0
                        /\ c = (true, A_s ppm * f_cdi iso * f_cdi iso, n_cdi iso,
                                alpha_cdi iso)) ltac:(lia)).
    intros t t' Hst.
    exact (analytic_diagonal_step_cdi ppt ptm ppm iso t t' Hsc Hcdi Hnid Hniv Hten Hst). }
  destruct Ecdi as [Hf Ecdi].
  split; [exact HA|]. split; [exact Hf|].
  enough (H : -1 <= c_ad_cdi iso <= 1
              /\ table_entry ppm' m (index_symmetric_matrix (index_ic_ad ptm) (index_ic_cdi ptm) n)
                 = if bool_decide (c_ad_cdi iso = 0) then (false, 0, 0, 0)
                   else (true,
                         sqrt (A_s ppm * (A_s ppm * f_cdi iso * f_cdi iso)) * c_ad_cdi iso,
                         0.5 * (n_s ppm + n_cdi iso) + n_ad_cdi iso,
                         0.5 * (alpha_s ppm + alpha_cdi iso) + alpha_ad_cdi iso))
    by (destruct H as [H1 H2]; split; [exact H1 | split; [exact Ecdi | exact H2]]).
  rewrite <- Hco.
  apply (Hc (index_ic_ad ptm) (index_ic_cdi ptm)
            (fun c => -1 <= c_ad_cdi iso <= 1
                      /\ c = if bool_decide (c_ad_cdi iso = 0) then (false, 0, 0, 0)
                             else (true,
                                   sqrt (A_s ppm * (A_s ppm * f_cdi iso * f_cdi iso))
                                   * c_ad_cdi iso,
                                   0.5 * (n_s ppm + n_cdi iso) + n_ad_cdi iso,
                                   0.5 * (alpha_s ppm + alpha_cdi iso) + alpha_ad_cdi iso))
            Hi).
  intros t t' Ht Hst.
  destruct (analytic_cross_step_ad_cdi ppt ptm ppm iso t t' Hsc Had Hcdi Hbi Hnid Hniv Hst)
    as (c & [Hr Hcv] & W).
  exists c. split; [|exact W]. split; [exact Hr|].
  fold m n in Hcv. rewrite !Ht, !Hco in Hcv by lia.
  pose proof Ead as Ead'. pose proof Ecdi as Ecdi'. unfold n in Ead', Ecdi'.
  rewrite Ead', Ecdi' in Hcv. exact Hcv.
Qed.

End AnalyticEntries.

Lemma analytic_init_keeps_parameters (ppt : perturbs) (ptm : perturbs_modes)
    (ppm : primordial) (iso : isocurvature_parameters) (fresh : uninitialised)
    (ppm' : primordial) :
  primordial_analytic_spectrum_init ppt ptm ppm iso fresh = Done ppm' ->
  k_pivot ppm' = k_pivot ppm /\ lnk ppm' = lnk ppm /\ ic_size ppm' = ic_size ppm
  /\ lnpk ppm' = lnpk ppm /\ ddlnpk ppm' = ddlnpk ppm.
Proof.
  unfold primordial_analytic_spectrum_init. cbv zeta.
  destruct (init_for_loop _ _ _ _) as [s| |]; cbn [init_bind]; try discriminate.
  intros H. injection H as <-. repeat split.
Qed.

Lemma analytic_spectrum_of_entry (ppm : primordial) (m i : nat) (a n_ al k : R) :
  table_entry ppm m i = (true, a, n_, al) ->
  primordial_analytic_spectrum ppm m i k
  = a * exp ((n_ - 1) * ln (k / k_pivot ppm) + 0.5 * al * ln (k / k_pivot ppm) ^ 2).
Proof.
  unfold table_entry, primordial_analytic_spectrum. intros E. injection E as -> -> -> ->.
  reflexivity.
Qed.

Lemma mixed_distinct : adiabatic_index_is_distinct mixed_ppt mixed_ptm.
Proof.
  unfold adiabatic_index_is_distinct. cbn.
  repeat split; intros H; first [discriminate H | lia].
Qed.

(** X17 ([primordial_analytic_spectrum_init], adiabatic scalars): when the
    function succeeds, A_s > 0, the entry of the adiabatic initial condition
    of the scalars holds A_s, n_s and alpha_s, and
    [primordial_analytic_spectrum] gives there
    A_s exp((n_s - 1) ln(k/k_pivot) + alpha_s/2 ln(k/k_pivot)^2). *)
Theorem analytic_init_adiabatic_spectrum (ppt : perturbs) (ptm : perturbs_modes)
    (ppm : primordial) (iso : isocurvature_parameters) (fresh : uninitialised)
    (ppm' : primordial) (k : R)
    (Hsizes : sizes_assigned ppm)
    (Hinit : primordial_analytic_spectrum_init ppt ptm ppm iso fresh = Done ppm')
    (Hscalars : has_scalars ppt = true)
    (Had : has_ad ptm = true)
    (Hdistinct : adiabatic_index_is_distinct ppt ptm)
    (Hmode : (index_md_scalars ppt < primordial_md_size ppm)%nat)
    (Hic : (index_ic_ad ptm < ic_size ppm !!! index_md_scalars ppt)%nat) :
  let m := index_md_scalars ppt in
  let i := index_symmetric_matrix (index_ic_ad ptm) (index_ic_ad ptm) (ic_size ppm !!! m) in
  A_s ppm > 0
  /\ (is_non_zero ppm' !!! m : list bool) !!! i = true
  /\ (amplitude ppm' !!! m : list R) !!! i = A_s ppm
  /\ (tilt ppm' !!! m : list R) !!! i = n_s ppm
  /\ (running ppm' !!! m : list R) !!! i = alpha_s ppm
  /\ primordial_analytic_spectrum ppm' m i k
     = A_s ppm * exp ((n_s ppm - 1) * ln (k / k_pivot ppm)
                      + 0.5 * alpha_s ppm * ln (k / k_pivot ppm) ^ 2).
Proof.
  intros m i.
  destruct (adiabatic_entry ppt ptm ppm iso fresh ppm' Hsizes Hinit
              Hscalars Had Hdistinct Hmode Hic) as [HA E].
  fold m i in E.
  destruct (analytic_init_keeps_parameters _ _ _ _ _ _ Hinit) as (Hk & _).
  split; [exact HA|].
  rewrite (analytic_spectrum_of_entry ppm' m i _ _ _ k E), Hk.
  unfold table_entry in E. injection E as -> -> -> ->. repeat split.
Qed.

Lemma analytic_init_adiabatic_spectrum_witness :
  exists ppm',
    primordial_analytic_spectrum_init mixed_ppt mixed_ptm
      (primordial_indices mixed_ptm mixed_ppm zero_fresh) mixed_iso zero_fresh = Done ppm'
    /\ (amplitude ppm' !!! 0%nat : list R) !!! 0%nat = 2
    /\ (tilt ppm' !!! 0%nat : list R) !!! 0%nat = 1.
Proof.
  destruct mixed_run as [ppm' Hrun]. exists ppm'. split; [exact Hrun|].
  destruct mixed_sizes as (Hs & Hmd & Hic & _ & HA & _).
  assert (Hsc : has_scalars mixed_ppt = true) by reflexivity.
  assert (Had : has_ad mixed_ptm = true) by reflexivity.
  assert (Hm : (index_md_scalars mixed_ppt
                < primordial_md_size (primordial_indices mixed_ptm mixed_ppm zero_fresh))%nat)
    by (rewrite Hmd; cbn; lia).
  assert (Hi : (index_ic_ad mixed_ptm
                < ic_size (primordial_indices mixed_ptm mixed_ppm zero_fresh)
                    !!! index_md_scalars mixed_ppt)%nat)
    by (rewrite Hic; cbn; lia).
  destruct (analytic_init_adiabatic_spectrum mixed_ppt mixed_ptm
              (primordial_indices mixed_ptm mixed_ppm zero_fresh) mixed_iso zero_fresh
              ppm' 1 Hs Hrun Hsc Had mixed_distinct Hm Hi) as (_ & _ & H1 & H2 & _).
  rewrite Hic in H1, H2. split; [exact H1 | exact H2].
Defined.

(** X18 ([primordial_analytic_spectrum_init], tensors): when the function
    succeeds with tensors, A_s r > 0, the entry of the tensor mode holds the
    amplitude A_s r, the tilt n_t + 1 and the running alpha_t, and
    [primordial_analytic_spectrum] gives there
    A_s r exp(n_t ln(k/k_pivot) + alpha_t/2 ln(k/k_pivot)^2). *)
Theorem analytic_init_tensor_spectrum (ppt : perturbs) (ptm : perturbs_modes)
    (ppm : primordial) (iso : isocurvature_parameters) (fresh : uninitialised)
    (ppm' : primordial) (k : R)
    (Hsizes : sizes_assigned ppm)
    (Hinit : primordial_analytic_spectrum_init ppt ptm ppm iso fresh = Done ppm')
    (Htensors : has_tensors ppt = true)
    (Hmode : (index_md_tensors ppt < primordial_md_size ppm)%nat)
    (Hic : (index_ic_ten ptm < ic_size ppm !!! index_md_tensors ppt)%nat) :
  let m := index_md_tensors ppt in
  let i := index_symmetric_matrix (index_ic_ten ptm) (index_ic_ten ptm) (ic_size ppm !!! m) in
  A_s ppm * r ppm > 0
  /\ (is_non_zero ppm' !!! m : list bool) !!! i = true
  /\ (amplitude ppm' !!! m : list R) !!! i = A_s ppm * r ppm
  /\ (tilt ppm' !!! m : list R) !!! i = n_t ppm + 1
  /\ (running ppm' !!! m : list R) !!! i = alpha_t ppm
  /\ primordial_analytic_spectrum ppm' m i k
     = A_s ppm * r ppm * exp (n_t ppm * ln (k / k_pivot ppm)
                              + 0.5 * alpha_t ppm * ln (k / k_pivot ppm) ^ 2).
Proof.
  intros m i.
  destruct (tensor_entry ppt ptm ppm iso fresh ppm' Hsizes Hinit Htensors Hmode Hic)
    as [HA E].
  fold m i in E.
  destruct (analytic_init_keeps_parameters _ _ _ _ _ _ Hinit) as (Hk & _).
  split; [exact HA|].
  rewrite (analytic_spectrum_of_entry ppm' m i _ _ _ k E), Hk.
  unfold table_entry in E. injection E as -> -> -> ->.
  repeat split. f_equal. f_equal. ring.
Qed.

Lemma analytic_init_tensor_spectrum_witness :
  exists ppm',
    primordial_analytic_spectrum_init mixed_ppt mixed_ptm
      (primordial_indices mixed_ptm mixed_ppm zero_fresh) mixed_iso zero_fresh = Done ppm'
    /\ (amplitude ppm' !!! 1%nat : list R) !!! 0%nat = 2 * (1 / 10)
    /\ (tilt ppm' !!! 1%nat : list R) !!! 0%nat = 0 + 1.
Proof.
  destruct mixed_run as [ppm' Hrun]. exists ppm'. split; [exact Hrun|].
  destruct mixed_sizes as (Hs & Hmd & Hic & _).
  assert (Hten : has_tensors mixed_ppt = true) by reflexivity.
  assert (Hm : (index_md_tensors mixed_ppt
                < primordial_md_size (primordial_indices mixed_ptm mixed_ppm zero_fresh))%nat)
    by (rewrite Hmd; cbn; lia).
  assert (Hi : (index_ic_ten mixed_ptm
                < ic_size (primordial_indices mixed_ptm mixed_ppm zero_fresh)
                    !!! index_md_tensors mixed_ppt)%nat)
    by (rewrite Hic; cbn; lia).
  destruct (analytic_init_tensor_spectrum mixed_ppt mixed_ptm
              (primordial_indices mixed_ptm mixed_ppm zero_fresh) mixed_iso zero_fresh
              ppm' 1 Hs Hrun Hten Hm Hi) as (_ & _ & H1 & H2 & _).
  rewrite Hic in H1, H2. split; [exact H1 | exact H2].
Defined.

(** X19 ([primordial_analytic_spectrum_init] with
    [primordial_analytic_spectrum]): after a successful initialisation with
    adiabatic scalars and tensors, the tensor spectrum at the pivot scale is
    r times the adiabatic scalar spectrum at the pivot scale. *)
Theorem analytic_init_tensor_to_scalar_ratio (ppt : perturbs) (ptm : perturbs_modes)
    (ppm : primordial) (iso : isocurvature_parameters) (fresh : uninitialised)
    (ppm' : primordial)
    (Hsizes : sizes_assigned ppm)
    (Hinit : primordial_analytic_spectrum_init ppt ptm ppm iso fresh = Done ppm')
    (Hpivot : k_pivot ppm > 0)
    (Hscalars : has_scalars ppt = true)
    (Had : has_ad ptm = true)
    (Hdistinct : adiabatic_index_is_distinct ppt ptm)
    (Hmode_s : (index_md_scalars ppt < primordial_md_size ppm)%nat)
    (Hic_s : (index_ic_ad ptm < ic_size ppm !!! index_md_scalars ppt)%nat)
    (Htensors : has_tensors ppt = true)
    (Hmode_t : (index_md_tensors ppt < primordial_md_size ppm)%nat)
    (Hic_t : (index_ic_ten ptm < ic_size ppm !!! index_md_tensors ppt)%nat) :
  let scalar := primordial_analytic_spectrum ppm' (index_md_scalars ppt)
                  (index_symmetric_matrix (index_ic_ad ptm) (index_ic_ad ptm)
                     (ic_size ppm !!! index_md_scalars ppt)) in
  let tensor := primordial_analytic_spectrum ppm' (index_md_tensors ppt)
                  (index_symmetric_matrix (index_ic_ten ptm) (index_ic_ten ptm)
                     (ic_size ppm !!! index_md_tensors ppt)) in
  scalar (k_pivot ppm') > 0
  /\ tensor (k_pivot ppm') / scalar (k_pivot ppm') = r ppm.
Proof.
  intros scalar tensor.
  destruct (adiabatic_entry ppt ptm ppm iso fresh ppm' Hsizes Hinit
              Hscalars Had Hdistinct Hmode_s Hic_s) as [HA Es].
  destruct (tensor_entry ppt ptm ppm iso fresh ppm' Hsizes Hinit Htensors Hmode_t Hic_t)
    as [_ Et].
  destruct (analytic_init_keeps_parameters _ _ _ _ _ _ Hinit) as (Hk & _).
  unfold scalar, tensor.
  rewrite (analytic_spectrum_of_entry ppm' _ _ _ _ _ (k_pivot ppm') Es).
  rewrite (analytic_spectrum_of_entry ppm' _ _ _ _ _ (k_pivot ppm') Et).
  rewrite Hk. replace (k_pivot ppm / k_pivot ppm) with 1 by (field; lra).
  rewrite ln_1. replace 0.5 with (1 / 2) by lra.
  replace ((n_s ppm - 1) * 0 + 1 / 2 * alpha_s ppm * 0 ^ 2) with 0 by ring.
  replace ((n_t ppm + 1 - 1) * 0 + 1 / 2 * alpha_t ppm * 0 ^ 2) with 0 by ring.
  rewrite exp_0. split; [lra|]. field. lra.
Qed.

Lemma analytic_init_tensor_to_scalar_ratio_witness :
  exists ppm',
    primordial_analytic_spectrum_init mixed_ppt mixed_ptm
      (primordial_indices mixed_ptm mixed_ppm zero_fresh) mixed_iso zero_fresh = Done ppm'
    /\ primordial_analytic_spectrum ppm' 1 0 (k_pivot ppm')
       / primordial_analytic_spectrum ppm' 0 0 (k_pivot ppm') = 1 / 10.
Proof.
  destruct mixed_run as [ppm' Hrun]. exists ppm'. split; [exact Hrun|].
  destruct mixed_sizes as (Hs & Hmd & Hic & Hkp & _ & Hr).
  assert (Hpivot : k_pivot (primordial_indices mixed_ptm mixed_ppm zero_fresh) > 0)
    by (rewrite Hkp; lra).
  assert (Hsc : has_scalars mixed_ppt = true) by reflexivity.
  assert (Had : has_ad mixed_ptm = true) by reflexivity.
  assert (Hms : (index_md_scalars mixed_ppt
                 < primordial_md_size (primordial_indices mixed_ptm mixed_ppm zero_fresh))%nat)
    by (rewrite Hmd; cbn; lia).
  assert (His : (index_ic_ad mixed_ptm
                 < ic_size (primordial_indices mixed_ptm mixed_ppm zero_fresh)
                     !!! index_md_scalars mixed_ppt)%nat)
    by (rewrite Hic; cbn; lia).
  assert (Hten : has_tensors mixed_ppt = true) by reflexivity.
  assert (Hmt : (index_md_tensors mixed_ppt
                 < primordial_md_size (primordial_indices mixed_ptm mixed_ppm zero_fresh))%nat)
    by (rewrite Hmd; cbn; lia).
  assert (Hit : (index_ic_ten mixed_ptm
                 < ic_size (primordial_indices mixed_ptm mixed_ppm zero_fresh)
                     !!! index_md_tensors mixed_ppt)%nat)
    by (rewrite Hic; cbn; lia).
  destruct (analytic_init_tensor_to_scalar_ratio mixed_ppt mixed_ptm
              (primordial_indices mixed_ptm mixed_ppm zero_fresh) mixed_iso zero_fresh
              ppm' Hs Hrun Hpivot Hsc Had mixed_distinct Hms His Hten Hmt Hit) as [_ H].
  rewrite Hic, Hr in H. exact H.
Defined.

(** X20 ([primordial_analytic_spectrum_init], adiabatic x CDI): when the
    function succeeds with the adiabatic and the CDM-isocurvature initial
    conditions only, the correlation c_ad_cdi lies in [-1, 1]; the cross
    entry is flagged zero with all coefficients 0 when c_ad_cdi = 0, and
    otherwise holds the amplitude A_s |f_cdi| c_ad_cdi, the tilt
    (n_s + n_cdi)/2 + n_ad_cdi and the running
    (alpha_s + alpha_cdi)/2 + alpha_ad_cdi. *)
Theorem analytic_init_ad_cdi_correlation (ppt : perturbs) (ptm : perturbs_modes)
    (ppm : primordial) (iso : isocurvature_parameters) (fresh : uninitialised)
    (ppm' : primordial)
    (Hsizes : sizes_assigned ppm)
    (Hinit : primordial_analytic_spectrum_init ppt ptm ppm iso fresh = Done ppm')
    (Hscalars : has_scalars ppt = true)
    (Had : has_ad ptm = true) (Hcdi : has_cdi ptm = true)
    (Hbi : has_bi ptm = false) (Hnid : has_nid ptm = false) (Hniv : has_niv ptm = false)
    (Htensors : has_tensors ppt = true -> index_md_tensors ppt <> index_md_scalars ppt)
    (Hmode : (index_md_scalars ppt < primordial_md_size ppm)%nat)
    (Hic : (index_ic_ad ptm < index_ic_cdi ptm < ic_size ppm !!! index_md_scalars ppt)%nat) :
  let m := index_md_scalars ppt in
  let i := index_symmetric_matrix (index_ic_ad ptm) (index_ic_cdi ptm) (ic_size ppm !!! m) in
  -1 <= c_ad_cdi iso <= 1
  /\ (c_ad_cdi iso = 0 -> table_entry ppm' m i = (false, 0, 0, 0))
  /\ (c_ad_cdi iso <> 0 ->
      table_entry ppm' m i
      = (true,
         A_s ppm * Rabs (f_cdi iso) * c_ad_cdi iso,
         (n_s ppm + n_cdi iso) / 2 + n_ad_cdi iso,
         (alpha_s ppm + alpha_cdi iso) / 2 + alpha_ad_cdi iso)).
Proof.
  intros m i.
  destruct (ad_cdi_entries ppt ptm ppm iso fresh ppm' Hsizes Hinit
              Hscalars Had Hcdi Hbi Hnid Hniv Htensors Hmode Hic)
    as (HA & _ & Hc & _ & E).
  fold m i in E. split; [exact Hc|]. split.
  - intros C0. rewrite E, bool_decide_eq_true_2 by exact C0. reflexivity.
  - intros C0. rewrite E, bool_decide_eq_false_2 by exact C0.
    replace (A_s ppm * (A_s ppm * f_cdi iso * f_cdi iso)) with (Rsqr (A_s ppm * f_cdi iso))
      by (unfold Rsqr; ring).
    rewrite sqrt_Rsqr_abs, Rabs_mult, (Rabs_pos_eq (A_s ppm)) by lra.
    f_equal; [f_equal|]; lra.
Qed.

Lemma analytic_init_ad_cdi_correlation_witness :
  exists ppm',
    primordial_analytic_spectrum_init mixed_ppt mixed_ptm
      (primordial_indices mixed_ptm mixed_ppm zero_fresh) mixed_iso zero_fresh = Done ppm'
    /\ table_entry ppm' 0 1 = (true, 2 * Rabs (-1 / 2) * (1 / 2), (1 + 1) / 2 + 0, (0 + 0) / 2 + 0).
Proof.
  destruct mixed_run as [ppm' Hrun]. exists ppm'. split; [exact Hrun|].
  destruct mixed_sizes as (Hs & Hmd & Hic & _).
  assert (Hsc : has_scalars mixed_ppt = true) by reflexivity.
  assert (Had : has_ad mixed_ptm = true) by reflexivity.
  assert (Hcdi : has_cdi mixed_ptm = true) by reflexivity.
  assert (Hbi : has_bi mixed_ptm = false) by reflexivity.
  assert (Hnid : has_nid mixed_ptm = false) by reflexivity.
  assert (Hniv : has_niv mixed_ptm = false) by reflexivity.
  assert (Hten : has_tensors mixed_ppt = true ->
                 index_md_tensors mixed_ppt <> index_md_scalars mixed_ppt)
    by (intros _; cbn; lia).
  assert (Hm : (index_md_scalars mixed_ppt
                < primordial_md_size (primordial_indices mixed_ptm mixed_ppm zero_fresh))%nat)
    by (rewrite Hmd; cbn; lia).
  assert (Hi : (index_ic_ad mixed_ptm < index_ic_cdi mixed_ptm
                < ic_size (primordial_indices mixed_ptm mixed_ppm zero_fresh)
                    !!! index_md_scalars mixed_ppt)%nat)
    by (rewrite Hic; cbn; lia).
  destruct (analytic_init_ad_cdi_correlation mixed_ppt mixed_ptm
              (primordial_indices mixed_ptm mixed_ppm zero_fresh) mixed_iso zero_fresh
              ppm' Hs Hrun Hsc Had Hcdi Hbi Hnid Hniv Hten Hm Hi) as (_ & _ & H).
  rewrite Hic in H. apply H. cbn. lra.
Defined.

(** ** [primordial_init] *)

Lemma init_test_Done {B : Type} (c : bool) (m : InitErrorMsg) (k : unit -> init_outcome B)
    (b : B) :
  init_bind (init_condition c m) k = Done b -> c = false /\ k tt = Done b.
Proof. destruct c; cbn; intros H; [discriminate | auto]. Qed.

Lemma same_grid_refl (a : primordial) : same_grid a a.
Proof. repeat split. Qed.

Lemma same_grid_trans (a b c : primordial) : same_grid a b -> same_grid b c -> same_grid a c.
Proof.
  intros (A1 & A2 & A3 & A4 & A5) (B1 & B2 & B3 & B4 & B5).
  unfold same_grid. rewrite B1, B2, B3, B4, B5. repeat split; assumption.
Qed.

Lemma scan_k_range_bounds (huge : R) (ptm : perturbs_modes) (m : nat) :
  (m < md_size ptm)%nat ->
  let k : list R := ppt_k ptm !!! m in
  (scan_k_range huge ptm).1 <= k !!! 0%nat
  /\ k !!! (length k - 1)%nat <= (scan_k_range huge ptm).2.
Proof.
  intros Hm k. unfold scan_k_range, for_loop. rewrite Nat.sub_0_r.
  set (body := fun (s : R * R) (index_mode : nat) => _).
  assert (Hbody : forall a b i,
             body (a, b) i
             = (Rmin a ((ppt_k ptm !!! i : list R) !!! 0%nat),
                Rmax b ((ppt_k ptm !!! i : list R)
                          !!! (length (ppt_k ptm !!! i : list R) - 1)%nat)))
    by reflexivity.
  clearbody body.
  assert (Hmono : forall l s, (fold_left body l s).1 <= s.1 /\ s.2 <= (fold_left body l s).2).
  { induction l as [|i l IH]; intros [a b]; cbn [fold_left]; [cbn; lra|].
    destruct (IH (body (a, b) i)) as [H1 H2]. rewrite Hbody in H1 at 2. rewrite Hbody in H2 at 1.
    cbn [fst snd] in *.
    pose proof (Rmin_l a ((ppt_k ptm !!! i : list R) !!! 0%nat)).
    pose proof (Rmax_l b ((ppt_k ptm !!! i : list R)
                            !!! (length (ppt_k ptm !!! i : list R) - 1)%nat)).
    split; lra. }
  assert (Hin : forall l s, In m l ->
            (fold_left body l s).1 <= k !!! 0%nat
            /\ k !!! (length k - 1)%nat <= (fold_left body l s).2).
  { induction l as [|i l IH]; intros [a b] Hl; [destruct Hl|]. cbn [fold_left].
    destruct Hl as [->|Hl]; [|apply IH; exact Hl].
    destruct (Hmono l (body (a, b) m)) as [H1 H2].
    rewrite Hbody in H1 at 2. rewrite Hbody in H2 at 1.
    cbn [fst snd] in *. fold k in H1, H2.
    pose proof (Rmin_r a (k !!! 0%nat)).
    pose proof (Rmax_r b (k !!! (length k - 1)%nat)).
    split; lra. }
  apply Hin. apply in_seq. lia.
Qed.

Lemma analytic_init_result (ppt : perturbs) (ptm : perturbs_modes)
    (ppm : primordial) (iso : isocurvature_parameters) (fresh : uninitialised)
    (ppm' : primordial) :
  primordial_analytic_spectrum_init ppt ptm ppm iso fresh = Done ppm' ->
  same_grid ppm ppm' /\ lnpk ppm' = lnpk ppm /\ ddlnpk ppm' = ddlnpk ppm.
Proof.
  unfold primordial_analytic_spectrum_init. cbv zeta.
  destruct (init_for_loop _ _ _ _) as [s| |]; cbn [init_bind]; try discriminate.
  intros H. injection H as <-. repeat split.
Qed.

Lemma solve_inflation_same_grid `{GI : GenericIntegrator}
    (ppt : perturbs) (ppm : primordial) (ppr : precision) (pps : precision_search)
    (phi_indeterminate : Z -> R) (fuel : nat) (y y_ini dy : list R) (dphidt : R)
    (ppm' : primordial) :
  primordial_inflation_solve_inflation ppt ppm ppr pps phi_indeterminate fuel
    y y_ini dy dphidt = Done ppm' ->
  same_grid ppm ppm'.
Proof.
  unfold primordial_inflation_solve_inflation. intros H.
  apply init_bind_Done in H as (_ & _ & H).
  apply init_bind_Done in H as ([[[y1 dy1] H_pivot] dphidt_pivot] & _ & H).
  apply init_bind_Done in H as ([y2 dy2] & _ & H).
  apply init_bind_Done in H as (s & _ & H).
  apply init_bind_Done in H as (table & Hsp & H).
  injection H as <-. apply from_outcome_Done in Hsp.
  destruct (differs_only_in_table_fields ppt ppm table (spectra_frame _ _ _ _ _ _ _ _ Hsp))
    as (E1 & _ & _ & E2).
  injection E2 as E2 E3 E4 E5. repeat split; assumption.
Qed.

Lemma spline_tables_result `{ST : SplineTable} (ppm ppm' : primordial) :
  spline_tables ppm = Done ppm' ->
  same_grid ppm ppm' /\ lnpk ppm' = lnpk ppm /\ is_non_zero ppm' = is_non_zero ppm
  /\ amplitude ppm' = amplitude ppm /\ tilt ppm' = tilt ppm /\ running ppm' = running ppm.
Proof.
  unfold spline_tables. intros H. apply init_bind_Done in H as (dd & _ & H).
  injection H as <-. repeat split.
Qed.

Lemma spectral_parameters_analytic `{AT : ArrayTools} (ppr : precision) (ppt : perturbs)
    (ppm ppm' : primordial) (locals : R * R * R) :
  primordial_spec_type ppm = analytic_Pk ->
  primordial_init_spectral_parameters ppr ppt ppm locals = Success ppm' -> ppm' = ppm.
Proof.
  intros Hty. unfold primordial_init_spectral_parameters. destruct locals as [[a b] c].
  rewrite Hty. intros H. congruence.
Qed.

Lemma spectral_parameters_same_grid `{AT : ArrayTools} (ppr : precision) (ppt : perturbs)
    (ppm ppm' : primordial) (locals : R * R * R) :
  primordial_init_spectral_parameters ppr ppt ppm locals = Success ppm' ->
  same_grid ppm ppm'.
Proof.
  unfold primordial_init_spectral_parameters. destruct locals as [[a b] c].
  destruct (primordial_spec_type ppm) eqn:Hty.
  - intros H. injection H as <-. apply same_grid_refl.
  - intros H. apply bind_Success in H as ([[[ppm1 p1] p2] p3] & Hs & Ht).
    assert (G1 : same_grid ppm ppm1).
    { destruct (has_scalars ppt).
      - apply bind_Success in Hs as (x1 & _ & Hs). apply bind_Success in Hs as (x2 & _ & Hs).
        apply bind_Success in Hs as (x3 & _ & Hs). injection Hs as <- _ _ _.
        repeat split.
      - injection Hs as <- _ _ _. apply same_grid_refl. }
    apply (same_grid_trans _ _ _ G1).
    destruct (has_tensors ppt).
    + apply bind_Success in Ht as (x1 & _ & Ht). apply bind_Success in Ht as (x2 & _ & Ht).
      apply bind_Success in Ht as (x3 & _ & Ht). injection Ht as <-. repeat split.
    + injection Ht as <-. apply same_grid_refl.
Qed.

Section InitStages.

Context `{GI : GenericIntegrator} `{AT : ArrayTools} `{ST : SplineTable}.

Variable _HUGE_ : R.
Variable _K_PER_DECADE_PRIMORDIAL_MIN_ : R.
Variable ppr : precision.
Variable pps : precision_search.
Variable ppt : perturbs.
Variable ptm : perturbs_modes.
Variable iso : isocurvature_parameters.
Variable ppm : primordial.
Variable fresh : uninitialised.
Variable ind : indeterminate.
Variable fuel : nat.

(** The stages of a successful [primordial_init]. *)
Lemma primordial_init_stages (ppm' : primordial) :
  has_perturbations ptm = true ->
  primordial_init _HUGE_ _K_PER_DECADE_PRIMORDIAL_MIN_ ppr pps ppt ptm iso ppm fresh ind fuel
  = Done ppm' ->
  let k_min := (scan_k_range _HUGE_ ptm).1 in
  let k_max := (scan_k_range _HUGE_ ptm).2 in
  exists (new_lnk : list R) (ppm2 ppm3 : primordial),
    let ppm1 := primordial_indices ptm (with_lnk ppm new_lnk) fresh in
    k_min > 0 /\ k_max > 0 /\ k_pivot ppm > 0
    /\ k_per_decade_primordial ppr > 0
    /\ k_per_decade_primordial ppr > _K_PER_DECADE_PRIMORDIAL_MIN_
    /\ primordial_get_lnk_list k_min k_max (k_per_decade_primordial ppr) = Done new_lnk
    /\ match primordial_spec_type ppm with
       | analytic_Pk =>
           exists ppm_a, primordial_analytic_spectrum_init ppt ptm ppm1 iso fresh = Done ppm_a
                         /\ ppm2 = analytic_table_fill ptm ppm_a
       | inflation_V =>
           has_scalars ppt = true /\ has_vectors ptm = false /\ has_tensors ppt = true
           /\ has_bi ptm || has_cdi ptm || has_nid ptm || has_niv ptm = false
           /\ same_grid ppm1 ppm2
       end
    /\ spline_tables ppm2 = Done ppm3
    /\ primordial_init_spectral_parameters ppr ppt ppm3 (ind_lnpk ind) = Success ppm'.
Proof.
  intros Hpert. unfold primordial_init. rewrite Hpert. cbn [negb].
  destruct (scan_k_range _HUGE_ ptm) as [k_min k_max]. cbn [fst snd]. intros H.
  apply init_test_Done in H as [T1 H]. apply init_test_Done in H as [T2 H].
  apply init_test_Done in H as [T3 H]. apply init_test_Done in H as [T4 H].
  apply init_test_Done in H as [T5 H].
  apply bool_decide_eq_false in T1, T2, T3, T4, T5.
  apply init_bind_Done in H as (new_lnk & Hlnk & H).
  apply init_bind_Done in H as (ppm2 & Hbranch & H).
  apply init_bind_Done in H as (ppm3 & Hspline & H).
  apply from_outcome_Done in H.
  exists new_lnk, ppm2, ppm3. cbv zeta.
  repeat (split; [first [lra | assumption]|]).
  split; [|split; assumption].
  assert (Hty : primordial_spec_type (primordial_indices ptm (with_lnk ppm new_lnk) fresh)
                = primordial_spec_type ppm)
    by (rewrite primordial_indices_arrays; reflexivity).
  rewrite Hty in Hbranch. destruct (primordial_spec_type ppm).
  - apply init_bind_Done in Hbranch as (ppm_a & Ha & Hb). injection Hb as <-.
    exists ppm_a. split; [exact Ha | reflexivity].
  - apply init_test_Done in Hbranch as [B1 Hbranch].
    apply init_test_Done in Hbranch as [B2 Hbranch].
    apply init_test_Done in Hbranch as [B3 Hbranch].
    apply init_test_Done in Hbranch as [B4 Hbranch].
    apply init_bind_Done in Hbranch as (ppm_i & Hi & Hsolve).
    apply from_outcome_Done in Hi. unfold primordial_inflation_indices in Hi.
    injection Hi as <-.
    apply solve_inflation_same_grid in Hsolve.
    repeat split; try assumption.
    + destruct (has_scalars ppt); [reflexivity | discriminate].
    + destruct (has_tensors ppt); [reflexivity | discriminate].
    + apply Hsolve.
    + apply Hsolve.
    + apply Hsolve.
    + apply Hsolve.
    + apply Hsolve.
Qed.

End InitStages.

Lemma for_loop_invariant {S : Type} (I : S -> Prop) (lo hi : nat) (body : nat -> S -> S)
    (s : S) :
  (forall i s, (lo <= i < hi)%nat -> I s -> I (body i s)) ->
  I s -> I (for_loop lo hi body s).
Proof.
  intros Hbody. unfold for_loop.
  assert (H : forall l s, (forall i, In i l -> (lo <= i < hi)%nat) -> I s ->
                I (fold_left (fun s i => body i s) l s)).
  { induction l as [|i l IH]; intros s0 Hl Hs; [exact Hs|]. cbn [fold_left].
    apply IH; [intros j Hj; apply Hl; right; exact Hj|].
    apply Hbody; [apply Hl; left; reflexivity | exact Hs]. }
  apply H. intros i Hi. apply in_seq in Hi. lia.
Qed.

Lemma for_loop_established {S : Type} (I P : S -> Prop) (lo hi q : nat)
    (body : nat -> S -> S) (s : S) :
  (lo <= q < hi)%nat ->
  (forall i s, (lo <= i < hi)%nat -> I s -> I (body i s)) ->
  (forall s, I s -> P (body q s)) ->
  (forall i s, (lo <= i < hi)%nat -> I s -> P s -> P (body i s)) ->
  I s -> P (for_loop lo hi body s).
Proof.
  intros Hq HI Hest Hkeep. unfold for_loop.
  assert (H : forall l s, (forall i, In i l -> (lo <= i < hi)%nat) -> I s ->
                (In q l \/ P s) ->
                P (fold_left (fun s i => body i s) l s)).
  { induction l as [|i l IH]; intros s0 Hl Hs Hor.
    - destruct Hor as [[]|HP]. exact HP.
    - cbn [fold_left].
      assert (Hi : (lo <= i < hi)%nat) by (apply Hl; left; reflexivity).
      apply IH; [intros j Hj; apply Hl; right; exact Hj | apply HI; assumption |].
      destruct Hor as [[->|Hin]|HP].
      + right. apply Hest. exact Hs.
      + left. exact Hin.
      + right. apply Hkeep; assumption. }
  intros Hs. apply H; [|exact Hs|].
  - intros i Hi. apply in_seq in Hi. lia.
  - left. apply in_seq. lia.
Qed.

Lemma packed_slot_unique (N k r k' r' : nat) :
  (r < N)%nat -> (r' < N)%nat -> (k * N + r = k' * N + r')%nat -> k = k' /\ r = r'.
Proof. intros Hr Hr' E. assert (k = k') by nia. subst k'. split; [reflexivity | lia]. Qed.

(** The table written by the loops of [analytic_table_fill] holds, in the
    slot of the node [index_k], the mode [index_mode] and the pair
    [index_ic1 <= index_ic2], the value computed for them. *)
Lemma analytic_table_fill_entry (ptm : perturbs_modes) (ppm : primordial)
    (index_k index_mode index_ic1 index_ic2 : nat) :
  let n := ic_size ppm !!! index_mode in
  let N := ic_ic_size ppm !!! index_mode in
  N = (n * (n + 1) / 2)%nat ->
  (index_mode < length (lnpk ppm))%nat ->
  length (lnpk ppm !!! index_mode : list R) = (lnk_size ppm * N)%nat ->
  (index_k < lnk_size ppm)%nat -> (index_mode < md_size ptm)%nat ->
  (index_ic1 <= index_ic2 < n)%nat ->
  (lnpk (analytic_table_fill ptm ppm) !!! index_mode : list R)
    !!! (index_k * N + index_symmetric_matrix index_ic1 index_ic2 n)%nat
  = analytic_table_value ppm index_mode index_ic1 index_ic2 (exp (lnk ppm !!! index_k)).
Proof.
  intros n N HN Hlen Hline Hk Hm Hi.
  unfold analytic_table_fill. cbn [lnpk with_table].
  set (slot := (index_k * N + index_symmetric_matrix index_ic1 index_ic2 n)%nat).
  set (v := analytic_table_value ppm index_mode index_ic1 index_ic2
              (exp (lnk ppm !!! index_k))).
  set (I := fun t : list (list R) =>
              length t = length (lnpk ppm)
              /\ length (t !!! index_mode : list R) = (lnk_size ppm * N)%nat).
  set (P := fun t : list (list R) => (t !!! index_mode : list R) !!! slot = v).
  assert (Hidx : (index_symmetric_matrix index_ic1 index_ic2 n < N)%nat)
    by (rewrite HN; apply index_symmetric_matrix_lt; exact Hi).
  assert (Hslot : (slot < lnk_size ppm * N)%nat) by (unfold slot; nia).
  (* the assignment of one pass *)
  assert (Hwrite : forall k m i1 i2 t,
             (k < lnk_size ppm)%nat -> (i1 <= i2 < ic_size ppm !!! m)%nat -> I t ->
             let t' := write_entry t m
                         (k * ic_ic_size ppm !!! m
                          + index_symmetric_matrix i1 i2 (ic_size ppm !!! m))
                         (analytic_table_value ppm m i1 i2 (exp (lnk ppm !!! k))) in
             I t'
             /\ (k = index_k -> m = index_mode -> i1 = index_ic1 -> i2 = index_ic2 -> P t')
             /\ (P t -> P t')).
  { intros k m i1 i2 t Hk' Hi' [L1 L2] t'. split; [|split].
    - unfold t'. split; [rewrite write_entry_length; exact L1|].
      rewrite write_entry_line_length. exact L2.
    - intros -> -> -> ->. unfold P, t'. apply write_entry_same; [lia|].
      rewrite L2. exact Hslot.
    - intros HP. unfold P, t'.
      destruct (decide (m = index_mode)) as [->|Hne].
      + fold n N.
        destruct (decide (k * N + index_symmetric_matrix i1 i2 n = slot)%nat) as [E|E].
        * assert (Hidx' : (index_symmetric_matrix i1 i2 n < N)%nat)
            by (rewrite HN; apply index_symmetric_matrix_lt; exact Hi').
          destruct (packed_slot_unique N _ _ _ _ Hidx' Hidx E) as [-> E2].
          destruct (index_symmetric_matrix_inj _ _ _ _ n Hi' Hi E2) as [-> ->].
          fold slot. apply write_entry_same; [lia | rewrite L2; exact Hslot].
        * rewrite write_entry_other by (right; congruence). exact HP.
      + rewrite write_entry_other by (left; congruence). exact HP. }
  (* the loop over index_ic2 *)
  assert (H4 : forall k m i1 t,
             (k < lnk_size ppm)%nat -> (i1 < ic_size ppm !!! m)%nat -> I t ->
             let t' := for_loop i1 (ic_size ppm !!! m) (fun index_ic2 t =>
                         write_entry t m
                           (k * ic_ic_size ppm !!! m
                            + index_symmetric_matrix i1 index_ic2 (ic_size ppm !!! m))
                           (analytic_table_value ppm m i1 index_ic2 (exp (lnk ppm !!! k)))) t in
             I t'
             /\ (k = index_k -> m = index_mode -> i1 = index_ic1 -> P t')
             /\ (P t -> P t')).
  { intros k m i1 t Hk' Hi1 Ht t'. split; [|split].
    - apply for_loop_invariant; [|exact Ht].
      intros i2 u Hi2 Hu. apply (Hwrite k m i1 i2 u); [exact Hk' | lia | exact Hu].
    - intros -> -> ->.
      apply (for_loop_established I P index_ic1 (ic_size ppm !!! index_mode) index_ic2);
        [fold n; lia | | | | exact Ht].
      + intros i2 u Hi2 Hu. apply (Hwrite index_k index_mode index_ic1 i2 u);
          [exact Hk' | lia | exact Hu].
      + intros u Hu.
        destruct (Hwrite index_k index_mode index_ic1 index_ic2 u Hk' Hi Hu) as (_ & He & _).
        apply He; reflexivity.
      + intros i2 u Hi2 Hu HP.
        destruct (Hwrite index_k index_mode index_ic1 i2 u Hk' ltac:(lia) Hu) as (_ & _ & Hp).
        apply Hp. exact HP.
    - intros HP.
      enough (HIP : I t' /\ P t') by apply HIP.
      apply (for_loop_invariant (fun u => I u /\ P u)); [|split; assumption].
      intros i2 u Hi2 [Hu HPu].
      destruct (Hwrite k m i1 i2 u Hk' ltac:(lia) Hu) as (Hu' & _ & Hp).
      split; [exact Hu' | apply Hp; exact HPu]. }
  (* the loop over index_ic1 *)
  assert (H3 : forall k m t,
             (k < lnk_size ppm)%nat -> I t ->
             let t' := for_loop 0 (ic_size ppm !!! m) (fun index_ic1 t =>
                         for_loop index_ic1 (ic_size ppm !!! m) (fun index_ic2 t =>
                           write_entry t m
                             (k * ic_ic_size ppm !!! m
                              + index_symmetric_matrix index_ic1 index_ic2 (ic_size ppm !!! m))
                             (analytic_table_value ppm m index_ic1 index_ic2
                                (exp (lnk ppm !!! k)))) t) t in
             I t'
             /\ (k = index_k -> m = index_mode -> P t')
             /\ (P t -> P t')).
  { intros k m t Hk' Ht t'. split; [|split].
    - apply for_loop_invariant; [|exact Ht].
      intros i1 u Hi1 Hu. apply (H4 k m i1 u); [exact Hk' | lia | exact Hu].
    - intros -> ->.
      apply (for_loop_established I P 0 (ic_size ppm !!! index_mode) index_ic1);
        [fold n; lia | | | | exact Ht].
      + intros i1 u Hi1 Hu. apply (H4 index_k index_mode i1 u); [exact Hk' | lia | exact Hu].
      + intros u Hu.
        destruct (H4 index_k index_mode index_ic1 u Hk' ltac:(fold n; lia) Hu) as (_ & He & _).
        apply He; reflexivity.
      + intros i1 u Hi1 Hu HP.
        destruct (H4 index_k index_mode i1 u Hk' ltac:(lia) Hu) as (_ & _ & Hp).
        apply Hp. exact HP.
    - intros HP.
      enough (HIP : I t' /\ P t') by apply HIP.
      apply (for_loop_invariant (fun u => I u /\ P u)); [|split; assumption].
      intros i1 u Hi1 [Hu HPu].
      destruct (H4 k m i1 u Hk' ltac:(lia) Hu) as (Hu' & _ & Hp).
      split; [exact Hu' | apply Hp; exact HPu]. }
  (* the loop over index_mode *)
  assert (H2 : forall k t,
             (k < lnk_size ppm)%nat -> I t ->
             let t' := for_loop 0 (md_size ptm) (fun m t =>
                         for_loop 0 (ic_size ppm !!! m) (fun index_ic1 t =>
                           for_loop index_ic1 (ic_size ppm !!! m) (fun index_ic2 t =>
                             write_entry t m
                               (k * ic_ic_size ppm !!! m
                                + index_symmetric_matrix index_ic1 index_ic2
                                    (ic_size ppm !!! m))
                               (analytic_table_value ppm m index_ic1 index_ic2
                                  (exp (lnk ppm !!! k)))) t) t) t in
             I t'
             /\ (k = index_k -> P t')
             /\ (P t -> P t')).
  { intros k t Hk' Ht t'. split; [|split].
    - apply for_loop_invariant; [|exact Ht].
      intros m u _ Hu. apply (H3 k m u Hk' Hu).
    - intros ->.
      apply (for_loop_established I P 0 (md_size ptm) index_mode); [lia | | | | exact Ht].
      + intros m u _ Hu. apply (H3 index_k m u Hk' Hu).
      + intros u Hu. destruct (H3 index_k index_mode u Hk' Hu) as (_ & He & _).
        apply He; reflexivity.
      + intros m u _ Hu HP. destruct (H3 index_k m u Hk' Hu) as (_ & _ & Hp).
        apply Hp. exact HP.
    - intros HP.
      enough (HIP : I t' /\ P t') by apply HIP.
      apply (for_loop_invariant (fun u => I u /\ P u)); [|split; assumption].
      intros m u _ [Hu HPu]. destruct (H3 k m u Hk' Hu) as (Hu' & _ & Hp).
      split; [exact Hu' | apply Hp; exact HPu]. }
  (* the loop over index_k *)
  assert (Ht0 : I (lnpk ppm)) by (split; [reflexivity | exact Hline]).
  apply (for_loop_established I P 0 (lnk_size ppm) index_k); [lia | | | | exact Ht0].
  - intros k u Hk' Hu. apply (H2 k u); [lia | exact Hu].
  - intros u Hu. destruct (H2 index_k u Hk Hu) as (_ & He & _). apply He. reflexivity.
  - intros k u Hk' Hu HP. destruct (H2 k u ltac:(lia) Hu) as (_ & _ & Hp). apply Hp. exact HP.
Qed.

Lemma analytic_table_value_ext (a b : primordial) (m i1 i2 : nat) (k : R) :
  ic_size b = ic_size a -> k_pivot b = k_pivot a -> is_non_zero b = is_non_zero a ->
  amplitude b = amplitude a -> tilt b = tilt a -> running b = running a ->
  analytic_table_value b m i1 i2 k = analytic_table_value a m i1 i2 k.
Proof.
  intros E1 E2 E3 E4 E5 E6. unfold analytic_table_value, primordial_analytic_spectrum.
  rewrite E1, E2, E3, E4, E5, E6. reflexivity.
Qed.

Section InitProperties.

Context `{GI : GenericIntegrator} `{AT : ArrayTools} `{ST : SplineTable}.

Variable _HUGE_ : R.
Variable _K_PER_DECADE_PRIMORDIAL_MIN_ : R.
Variable ppr : precision.
Variable pps : precision_search.
Variable ppt : perturbs.
Variable ptm : perturbs_modes.
Variable iso : isocurvature_parameters.
Variable ppm : primordial.
Variable fresh : uninitialised.
Variable ind : indeterminate.
Variable fuel : nat.
Variable ppm' : primordial.

Hypothesis Hpert : has_perturbations ptm = true.
Hypothesis Hinit :
  primordial_init _HUGE_ _K_PER_DECADE_PRIMORDIAL_MIN_ ppr pps ppt ptm iso ppm fresh ind fuel
  = Done ppm'.

(** The grid of a successful [primordial_init] is the list made by
    [primordial_get_lnk_list] for the scanned range. *)
Lemma primordial_init_grid :
  let k_min := (scan_k_range _HUGE_ ptm).1 in
  let k_max := (scan_k_range _HUGE_ ptm).2 in
  k_min > 0 /\ k_max > k_min /\ k_pivot ppm > 0 /\ k_per_decade_primordial ppr > 0
  /\ primordial_get_lnk_list k_min k_max (k_per_decade_primordial ppr) = Done (lnk ppm')
  /\ k_pivot ppm' = k_pivot ppm
  /\ ic_size ppm' = map (fun m => ppt_ic_size ptm !!! m) (seq 0 (md_size ptm)).
Proof.
  intros k_min k_max.
  destruct (primordial_init_stages _HUGE_ _K_PER_DECADE_PRIMORDIAL_MIN_ ppr pps ppt ptm iso
              ppm fresh ind fuel ppm' Hpert Hinit)
    as (new_lnk & ppm2 & ppm3 & H1 & H2 & H3 & H4 & H5 & Hlnk & Hbranch & Hspline & Hfinal).
  fold k_min k_max in H1, H2, Hlnk.
  destruct (lnk_list_Done _ _ _ _ Hlnk) as [_ Hmax].
  set (ppm1 := primordial_indices ptm (with_lnk ppm new_lnk) fresh) in *.
  assert (G2 : same_grid ppm1 ppm2).
  { destruct (primordial_spec_type ppm).
    - destruct Hbranch as (ppm_a & Ha & ->).
      destruct (analytic_init_result _ _ _ _ _ _ Ha) as (G & _).
      apply (same_grid_trans _ _ _ G). repeat split.
    - apply Hbranch. }
  destruct (spline_tables_result _ _ Hspline) as (G3 & _).
  pose proof (spectral_parameters_same_grid _ _ _ _ _ Hfinal) as G4.
  destruct (same_grid_trans _ _ _ G2 (same_grid_trans _ _ _ G3 G4)) as (E1 & E2 & _ & E4 & _).
  unfold ppm1 in E1, E2, E4. rewrite primordial_indices_arrays in E1, E2, E4.
  cbn [lnk ic_size k_pivot with_arrays with_lnk] in E1, E2, E4.
  rewrite E1, E2, E4. repeat split; assumption.
Qed.

End InitProperties.


(** The run of [primordial_init] on the mixed setting, with the explicit
    Euler integrator, the first-line lookup and the idle spline. *)
Lemma huge_is_large : 1 / 10 <= 1e99.
Proof. lra. Qed.

Lemma mixed_scan (huge : R) :
  1 / 10 <= huge -> scan_k_range huge mixed_ptm = (1 / 10, 10).
Proof.
  intros Hh. unfold scan_k_range, for_loop. cbn.
  f_equal.
  - rewrite (Rmin_right huge (1 / 10)) by lra. apply Rmin_left. lra.
  - rewrite (Rmax_right 0 10) by lra. apply Rmax_left. lra.
Qed.

Lemma mixed_init_run :
  exists ppm',
    primordial_init (GI := euler_integrator) (AT := first_line_lookup) (ST := idle_spline)
      1e99 1 run_ppr init_pps mixed_ppt mixed_ptm mixed_iso mixed_ppm zero_fresh
      zero_indeterminate 0
    = Done ppm'.
Proof.
  unfold primordial_init. change (has_perturbations mixed_ptm) with true. cbn [negb].
  rewrite (mixed_scan _ huge_is_large).
  change (k_pivot mixed_ppm) with 1. change (k_per_decade_primordial run_ppr) with 10.
  rewrite !bool_decide_eq_false_2 by lra. cbn [init_condition init_bind].
  destruct (lnk_list_spec (1 / 10) 10 10) as (l & Hl & Hlen & _); try lra.
  rewrite Hl. cbn [init_bind].
  destruct (mixed_run_on l) as (ppm_a & Ha).
  assert (Hty : primordial_spec_type (primordial_indices mixed_ptm (with_lnk mixed_ppm l)
                                        zero_fresh) = analytic_Pk)
    by (rewrite primordial_indices_arrays; reflexivity).
  rewrite Hty, Ha. cbn [init_bind].
  destruct (analytic_init_result _ _ _ _ _ _ Ha) as ((_ & Eic & _ & _ & Ety) & _).
  rewrite primordial_indices_arrays in Eic, Ety. cbn in Eic, Ety.
  unfold spline_tables, init_for_loop, primordial_md_size.
  change (ic_size (analytic_table_fill mixed_ptm ppm_a)) with (ic_size ppm_a).
  rewrite Eic. cbn [length Nat.sub seq fold_left init_bind]. 
  cbn [array_spline_table_lines idle_spline from_outcome init_bind].
  unfold primordial_init_spectral_parameters. cbn [ind_lnpk zero_indeterminate].
  cbn [primordial_spec_type with_arrays]. 
  change (primordial_spec_type (analytic_table_fill mixed_ptm ppm_a))
    with (primordial_spec_type ppm_a).
  rewrite Ety. cbn [from_outcome]. eexists. reflexivity.
Qed.


Section AnalyticTable.

Context `{GI : GenericIntegrator} `{AT : ArrayTools} `{ST : SplineTable}.

Variable _HUGE_ : R.
Variable _K_PER_DECADE_PRIMORDIAL_MIN_ : R.
Variable ppr : precision.
Variable pps : precision_search.
Variable ppt : perturbs.
Variable ptm : perturbs_modes.
Variable iso : isocurvature_parameters.
Variable ppm : primordial.
Variable fresh : uninitialised.
Variable ind : indeterminate.
Variable fuel : nat.
Variable ppm' : primordial.

Hypothesis Hpert : has_perturbations ptm = true.
Hypothesis Htype : primordial_spec_type ppm = analytic_Pk.
Hypothesis Hinit :
  primordial_init _HUGE_ _K_PER_DECADE_PRIMORDIAL_MIN_ ppr pps ppt ptm iso ppm fresh ind fuel
  = Done ppm'.

(** The result of a successful [primordial_init] for an analytic
    spectrum. *)
Lemma primordial_init_analytic_result :
  exists (new_lnk : list R) (ppm_a : primordial),
    let ppm1 := primordial_indices ptm (with_lnk ppm new_lnk) fresh in
    primordial_analytic_spectrum_init ppt ptm ppm1 iso fresh = Done ppm_a
    /\ same_grid ppm1 ppm_a /\ same_grid ppm_a ppm'
    /\ lnpk ppm_a = lnpk ppm1
    /\ lnpk ppm' = lnpk (analytic_table_fill ptm ppm_a)
    /\ is_non_zero ppm' = is_non_zero ppm_a /\ amplitude ppm' = amplitude ppm_a
    /\ tilt ppm' = tilt ppm_a /\ running ppm' = running ppm_a
    /\ k_pivot ppm > 0.
Proof.
  destruct (primordial_init_stages _HUGE_ _K_PER_DECADE_PRIMORDIAL_MIN_ ppr pps ppt ptm iso
              ppm fresh ind fuel ppm' Hpert Hinit)
    as (new_lnk & ppm2 & ppm3 & _ & _ & H3 & _ & _ & _ & Hbranch & Hspline & Hfinal).
  rewrite Htype in Hbranch. destruct Hbranch as (ppm_a & Ha & ->).
  destruct (analytic_init_result _ _ _ _ _ _ Ha) as (G1 & L1 & _).
  destruct (spline_tables_result _ _ Hspline) as (G3 & L3 & N3 & A3 & T3 & R3).
  assert (Hty3 : primordial_spec_type ppm3 = analytic_Pk).
  { destruct G3 as (_ & _ & _ & _ & ->). cbn [primordial_spec_type analytic_table_fill with_table].
    destruct G1 as (_ & _ & _ & _ & ->). rewrite primordial_indices_arrays. exact Htype. }
  apply (spectral_parameters_analytic _ _ _ _ _ Hty3) in Hfinal. subst ppm'.
  exists new_lnk, ppm_a. cbv zeta.
  split; [exact Ha|]. split; [exact G1|].
  split; [apply (same_grid_trans _ (analytic_table_fill ptm ppm_a)); [repeat split | exact G3]|].
  split; [exact L1|]. split; [exact L3|].
  split; [exact N3|]. split; [exact A3|]. split; [exact T3|]. split; [exact R3 | exact H3].
Qed.

End AnalyticTable.

(** X22 ([primordial_init], analytic spectrum): after a successful
    [primordial_init] with an analytic spectrum, the slot of [lnpk] for the
    node [index_k], the mode and the pair of initial conditions
    [index_ic1 <= index_ic2] holds the value computed from the stored
    coefficients (ln P on the diagonal, P_12/sqrt(P_1 P_2) for a correlated
    pair, 0 otherwise); on the diagonal it is the parabola
    ln A + (n - 1) x + alpha/2 x^2 in x = lnk[index_k] - ln(k_pivot). *)
Theorem primordial_init_tabulates_analytic_spectrum
    `{GI : GenericIntegrator} `{AT : ArrayTools} `{ST : SplineTable}
    (_HUGE_ _K_PER_DECADE_PRIMORDIAL_MIN_ : R) (ppr : precision) (pps : precision_search)
    (ppt : perturbs) (ptm : perturbs_modes) (iso : isocurvature_parameters)
    (ppm : primordial) (fresh : uninitialised) (ind : indeterminate) (fuel : nat)
    (ppm' : primordial) (index_k index_mode index_ic1 index_ic2 : nat)
    (Hpert : has_perturbations ptm = true)
    (Htype : primordial_spec_type ppm = analytic_Pk)
    (Hinit : primordial_init _HUGE_ _K_PER_DECADE_PRIMORDIAL_MIN_ ppr pps ppt ptm iso ppm
               fresh ind fuel = Done ppm')
    (Hk : (index_k < lnk_size ppm')%nat)
    (Hmode : (index_mode < md_size ptm)%nat)
    (Hic : (index_ic1 <= index_ic2 < ic_size ppm' !!! index_mode)%nat) :
  let n := ic_size ppm' !!! index_mode in
  let N := ic_ic_size ppm' !!! index_mode in
  let slot i j := (index_k * N + index_symmetric_matrix i j n)%nat in
  let d := index_symmetric_matrix index_ic1 index_ic1 n in
  let x := lnk ppm' !!! index_k - ln (k_pivot ppm') in
  (lnpk ppm' !!! index_mode : list R) !!! slot index_ic1 index_ic2
  = analytic_table_value ppm' index_mode index_ic1 index_ic2 (exp (lnk ppm' !!! index_k))
  /\ (lnpk ppm' !!! index_mode : list R) !!! slot index_ic1 index_ic1
     = ln ((amplitude ppm' !!! index_mode : list R) !!! d)
       + ((tilt ppm' !!! index_mode : list R) !!! d - 1) * x
       + 0.5 * (running ppm' !!! index_mode : list R) !!! d * x ^ 2.
Proof.
  intros n N slot d x.
  destruct (primordial_init_analytic_result _HUGE_ _K_PER_DECADE_PRIMORDIAL_MIN_ ppr pps
              ppt ptm iso ppm fresh ind fuel ppm' Hpert Htype Hinit)
    as (new_lnk & ppm_a & Ha & G1 & G2 & L1 & L2 & E3 & E4 & E5 & E6 & Hpivot).
  cbv zeta in Ha, G1, L1.
  set (ppm1 := primordial_indices ptm (with_lnk ppm new_lnk) fresh) in *.
  destruct G1 as (A1 & A2 & A3 & A4 & _). destruct G2 as (B1 & B2 & B3 & B4 & _).
  destruct (primordial_indices_sizes_assigned ptm (with_lnk ppm new_lnk) fresh)
    as (Hsizes & Hmd & Hicm).
  fold ppm1 in Hsizes, Hmd, Hicm.
  assert (Hm1 : (index_mode < primordial_md_size ppm1)%nat) by (rewrite Hmd; exact Hmode).
  destruct Hsizes as [Hnz Hsz]. destruct (Hsz index_mode Hm1) as [HN _].
  assert (Hlines : (index_mode < length (lnpk ppm1))%nat
                   /\ length (lnpk ppm1 !!! index_mode : list R)
                      = (lnk_size ppm1 * ic_ic_size ppm1 !!! index_mode)%nat).
  { unfold ppm1, lnk_size. rewrite primordial_indices_arrays.
    cbn [lnpk lnk ic_ic_size with_arrays].
    rewrite !map_seq_lookup by exact Hmode. rewrite !length_map, !length_seq.
    unfold allocated, lnk_size. rewrite length_map, length_seq. split; [exact Hmode | reflexivity]. }
  destruct Hlines as [Hl1 Hl2].
  assert (Hfill : forall i j, (i <= j < n)%nat ->
            (lnpk ppm' !!! index_mode : list R) !!! slot i j
            = analytic_table_value ppm' index_mode i j (exp (lnk ppm' !!! index_k))).
  { intros i j Hij. unfold slot, N, n. rewrite L2, B1, B2, B3.
    rewrite (analytic_table_fill_entry ptm ppm_a index_k index_mode i j).
    - symmetry. apply analytic_table_value_ext; assumption.
    - rewrite A2, A3. exact HN.
    - rewrite L1. exact Hl1.
    - rewrite L1, Hl2. unfold lnk_size. rewrite A1, A3. reflexivity.
    - unfold lnk_size in *. rewrite <- B1. exact Hk.
    - exact Hmode.
    - unfold n in Hij. rewrite B2 in Hij. exact Hij. }
  split; [apply Hfill; exact Hic|].
  rewrite Hfill by lia.
  assert (Hi1 : (index_ic1 < ic_size ppm1 !!! index_mode)%nat)
    by (rewrite <- A2, <- B2; fold n; lia).
  destruct (analytic_init_diagonal ppt ptm ppm1 iso fresh ppm_a index_mode index_ic1
              (conj Hnz Hsz) Hm1 Ha Hi1) as [Hflag Hamp].
  rewrite <- A2, <- B2 in Hflag, Hamp. fold n d in Hflag, Hamp.
  rewrite <- E3 in Hflag. rewrite <- E4 in Hamp.
  assert (Hkp : k_pivot ppm' > 0).
  { rewrite B4, A4. unfold ppm1. rewrite primordial_indices_arrays. exact Hpivot. }
  unfold analytic_table_value, primordial_analytic_spectrum. fold n d.
  rewrite Hflag, Nat.eqb_refl.
  rewrite ln_mult by (try apply exp_pos; lra). rewrite ln_exp.
  assert (Ex : ln (exp (lnk ppm' !!! index_k) / k_pivot ppm') = x).
  { unfold x, Rdiv. rewrite ln_mult; [|apply exp_pos | apply Rinv_0_lt_compat; lra].
    rewrite ln_exp, ln_Rinv by lra. ring. }
  rewrite Ex. ring.
Qed.

Lemma primordial_init_tabulates_analytic_spectrum_witness :
  exists ppm',
    primordial_init (GI := euler_integrator) (AT := first_line_lookup) (ST := idle_spline)
      1e99 1 run_ppr init_pps mixed_ppt mixed_ptm mixed_iso mixed_ppm zero_fresh
      zero_indeterminate 0
    = Done ppm'
    /\ (lnpk ppm' !!! 0%nat : list R) !!! (0 * ic_ic_size ppm' !!! 0%nat + 1)%nat
       = analytic_table_value ppm' 0 0 1 (exp (lnk ppm' !!! 0%nat)).
Proof.
  destruct mixed_init_run as [ppm' Hrun]. exists ppm'. split; [exact Hrun|].
  assert (Hpert : has_perturbations mixed_ptm = true) by reflexivity.
  assert (Htype : primordial_spec_type mixed_ppm = analytic_Pk) by reflexivity.
  destruct (primordial_init_grid (GI := euler_integrator) (AT := first_line_lookup)
              (ST := idle_spline) 1e99 1 run_ppr init_pps mixed_ppt mixed_ptm mixed_iso
              mixed_ppm zero_fresh zero_indeterminate 0 ppm' Hpert Hrun)
    as (Hmin & Hmax & _ & Hstep & Hlnk & _ & Hic).
  destruct (lnk_list_spec _ _ _ Hmin Hmax Hstep) as (l & Hl & Hlen & _).
  rewrite Hlnk in Hl. injection Hl as <-.
  assert (Hk : (0 < lnk_size ppm')%nat) by (unfold lnk_size; lia).
  assert (Hmode : (0 < md_size mixed_ptm)%nat) by (cbn; lia).
  assert (Hi : (0 <= 1 < ic_size ppm' !!! 0%nat)%nat) by (rewrite Hic; cbn; lia).
  destruct (primordial_init_tabulates_analytic_spectrum (GI := euler_integrator)
              (AT := first_line_lookup) (ST := idle_spline)
              1e99 1 run_ppr init_pps mixed_ppt mixed_ptm mixed_iso mixed_ppm zero_fresh
              zero_indeterminate 0 ppm' 0 0 0 1 Hpert Htype Hrun Hk Hmode Hi) as [H _].
  rewrite Hic in H. exact H.
Defined.

(** X23 ([primordial_init], inflation branch): for a spectrum of type
    [inflation_V] and a valid range of wavenumbers, [primordial_init] stops
    before any integration when the scalars or the tensors are not
    requested, or vectors or isocurvature modes are, with the message of the
    first of these four tests that fails. *)
Theorem primordial_init_inflation_rejects_modes
    `{GI : GenericIntegrator} `{AT : ArrayTools} `{ST : SplineTable}
    (_HUGE_ _K_PER_DECADE_PRIMORDIAL_MIN_ : R) (ppr : precision) (pps : precision_search)
    (ppt : perturbs) (ptm : perturbs_modes) (iso : isocurvature_parameters)
    (ppm : primordial) (fresh : uninitialised) (ind : indeterminate) (fuel : nat)
    (Hpert : has_perturbations ptm = true)
    (Htype : primordial_spec_type ppm = inflation_V)
    (Hmin : (scan_k_range _HUGE_ ptm).1 > 0)
    (Hmax : (scan_k_range _HUGE_ ptm).2 > (scan_k_range _HUGE_ ptm).1)
    (Hpivot : k_pivot ppm > 0)
    (Hstep : k_per_decade_primordial ppr > 0)
    (Hsparse : k_per_decade_primordial ppr > _K_PER_DECADE_PRIMORDIAL_MIN_)
    (Hmodes : negb (has_scalars ppt) || has_vectors ptm || negb (has_tensors ppt)
              || (has_bi ptm || has_cdi ptm || has_nid ptm || has_niv ptm) = true) :
  primordial_init _HUGE_ _K_PER_DECADE_PRIMORDIAL_MIN_ ppr pps ppt ptm iso ppm fresh ind fuel
  = Stopped (if negb (has_scalars ppt) then msg_no_scalar_modes
             else if has_vectors ptm then msg_vector_modes
             else if negb (has_tensors ppt) then msg_no_tensor_modes
             else msg_isocurvature_modes).
Proof.
  unfold primordial_init. rewrite Hpert. cbn [negb].
  destruct (scan_k_range _HUGE_ ptm) as [k_min k_max]. cbn [fst snd] in Hmin, Hmax.
  rewrite !bool_decide_eq_false_2 by lra. cbn [init_condition init_bind].
  destruct (lnk_list_spec k_min k_max _ Hmin Hmax Hstep) as (l & Hl & _).
  rewrite Hl. cbn [init_bind].
  assert (Hty : primordial_spec_type (primordial_indices ptm (with_lnk ppm l) fresh)
                = inflation_V)
    by (rewrite primordial_indices_arrays; exact Htype).
  rewrite Hty.
  destruct (has_scalars ppt); cbn [negb init_condition init_bind]; [|reflexivity].
  destruct (has_vectors ptm); cbn [negb init_condition init_bind]; [reflexivity|].
  destruct (has_tensors ppt); cbn [negb init_condition init_bind]; [|reflexivity].
  cbn [negb orb] in Hmodes. rewrite Hmodes. reflexivity.
Qed.

Lemma primordial_init_inflation_rejects_modes_witness :
  primordial_init (GI := euler_integrator) (AT := first_line_lookup) (ST := idle_spline)
    1e99 1 run_ppr init_pps mixed_ppt mixed_ptm mixed_iso (linear_ppm_on []) zero_fresh
    zero_indeterminate 0
  = Stopped msg_isocurvature_modes.
Proof.
  assert (Hpert : has_perturbations mixed_ptm = true) by reflexivity.
  assert (Htype : primordial_spec_type (linear_ppm_on []) = inflation_V) by reflexivity.
  assert (Hmin : (scan_k_range 1e99 mixed_ptm).1 > 0)
    by (rewrite (mixed_scan _ huge_is_large); cbn; lra).
  assert (Hmax : (scan_k_range 1e99 mixed_ptm).2 > (scan_k_range 1e99 mixed_ptm).1)
    by (rewrite (mixed_scan _ huge_is_large); cbn; lra).
  assert (Hpivot : k_pivot (linear_ppm_on []) > 0) by (cbn; lra).
  assert (Hstep : k_per_decade_primordial run_ppr > 0) by (cbn; lra).
  assert (Hsparse : k_per_decade_primordial run_ppr > 1) by (cbn; lra).
  assert (Hmodes : negb (has_scalars mixed_ppt) || has_vectors mixed_ptm
                   || negb (has_tensors mixed_ppt)
                   || (has_bi mixed_ptm || has_cdi mixed_ptm || has_nid mixed_ptm
                       || has_niv mixed_ptm) = true) by reflexivity.
  exact (primordial_init_inflation_rejects_modes (GI := euler_integrator)
           (AT := first_line_lookup) (ST := idle_spline)
           1e99 1 run_ppr init_pps mixed_ppt mixed_ptm mixed_iso (linear_ppm_on []) zero_fresh
           zero_indeterminate 0 Hpert Htype Hmin Hmax Hpivot Hstep Hsparse Hmodes).
Defined.

(** X24 ([primordial_init], range of wavenumbers): with perturbations,
    [primordial_init] stops with the "k_min negative or null" message as soon
    as the first wavenumber of some mode is not strictly positive, whatever
    the other inputs are. *)
Theorem primordial_init_rejects_nonpositive_wavenumber
    `{GI : GenericIntegrator} `{AT : ArrayTools} `{ST : SplineTable}
    (_HUGE_ _K_PER_DECADE_PRIMORDIAL_MIN_ : R) (ppr : precision) (pps : precision_search)
    (ppt : perturbs) (ptm : perturbs_modes) (iso : isocurvature_parameters)
    (ppm : primordial) (fresh : uninitialised) (ind : indeterminate) (fuel : nat)
    (index_mode : nat)
    (Hpert : has_perturbations ptm = true)
    (Hmode : (index_mode < md_size ptm)%nat)
    (Hk : (ppt_k ptm !!! index_mode : list R) !!! 0%nat <= 0) :
  primordial_init _HUGE_ _K_PER_DECADE_PRIMORDIAL_MIN_ ppr pps ppt ptm iso ppm fresh ind fuel
  = Stopped msg_k_min_not_positive.
Proof.
  destruct (scan_k_range_bounds _HUGE_ ptm index_mode Hmode) as [Hlow _].
  unfold primordial_init. rewrite Hpert. cbn [negb].
  destruct (scan_k_range _HUGE_ ptm) as [k_min k_max]. cbn [fst snd] in Hlow.
  rewrite bool_decide_eq_true_2 by lra. reflexivity.
Qed.

Lemma primordial_init_rejects_nonpositive_wavenumber_witness :
  primordial_init (GI := euler_integrator) (AT := first_line_lookup) (ST := idle_spline)
    1e99 1 run_ppr init_pps mixed_ppt null_k_ptm mixed_iso mixed_ppm zero_fresh
    zero_indeterminate 0
  = Stopped msg_k_min_not_positive.
Proof.
  assert (Hpert : has_perturbations null_k_ptm = true) by reflexivity.
  assert (Hmode : (0 < md_size null_k_ptm)%nat) by (cbn; lia).
  assert (Hk : (ppt_k null_k_ptm !!! 0%nat : list R) !!! 0%nat <= 0) by (cbn; lra).
  exact (primordial_init_rejects_nonpositive_wavenumber (GI := euler_integrator)
           (AT := first_line_lookup) (ST := idle_spline)
           1e99 1 run_ppr init_pps mixed_ppt null_k_ptm mixed_iso mixed_ppm zero_fresh
           zero_indeterminate 0 0 Hpert Hmode Hk).
Defined.
